(** * Adaptive matching engine: a shallow embedding of the matching core

    The development embeds, class by class, the Python sources

    - [core/order_types.py]            (Order, Trade, the enumerations),
    - [core/order_book.py]             (PriceLevel, OrderBookSide and the
                                        adaptive variants),
    - [core/matching_engine.py]        (BaseMatchingEngine,
                                        AdaptiveMatchingEngine),
    - [core/sharded_order_book.py]     (ShardedOrderBookSide),
    - [core/sharded_matching_engine.py](ShardedMatchingEngine,
                                        ShardedAdaptiveMatchingEngine),
    - [core/nse_matching_engine.py]    (NSEMatchingEngine),

    and then states and proves the properties of the specification.

    Modelling conventions.

    - Python [float] prices and timestamps are exact integers ([Z], a price
      being a number of minimal price units); percentages and the price
      bands derived from them are exact rationals ([Q]).  Rounding errors of
      floating point arithmetic are outside the model.
    - [Order] objects are mutable and shared: the deque of a price level,
      [order_map], [order_history], the auction buffer and the pending stop
      map all hold references to the same object, and matching updates
      [filled_quantity] in place.  The model therefore keeps an explicit
      object store [objs : list Order.t]; an order reference is an index
      into that store, and every container holds references.
    - A [PriceLevel] object is referred to by its price, which is the key
      under which [price_levels] holds it.
    - [heapq] keeps a binary heap in an array; only [heap[0]] (the least
      element), [heappush] and [heappop] are used by the code, so the heap is
      represented by the ascending list of its elements.
    - [uuid.uuid4()] and [time.time()] are not functions of the state: trade
      identifiers and trade timestamps are left out of [Trade.t], and the
      clock read by [process_order] is an argument.
    - [while] loops take a fuel argument and return [None] when it runs out;
      termination lemmas give the fuel that suffices. *)

From Stdlib Require Import ZArith QArith Qabs Lia Lqa.
From stdpp Require Import base option list gmap strings sorting.

Local Open Scope Z_scope.

(** ** core/order_types.py *)

Inductive OrderType :=
  LIMIT | MARKET | IOC | STOP_LOSS | STOP_LOSS_MARKET | FOK | ICEBERG.

Inductive OrderSide := BUY | SELL.

Inductive OrderValidity := DAY | VALIDITY_IOC | GTC | GTD.

Inductive TradingPhase :=
  PRE_OPEN | OPENING | CONTINUOUS | CLOSING | POST_CLOSE | HALTED.

Inductive MarketRegime :=
  NORMAL | HIGH_VOLATILITY | ILLIQUID | DIRECTIONAL | HIGH_FREQUENCY.

#[global] Instance OrderType_eq_dec : EqDecision OrderType.
Proof. solve_decision. Defined.
#[global] Instance OrderSide_eq_dec : EqDecision OrderSide.
Proof. solve_decision. Defined.
#[global] Instance OrderValidity_eq_dec : EqDecision OrderValidity.
Proof. solve_decision. Defined.
#[global] Instance TradingPhase_eq_dec : EqDecision TradingPhase.
Proof. solve_decision. Defined.
#[global] Instance MarketRegime_eq_dec : EqDecision MarketRegime.
Proof. solve_decision. Defined.

(** Python truthiness of an optional number: [None] and [0] are false. *)
Definition truthy (x : option Z) : bool :=
  match x with
  | Some v => negb (v =? 0)
  | None => false
  end.

Module Order.

Record t := mk {
  order_id : string;
  side : OrderSide;
  price : Z;
  quantity : Z;
  timestamp : Z;
  order_type : OrderType;
  filled_quantity : Z;
  stop_price : option Z;
  disclosed_quantity : option Z;
  validity : OrderValidity;
  expiry_time : option Z;
  is_triggered : bool
}.

(** [__post_init__]: [true] when the constructor does not raise. *)
Definition post_init (o : t) : bool :=
  negb (quantity o <=? 0)
  && negb ((price o <=? 0)
           && bool_decide (order_type o ∈ [LIMIT; STOP_LOSS]))
  && (if bool_decide (order_type o ∈ [STOP_LOSS; STOP_LOSS_MARKET])
      then match stop_price o with
           | None => false
           | Some s => negb (s <=? 0)
           end
      else true)
  && (if bool_decide (order_type o = ICEBERG)
      then match disclosed_quantity o with
           | None => false
           | Some d => negb (d <=? 0)
           end
      else true).

Definition remaining_quantity (o : t) : Z := quantity o - filled_quantity o.

Definition visible_quantity (o : t) : Z :=
  if bool_decide (order_type o = ICEBERG) && truthy (disclosed_quantity o)
  then Z.min (default 0 (disclosed_quantity o)) (remaining_quantity o)
  else remaining_quantity o.

Definition is_expired (o : t) (current_time : Z) : bool :=
  if bool_decide (validity o = DAY) then false
  else if bool_decide (validity o = GTD) && truthy (expiry_time o)
       then default 0 (expiry_time o) <? current_time
       else false.

(** Field assignments. *)
Definition set_filled_quantity (f : Z) (o : t) : t :=
  mk (order_id o) (side o) (price o) (quantity o) (timestamp o)
     (order_type o) f (stop_price o) (disclosed_quantity o) (validity o)
     (expiry_time o) (is_triggered o).

Definition set_price (p : Z) (o : t) : t :=
  mk (order_id o) (side o) p (quantity o) (timestamp o)
     (order_type o) (filled_quantity o) (stop_price o) (disclosed_quantity o)
     (validity o) (expiry_time o) (is_triggered o).

Definition set_order_type (ty : OrderType) (o : t) : t :=
  mk (order_id o) (side o) (price o) (quantity o) (timestamp o)
     ty (filled_quantity o) (stop_price o) (disclosed_quantity o)
     (validity o) (expiry_time o) (is_triggered o).

Definition set_is_triggered (b : bool) (o : t) : t :=
  mk (order_id o) (side o) (price o) (quantity o) (timestamp o)
     (order_type o) (filled_quantity o) (stop_price o) (disclosed_quantity o)
     (validity o) (expiry_time o) b.

(** [order.filled_quantity += q] *)
Definition add_filled (q : Z) (o : t) : t :=
  set_filled_quantity (filled_quantity o + q) o.

(** A plain order as the dataclass defaults build it:
    [Order(order_id, side, price, quantity, timestamp, order_type)]. *)
Definition make (id : string) (s : OrderSide) (p q ts : Z) (ty : OrderType)
  : t :=
  mk id s p q ts ty 0 None None DAY None false.

#[global] Instance eq_dec : EqDecision t.
Proof. solve_decision. Defined.

End Order.

(** *** The store of order objects

    A reference is an index into the store.  The store only grows, so a
    reference handed out once stays valid; [deref] of an index that was
    never allocated does not occur in any run and yields a fixed order. *)

Definition null_order : Order.t :=
  Order.mk "" BUY 0 0 0 LIMIT 0 None None DAY None false.

Definition deref (h : list Order.t) (a : nat) : Order.t :=
  default null_order (h !! a).

(** Allocation of a new object: its reference and the extended store. *)
Definition alloc (h : list Order.t) (o : Order.t) : nat * list Order.t :=
  (length h, h ++ [o]).

(** In-place update of the object behind a reference. *)
Definition update (f : Order.t → Order.t) (a : nat) (h : list Order.t)
  : list Order.t :=
  alter f a h.

Module Trade.

Record t := mk {
  buy_order_id : string;
  sell_order_id : string;
  price : Z;
  quantity : Z
}.

(** [Trade.create_trade]: the price rule of the base and sharded engines. *)
Definition create_trade (buy_order sell_order : Order.t) (qty : Z) : t :=
  let trade_price :=
    if bool_decide (Order.order_type buy_order = MARKET)
    then Order.price sell_order
    else if bool_decide (Order.order_type sell_order = MARKET)
         then Order.price buy_order
         else Order.price sell_order in
  mk (Order.order_id buy_order) (Order.order_id sell_order) trade_price qty.

#[global] Instance eq_dec : EqDecision t.
Proof. solve_decision. Defined.

End Trade.

(** [OrderBookSnapshot]: the depth of the two sides, each level a price
    and a volume, best price first. *)
Module OrderBookSnapshot.

Record t := mk {
  timestamp : Z;
  bids : list (Z * Z);
  asks : list (Z * Z);
  spread : Z
}.


End OrderBookSnapshot.

(** ** core/order_book.py *)

(** [deque.remove(x)]: drop the first element that is [x] or equals [x];
    [None] stands for the [ValueError] raised when there is none. *)
Fixpoint remove_first {A} (P : A → bool) (l : list A) : option (list A) :=
  match l with
  | [] => None
  | x :: l' =>
      if P x then Some l'
      else match remove_first P l' with
           | Some r => Some (x :: r)
           | None => None
           end
  end.

Module PriceLevel.

Record t := mk {
  price : Z;
  orders : list nat;
  total_volume : Z
}.

Definition new (p : Z) : t := mk p [] 0.

Definition add_order (h : list Order.t) (order : nat) (l : t) : t :=
  mk (price l) (orders l ++ [order])
     (total_volume l + Order.remaining_quantity (deref h order)).

(** The dataclass [Order] compares by fields, and [deque.remove] looks for
    an element that is the argument or is equal to it. *)
Definition same_order (h : list Order.t) (order x : nat) : bool :=
  bool_decide (x = order) || bool_decide (deref h x = deref h order).

Definition remove_order (h : list Order.t) (order : nat) (l : t) : bool * t :=
  match remove_first (same_order h order) (orders l) with
  | Some os =>
      (true, mk (price l) os
                (total_volume l - Order.remaining_quantity (deref h order)))
  | None => (false, l)
  end.

Definition get_top_order (l : t) : option nat := head (orders l).

Definition is_empty (l : t) : bool := bool_decide (orders l = []).

End PriceLevel.

(** *** heapq, as the ascending list of the heap's elements *)

Fixpoint heappush (hp : list Z) (x : Z) : list Z :=
  match hp with
  | [] => [x]
  | y :: hp' => if x <=? y then x :: hp else y :: heappush hp' x
  end.

Definition heappop (hp : list Z) : list Z := tail hp.

Module OrderBookSide.

Record t := mk {
  side : OrderSide;
  heap : list Z;
  price_levels : gmap Z PriceLevel.t;
  order_map : gmap string nat;
  order_to_price_level : gmap string Z
}.

Definition new (s : OrderSide) : t := mk s [] ∅ ∅ ∅.

(** The heap holds the price for asks and the negated price for bids. *)
Definition heap_key (s : OrderSide) (p : Z) : Z :=
  match s with SELL => p | BUY => - p end.

Definition _heap_push (p : Z) (b : t) : t :=
  mk (side b) (heappush (heap b) (heap_key (side b) p)) (price_levels b)
     (order_map b) (order_to_price_level b).

Definition _heap_peek (b : t) : option Z :=
  match heap b with
  | [] => None
  | k :: _ => Some (heap_key (side b) k)
  end.

Definition _heap_pop (b : t) : t :=
  mk (side b) (heappop (heap b)) (price_levels b) (order_map b)
     (order_to_price_level b).

Definition add_order (h : list Order.t) (order : nat) (b : t) : bool * t :=
  let o := deref h order in
  let p := Order.price o in
  let b1 :=
    match price_levels b !! p with
    | None =>
        _heap_push p
          (mk (side b) (heap b) (<[p := PriceLevel.new p]> (price_levels b))
              (order_map b) (order_to_price_level b))
    | Some _ => b
    end in
  let price_level := default (PriceLevel.new p) (price_levels b1 !! p) in
  (true,
   mk (side b1) (heap b1)
      (<[p := PriceLevel.add_order h order price_level]> (price_levels b1))
      (<[Order.order_id o := order]> (order_map b1))
      (<[Order.order_id o := p]> (order_to_price_level b1))).

(** The heap rebuilt from the keys of [price_levels]. *)
Definition rebuild_heap (s : OrderSide) (pls : gmap Z PriceLevel.t) : list Z :=
  foldl (λ hp p, heappush hp (heap_key s p)) [] (map_to_list pls).*1.

(** [remove_order].  Both id maps are written together, so [order_map]
    has the id whenever [order_to_price_level] has it; a level leaves
    [price_levels] only when it is empty, after the ids of its orders were
    deleted from both maps, so the level named by [order_to_price_level] is
    in [price_levels].  The two lookups that cannot fail in a run answer
    [False] here. *)
Definition remove_order (h : list Order.t) (id : string) (b : t) : bool * t :=
  match order_to_price_level b !! id with
  | None => (false, b)
  | Some p =>
      match price_levels b !! p, order_map b !! id with
      | Some price_level, Some order =>
          match PriceLevel.remove_order h order price_level with
          | (false, _) => (false, b)
          | (true, price_level') =>
              let om := delete id (order_map b) in
              let o2l := delete id (order_to_price_level b) in
              if PriceLevel.is_empty price_level' then
                let pls := delete (PriceLevel.price price_level')
                                  (<[p := price_level']> (price_levels b)) in
                (true, mk (side b) (rebuild_heap (side b) pls) pls om o2l)
              else
                (true, mk (side b) (heap b)
                          (<[p := price_level']> (price_levels b)) om o2l)
          end
      | _, _ => (false, b)
      end
  end.

(** [get_best_price]: the loop pops one heap entry per iteration, so the
    length of the heap bounds the number of iterations. *)
Fixpoint get_best_price_loop (n : nat) (b : t) : option Z * t :=
  match n with
  | O => (None, b)
  | S n' =>
      match _heap_peek b with
      | None => (None, b)
      | Some best_price =>
          match price_levels b !! best_price with
          | Some l =>
              if negb (PriceLevel.is_empty l) then (Some best_price, b)
              else
                get_best_price_loop n'
                  (mk (side b) (heappop (heap b))
                      (delete best_price (price_levels b))
                      (order_map b) (order_to_price_level b))
          | None => get_best_price_loop n' (_heap_pop b)
          end
      end
  end.

Definition get_best_price (b : t) : option Z * t :=
  get_best_price_loop (length (heap b)) b.

Definition get_price_level (p : Z) (b : t) : option PriceLevel.t :=
  price_levels b !! p.

Definition _heap_peek_from_custom (b : t) (custom_heap : list Z)
  : option Z :=
  match custom_heap with
  | [] => None
  | k :: _ => Some (heap_key (side b) k)
  end.

(** [get_depth]: the loop runs [min(levels, len(temp_heap))] times over a
    copy of the heap and stops early when the copy is empty. *)
Fixpoint get_depth_loop (n : nat) (b : t) (temp_heap : list Z)
    (depth : list (Z * Z)) : list (Z * Z) :=
  match n with
  | O => depth
  | S n' =>
      match _heap_peek_from_custom b temp_heap with
      | None => depth
      | Some price =>
          let temp_heap' := heappop temp_heap in
          let depth' :=
            match price_levels b !! price with
            | Some price_level =>
                if negb (PriceLevel.is_empty price_level)
                then depth ++ [(price, PriceLevel.total_volume price_level)]
                else depth
            | None => depth
            end in
          get_depth_loop n' b temp_heap' depth'
      end
  end.

Definition get_depth (levels : Z) (b : t) : list (Z * Z) :=
  get_depth_loop (Z.to_nat (Z.min levels (Z.of_nat (length (heap b)))))
    b (heap b) [].

End OrderBookSide.

(** ** [while] loops

    [pass s] evaluates the condition of the loop in the state [s] and,
    when it holds, runs the body once: [inl s'] when the loop is left
    (the condition is false, or the body ends in [break]) and [inr s']
    when the body ran to its end or to a [continue].  A loop spends one
    unit of fuel for each pass. *)
Fixpoint while_loop {S : Type} (pass : S → S + S) (fuel : nat) (s : S)
  : option S :=
  match fuel with
  | O => None
  | S fuel' =>
      match pass s with
      | inl s' => Some s'
      | inr s' => while_loop pass fuel' s'
      end
  end.

(** ** core/matching_engine.py: BaseMatchingEngine *)

Module BaseMatchingEngine.

Record t := mk {
  objs : list Order.t;
  bids : OrderBookSide.t;
  asks : OrderBookSide.t;
  trade_history : list Trade.t;
  order_history : list nat
}.

Definition new : t :=
  mk [] (OrderBookSide.new BUY) (OrderBookSide.new SELL) [] [].

(** One pass of the [while] loop of [_match_buy_order].  The loop
    condition and the loop body call [asks.get_best_price()]
    several times in a row; the first call does the lazy cleanup and the
    later ones return the same price without changing the side (lemma
    [get_best_price_idem]), so the model calls it once.  The condition
    reads [remaining_quantity] first and does not touch the book when the
    order has nothing left. *)
Definition _match_buy_order_pass (buy_order : nat)
    (s : list Trade.t * t) : list Trade.t * t + list Trade.t * t :=
  let '(trades, e) := s in
  let buy := deref (objs e) buy_order in
  if negb (0 <? Order.remaining_quantity buy) then inl (trades, e)
  else
    let '(best, asks1) := OrderBookSide.get_best_price (asks e) in
    let e1 := mk (objs e) (bids e) asks1 (trade_history e)
                 (order_history e) in
    match best with
    | None => inl (trades, e1)
    | Some best_ask_price =>
        if negb (bool_decide (Order.order_type buy = MARKET)
                 || (best_ask_price <=? Order.price buy))
        then inl (trades, e1)
        else
          match OrderBookSide.get_price_level best_ask_price asks1 with
          | None => inl (trades, e1)
          | Some price_level =>
              match PriceLevel.get_top_order price_level with
              | None => inr (trades, e1)
              | Some sell_order =>
                  let sell := deref (objs e) sell_order in
                  let trade_quantity :=
                    Z.min (Order.remaining_quantity buy)
                          (Order.remaining_quantity sell) in
                  let trade :=
                    Trade.create_trade buy sell trade_quantity in
                  let h1 := update (Order.add_filled trade_quantity)
                                   buy_order (objs e) in
                  let h2 := update (Order.add_filled trade_quantity)
                                   sell_order h1 in
                  let asks2 :=
                    if Order.remaining_quantity (deref h2 sell_order) =? 0
                    then (OrderBookSide.remove_order h2
                            (Order.order_id (deref h2 sell_order))
                            asks1).2
                    else asks1 in
                  inr (trades ++ [trade],
                     mk h2 (bids e) asks2 (trade_history e)
                        (order_history e))
              end
          end
    end.

Definition _match_buy_order (fuel : nat) (buy_order : nat) (e : t)
  : option (list Trade.t * t) :=
  while_loop (_match_buy_order_pass buy_order) fuel ([], e).

Definition _match_sell_order_pass (sell_order : nat)
    (s : list Trade.t * t) : list Trade.t * t + list Trade.t * t :=
  let '(trades, e) := s in
  let sell := deref (objs e) sell_order in
  if negb (0 <? Order.remaining_quantity sell) then inl (trades, e)
  else
    let '(best, bids1) := OrderBookSide.get_best_price (bids e) in
    let e1 := mk (objs e) bids1 (asks e) (trade_history e)
                 (order_history e) in
    match best with
    | None => inl (trades, e1)
    | Some best_bid_price =>
        if negb (bool_decide (Order.order_type sell = MARKET)
                 || (Order.price sell <=? best_bid_price))
        then inl (trades, e1)
        else
          match OrderBookSide.get_price_level best_bid_price bids1 with
          | None => inl (trades, e1)
          | Some price_level =>
              match PriceLevel.get_top_order price_level with
              | None => inr (trades, e1)
              | Some buy_order =>
                  let buy := deref (objs e) buy_order in
                  let trade_quantity :=
                    Z.min (Order.remaining_quantity sell)
                          (Order.remaining_quantity buy) in
                  let trade :=
                    Trade.create_trade buy sell trade_quantity in
                  let h1 := update (Order.add_filled trade_quantity)
                                   sell_order (objs e) in
                  let h2 := update (Order.add_filled trade_quantity)
                                   buy_order h1 in
                  let bids2 :=
                    if Order.remaining_quantity (deref h2 buy_order) =? 0
                    then (OrderBookSide.remove_order h2
                            (Order.order_id (deref h2 buy_order))
                            bids1).2
                    else bids1 in
                  inr (trades ++ [trade],
                     mk h2 bids2 (asks e) (trade_history e)
                        (order_history e))
              end
          end
    end.

Definition _match_sell_order (fuel : nat) (sell_order : nat) (e : t)
  : option (list Trade.t * t) :=
  while_loop (_match_sell_order_pass sell_order) fuel ([], e).

Definition _add_to_order_book (order : nat) (e : t) : t :=
  match Order.side (deref (objs e) order) with
  | BUY =>
      mk (objs e) (OrderBookSide.add_order (objs e) order (bids e)).2
         (asks e) (trade_history e) (order_history e)
  | SELL =>
      mk (objs e) (bids e)
         (OrderBookSide.add_order (objs e) order (asks e)).2
         (trade_history e) (order_history e)
  end.

(** [add_order] on an order object that is already in the store. *)
Definition add_order (fuel : nat) (order : nat) (e : t)
  : option (list Trade.t * t) :=
  let e0 := mk (objs e) (bids e) (asks e) (trade_history e)
               (order_history e ++ [order]) in
  match
    match Order.side (deref (objs e0) order) with
    | BUY => _match_buy_order fuel order e0
    | SELL => _match_sell_order fuel order e0
    end
  with
  | None => None
  | Some (trades, e1) =>
      let o := deref (objs e1) order in
      let e2 :=
        if (0 <? Order.remaining_quantity o)
           && bool_decide (Order.order_type o = LIMIT)
        then _add_to_order_book order e1
        else e1 in
      Some (trades,
            mk (objs e2) (bids e2) (asks e2) (trade_history e2 ++ trades)
               (order_history e2))
  end.

(** The caller builds a new [Order] object and hands it to [add_order]. *)
Definition submit (fuel : nat) (o : Order.t) (e : t)
  : option (list Trade.t * t) :=
  let '(order, h) := alloc (objs e) o in
  add_order fuel order
    (mk h (bids e) (asks e) (trade_history e) (order_history e)).

Definition cancel_order (id : string) (e : t) : bool * t :=
  if bool_decide (is_Some (OrderBookSide.order_map (bids e) !! id)) then
    let '(r, bids') := OrderBookSide.remove_order (objs e) id (bids e) in
    (r, mk (objs e) bids' (asks e) (trade_history e) (order_history e))
  else if bool_decide (is_Some (OrderBookSide.order_map (asks e) !! id)) then
    let '(r, asks') := OrderBookSide.remove_order (objs e) id (asks e) in
    (r, mk (objs e) (bids e) asks' (trade_history e) (order_history e))
  else (false, e).


End BaseMatchingEngine.

(** ** core/sharded_order_book.py *)

(** [list.sort(key=lambda o: o.timestamp)]: Python's sort is stable; so is
    this insertion sort, which puts an element before the first one whose
    timestamp is not smaller. *)
Fixpoint insert_by_timestamp (h : list Order.t) (x : nat) (l : list nat)
  : list nat :=
  match l with
  | [] => [x]
  | y :: l' =>
      if Order.timestamp (deref h x) <=? Order.timestamp (deref h y)
      then x :: l
      else y :: insert_by_timestamp h x l'
  end.

Definition sort_by_timestamp (h : list Order.t) (l : list nat) : list nat :=
  foldr (insert_by_timestamp h) [] l.

Module ShardedOrderBookSide.

Record t := mk {
  side : OrderSide;
  num_shards : nat;
  shards : list OrderBookSide.t;
  _best_price_cache : option Z;
  _cache_valid : bool;
  total_orders : nat;
  total_cancellations : nat
}.

Definition new (s : OrderSide) (n : nat) : t :=
  let n' := Nat.max 1 n in
  mk s n' (replicate n' (OrderBookSide.new s)) None false 0 0.

(** [sum(ord(c) for c in order_id[:8]) % num_shards] *)
Fixpoint sum_ord (n : nat) (s : string) : nat :=
  match n, s with
  | S n', String c s' => (Ascii.nat_of_ascii c + sum_ord n' s')%nat
  | _, _ => 0%nat
  end.

Definition _get_shard_index (order_id : string) (b : t) : nat :=
  (sum_ord 8 order_id mod num_shards b)%nat.

Definition invalidate (b : t) : t :=
  mk (side b) (num_shards b) (shards b) (_best_price_cache b) false
     (total_orders b) (total_cancellations b).

(** [shards[shard_idx]] is in range for every side built by [new]; the
    [IndexError] of an index out of range is the answer [False]. *)
Definition add_order (h : list Order.t) (order : nat) (b : t) : bool * t :=
  let shard_idx := _get_shard_index (Order.order_id (deref h order)) b in
  match shards b !! shard_idx with
  | None => (false, b)
  | Some shard =>
      let '(result, shard') := OrderBookSide.add_order h order shard in
      let shards' := <[shard_idx := shard']> (shards b) in
      if result then
        (true, mk (side b) (num_shards b) shards' (_best_price_cache b) false
                  (S (total_orders b)) (total_cancellations b))
      else
        (false, mk (side b) (num_shards b) shards' (_best_price_cache b)
                   (_cache_valid b) (total_orders b) (total_cancellations b))
  end.

Definition remove_order (h : list Order.t) (order_id : string) (b : t)
  : bool * t :=
  let shard_idx := _get_shard_index order_id b in
  match shards b !! shard_idx with
  | None => (false, b)
  | Some shard =>
      let '(result, shard') := OrderBookSide.remove_order h order_id shard in
      let shards' := <[shard_idx := shard']> (shards b) in
      if result then
        (true, mk (side b) (num_shards b) shards' (_best_price_cache b) false
                  (total_orders b) (S (total_cancellations b)))
      else
        (false, mk (side b) (num_shards b) shards' (_best_price_cache b)
                   (_cache_valid b) (total_orders b) (total_cancellations b))
  end.

(** The scan of [get_best_price]: every shard is asked for its best price
    (which runs the shard's lazy cleanup) and the running best is kept. *)
Fixpoint scan_shards (s : OrderSide) (best_price : option Z)
    (sh : list OrderBookSide.t) : option Z * list OrderBookSide.t :=
  match sh with
  | [] => (best_price, [])
  | shard :: rest =>
      let '(shard_best, shard') := OrderBookSide.get_best_price shard in
      let best_price' :=
        match shard_best, best_price with
        | None, _ => best_price
        | Some sb, None => Some sb
        | Some sb, Some bp =>
            match s with
            | BUY => Some (Z.max bp sb)
            | SELL => Some (Z.min bp sb)
            end
        end in
      let '(r, rest') := scan_shards s best_price' rest in
      (r, shard' :: rest')
  end.

Definition get_best_price (b : t) : option Z * t :=
  if _cache_valid b && bool_decide (is_Some (_best_price_cache b))
  then (_best_price_cache b, b)
  else
    let '(best_price, shards') := scan_shards (side b) None (shards b) in
    (best_price,
     mk (side b) (num_shards b) shards' best_price true (total_orders b)
        (total_cancellations b)).

(** The orders collected by [get_orders_at_best_price] from the shards. *)
Definition collect_orders (p : Z) (sh : list OrderBookSide.t) : list nat :=
  flat_map
    (λ shard,
       match OrderBookSide.get_price_level p shard with
       | Some level =>
           if negb (PriceLevel.is_empty level) then PriceLevel.orders level
           else []
       | None => []
       end)
    sh.

Definition get_orders_at_best_price (h : list Order.t) (b : t)
  : list nat * t :=
  let '(best_price, b') := get_best_price b in
  match best_price with
  | None => ([], b')
  | Some p => (sort_by_timestamp h (collect_orders p (shards b')), b')
  end.

(** [get_statistics]: [num_shards], [total_orders],
    [total_cancellations] and, for each shard, [shard_id],
    [num_orders] and [num_price_levels]. *)
Record statistics := mk_statistics {
  stat_num_shards : nat;
  stat_total_orders : nat;
  stat_total_cancellations : nat;
  shard_details : list (nat * nat * nat)
}.

Definition get_statistics (b : t) : statistics :=
  mk_statistics (num_shards b) (total_orders b) (total_cancellations b)
    (imap (λ i shard,
             (i, size (OrderBookSide.order_map shard),
              size (OrderBookSide.price_levels shard)))
          (shards b)).

End ShardedOrderBookSide.

(** ** core/sharded_matching_engine.py: ShardedMatchingEngine *)

Module ShardedMatchingEngine.

Record t := mk {
  objs : list Order.t;
  num_shards : nat;
  bids : ShardedOrderBookSide.t;
  asks : ShardedOrderBookSide.t;
  trade_history : list Trade.t;
  order_history : list nat
}.

Definition new (n : nat) : t :=
  mk [] n (ShardedOrderBookSide.new BUY n) (ShardedOrderBookSide.new SELL n)
     [] [].

(** As in the base engine, the calls of [get_best_price] that follow the
    first one in a pass return the cached price and change nothing; the
    later call inside [get_orders_at_best_price] is kept as the code has
    it. *)
Definition _match_buy_order_pass (buy_order : nat)
    (s : list Trade.t * t) : list Trade.t * t + list Trade.t * t :=
  let '(trades, e) := s in
  let buy := deref (objs e) buy_order in
  if negb (0 <? Order.remaining_quantity buy) then inl (trades, e)
  else
    let '(best, asks1) := ShardedOrderBookSide.get_best_price (asks e) in
    let e1 := mk (objs e) (num_shards e) (bids e) asks1 (trade_history e)
                 (order_history e) in
    match best with
    | None => inl (trades, e1)
    | Some best_ask_price =>
        if negb (bool_decide (Order.order_type buy = MARKET)
                 || (best_ask_price <=? Order.price buy))
        then inl (trades, e1)
        else
          let '(sell_orders, asks2) :=
            ShardedOrderBookSide.get_orders_at_best_price (objs e) asks1 in
          let e2 := mk (objs e) (num_shards e) (bids e) asks2
                       (trade_history e) (order_history e) in
          match sell_orders with
          | [] => inr (trades, e2)
          | sell_order :: _ =>
              let sell := deref (objs e) sell_order in
              let trade_quantity :=
                Z.min (Order.remaining_quantity buy)
                      (Order.remaining_quantity sell) in
              let trade := Trade.create_trade buy sell trade_quantity in
              let h1 := update (Order.add_filled trade_quantity)
                               buy_order (objs e) in
              let h2 := update (Order.add_filled trade_quantity)
                               sell_order h1 in
              let asks3 :=
                if Order.remaining_quantity (deref h2 sell_order) =? 0
                then (ShardedOrderBookSide.remove_order h2
                        (Order.order_id (deref h2 sell_order)) asks2).2
                else asks2 in
              inr (trades ++ [trade],
                 mk h2 (num_shards e) (bids e) asks3 (trade_history e)
                    (order_history e))
          end
    end.

Definition _match_buy_order (fuel : nat) (buy_order : nat) (e : t)
  : option (list Trade.t * t) :=
  while_loop (_match_buy_order_pass buy_order) fuel ([], e).

Definition _match_sell_order_pass (sell_order : nat)
    (s : list Trade.t * t) : list Trade.t * t + list Trade.t * t :=
  let '(trades, e) := s in
  let sell := deref (objs e) sell_order in
  if negb (0 <? Order.remaining_quantity sell) then inl (trades, e)
  else
    let '(best, bids1) := ShardedOrderBookSide.get_best_price (bids e) in
    let e1 := mk (objs e) (num_shards e) bids1 (asks e) (trade_history e)
                 (order_history e) in
    match best with
    | None => inl (trades, e1)
    | Some best_bid_price =>
        if negb (bool_decide (Order.order_type sell = MARKET)
                 || (Order.price sell <=? best_bid_price))
        then inl (trades, e1)
        else
          let '(buy_orders, bids2) :=
            ShardedOrderBookSide.get_orders_at_best_price (objs e) bids1 in
          let e2 := mk (objs e) (num_shards e) bids2 (asks e)
                       (trade_history e) (order_history e) in
          match buy_orders with
          | [] => inr (trades, e2)
          | buy_order :: _ =>
              let buy := deref (objs e) buy_order in
              let trade_quantity :=
                Z.min (Order.remaining_quantity sell)
                      (Order.remaining_quantity buy) in
              let trade := Trade.create_trade buy sell trade_quantity in
              let h1 := update (Order.add_filled trade_quantity)
                               sell_order (objs e) in
              let h2 := update (Order.add_filled trade_quantity)
                               buy_order h1 in
              let bids3 :=
                if Order.remaining_quantity (deref h2 buy_order) =? 0
                then (ShardedOrderBookSide.remove_order h2
                        (Order.order_id (deref h2 buy_order)) bids2).2
                else bids2 in
              inr (trades ++ [trade],
                 mk h2 (num_shards e) bids3 (asks e) (trade_history e)
                    (order_history e))
          end
    end.

Definition _match_sell_order (fuel : nat) (sell_order : nat) (e : t)
  : option (list Trade.t * t) :=
  while_loop (_match_sell_order_pass sell_order) fuel ([], e).

Definition _add_to_order_book (order : nat) (e : t) : t :=
  match Order.side (deref (objs e) order) with
  | BUY =>
      mk (objs e) (num_shards e)
         (ShardedOrderBookSide.add_order (objs e) order (bids e)).2
         (asks e) (trade_history e) (order_history e)
  | SELL =>
      mk (objs e) (num_shards e) (bids e)
         (ShardedOrderBookSide.add_order (objs e) order (asks e)).2
         (trade_history e) (order_history e)
  end.

Definition add_order (fuel : nat) (order : nat) (e : t)
  : option (list Trade.t * t) :=
  let e0 := mk (objs e) (num_shards e) (bids e) (asks e) (trade_history e)
               (order_history e ++ [order]) in
  match
    match Order.side (deref (objs e0) order) with
    | BUY => _match_buy_order fuel order e0
    | SELL => _match_sell_order fuel order e0
    end
  with
  | None => None
  | Some (trades, e1) =>
      let o := deref (objs e1) order in
      let e2 :=
        if (0 <? Order.remaining_quantity o)
           && bool_decide (Order.order_type o = LIMIT)
        then _add_to_order_book order e1
        else e1 in
      Some (trades,
            mk (objs e2) (num_shards e2) (bids e2) (asks e2)
               (trade_history e2 ++ trades) (order_history e2))
  end.

Definition process_order (fuel : nat) (order : nat) (e : t)
  : option (list Trade.t * t) :=
  add_order fuel order e.

Definition submit (fuel : nat) (o : Order.t) (e : t)
  : option (list Trade.t * t) :=
  let '(order, h) := alloc (objs e) o in
  process_order fuel order
    (mk h (num_shards e) (bids e) (asks e) (trade_history e)
        (order_history e)).

Definition cancel_order (id : string) (e : t) : bool * t :=
  let '(r1, bids') := ShardedOrderBookSide.remove_order (objs e) id (bids e) in
  if r1 then
    (true, mk (objs e) (num_shards e) bids' (asks e) (trade_history e)
              (order_history e))
  else
    let '(r2, asks') :=
      ShardedOrderBookSide.remove_order (objs e) id (asks e) in
    (r2, mk (objs e) (num_shards e) bids' asks' (trade_history e)
            (order_history e)).

End ShardedMatchingEngine.

(** ** The adaptive order book and the adaptive engines

    [AdaptivePriceLevel] extends [PriceLevel] with four attributes and
    [AdaptiveOrderBookSide] extends [OrderBookSide] with a regime; the
    extension is kept as a second map with the levels' prices as keys.  The
    regime detector computes floating point statistics over its windows;
    its answer is an argument of the functions below. *)

Module AdaptivePriceLevel.

Record t := mk {
  regime : MarketRegime;
  _maintain_sorted : bool;
  _sorted : bool;
  _needs_resort : bool
}.

Definition new (r : MarketRegime) : t := mk r false false false.

Definition set_regime (new_regime : MarketRegime) (l : t) : t :=
  if bool_decide (regime l ≠ new_regime)
  then mk new_regime (_maintain_sorted l) false true
  else l.

(** An [AdaptivePriceLevel] object: the attributes inherited from
    [PriceLevel] and the ones above. *)
Definition level : Type := PriceLevel.t * t.

Definition new_level (p : Z) (r : MarketRegime) : level :=
  (PriceLevel.new p, new r).

(** [(-o.remaining_quantity, o.timestamp)], the key of the ordering by
    size, and the order of Python's tuples. *)
Definition sort_key (h : list Order.t) (a : nat) : Z * Z :=
  (- Order.remaining_quantity (deref h a), Order.timestamp (deref h a)).

Definition key_lt (k1 k2 : Z * Z) : bool :=
  (k1.1 <? k2.1) || ((k1.1 =? k2.1) && (k1.2 <? k2.2)).

(** [orders_list.sort(key=...)]: Python's sort is stable; so is this
    insertion sort, which puts an element behind the ones whose key is
    smaller and before the first one whose key is not. *)
Fixpoint insert_by_key (h : list Order.t) (x : nat) (l : list nat)
  : list nat :=
  match l with
  | [] => [x]
  | y :: l' =>
      if key_lt (sort_key h y) (sort_key h x)
      then y :: insert_by_key h x l'
      else x :: l
  end.

Definition sort_by_key (h : list Order.t) (l : list nat) : list nat :=
  foldr (insert_by_key h) [] l.

(** [bisect.bisect_left(keys, key)]: the binary search of the standard
    library.  The interval shrinks at every pass, so that the loop ends
    within [hi - lo] passes. *)
Fixpoint bisect_left_loop (n : nat) (keys : list (Z * Z)) (key : Z * Z)
    (lo hi : nat) : nat :=
  match n with
  | O => lo
  | S n' =>
      if (lo <? hi)%nat then
        let mid := ((lo + hi) / 2)%nat in
        if key_lt (default (0, 0) (keys !! mid)) key
        then bisect_left_loop n' keys key (S mid) hi
        else bisect_left_loop n' keys key lo mid
      else lo
  end.

Definition bisect_left (keys : list (Z * Z)) (key : Z * Z) : nat :=
  bisect_left_loop (length keys) keys key 0 (length keys).

Definition _re_sort_orders (h : list Order.t) (lv : level) : level :=
  let '(l, f) := lv in
  if bool_decide (regime f = NORMAL) then
    (l, mk (regime f) false true false)
  else if bool_decide (regime f ∈ [HIGH_VOLATILITY; ILLIQUID]) then
    (PriceLevel.mk (PriceLevel.price l)
       (sort_by_key h (PriceLevel.orders l)) (PriceLevel.total_volume l),
     mk (regime f) true true false)
  else if bool_decide (regime f = HIGH_FREQUENCY) then
    (l, mk (regime f) false true false)
  else lv.

Definition add_order (h : list Order.t) (order : nat) (lv : level) : level :=
  let '(l, f) := lv in
  if _maintain_sorted f then
    let orders_list := PriceLevel.orders l in
    let key := sort_key h order in
    let keys := sort_key h <$> orders_list in
    let idx := bisect_left keys key in
    (PriceLevel.mk (PriceLevel.price l)
       (take idx orders_list ++ order :: drop idx orders_list)
       (PriceLevel.total_volume l
        + Order.remaining_quantity (deref h order)),
     mk (regime f) (_maintain_sorted f) true false)
  else (PriceLevel.add_order h order l, f).

(** [remove_order], inherited from [PriceLevel]. *)
Definition remove_order (h : list Order.t) (order : nat) (lv : level)
  : bool * level :=
  let '(r, l') := PriceLevel.remove_order h order lv.1 in
  (r, (l', lv.2)).

Definition get_top_order (h : list Order.t) (lv : level)
  : option nat * level :=
  let lv1 :=
    if _needs_resort lv.2 && _maintain_sorted lv.2
    then _re_sort_orders h lv
    else lv in
  (head (PriceLevel.orders lv1.1), lv1).

(** [set_regime] on the object. *)
Definition set_level_regime (new_regime : MarketRegime) (lv : level)
  : level :=
  (lv.1, set_regime new_regime lv.2).

End AdaptivePriceLevel.

Module AdaptiveOrderBookSide.

Record t := mk {
  book : OrderBookSide.t;
  regime : MarketRegime;
  levels : gmap Z AdaptivePriceLevel.t
}.

Definition new (s : OrderSide) (r : MarketRegime) : t :=
  mk (OrderBookSide.new s) r ∅.

Definition set_regime (new_regime : MarketRegime) (b : t) : t :=
  if bool_decide (regime b ≠ new_regime)
  then mk (book b) new_regime
          (AdaptivePriceLevel.set_regime new_regime <$> levels b)
  else b.

End AdaptiveOrderBookSide.

(** An entry of [regime_history]. *)
Record RegimeChange := mkRegimeChange {
  rc_timestamp : Z;
  from_regime : MarketRegime;
  to_regime : MarketRegime
}.

(** *** core/matching_engine.py: AdaptiveMatchingEngine *)

Module AdaptiveMatchingEngine.

Record t := mk {
  objs : list Order.t;
  bids : AdaptiveOrderBookSide.t;
  asks : AdaptiveOrderBookSide.t;
  trade_history : list Trade.t;
  order_history : list nat;
  current_regime : MarketRegime;
  regime_change_count : nat;
  last_regime_change : Z;
  regime_history : list RegimeChange
}.

Definition new (now : Z) : t :=
  mk [] (AdaptiveOrderBookSide.new BUY NORMAL)
     (AdaptiveOrderBookSide.new SELL NORMAL) [] [] NORMAL 0 now [].

(** [_transition_regime]; [now1] and [now2] are the two readings of the
    clock.  The history entry is built after [current_regime] was
    assigned, and reads it. *)
Definition _transition_regime (now1 now2 : Z) (new_regime : MarketRegime)
    (e : t) : t :=
  let bids' := AdaptiveOrderBookSide.set_regime new_regime (bids e) in
  let asks' := AdaptiveOrderBookSide.set_regime new_regime (asks e) in
  let e1 := mk (objs e) bids' asks' (trade_history e) (order_history e)
               new_regime (S (regime_change_count e)) now1
               (regime_history e) in
  mk (objs e1) (bids e1) (asks e1) (trade_history e1) (order_history e1)
     (current_regime e1) (regime_change_count e1) (last_regime_change e1)
     (regime_history e1
      ++ [mkRegimeChange now2 (current_regime e1) new_regime]).

(** The step of [process_order] that follows the detector's answer
    [new_regime]. *)
Definition handle_detected_regime (now1 now2 : Z) (new_regime : MarketRegime)
    (e : t) : t :=
  if bool_decide (new_regime ≠ current_regime e)
  then _transition_regime now1 now2 new_regime e
  else e.

End AdaptiveMatchingEngine.

(** *** core/sharded_order_book.py: ShardedAdaptiveOrderBookSide *)

Module ShardedAdaptiveOrderBookSide.

Record t := mk {
  side : OrderSide;
  num_shards : nat;
  regime : MarketRegime;
  shards : list AdaptiveOrderBookSide.t;
  _best_price_cache : option Z;
  _cache_valid : bool;
  total_orders : nat;
  total_cancellations : nat
}.

Definition new (s : OrderSide) (n : nat) : t :=
  let n' := Nat.max 1 n in
  mk s n' NORMAL (replicate n' (AdaptiveOrderBookSide.new s NORMAL)) None
     false 0 0.

Definition set_regime (new_regime : MarketRegime) (b : t) : t :=
  mk (side b) (num_shards b) new_regime
     (AdaptiveOrderBookSide.set_regime new_regime <$> shards b)
     (_best_price_cache b) (_cache_valid b) (total_orders b)
     (total_cancellations b).

End ShardedAdaptiveOrderBookSide.

(** *** core/sharded_matching_engine.py: ShardedAdaptiveMatchingEngine *)

Module ShardedAdaptiveMatchingEngine.

Record t := mk {
  objs : list Order.t;
  num_shards : nat;
  benchmark_mode : bool;
  bids : ShardedAdaptiveOrderBookSide.t;
  asks : ShardedAdaptiveOrderBookSide.t;
  current_regime : MarketRegime;
  regime_change_count : nat;
  last_regime_change : Z;
  trade_history : list Trade.t;
  order_history : list nat;
  regime_history : list RegimeChange;
  order_count : nat
}.

Definition new (n : nat) (benchmark : bool) (now : Z) : t :=
  mk [] n benchmark (ShardedAdaptiveOrderBookSide.new BUY n)
     (ShardedAdaptiveOrderBookSide.new SELL n) NORMAL 0 now [] [] [] 0.

Definition _transition_regime (now1 now2 : Z) (new_regime : MarketRegime)
    (e : t) : t :=
  let bids' := ShardedAdaptiveOrderBookSide.set_regime new_regime (bids e) in
  let asks' := ShardedAdaptiveOrderBookSide.set_regime new_regime (asks e) in
  let old_regime := current_regime e in
  mk (objs e) (num_shards e) (benchmark_mode e) bids' asks' new_regime
     (S (regime_change_count e)) now1 (trade_history e) (order_history e)
     (regime_history e ++ [mkRegimeChange now2 old_regime new_regime])
     (order_count e).

(** The step of [process_order] at a detection point, after the detector
    answered [new_regime]. *)
Definition handle_detected_regime (now1 now2 : Z) (new_regime : MarketRegime)
    (e : t) : t :=
  if bool_decide (new_regime ≠ current_regime e)
  then _transition_regime now1 now2 new_regime e
  else e.

End ShardedAdaptiveMatchingEngine.

(** ** core/nse_matching_engine.py: NSEMatchingEngine *)

(** [round(p / t)] for a positive [t]: Python rounds halves to even. *)
Definition py_round_div (p t : Z) : Z :=
  let q := p / t in
  let r := p mod t in
  if 2 * r <? t then q
  else if t <? 2 * r then q + 1
  else if Z.even q then q else q + 1.

(** An insertion-ordered [dict]: assignment keeps the place of a key that
    is present and appends a new one; [del] drops the key. *)
Fixpoint dict_set {A} (k : string) (v : A) (d : list (string * A))
  : list (string * A) :=
  match d with
  | [] => [(k, v)]
  | (k', v') :: d' =>
      if bool_decide (k' = k) then (k, v) :: d'
      else (k', v') :: dict_set k v d'
  end.

Definition dict_del {A} (k : string) (d : list (string * A))
  : list (string * A) :=
  filter (λ kv, kv.1 ≠ k) d.

Definition dict_mem {A} (k : string) (d : list (string * A)) : bool :=
  bool_decide (k ∈ d.*1).

(** [defaultdict(list)] keyed by price, in insertion order:
    [d[p].append(x)]. *)
Fixpoint group_append (p : Z) (x : nat) (d : list (Z * list nat))
  : list (Z * list nat) :=
  match d with
  | [] => [(p, [x])]
  | (p', xs) :: d' =>
      if p' =? p then (p', xs ++ [x]) :: d'
      else (p', xs) :: group_append p x d'
  end.

(** [sorted(set(l))] *)
Fixpoint insert_unique (x : Z) (l : list Z) : list Z :=
  match l with
  | [] => [x]
  | y :: l' =>
      if x <? y then x :: l
      else if x =? y then l
      else y :: insert_unique x l'
  end.

Definition sorted_set (l : list Z) : list Z := foldr insert_unique [] l.

Module NSEMatchingEngine.

Record t := mk {
  objs : list Order.t;
  symbol : string;
  tick_size : Z;
  circuit_breaker_pct : Q;
  price_band_pct : Q;
  bids : OrderBookSide.t;
  asks : OrderBookSide.t;
  trading_phase : TradingPhase;
  is_halted : bool;
  reference_price : option Z;
  last_traded_price : option Z;
  opening_price : option Z;
  upper_band : option Q;
  lower_band : option Q;
  auction_orders : list nat;
  trade_history : list Trade.t;
  order_history : list nat;
  pending_stop_orders : list (string * nat);
  total_orders_processed : nat;
  total_trades : nat;
  circuit_breaker_hits : nat;
  async_cancel : bool;
  _cancel_queue : option (list string)
}.

(** [NSEMatchingEngine(symbol, tick_size, circuit_breaker_pct,
    price_band_pct, async_cancel)] *)
Definition new (sym : string) (tick : Z) (cb band : Q) (async : bool) : t :=
  mk [] sym tick cb band (OrderBookSide.new BUY) (OrderBookSide.new SELL)
     CONTINUOUS false None None None None None [] [] [] [] 0 0 0 async
     (if async then Some [] else None).

(** Assignments to the attributes. *)
Definition set_objs (h : list Order.t) (e : t) : t :=
  mk h (symbol e) (tick_size e) (circuit_breaker_pct e) (price_band_pct e)
     (bids e) (asks e) (trading_phase e) (is_halted e) (reference_price e)
     (last_traded_price e) (opening_price e) (upper_band e) (lower_band e)
     (auction_orders e) (trade_history e) (order_history e)
     (pending_stop_orders e) (total_orders_processed e) (total_trades e)
     (circuit_breaker_hits e) (async_cancel e) (_cancel_queue e).

Definition set_bids (b : OrderBookSide.t) (e : t) : t :=
  mk (objs e) (symbol e) (tick_size e) (circuit_breaker_pct e)
     (price_band_pct e) b (asks e) (trading_phase e) (is_halted e)
     (reference_price e) (last_traded_price e) (opening_price e)
     (upper_band e) (lower_band e) (auction_orders e) (trade_history e)
     (order_history e) (pending_stop_orders e) (total_orders_processed e)
     (total_trades e) (circuit_breaker_hits e) (async_cancel e)
     (_cancel_queue e).

Definition set_asks (a : OrderBookSide.t) (e : t) : t :=
  mk (objs e) (symbol e) (tick_size e) (circuit_breaker_pct e)
     (price_band_pct e) (bids e) a (trading_phase e) (is_halted e)
     (reference_price e) (last_traded_price e) (opening_price e)
     (upper_band e) (lower_band e) (auction_orders e) (trade_history e)
     (order_history e) (pending_stop_orders e) (total_orders_processed e)
     (total_trades e) (circuit_breaker_hits e) (async_cancel e)
     (_cancel_queue e).

(** [is_halted], [trading_phase] and [circuit_breaker_hits] together. *)
Definition set_halt (halted : bool) (ph : TradingPhase) (hits : nat) (e : t)
  : t :=
  mk (objs e) (symbol e) (tick_size e) (circuit_breaker_pct e)
     (price_band_pct e) (bids e) (asks e) ph halted
     (reference_price e) (last_traded_price e) (opening_price e)
     (upper_band e) (lower_band e) (auction_orders e) (trade_history e)
     (order_history e) (pending_stop_orders e) (total_orders_processed e)
     (total_trades e) hits (async_cancel e) (_cancel_queue e).

(** [reference_price], [upper_band] and [lower_band] together. *)
Definition set_reference (r : option Z) (ub lb : option Q) (e : t) : t :=
  mk (objs e) (symbol e) (tick_size e) (circuit_breaker_pct e)
     (price_band_pct e) (bids e) (asks e) (trading_phase e) (is_halted e)
     r (last_traded_price e) (opening_price e) ub lb (auction_orders e)
     (trade_history e) (order_history e) (pending_stop_orders e)
     (total_orders_processed e) (total_trades e) (circuit_breaker_hits e)
     (async_cancel e) (_cancel_queue e).

Definition set_last_traded_price (p : option Z) (e : t) : t :=
  mk (objs e) (symbol e) (tick_size e) (circuit_breaker_pct e)
     (price_band_pct e) (bids e) (asks e) (trading_phase e) (is_halted e)
     (reference_price e) p (opening_price e) (upper_band e) (lower_band e)
     (auction_orders e) (trade_history e) (order_history e)
     (pending_stop_orders e) (total_orders_processed e) (total_trades e)
     (circuit_breaker_hits e) (async_cancel e) (_cancel_queue e).

Definition set_opening_price (p : option Z) (e : t) : t :=
  mk (objs e) (symbol e) (tick_size e) (circuit_breaker_pct e)
     (price_band_pct e) (bids e) (asks e) (trading_phase e) (is_halted e)
     (reference_price e) (last_traded_price e) p (upper_band e)
     (lower_band e) (auction_orders e) (trade_history e) (order_history e)
     (pending_stop_orders e) (total_orders_processed e) (total_trades e)
     (circuit_breaker_hits e) (async_cancel e) (_cancel_queue e).

Definition set_auction_orders (l : list nat) (e : t) : t :=
  mk (objs e) (symbol e) (tick_size e) (circuit_breaker_pct e)
     (price_band_pct e) (bids e) (asks e) (trading_phase e) (is_halted e)
     (reference_price e) (last_traded_price e) (opening_price e)
     (upper_band e) (lower_band e) l (trade_history e) (order_history e)
     (pending_stop_orders e) (total_orders_processed e) (total_trades e)
     (circuit_breaker_hits e) (async_cancel e) (_cancel_queue e).

(** [trade_history] and [total_trades] together. *)
Definition set_trades (th : list Trade.t) (n : nat) (e : t) : t :=
  mk (objs e) (symbol e) (tick_size e) (circuit_breaker_pct e)
     (price_band_pct e) (bids e) (asks e) (trading_phase e) (is_halted e)
     (reference_price e) (last_traded_price e) (opening_price e)
     (upper_band e) (lower_band e) (auction_orders e) th (order_history e)
     (pending_stop_orders e) (total_orders_processed e) n
     (circuit_breaker_hits e) (async_cancel e) (_cancel_queue e).

(** [order_history] and [total_orders_processed] together. *)
Definition set_orders (oh : list nat) (n : nat) (e : t) : t :=
  mk (objs e) (symbol e) (tick_size e) (circuit_breaker_pct e)
     (price_band_pct e) (bids e) (asks e) (trading_phase e) (is_halted e)
     (reference_price e) (last_traded_price e) (opening_price e)
     (upper_band e) (lower_band e) (auction_orders e) (trade_history e) oh
     (pending_stop_orders e) n (total_trades e)
     (circuit_breaker_hits e) (async_cancel e) (_cancel_queue e).

Definition set_pending_stop_orders (d : list (string * nat)) (e : t) : t :=
  mk (objs e) (symbol e) (tick_size e) (circuit_breaker_pct e)
     (price_band_pct e) (bids e) (asks e) (trading_phase e) (is_halted e)
     (reference_price e) (last_traded_price e) (opening_price e)
     (upper_band e) (lower_band e) (auction_orders e) (trade_history e)
     (order_history e) d (total_orders_processed e) (total_trades e)
     (circuit_breaker_hits e) (async_cancel e) (_cancel_queue e).

Definition set_cancel_queue (q : option (list string)) (e : t) : t :=
  mk (objs e) (symbol e) (tick_size e) (circuit_breaker_pct e)
     (price_band_pct e) (bids e) (asks e) (trading_phase e) (is_halted e)
     (reference_price e) (last_traded_price e) (opening_price e)
     (upper_band e) (lower_band e) (auction_orders e) (trade_history e)
     (order_history e) (pending_stop_orders e) (total_orders_processed e)
     (total_trades e) (circuit_breaker_hits e) (async_cancel e) q.

Definition _update_price_bands (e : t) : t :=
  match reference_price e with
  | Some r =>
      if negb (r =? 0) then
        set_reference (reference_price e)
          (Some (inject_Z r * (1 + price_band_pct e / 100))%Q)
          (Some (inject_Z r * (1 - price_band_pct e / 100))%Q) e
      else e
  | None => e
  end.

Definition set_reference_price (p : Z) (e : t) : t :=
  _update_price_bands
    (set_reference (Some p) (upper_band e) (lower_band e) e).

Definition _validate_tick_size (p : Z) (e : t) : Z :=
  if 0 <? tick_size e then py_round_div p (tick_size e) * tick_size e
  else p.

Definition _check_price_band (p : Z) (e : t) : bool :=
  match upper_band e, lower_band e with
  | Some ub, Some lb => Qle_bool lb (inject_Z p) && Qle_bool (inject_Z p) ub
  | _, _ => true
  end.

(** [abs(trade_price - reference_price) / reference_price * 100] *)
Definition price_change_pct (trade_price r : Z) : Q :=
  (Qabs (inject_Z trade_price - inject_Z r) / inject_Z r * 100)%Q.

Definition _check_circuit_breaker (trade_price : Z) (e : t) : bool * t :=
  if negb (truthy (reference_price e)) then (false, e)
  else
    if Qle_bool (circuit_breaker_pct e)
         (price_change_pct trade_price (default 0 (reference_price e)))
    then (true, set_halt true HALTED (S (circuit_breaker_hits e)) e)
    else (false, e).

Definition resume_trading (e : t) : t :=
  set_halt false CONTINUOUS (circuit_breaker_hits e) e.

Definition set_trading_phase (ph : TradingPhase) (e : t) : t :=
  let e1 := set_halt (is_halted e) ph (circuit_breaker_hits e) e in
  if bool_decide (ph ∈ [PRE_OPEN; CLOSING]) then set_auction_orders [] e1
  else e1.

Definition _add_to_order_book (order : nat) (e : t) : t :=
  match Order.side (deref (objs e) order) with
  | BUY => set_bids (OrderBookSide.add_order (objs e) order (bids e)).2 e
  | SELL => set_asks (OrderBookSide.add_order (objs e) order (asks e)).2 e
  end.

Definition _add_iceberg_to_book (order : nat) (e : t) : t :=
  _add_to_order_book order e.

Definition _handle_auction_order (order : nat) (e : t) : list Trade.t * t :=
  ([], set_auction_orders (auction_orders e ++ [order]) e).

Definition _is_stop_triggered (order : nat) (e : t) : bool :=
  let o := deref (objs e) order in
  if negb (truthy (last_traded_price e)) || negb (truthy (Order.stop_price o))
  then false
  else
    let ltp := default 0 (last_traded_price e) in
    let sp := default 0 (Order.stop_price o) in
    match Order.side o with
    | BUY => sp <=? ltp
    | SELL => ltp <=? sp
    end.

(** [price_level.total_volume -= trade_quantity] on the level at price [p]. *)
Definition reduce_level_volume (p q : Z) (b : OrderBookSide.t)
  : OrderBookSide.t :=
  OrderBookSide.mk (OrderBookSide.side b) (OrderBookSide.heap b)
    (alter (λ l, PriceLevel.mk (PriceLevel.price l) (PriceLevel.orders l)
                   (PriceLevel.total_volume l - q))
           p (OrderBookSide.price_levels b))
    (OrderBookSide.order_map b) (OrderBookSide.order_to_price_level b).

Definition _match_buy_order_pass (buy_order : nat)
    (s : list Trade.t * t) : list Trade.t * t + list Trade.t * t :=
  let '(trades, e) := s in
  let buy := deref (objs e) buy_order in
  if negb (0 <? Order.remaining_quantity buy) then inl (trades, e)
  else
    let '(best, asks1) := OrderBookSide.get_best_price (asks e) in
    let e1 := set_asks asks1 e in
    match best with
    | None => inl (trades, e1)
    | Some best_ask_price =>
        if negb (bool_decide (Order.order_type buy = MARKET)
                 || (best_ask_price <=? Order.price buy))
        then inl (trades, e1)
        else
          match OrderBookSide.get_price_level best_ask_price asks1 with
          | None => inl (trades, e1)
          | Some price_level =>
              match PriceLevel.get_top_order price_level with
              | None => inr (trades, e1)
              | Some sell_order =>
                  let sell := deref (objs e) sell_order in
                  let available_qty := Order.visible_quantity sell in
                  let trade_quantity :=
                    Z.min (Order.remaining_quantity buy) available_qty in
                  let trade :=
                    Trade.mk (Order.order_id buy) (Order.order_id sell)
                             (Order.price sell) trade_quantity in
                  let h1 := update (Order.add_filled trade_quantity)
                                   buy_order (objs e) in
                  let h2 := update (Order.add_filled trade_quantity)
                                   sell_order h1 in
                  let asks2 :=
                    reduce_level_volume best_ask_price trade_quantity
                                        asks1 in
                  let asks3 :=
                    if Order.remaining_quantity (deref h2 sell_order) =? 0
                    then (OrderBookSide.remove_order h2
                            (Order.order_id (deref h2 sell_order))
                            asks2).2
                    else asks2 in
                  inr (trades ++ [trade],
                     set_asks asks3 (set_objs h2 e))
              end
          end
    end.

Definition _match_buy_order (fuel : nat) (buy_order : nat) (e : t)
  : option (list Trade.t * t) :=
  while_loop (_match_buy_order_pass buy_order) fuel ([], e).

Definition _match_sell_order_pass (sell_order : nat)
    (s : list Trade.t * t) : list Trade.t * t + list Trade.t * t :=
  let '(trades, e) := s in
  let sell := deref (objs e) sell_order in
  if negb (0 <? Order.remaining_quantity sell) then inl (trades, e)
  else
    let '(best, bids1) := OrderBookSide.get_best_price (bids e) in
    let e1 := set_bids bids1 e in
    match best with
    | None => inl (trades, e1)
    | Some best_bid_price =>
        if negb (bool_decide (Order.order_type sell = MARKET)
                 || (Order.price sell <=? best_bid_price))
        then inl (trades, e1)
        else
          match OrderBookSide.get_price_level best_bid_price bids1 with
          | None => inl (trades, e1)
          | Some price_level =>
              match PriceLevel.get_top_order price_level with
              | None => inr (trades, e1)
              | Some buy_order =>
                  let buy := deref (objs e) buy_order in
                  let available_qty := Order.visible_quantity buy in
                  let trade_quantity :=
                    Z.min (Order.remaining_quantity sell) available_qty in
                  let trade :=
                    Trade.mk (Order.order_id buy) (Order.order_id sell)
                             (Order.price buy) trade_quantity in
                  let h1 := update (Order.add_filled trade_quantity)
                                   sell_order (objs e) in
                  let h2 := update (Order.add_filled trade_quantity)
                                   buy_order h1 in
                  let bids2 :=
                    reduce_level_volume best_bid_price trade_quantity
                                        bids1 in
                  let bids3 :=
                    if Order.remaining_quantity (deref h2 buy_order) =? 0
                    then (OrderBookSide.remove_order h2
                            (Order.order_id (deref h2 buy_order))
                            bids2).2
                    else bids2 in
                  inr (trades ++ [trade],
                     set_bids bids3 (set_objs h2 e))
              end
          end
    end.

Definition _match_sell_order (fuel : nat) (sell_order : nat) (e : t)
  : option (list Trade.t * t) :=
  while_loop (_match_sell_order_pass sell_order) fuel ([], e).

(** The conversion of a triggered stop order into a market or limit
    order. *)
Definition activate_stop (o : Order.t) : Order.t :=
  let o1 := Order.set_is_triggered true o in
  if bool_decide (Order.order_type o1 = STOP_LOSS_MARKET)
  then Order.set_price 0 (Order.set_order_type MARKET o1)
  else Order.set_order_type LIMIT o1.

(** First loop of [_check_pending_stop_orders]: the triggered orders, in
    the order of the dict, and the dict without them. *)
Definition split_triggered (e : t) : list nat * list (string * nat) :=
  foldl
    (λ acc kv,
       if _is_stop_triggered kv.2 e
       then (acc.1 ++ [kv.2], dict_del kv.1 acc.2)
       else acc)
    ([], pending_stop_orders e) (pending_stop_orders e).

(** Second loop of [_check_pending_stop_orders]; [match_order] is
    [_match_order], whose result is dropped. *)
Fixpoint process_triggered
    (match_order : nat → t → option (list Trade.t * t))
    (triggered : list nat) (e : t) : option t :=
  match triggered with
  | [] => Some e
  | order :: rest =>
      let e1 := set_objs (update activate_stop order (objs e)) e in
      match match_order order e1 with
      | None => None
      | Some (_, e2) => process_triggered match_order rest e2
      end
  end.

Definition _check_pending_stop_orders_with
    (match_order : nat → t → option (list Trade.t * t)) (e : t) : option t :=
  let '(triggered, pending) := split_triggered e in
  process_triggered match_order triggered (set_pending_stop_orders pending e).

(** [_match_order] and [_check_pending_stop_orders] call each other; a
    unit of fuel is spent at each call of [_match_order], and the matching
    loop of the call runs on what is left. *)
Fixpoint _match_order (fuel : nat) (order : nat) (e : t)
  : option (list Trade.t * t) :=
  match fuel with
  | O => None
  | S fuel' =>
      match
        match Order.side (deref (objs e) order) with
        | BUY => _match_buy_order fuel' order e
        | SELL => _match_sell_order fuel' order e
        end
      with
      | None => None
      | Some (trades, e1) =>
          match
            match last trades with
            | Some tr =>
                let e2 :=
                  set_last_traded_price (Some (Trade.price tr)) e1 in
                let e3 :=
                  (_check_circuit_breaker (Trade.price tr) e2).2 in
                _check_pending_stop_orders_with (_match_order fuel') e3
            | None => Some e1
            end
          with
          | None => None
          | Some e4 =>
              Some (trades,
                    set_trades (trade_history e4 ++ trades)
                               (total_trades e4 + length trades)%nat e4)
          end
      end
  end.

Definition _check_pending_stop_orders (fuel : nat) (e : t) : option t :=
  _check_pending_stop_orders_with (_match_order fuel) e.

Definition _handle_stop_loss_order (fuel : nat) (order : nat) (e : t)
  : option (list Trade.t * t) :=
  if _is_stop_triggered order e then
    _match_order fuel order
      (set_objs (update activate_stop order (objs e)) e)
  else
    Some ([],
          set_pending_stop_orders
            (dict_set (Order.order_id (deref (objs e) order)) order
                      (pending_stop_orders e)) e).

(** [_get_available_volume_at_price]; the limit [None] is
    [float("inf")]. *)
Definition _get_available_volume_at_price (book_side : OrderBookSide.t)
    (limit_price : option Z) : Z :=
  map_fold
    (λ p level total,
       if match OrderBookSide.side book_side, limit_price with
          | SELL, None => true
          | SELL, Some lp => p <=? lp
          | BUY, None => false
          | BUY, Some lp => lp <=? p
          end
       then total + PriceLevel.total_volume level
       else total)
    0 (OrderBookSide.price_levels book_side).

Definition _handle_fok_order (fuel : nat) (order : nat) (e : t)
  : option (list Trade.t * t) :=
  let o := deref (objs e) order in
  let available :=
    match Order.side o with
    | BUY =>
        _get_available_volume_at_price (asks e)
          (if bool_decide (Order.order_type o = LIMIT)
           then Some (Order.price o) else None)
    | SELL =>
        _get_available_volume_at_price (bids e)
          (if bool_decide (Order.order_type o = LIMIT)
           then Some (Order.price o) else Some 0)
    end in
  if Order.quantity o <=? available then _match_order fuel order e
  else Some ([], e).

Definition _handle_continuous_order (fuel : nat) (order : nat) (e : t)
  : option (list Trade.t * t) :=
  let ty := Order.order_type (deref (objs e) order) in
  if bool_decide (ty ∈ [STOP_LOSS; STOP_LOSS_MARKET])
  then _handle_stop_loss_order fuel order e
  else if bool_decide (ty = FOK) then _handle_fok_order fuel order e
  else
    match _match_order fuel order e with
    | None => None
    | Some (trades, e1) =>
        let o := deref (objs e1) order in
        let e2 :=
          if 0 <? Order.remaining_quantity o then
            if bool_decide (Order.order_type o = LIMIT)
            then _add_to_order_book order e1
            else if bool_decide (Order.order_type o = ICEBERG)
                 then _add_iceberg_to_book order e1
                 else e1
          else e1 in
        Some (trades, e2)
    end.

(** [process_order]; [now] is the reading of the clock. *)
Definition process_order (fuel : nat) (now : Z) (order : nat) (e : t)
  : option (list Trade.t * t) :=
  let e0 := set_orders (order_history e ++ [order])
                       (S (total_orders_processed e)) e in
  if is_halted e0 then Some ([], e0)
  else if Order.is_expired (deref (objs e0) order) now then Some ([], e0)
  else
    let limit_kind :=
      bool_decide
        (Order.order_type (deref (objs e0) order) ∈ [LIMIT; STOP_LOSS]) in
    let e1 :=
      if limit_kind then
        set_objs
          (update
             (λ o, Order.set_price (_validate_tick_size (Order.price o) e0) o)
             order (objs e0)) e0
      else e0 in
    if limit_kind
       && negb (_check_price_band (Order.price (deref (objs e1) order)) e1)
    then Some ([], e1)
    else if bool_decide (trading_phase e1 ∈ [PRE_OPEN; CLOSING])
         then Some (_handle_auction_order order e1)
         else _handle_continuous_order fuel order e1.

(** The caller builds a new [Order] object and hands it to
    [process_order]. *)
Definition submit (fuel : nat) (now : Z) (o : Order.t) (e : t)
  : option (list Trade.t * t) :=
  let '(order, h) := alloc (objs e) o in
  process_order fuel now order (set_objs h e).

(** *** The call auction *)

(** [buy_orders_by_price] ([s = BUY]) and [sell_orders_by_price]. *)
Definition orders_by_price (h : list Order.t) (s : OrderSide)
    (auction : list nat) : list (Z * list nat) :=
  foldl
    (λ d order,
       if bool_decide (Order.side (deref h order) = s)
       then group_append (Order.price (deref h order)) order d
       else d)
    [] auction.

(** [sum(sum(o.quantity for o in orders) for p, orders in d.items()
         if cond(p))] *)
Definition volume_where (h : list Order.t) (cond : Z → bool)
    (d : list (Z * list nat)) : Z :=
  foldr Z.add 0
    (map (λ po : Z * list nat,
            foldr Z.add 0 (map (λ o, Order.quantity (deref h o)) po.2))
         (filter (λ po : Z * list nat, cond po.1 = true) d)).

Definition buy_volume_at (h : list Order.t) (d : list (Z * list nat))
    (p : Z) : Z :=
  volume_where h (λ q, p <=? q) d.

Definition sell_volume_at (h : list Order.t) (d : list (Z * list nat))
    (p : Z) : Z :=
  volume_where h (λ q, q <=? p) d.

Definition tradeable_volume (h : list Order.t)
    (buy_orders sell_orders : list (Z * list nat)) (p : Z) : Z :=
  Z.min (buy_volume_at h buy_orders p) (sell_volume_at h sell_orders p).

Definition all_prices (buy_orders sell_orders : list (Z * list nat))
  : list Z :=
  sorted_set (buy_orders.*1 ++ sell_orders.*1).

(** The body of the [for price in all_prices] loop on the pair
    [(best_price, max_volume)]. *)
Definition equilibrium_step (h : list Order.t) (ref : option Z)
    (buy_orders sell_orders : list (Z * list nat))
    (acc : option Z * Z) (p : Z) : option Z * Z :=
  let tv := tradeable_volume h buy_orders sell_orders p in
  if acc.2 <? tv then (Some p, tv)
  else
    match acc.1 with
    | Some best_price =>
        if (tv =? acc.2) && truthy ref
           && (Z.abs (p - default 0 ref)
               <? Z.abs (best_price - default 0 ref))
        then (Some p, acc.2)
        else acc
    | None => acc
    end.

Definition _find_equilibrium_price (e : t)
    (buy_orders sell_orders : list (Z * list nat)) : option Z * Z :=
  foldl (equilibrium_step (objs e) (reference_price e) buy_orders sell_orders)
        (None, 0) (all_prices buy_orders sell_orders).

(** The orders of the groups whose price satisfies [cond], in the order
    of the dict. *)
Definition eligible (cond : Z → bool) (d : list (Z * list nat)) : list nat :=
  flat_map (λ po : Z * list nat, if cond po.1 then po.2 else []) d.

(** One pass of the [while] loop of [_execute_auction_at_price]; the
    two lists of the state are [buyers[buy_idx:]] and
    [sellers[sell_idx:]]. *)
Definition auction_pass (p : Z)
    (s : list nat * list nat * list Trade.t * t)
  : list nat * list nat * list Trade.t * t
    + list nat * list nat * list Trade.t * t :=
  let '(buyers, sellers, trades, e) := s in
  match buyers, sellers with
  | buy_order :: buyers', sell_order :: sellers' =>
      let buy := deref (objs e) buy_order in
      let sell := deref (objs e) sell_order in
      if Order.remaining_quantity buy =? 0
      then inr (buyers', sellers, trades, e)
      else if Order.remaining_quantity sell =? 0
      then inr (buyers, sellers', trades, e)
      else
        let trade_qty :=
          Z.min (Order.remaining_quantity buy)
                (Order.remaining_quantity sell) in
        let trade :=
          Trade.mk (Order.order_id buy) (Order.order_id sell) p trade_qty in
        let h1 := update (Order.add_filled trade_qty) buy_order (objs e) in
        let h2 := update (Order.add_filled trade_qty) sell_order h1 in
        let e' :=
          set_objs h2
            (set_trades (trade_history e ++ [trade]) (S (total_trades e))
                        e) in
        inr (if Order.remaining_quantity (deref h2 buy_order) =? 0
             then buyers' else buyers,
             if Order.remaining_quantity (deref h2 sell_order) =? 0
             then sellers' else sellers,
             trades ++ [trade], e')
  | _, _ => inl s
  end.

(** Every pass but the last moves an index forward, so the sum of the
    two lengths bounds the number of passes; the fuel given here always
    suffices (lemma [execute_auction_at_price_total]). *)
Definition _execute_auction_at_price (p : Z)
    (buy_orders sell_orders : list (Z * list nat)) (e : t)
  : option (list Trade.t * t) :=
  let buyers :=
    sort_by_timestamp (objs e) (eligible (λ q, p <=? q) buy_orders) in
  let sellers :=
    sort_by_timestamp (objs e) (eligible (λ q, q <=? p) sell_orders) in
  match
    while_loop (auction_pass p) (S (length buyers + length sellers))
      (buyers, sellers, [], e)
  with
  | Some (_, _, trades, e') => Some (trades, e')
  | None => None
  end.

(** [for order in self.auction_orders: if ...: self._add_to_order_book] *)
Definition add_auction_orders (unfilled_only : bool) (e : t) : t :=
  foldl
    (λ e' order,
       let o := deref (objs e') order in
       if (negb unfilled_only || (0 <? Order.remaining_quantity o))
          && bool_decide (Order.order_type o = LIMIT)
       then _add_to_order_book order e'
       else e')
    e (auction_orders e).

Definition execute_call_auction (e : t) : option (list Trade.t * t) :=
  match auction_orders e with
  | [] => Some ([], e)
  | _ =>
      let buy_orders_by_price :=
        orders_by_price (objs e) BUY (auction_orders e) in
      let sell_orders_by_price :=
        orders_by_price (objs e) SELL (auction_orders e) in
      match
        (_find_equilibrium_price e buy_orders_by_price
           sell_orders_by_price).1
      with
      | None =>
          Some ([], set_auction_orders [] (add_auction_orders false e))
      | Some equilibrium_price =>
          match
            _execute_auction_at_price equilibrium_price buy_orders_by_price
              sell_orders_by_price e
          with
          | None => None
          | Some (trades, e1) =>
              let e2 :=
                if bool_decide (trading_phase e1 = PRE_OPEN) then
                  let e' :=
                    set_last_traded_price (Some equilibrium_price)
                      (set_opening_price (Some equilibrium_price) e1) in
                  match reference_price e' with
                  | None =>
                      _update_price_bands
                        (set_reference (Some equilibrium_price)
                           (upper_band e') (lower_band e') e')
                  | Some _ => e'
                  end
                else e1 in
              let e3 := add_auction_orders true e2 in
              Some (trades,
                    set_halt (is_halted e3) CONTINUOUS
                      (circuit_breaker_hits e3)
                      (set_auction_orders [] e3))
          end
      end
  end.

(** *** Cancellation *)

(** The synchronous lookup: bids, asks, then the pending stop orders. *)
Definition cancel_sync (id : string) (e : t) : bool * t :=
  if bool_decide (is_Some (OrderBookSide.order_map (bids e) !! id)) then
    let '(r, bids') := OrderBookSide.remove_order (objs e) id (bids e) in
    (r, set_bids bids' e)
  else if bool_decide (is_Some (OrderBookSide.order_map (asks e) !! id)) then
    let '(r, asks') := OrderBookSide.remove_order (objs e) id (asks e) in
    (r, set_asks asks' e)
  else if dict_mem id (pending_stop_orders e) then
    (true, set_pending_stop_orders (dict_del id (pending_stop_orders e)) e)
  else (false, e).

(** [cancel_order]: [queue.Queue()] is unbounded, so [put_nowait] does
    not raise [queue.Full]. *)
Definition cancel_order (id : string) (e : t) : bool * t :=
  match async_cancel e, _cancel_queue e with
  | true, Some q => (true, set_cancel_queue (Some (q ++ [id])) e)
  | _, _ => cancel_sync id e
  end.

(** One request taken from the queue by [_cancel_worker]. *)
Definition _cancel_worker_step (e : t) : t :=
  match _cancel_queue e with
  | Some (id :: q) => (cancel_sync id (set_cancel_queue (Some q) e)).2
  | _ => e
  end.

End NSEMatchingEngine.

(** * Scenarios of the specification and of the tests *)

Module Scenario.

(** S1: FIFO at the same price. *)
Definition s1_b1 : Order.t := Order.make "b1" BUY 100 100 1 LIMIT.
Definition s1_b2 : Order.t := Order.make "b2" BUY 100 200 2 LIMIT.
Definition s1_s1 : Order.t := Order.make "s1" SELL 100 150 3 LIMIT.

(** Two limit orders that cross at different prices. *)
Definition cross_buy : Order.t := Order.make "b1" BUY 105 10 1 LIMIT.
Definition cross_sell : Order.t := Order.make "s1" SELL 100 10 2 LIMIT.

(** A resting sell order that is filled in part. *)
Definition part_sell : Order.t := Order.make "s1" SELL 100 100 1 LIMIT.
Definition part_buy : Order.t := Order.make "b1" BUY 100 30 2 LIMIT.

(** Fill-or-kill against two ask levels, one of them above the limit. *)
Definition fok_s1 : Order.t := Order.make "S1" SELL 100 50 1 LIMIT.
Definition fok_s2 : Order.t := Order.make "S2" SELL 105 50 2 LIMIT.
Definition fok_buy : Order.t := Order.make "FOK1" BUY 100 100 3 FOK.

(** The exchange engine of the tests: reference price 100, circuit
    breaker at 10 per cent, price band of 20 per cent, prices in whole
    units. *)
Definition nse : NSEMatchingEngine.t :=
  NSEMatchingEngine.set_reference_price 100
    (NSEMatchingEngine.new "TEST" 1 10 20 false).

(** S3: the orders of the equilibrium auction, with their timestamps. *)
Definition s3_orders (ts : list Z) : list Order.t :=
  zip_with (λ (f : Z → Order.t) t, f t)
    [ (λ t, Order.make "b1" BUY 102 100 t LIMIT);
      (λ t, Order.make "b2" BUY 101 150 t LIMIT);
      (λ t, Order.make "b3" BUY 100 200 t LIMIT);
      (λ t, Order.make "s1" SELL 100 120 t LIMIT);
      (λ t, Order.make "s2" SELL 101 180 t LIMIT);
      (λ t, Order.make "s3" SELL 102 150 t LIMIT) ]
    ts.

(** Orders handed to an engine one after the other; the result is the
    list of trades of each call and the final state. *)
Fixpoint run_base (fuel : nat) (os : list Order.t)
    (e : BaseMatchingEngine.t)
  : option (list (list Trade.t) * BaseMatchingEngine.t) :=
  match os with
  | [] => Some ([], e)
  | o :: os' =>
      match BaseMatchingEngine.submit fuel o e with
      | None => None
      | Some (trades, e') =>
          match run_base fuel os' e' with
          | None => None
          | Some (out, e'') => Some (trades :: out, e'')
          end
      end
  end.


Fixpoint run_nse (fuel : nat) (now : Z) (os : list Order.t)
    (e : NSEMatchingEngine.t)
  : option (list (list Trade.t) * NSEMatchingEngine.t) :=
  match os with
  | [] => Some ([], e)
  | o :: os' =>
      match NSEMatchingEngine.submit fuel now o e with
      | None => None
      | Some (trades, e') =>
          match run_nse fuel now os' e' with
          | None => None
          | Some (out, e'') => Some (trades :: out, e'')
          end
      end
  end.







(** The base engine in which a buy order rests. *)
Definition cancel_bid : Order.t := Order.make "b1" BUY 100 10 1 LIMIT.

Definition cancel_state : BaseMatchingEngine.t :=
  match BaseMatchingEngine.submit 11 cancel_bid BaseMatchingEngine.new with
  | Some (_, e) => e
  | None => BaseMatchingEngine.new
  end.

End Scenario.

(** ** States and orders of the examples *)

Module Example.

Definition ask1 : Order.t := Order.make "a1" SELL 105 10 1 LIMIT.
Definition ask2 : Order.t := Order.make "a2" SELL 107 10 2 LIMIT.
Definition bid1 : Order.t := Order.make "b1" BUY 100 10 3 LIMIT.

(** A buy order that takes all of "a1" and rests with what is left. *)
Definition buy : Order.t := Order.make "b2" BUY 106 14 4 LIMIT.

(** The base engine after an order. *)
Definition after (o : Order.t) (e : BaseMatchingEngine.t)
  : BaseMatchingEngine.t :=
  match BaseMatchingEngine.submit 20 o e with
  | Some (_, e') => e'
  | None => e
  end.

Definition trades_of (o : Order.t) (e : BaseMatchingEngine.t)
  : list Trade.t :=
  match BaseMatchingEngine.submit 20 o e with
  | Some (trades, _) => trades
  | None => []
  end.

Definition book1 : BaseMatchingEngine.t := after ask1 BaseMatchingEngine.new.
Definition book2 : BaseMatchingEngine.t := after ask2 book1.
Definition book : BaseMatchingEngine.t := after bid1 book2.

(** The same with the sharded engine, on four shards. *)
Definition sharded_after (o : Order.t) (e : ShardedMatchingEngine.t)
  : ShardedMatchingEngine.t :=
  match ShardedMatchingEngine.submit 20 o e with
  | Some (_, e') => e'
  | None => e
  end.

Definition sharded_trades_of (o : Order.t) (e : ShardedMatchingEngine.t)
  : list Trade.t :=
  match ShardedMatchingEngine.submit 20 o e with
  | Some (trades, _) => trades
  | None => []
  end.

Definition sharded_book1 : ShardedMatchingEngine.t :=
  sharded_after ask1 (ShardedMatchingEngine.new 4).
Definition sharded_book2 : ShardedMatchingEngine.t :=
  sharded_after ask2 sharded_book1.
Definition sharded_book : ShardedMatchingEngine.t :=
  sharded_after bid1 sharded_book2.

(** The same orders and the buy order with the exchange engine, with a
    tick of 5 and no reference price. *)
Definition nse_after (o : Order.t) (e : NSEMatchingEngine.t)
  : NSEMatchingEngine.t :=
  match NSEMatchingEngine.submit 20 0 o e with
  | Some (_, e') => e'
  | None => e
  end.

Definition nse_trades_of (o : Order.t) (e : NSEMatchingEngine.t)
  : list Trade.t :=
  match NSEMatchingEngine.submit 20 0 o e with
  | Some (trades, _) => trades
  | None => []
  end.

Definition nse_book1 : NSEMatchingEngine.t :=
  nse_after ask1 (NSEMatchingEngine.new "EX" 5 10 20 false).
Definition nse_book2 : NSEMatchingEngine.t := nse_after ask2 nse_book1.
Definition nse_book3 : NSEMatchingEngine.t := nse_after bid1 nse_book2.
Definition nse_book : NSEMatchingEngine.t := nse_after buy nse_book3.

(** The buy order and an ask collected for the opening auction. *)
Definition nse_auction : NSEMatchingEngine.t :=
  nse_after ask1
    (nse_after buy
       (NSEMatchingEngine.set_trading_phase PRE_OPEN
          (NSEMatchingEngine.new "EX" 5 10 20 false))).

Definition nse_auction_result : list Trade.t * NSEMatchingEngine.t :=
  default ([], nse_auction) (NSEMatchingEngine.execute_call_auction nse_auction).

End Example.

(** * Notions used by the statements *)

(** The sum of the remaining quantities of the orders of a level. *)
Definition level_remaining (h : list Order.t) (l : PriceLevel.t) : Z :=
  foldr Z.add 0
    (map (λ a, Order.remaining_quantity (deref h a)) (PriceLevel.orders l)).

(** The volume invariant of a book side: every level's [total_volume] is
    the sum of the remaining quantities of its orders. *)
Definition volume_invariant (h : list Order.t) (b : OrderBookSide.t) : Prop :=
  ∀ p l,
    OrderBookSide.price_levels b !! p = Some l →
    PriceLevel.total_volume l = level_remaining h l.

(** The invariant of the loop of [_find_equilibrium_price] once the prices
    [seen] were visited: [acc.2] bounds the tradeable volume of each of
    them, and the best price, when there is one, attains it and is among
    the closest to the reference price of those that do. *)
Definition equilibrium_invariant (h : list Order.t) (ref : option Z)
    (bo so : list (Z * list nat)) (seen : list Z) (acc : option Z * Z)
  : Prop :=
  (∀ q, q ∈ seen → NSEMatchingEngine.tradeable_volume h bo so q ≤ acc.2)
  ∧ match acc.1 with
    | Some p =>
        p ∈ seen
        ∧ NSEMatchingEngine.tradeable_volume h bo so p = acc.2
        ∧ 0 < acc.2
        ∧ (truthy ref = true →
           ∀ q, q ∈ seen → NSEMatchingEngine.tradeable_volume h bo so q = acc.2 →
                Z.abs (p - default 0 ref) ≤ Z.abs (q - default 0 ref))
    | None => acc.2 = 0
    end.

(** The exchange engine [e'] differs from [e] at most in the store and in
    the two book sides. *)
Definition nse_frame (e e' : NSEMatchingEngine.t) : Prop :=
  NSEMatchingEngine.symbol e' = NSEMatchingEngine.symbol e
  ∧ NSEMatchingEngine.tick_size e' = NSEMatchingEngine.tick_size e
  ∧ NSEMatchingEngine.circuit_breaker_pct e' = NSEMatchingEngine.circuit_breaker_pct e
  ∧ NSEMatchingEngine.price_band_pct e' = NSEMatchingEngine.price_band_pct e
  ∧ NSEMatchingEngine.trading_phase e' = NSEMatchingEngine.trading_phase e
  ∧ NSEMatchingEngine.is_halted e' = NSEMatchingEngine.is_halted e
  ∧ NSEMatchingEngine.reference_price e' = NSEMatchingEngine.reference_price e
  ∧ NSEMatchingEngine.last_traded_price e' = NSEMatchingEngine.last_traded_price e
  ∧ NSEMatchingEngine.opening_price e' = NSEMatchingEngine.opening_price e
  ∧ NSEMatchingEngine.upper_band e' = NSEMatchingEngine.upper_band e
  ∧ NSEMatchingEngine.lower_band e' = NSEMatchingEngine.lower_band e
  ∧ NSEMatchingEngine.auction_orders e' = NSEMatchingEngine.auction_orders e
  ∧ NSEMatchingEngine.trade_history e' = NSEMatchingEngine.trade_history e
  ∧ NSEMatchingEngine.order_history e' = NSEMatchingEngine.order_history e
  ∧ NSEMatchingEngine.pending_stop_orders e' = NSEMatchingEngine.pending_stop_orders e
  ∧ NSEMatchingEngine.total_orders_processed e' = NSEMatchingEngine.total_orders_processed e
  ∧ NSEMatchingEngine.total_trades e' = NSEMatchingEngine.total_trades e
  ∧ NSEMatchingEngine.circuit_breaker_hits e' = NSEMatchingEngine.circuit_breaker_hits e
  ∧ NSEMatchingEngine.async_cancel e' = NSEMatchingEngine.async_cancel e
  ∧ NSEMatchingEngine._cancel_queue e' = NSEMatchingEngine._cancel_queue e.


(** The trades that [_match_buy_order] or [_match_sell_order] returns for
    an order, and the state they leave. *)
Definition direct_match (fuel : nat) (order : nat) (e : NSEMatchingEngine.t)
  : option (list Trade.t * NSEMatchingEngine.t) :=
  match Order.side (deref (NSEMatchingEngine.objs e) order) with
  | BUY => NSEMatchingEngine._match_buy_order fuel order e
  | SELL => NSEMatchingEngine._match_sell_order fuel order e
  end.

(** The state in which [_match_order] starts [_check_pending_stop_orders]
    after trades ending with [tr]. *)
Definition after_breaker (tr : Trade.t) (e1 : NSEMatchingEngine.t)
  : NSEMatchingEngine.t :=
  (NSEMatchingEngine._check_circuit_breaker (Trade.price tr)
     (NSEMatchingEngine.set_last_traded_price (Some (Trade.price tr)) e1)).2.


(** ** Well-formed book sides *)

(** The orders of the level at price [p], none when there is no level. *)
Definition level_orders (b : OrderBookSide.t) (p : Z) : list nat :=
  from_option PriceLevel.orders [] (OrderBookSide.price_levels b !! p).

(** The order object [a] rests on the side. *)
Definition rests (b : OrderBookSide.t) (a : nat) : Prop :=
  ∃ p, a ∈ level_orders b p.

(** The representation invariant of [OrderBookSide] over the store [h]:
    a level is filed under its own price, is not empty and holds each
    order once; the orders of a level have its price and are the ones
    that [order_map] gives for their ids; [order_map] only names resting
    orders; [order_to_price_level] names the level of each of them; and
    the heap holds the prices of the levels in ascending order of its
    keys. *)
Record wf_side (h : list Order.t) (b : OrderBookSide.t) : Prop := {
  wf_level_price : ∀ p l,
    OrderBookSide.price_levels b !! p = Some l → PriceLevel.price l = p;
  wf_level_nonempty : ∀ p l,
    OrderBookSide.price_levels b !! p = Some l → PriceLevel.orders l ≠ [];
  wf_level_nodup : ∀ p, NoDup (level_orders b p);
  wf_level_orders : ∀ p a,
    a ∈ level_orders b p →
    (a < length h)%nat
    ∧ Order.price (deref h a) = p
    ∧ OrderBookSide.order_map b !! Order.order_id (deref h a) = Some a;
  wf_order_map : ∀ id a,
    OrderBookSide.order_map b !! id = Some a →
    Order.order_id (deref h a) = id
    ∧ a ∈ level_orders b (Order.price (deref h a));
  wf_order_to_price_level : ∀ id,
    OrderBookSide.order_to_price_level b !! id
    = (λ a, Order.price (deref h a)) <$> OrderBookSide.order_map b !! id;
  wf_heap_sorted : StronglySorted Z.le (OrderBookSide.heap b);
  wf_heap_elem : ∀ k,
    k ∈ OrderBookSide.heap b
    ↔ ∃ p, is_Some (OrderBookSide.price_levels b !! p)
           ∧ k = OrderBookSide.heap_key (OrderBookSide.side b) p
}.

(** Every resting order has something left to fill and is on its own
    side of the book. *)
Definition live_side (h : list Order.t) (b : OrderBookSide.t) : Prop :=
  ∀ a, rests b a →
       0 < Order.remaining_quantity (deref h a)
       ∧ Order.side (deref h a) = OrderBookSide.side b.

(** [p] is the best price of the side: the least ask or the greatest
    bid among the prices of the levels. *)
Definition is_best_price (b : OrderBookSide.t) (p : Z) : Prop :=
  is_Some (OrderBookSide.price_levels b !! p)
  ∧ ∀ q, is_Some (OrderBookSide.price_levels b !! q) →
         OrderBookSide.heap_key (OrderBookSide.side b) p
         ≤ OrderBookSide.heap_key (OrderBookSide.side b) q.

(** The store [h'] comes from [h] by fills: the objects are the same but
    for their [filled_quantity]. *)
Definition fills_only (h h' : list Order.t) : Prop :=
  length h' = length h
  ∧ ∀ a, deref h' a
         = Order.set_filled_quantity (Order.filled_quantity (deref h' a))
             (deref h a).

(** The two sides of a book over the store [h]: both are well formed and
    live, the bids are the buy side and the asks the sell side, and no
    two objects of the store have the same id. *)
Record wf_book (h : list Order.t) (bids asks : OrderBookSide.t) : Prop := {
  wfb_bids : wf_side h bids;
  wfb_asks : wf_side h asks;
  wfb_bids_live : live_side h bids;
  wfb_asks_live : live_side h asks;
  wfb_bids_side : OrderBookSide.side bids = BUY;
  wfb_asks_side : OrderBookSide.side asks = SELL;
  wfb_ids : NoDup (Order.order_id <$> h)
}.

(** The state of the base engine is well formed. *)
Definition wf_base (e : BaseMatchingEngine.t) : Prop :=
  wf_book (BaseMatchingEngine.objs e) (BaseMatchingEngine.bids e)
    (BaseMatchingEngine.asks e).

(** The store after a fill of [q] between the incoming order [x] and the
    resting order [a], in the order in which the code mutates them. *)
Definition fill_pair (q : Z) (x a : nat) (h : list Order.t) : list Order.t :=
  update (Order.add_filled q) a (update (Order.add_filled q) x h).

(** The side after the fill: the resting order leaves it when nothing of
    it remains. *)
Definition drop_if_filled (h : list Order.t) (a : nat) (b : OrderBookSide.t)
  : OrderBookSide.t :=
  if Order.remaining_quantity (deref h a) =? 0
  then (OrderBookSide.remove_order h (Order.order_id (deref h a)) b).2
  else b.

(** The invariant of the matching loops of the base engine for the
    incoming order [order]: the state is well formed and the order is in
    the store and rests on neither side. *)
Definition base_loop_inv (order : nat) (s : list Trade.t * BaseMatchingEngine.t)
  : Prop :=
  wf_base s.2
  ∧ (order < length (BaseMatchingEngine.objs s.2))%nat
  ∧ ¬ rests (BaseMatchingEngine.bids s.2) order
  ∧ ¬ rests (BaseMatchingEngine.asks s.2) order.

(** What is left of the incoming order, as a number of units. *)
Definition base_left (order : nat) (s : list Trade.t * BaseMatchingEngine.t)
  : nat :=
  Z.to_nat (Order.remaining_quantity (deref (BaseMatchingEngine.objs s.2) order)).

(** ** Well-formed sharded sides *)

(** The orders at price [p] of the shards, in the order in which
    [get_orders_at_best_price] collects them. *)
Definition shard_orders (sh : list OrderBookSide.t) (p : Z) : list nat :=
  flat_map (λ s, level_orders s p) sh.

(** The order object [a] rests in one of the shards. *)
Definition shard_rests (sh : list OrderBookSide.t) (a : nat) : Prop :=
  ∃ i s, sh !! i = Some s ∧ rests s a.

(** [p] is the best of the prices of the levels of the shards. *)
Definition shards_best_price (sd : OrderSide) (sh : list OrderBookSide.t)
    (p : Z) : Prop :=
  (∃ s, s ∈ sh ∧ is_Some (OrderBookSide.price_levels s !! p))
  ∧ ∀ q s, s ∈ sh → is_Some (OrderBookSide.price_levels s !! q) →
           OrderBookSide.heap_key sd p ≤ OrderBookSide.heap_key sd q.

(** The representation invariant of [ShardedOrderBookSide]: there are
    [num_shards] shards, at least one; each is a well-formed and live
    side of the same kind and holds the orders whose ids are routed to
    it; and a valid cache holds the best price. *)
Record wf_sharded_side (h : list Order.t) (b : ShardedOrderBookSide.t)
  : Prop := {
  wfs_length : length (ShardedOrderBookSide.shards b)
               = ShardedOrderBookSide.num_shards b;
  wfs_pos : (0 < ShardedOrderBookSide.num_shards b)%nat;
  wfs_wf : ∀ i s,
    ShardedOrderBookSide.shards b !! i = Some s → wf_side h s;
  wfs_live : ∀ i s,
    ShardedOrderBookSide.shards b !! i = Some s → live_side h s;
  wfs_side : ∀ i s,
    ShardedOrderBookSide.shards b !! i = Some s →
    OrderBookSide.side s = ShardedOrderBookSide.side b;
  wfs_index : ∀ i s a,
    ShardedOrderBookSide.shards b !! i = Some s → rests s a →
    ShardedOrderBookSide._get_shard_index (Order.order_id (deref h a)) b = i;
  wfs_cache : ∀ p,
    ShardedOrderBookSide._cache_valid b = true →
    ShardedOrderBookSide._best_price_cache b = Some p →
    shards_best_price (ShardedOrderBookSide.side b)
      (ShardedOrderBookSide.shards b) p
}.

(** The state of the sharded engine is well formed. *)
Record wf_sharded (e : ShardedMatchingEngine.t) : Prop := {
  wfse_bids : wf_sharded_side (ShardedMatchingEngine.objs e)
                (ShardedMatchingEngine.bids e);
  wfse_asks : wf_sharded_side (ShardedMatchingEngine.objs e)
                (ShardedMatchingEngine.asks e);
  wfse_bids_side :
    ShardedOrderBookSide.side (ShardedMatchingEngine.bids e) = BUY;
  wfse_asks_side :
    ShardedOrderBookSide.side (ShardedMatchingEngine.asks e) = SELL;
  wfse_ids : NoDup (Order.order_id <$> ShardedMatchingEngine.objs e)
}.

(** ** Well-formed states of the exchange engine *)

(** The disclosed quantity of an iceberg order is not negative, so
    that something of a resting order is visible. *)
Definition disclosed_ok (o : Order.t) : Prop :=
  Order.order_type o = ICEBERG →
  ∀ d, Order.disclosed_quantity o = Some d → 0 ≤ d.

(** The book is well formed; a pending stop order is filed under its
    id, rests on neither side and has something left to fill; so have
    the orders collected for the auction, which are neither resting nor
    pending; and the iceberg orders of the store are as above. *)
Record wf_nse (e : NSEMatchingEngine.t) : Prop := {
  wfn_book : wf_book (NSEMatchingEngine.objs e) (NSEMatchingEngine.bids e)
               (NSEMatchingEngine.asks e);
  wfn_pending : ∀ k a,
    (k, a) ∈ NSEMatchingEngine.pending_stop_orders e →
    (a < length (NSEMatchingEngine.objs e))%nat
    ∧ k = Order.order_id (deref (NSEMatchingEngine.objs e) a)
    ∧ ¬ rests (NSEMatchingEngine.bids e) a
    ∧ ¬ rests (NSEMatchingEngine.asks e) a
    ∧ 0 < Order.remaining_quantity (deref (NSEMatchingEngine.objs e) a);
  wfn_auction : ∀ a,
    a ∈ NSEMatchingEngine.auction_orders e →
    (a < length (NSEMatchingEngine.objs e))%nat
    ∧ ¬ rests (NSEMatchingEngine.bids e) a
    ∧ ¬ rests (NSEMatchingEngine.asks e) a
    ∧ (a ∉ (NSEMatchingEngine.pending_stop_orders e).*2)
    ∧ 0 < Order.remaining_quantity (deref (NSEMatchingEngine.objs e) a);
  wfn_auction_nodup : NoDup (NSEMatchingEngine.auction_orders e);
  wfn_disclosed : ∀ a, disclosed_ok (deref (NSEMatchingEngine.objs e) a)
}.

(** ** The engines and their [cancel_order]

    [AdaptiveMatchingEngine] inherits [cancel_order] from
    [BaseMatchingEngine], and the method of
    [ShardedAdaptiveMatchingEngine] has the body of the one of
    [ShardedMatchingEngine]. *)
Inductive engine :=
| Base (e : BaseMatchingEngine.t)
| Sharded (e : ShardedMatchingEngine.t)
| NSE (e : NSEMatchingEngine.t).

Definition cancel (id : string) (e : engine) : bool * engine :=
  match e with
  | Base e => prod_map (λ r : bool, r) Base (BaseMatchingEngine.cancel_order id e)
  | Sharded e => prod_map (λ r : bool, r) Sharded (ShardedMatchingEngine.cancel_order id e)
  | NSE e => prod_map (λ r : bool, r) NSE (NSEMatchingEngine.cancel_order id e)
  end.

Definition store (e : engine) : list Order.t :=
  match e with
  | Base e => BaseMatchingEngine.objs e
  | Sharded e => ShardedMatchingEngine.objs e
  | NSE e => NSEMatchingEngine.objs e
  end.

(** The engine holds the order object [a]: it rests in the book or is a
    pending stop order. *)
Definition held (e : engine) (a : nat) : Prop :=
  match e with
  | Base e =>
      rests (BaseMatchingEngine.bids e) a ∨ rests (BaseMatchingEngine.asks e) a
  | Sharded e =>
      shard_rests
        (ShardedOrderBookSide.shards (ShardedMatchingEngine.bids e)) a
      ∨ shard_rests
          (ShardedOrderBookSide.shards (ShardedMatchingEngine.asks e)) a
  | NSE e =>
      rests (NSEMatchingEngine.bids e) a
      ∨ rests (NSEMatchingEngine.asks e) a
      ∨ a ∈ (NSEMatchingEngine.pending_stop_orders e).*2
  end.

(** The engine holds an order with the id [id]. *)
Definition holds_id (e : engine) (id : string) : Prop :=
  ∃ a, held e a ∧ Order.order_id (deref (store e) a) = id.

(** Well-formed engines whose cancellation is synchronous. *)
Definition wf_engine (e : engine) : Prop :=
  match e with
  | Base e => wf_base e
  | Sharded e => wf_sharded e
  | NSE e => wf_nse e ∧ NSEMatchingEngine.async_cancel e = false
  end.

(** The sharded side after [get_best_price] has cached [best]. *)
Definition with_cache (best : option Z) (b : ShardedOrderBookSide.t)
  : ShardedOrderBookSide.t :=
  ShardedOrderBookSide.mk (ShardedOrderBookSide.side b)
    (ShardedOrderBookSide.num_shards b) (ShardedOrderBookSide.shards b)
    best true (ShardedOrderBookSide.total_orders b)
    (ShardedOrderBookSide.total_cancellations b).

(** The invariant of the matching loops of the sharded engine for the
    incoming order [order]. *)
Definition sharded_loop_inv (order : nat)
    (s : list Trade.t * ShardedMatchingEngine.t) : Prop :=
  wf_sharded s.2
  ∧ (order < length (ShardedMatchingEngine.objs s.2))%nat
  ∧ ¬ shard_rests
        (ShardedOrderBookSide.shards (ShardedMatchingEngine.bids s.2)) order
  ∧ ¬ shard_rests
        (ShardedOrderBookSide.shards (ShardedMatchingEngine.asks s.2)) order.

Definition sharded_left (order : nat)
    (s : list Trade.t * ShardedMatchingEngine.t) : nat :=
  Z.to_nat
    (Order.remaining_quantity (deref (ShardedMatchingEngine.objs s.2) order)).

(** ** The base engine and the sharded engine side by side *)






(** ** The states that the engines reach *)

(** An order as its constructor builds it, before any fill. *)
Definition new_order (o : Order.t) : Prop :=
  Order.post_init o = true ∧ Order.filled_quantity o = 0.

(** The exchange engine neither holds the order object [x] nor has it
    among the orders collected for the auction. *)
Definition nse_free (e : NSEMatchingEngine.t) (x : nat) : Prop :=
  (x < length (NSEMatchingEngine.objs e))%nat
  ∧ ¬ held (NSE e) x
  ∧ x ∉ NSEMatchingEngine.auction_orders e.

(** What matching changes of the exchange engine: the store keeps its
    length and the ids of its objects, nothing is added to the book or
    to the pending stop orders, and the orders collected for the auction
    and the cancellation mode are the same. *)
Definition nse_step (e e' : NSEMatchingEngine.t) : Prop :=
  length (NSEMatchingEngine.objs e') = length (NSEMatchingEngine.objs e)
  ∧ Order.order_id <$> NSEMatchingEngine.objs e'
    = Order.order_id <$> NSEMatchingEngine.objs e
  ∧ (∀ y, held (NSE e') y → held (NSE e) y)
  ∧ NSEMatchingEngine.auction_orders e' = NSEMatchingEngine.auction_orders e
  ∧ NSEMatchingEngine.async_cancel e' = NSEMatchingEngine.async_cancel e.

(** The states reached from a new engine by the calls of its methods:
    orders are new and have new ids, and the exchange engine is built
    without [async_cancel]. *)
Inductive reachable : engine → Prop :=
| reach_base_new : reachable (Base BaseMatchingEngine.new)
| reach_base_submit fuel o e trades e' :
    reachable (Base e) →
    Order.order_id o ∉ Order.order_id <$> BaseMatchingEngine.objs e →
    BaseMatchingEngine.submit fuel o e = Some (trades, e') →
    reachable (Base e')
| reach_sharded_new n : reachable (Sharded (ShardedMatchingEngine.new n))
| reach_sharded_submit fuel o e trades e' :
    reachable (Sharded e) →
    Order.order_id o ∉ Order.order_id <$> ShardedMatchingEngine.objs e →
    ShardedMatchingEngine.submit fuel o e = Some (trades, e') →
    reachable (Sharded e')
| reach_nse_new sym tick cb band :
    reachable (NSE (NSEMatchingEngine.new sym tick cb band false))
| reach_nse_submit fuel now o e trades e' :
    reachable (NSE e) →
    new_order o →
    Order.order_id o ∉ Order.order_id <$> NSEMatchingEngine.objs e →
    NSEMatchingEngine.submit fuel now o e = Some (trades, e') →
    reachable (NSE e')
| reach_nse_set_reference_price p e :
    reachable (NSE e) →
    reachable (NSE (NSEMatchingEngine.set_reference_price p e))
| reach_nse_set_trading_phase ph e :
    reachable (NSE e) →
    reachable (NSE (NSEMatchingEngine.set_trading_phase ph e))
| reach_nse_resume_trading e :
    reachable (NSE e) →
    reachable (NSE (NSEMatchingEngine.resume_trading e))
| reach_nse_execute_call_auction e trades e' :
    reachable (NSE e) →
    NSEMatchingEngine.execute_call_auction e = Some (trades, e') →
    reachable (NSE e')
| reach_cancel id e :
    reachable e → reachable (cancel id e).2.

(** The orders [l] collected for the auction can be moved to the book
    of [e]: they are in the store, distinct, and neither resting nor
    pending; and, unless only the unfilled ones are moved, something of
    each remains to fill. *)
Definition auction_ready (unfilled_only : bool) (e : NSEMatchingEngine.t)
    (l : list nat) : Prop :=
  NoDup l
  ∧ ∀ a, a ∈ l →
         (a < length (NSEMatchingEngine.objs e))%nat
         ∧ ¬ rests (NSEMatchingEngine.bids e) a
         ∧ ¬ rests (NSEMatchingEngine.asks e) a
         ∧ (a ∉ (NSEMatchingEngine.pending_stop_orders e).*2)
         ∧ (unfilled_only = false →
            0 < Order.remaining_quantity (deref (NSEMatchingEngine.objs e) a)).

(** The invariant of the loop of [_execute_auction_at_price] on the
    orders [l] collected for the auction. *)
Definition auction_inv (l : list nat) (async : bool)
    (s : list nat * list nat * list Trade.t * NSEMatchingEngine.t) : Prop :=
  wf_nse (NSEMatchingEngine.set_auction_orders [] s.2)
  ∧ auction_ready true s.2 l
  ∧ (∀ a, a ∈ s.1.1.1 ∨ a ∈ s.1.1.2 → a ∈ l)
  ∧ NSEMatchingEngine.auction_orders s.2 = l
  ∧ NSEMatchingEngine.async_cancel s.2 = async.

(** * Accounts of the matching loops *)

(** The key of the price of the order [a] in the heap of a side [sd]:
    the keys of better prices are smaller. *)
Definition price_key (sd : OrderSide) (h : list Order.t) (a : nat) : Z :=
  OrderBookSide.heap_key sd (Order.price (deref h a)).

(** The quantities of the fills [fs], each a resting order and a
    quantity: their total, and the total of those of the order [y]. *)
Definition fills_total (fs : list (nat * Z)) : Z := foldr Z.add 0 fs.*2.

Definition filled_of (y : nat) (fs : list (nat * Z)) : Z :=
  fills_total (filter (λ f, f.1 = y) fs).

(** The account of a matching loop.  The incoming order [x] was matched
    against the orders that rested on a side [sd] of the book, those of
    [R0], in the store [h0]; the fills are [fs], in the order in which
    they took place; [h] is the store and [R] are the resting orders
    afterwards. *)
Record match_account (sd : OrderSide) (h0 : list Order.t) (R0 : nat → Prop)
    (x : nat) (fs : list (nat * Z)) (h : list Order.t) (R : nat → Prop)
  : Prop := {
  ma_fills : fills_only h0 h;
  ma_resting : ∀ f, f ∈ fs →
    R0 f.1 ∧ f.1 ≠ x ∧ 0 < f.2
    ∧ (Order.order_type (deref h0 x) = MARKET
       ∨ price_key sd h0 f.1 ≤ price_key sd h0 x);
  ma_incoming :
    Order.remaining_quantity (deref h x)
    = Order.remaining_quantity (deref h0 x) - fills_total fs;
  ma_others : ∀ y, y ≠ x →
    Order.remaining_quantity (deref h y)
    = Order.remaining_quantity (deref h0 y) - filled_of y fs;
  ma_nonneg : ∀ y,
    0 ≤ Order.remaining_quantity (deref h0 y) →
    0 ≤ Order.remaining_quantity (deref h y);
  ma_shrink : ∀ a, R a → R0 a;
  ma_kept : ∀ a, R0 a → a ∉ fs.*1 → R a;
  ma_best_first : ∀ f a, f ∈ fs → R a →
    price_key sd h0 f.1 ≤ price_key sd h0 a;
  ma_sorted :
    StronglySorted (λ f f', price_key sd h0 f.1 ≤ price_key sd h0 f'.1) fs
}.

(** The fills are whole: an order is matched once, and it stays in the
    book only when the incoming order [x] is filled. *)
Record whole_fills (x : nat) (fs : list (nat * Z)) (h : list Order.t)
    (R : nat → Prop) : Prop := {
  wh_nodup : NoDup fs.*1;
  wh_partial : ∀ f, f ∈ fs → R f.1 →
    Order.remaining_quantity (deref h x) = 0
}.

(** Where the loop stops: if something is left of the order [x], it is
    no market order and every resting order is priced beyond its
    limit. *)
Definition match_exit (sd : OrderSide) (x : nat) (h : list Order.t)
    (R : nat → Prop) : Prop :=
  0 < Order.remaining_quantity (deref h x) →
  ∀ a, R a →
       Order.order_type (deref h x) ≠ MARKET
       ∧ price_key sd h x < price_key sd h a.

(** The trade that the base and the sharded engine record for the fill
    [f] of the incoming order [x]. *)
Definition fill_trade (h : list Order.t) (x : nat) (f : nat * Z) : Trade.t :=
  match Order.side (deref h x) with
  | BUY => Trade.create_trade (deref h x) (deref h f.1) f.2
  | SELL => Trade.create_trade (deref h f.1) (deref h x) f.2
  end.

(** No bid is priced at or above an ask. *)
Definition uncrossed (h : list Order.t) (Rb Ra : nat → Prop) : Prop :=
  ∀ b a, Rb b → Ra a → Order.price (deref h b) < Order.price (deref h a).

(** Only limit orders rest. *)
Definition resting_limit (h : list Order.t) (R : nat → Prop) : Prop :=
  ∀ a, R a → Order.order_type (deref h a) = LIMIT.

(** The states of the base engine that the loops keep: well formed,
    not crossed, and with limit orders only in the book. *)
Record sound_base (e : BaseMatchingEngine.t) : Prop := {
  sb_wf : wf_base e;
  sb_uncrossed :
    uncrossed (BaseMatchingEngine.objs e)
      (rests (BaseMatchingEngine.bids e)) (rests (BaseMatchingEngine.asks e));
  sb_bids_limit :
    resting_limit (BaseMatchingEngine.objs e)
      (rests (BaseMatchingEngine.bids e));
  sb_asks_limit :
    resting_limit (BaseMatchingEngine.objs e)
      (rests (BaseMatchingEngine.asks e))
}.

(** The same for the sharded engine. *)
Record sound_sharded (e : ShardedMatchingEngine.t) : Prop := {
  ss_wf : wf_sharded e;
  ss_uncrossed :
    uncrossed (ShardedMatchingEngine.objs e)
      (shard_rests (ShardedOrderBookSide.shards (ShardedMatchingEngine.bids e)))
      (shard_rests (ShardedOrderBookSide.shards (ShardedMatchingEngine.asks e)));
  ss_bids_limit :
    resting_limit (ShardedMatchingEngine.objs e)
      (shard_rests (ShardedOrderBookSide.shards (ShardedMatchingEngine.bids e)));
  ss_asks_limit :
    resting_limit (ShardedMatchingEngine.objs e)
      (shard_rests (ShardedOrderBookSide.shards (ShardedMatchingEngine.asks e)))
}.

(** The invariants of the matching loops of the base engine for the
    incoming order [x], started in the state [e]: the loop invariant
    and the account of the fills so far. *)
Definition base_buy_account (x : nat) (e : BaseMatchingEngine.t)
    (s : list Trade.t * BaseMatchingEngine.t) : Prop :=
  ∃ fs,
    base_loop_inv x s
    ∧ s.1 = (λ f, Trade.create_trade (deref (BaseMatchingEngine.objs e) x)
                    (deref (BaseMatchingEngine.objs e) f.1) f.2) <$> fs
    ∧ BaseMatchingEngine.bids s.2 = BaseMatchingEngine.bids e
    ∧ BaseMatchingEngine.trade_history s.2 = BaseMatchingEngine.trade_history e
    ∧ BaseMatchingEngine.order_history s.2 = BaseMatchingEngine.order_history e
    ∧ match_account SELL (BaseMatchingEngine.objs e)
        (rests (BaseMatchingEngine.asks e)) x fs
        (BaseMatchingEngine.objs s.2) (rests (BaseMatchingEngine.asks s.2))
    ∧ whole_fills x fs (BaseMatchingEngine.objs s.2)
        (rests (BaseMatchingEngine.asks s.2)).

Definition base_sell_account (x : nat) (e : BaseMatchingEngine.t)
    (s : list Trade.t * BaseMatchingEngine.t) : Prop :=
  ∃ fs,
    base_loop_inv x s
    ∧ s.1 = (λ f, Trade.create_trade (deref (BaseMatchingEngine.objs e) f.1)
                    (deref (BaseMatchingEngine.objs e) x) f.2) <$> fs
    ∧ BaseMatchingEngine.asks s.2 = BaseMatchingEngine.asks e
    ∧ BaseMatchingEngine.trade_history s.2 = BaseMatchingEngine.trade_history e
    ∧ BaseMatchingEngine.order_history s.2 = BaseMatchingEngine.order_history e
    ∧ match_account BUY (BaseMatchingEngine.objs e)
        (rests (BaseMatchingEngine.bids e)) x fs
        (BaseMatchingEngine.objs s.2) (rests (BaseMatchingEngine.bids s.2))
    ∧ whole_fills x fs (BaseMatchingEngine.objs s.2)
        (rests (BaseMatchingEngine.bids s.2)).

(** The side of the book against which an order of the side [sd] is
    matched. *)
Definition other_side (sd : OrderSide) : OrderSide :=
  match sd with BUY => SELL | SELL => BUY end.

(** The orders that rest on the side [sd] of the book of an engine. *)
Definition base_rests (e : BaseMatchingEngine.t) (sd : OrderSide)
  : nat → Prop :=
  match sd with
  | BUY => rests (BaseMatchingEngine.bids e)
  | SELL => rests (BaseMatchingEngine.asks e)
  end.

Definition sharded_rests (e : ShardedMatchingEngine.t) (sd : OrderSide)
  : nat → Prop :=
  match sd with
  | BUY =>
      shard_rests (ShardedOrderBookSide.shards (ShardedMatchingEngine.bids e))
  | SELL =>
      shard_rests (ShardedOrderBookSide.shards (ShardedMatchingEngine.asks e))
  end.

(** The account of [add_order] for the order [x]: the trades record
    the fills of a matching loop on the other side of the book, where
    the loop stopped as [match_exit] says; and on its own side the
    order was added to the resting ones if it is a limit order of which
    something is left. *)
Definition order_account_of (fs : list (nat * Z)) (h0 : list Order.t)
    (R0 : OrderSide → nat → Prop) (x : nat) (trades : list Trade.t)
    (h : list Order.t) (R : OrderSide → nat → Prop) : Prop :=
  let sd := Order.side (deref h0 x) in
  let opp := other_side sd in
  trades = fill_trade h0 x <$> fs
  ∧ match_account opp h0 (R0 opp) x fs h (R opp)
  ∧ whole_fills x fs h (R opp)
  ∧ match_exit opp x h (R opp)
  ∧ ∀ y, R sd y
         ↔ R0 sd y
           ∨ (y = x
              ∧ 0 < Order.remaining_quantity (deref h x)
              ∧ Order.order_type (deref h x) = LIMIT).

Definition order_account (h0 : list Order.t) (R0 : OrderSide → nat → Prop)
    (x : nat) (trades : list Trade.t) (h : list Order.t)
    (R : OrderSide → nat → Prop) : Prop :=
  ∃ fs, order_account_of fs h0 R0 x trades h R.

(** The fills take the oldest order first: no order left in the book
    at the price of a filled order has a smaller timestamp. *)
Definition time_first (h0 : list Order.t) (fs : list (nat * Z))
    (R : nat → Prop) : Prop :=
  ∀ f a, f ∈ fs → R a →
         Order.price (deref h0 a) = Order.price (deref h0 f.1) →
         Order.timestamp (deref h0 f.1) ≤ Order.timestamp (deref h0 a).

(** The invariants of the matching loops of the sharded engine for the
    incoming order [x], started in the state [e]. *)
Definition sharded_buy_account (x : nat) (e : ShardedMatchingEngine.t)
    (s : list Trade.t * ShardedMatchingEngine.t) : Prop :=
  ∃ fs,
    sharded_loop_inv x s
    ∧ s.1 = (λ f, Trade.create_trade (deref (ShardedMatchingEngine.objs e) x)
                    (deref (ShardedMatchingEngine.objs e) f.1) f.2) <$> fs
    ∧ ShardedMatchingEngine.bids s.2 = ShardedMatchingEngine.bids e
    ∧ ShardedMatchingEngine.num_shards s.2 = ShardedMatchingEngine.num_shards e
    ∧ ShardedMatchingEngine.trade_history s.2
      = ShardedMatchingEngine.trade_history e
    ∧ ShardedMatchingEngine.order_history s.2
      = ShardedMatchingEngine.order_history e
    ∧ match_account SELL (ShardedMatchingEngine.objs e) (sharded_rests e SELL)
        x fs (ShardedMatchingEngine.objs s.2) (sharded_rests s.2 SELL)
    ∧ whole_fills x fs (ShardedMatchingEngine.objs s.2)
        (sharded_rests s.2 SELL)
    ∧ time_first (ShardedMatchingEngine.objs e) fs (sharded_rests s.2 SELL).

Definition sharded_sell_account (x : nat) (e : ShardedMatchingEngine.t)
    (s : list Trade.t * ShardedMatchingEngine.t) : Prop :=
  ∃ fs,
    sharded_loop_inv x s
    ∧ s.1 = (λ f, Trade.create_trade
                    (deref (ShardedMatchingEngine.objs e) f.1)
                    (deref (ShardedMatchingEngine.objs e) x) f.2) <$> fs
    ∧ ShardedMatchingEngine.asks s.2 = ShardedMatchingEngine.asks e
    ∧ ShardedMatchingEngine.num_shards s.2 = ShardedMatchingEngine.num_shards e
    ∧ ShardedMatchingEngine.trade_history s.2
      = ShardedMatchingEngine.trade_history e
    ∧ ShardedMatchingEngine.order_history s.2
      = ShardedMatchingEngine.order_history e
    ∧ match_account BUY (ShardedMatchingEngine.objs e) (sharded_rests e BUY)
        x fs (ShardedMatchingEngine.objs s.2) (sharded_rests s.2 BUY)
    ∧ whole_fills x fs (ShardedMatchingEngine.objs s.2)
        (sharded_rests s.2 BUY)
    ∧ time_first (ShardedMatchingEngine.objs e) fs (sharded_rests s.2 BUY).

(** The quantity that the trades record for the order with the id
    [id], as its buyer or as its seller. *)
Definition traded_quantity (id : string) (trades : list Trade.t) : Z :=
  foldr Z.add 0
    (Trade.quantity
     <$> filter (λ t, Trade.buy_order_id t = id ∨ Trade.sell_order_id t = id)
           trades).

(** ** The depth of a side *)

(** The side [sd] of the book of the base engine. *)
Definition base_side (e : BaseMatchingEngine.t) (sd : OrderSide)
  : OrderBookSide.t :=
  match sd with
  | BUY => BaseMatchingEngine.bids e
  | SELL => BaseMatchingEngine.asks e
  end.

(** The heap of a side lists each price once. *)
Definition heaps_nodup (e : BaseMatchingEngine.t) : Prop :=
  NoDup (OrderBookSide.heap (BaseMatchingEngine.bids e))
  ∧ NoDup (OrderBookSide.heap (BaseMatchingEngine.asks e)).

(** The entry of [get_depth] for the key [k] of the heap. *)
Definition depth_entry (b : OrderBookSide.t) (k : Z) : option (Z * Z) :=
  let price := OrderBookSide.heap_key (OrderBookSide.side b) k in
  match OrderBookSide.price_levels b !! price with
  | Some l =>
      if negb (PriceLevel.is_empty l)
      then Some (price, PriceLevel.total_volume l)
      else None
  | None => None
  end.

(** ** The sides of the sharded engine *)

(** The side [sd] of the book of the sharded engine. *)
Definition sharded_side (e : ShardedMatchingEngine.t) (sd : OrderSide)
  : ShardedOrderBookSide.t :=
  match sd with
  | BUY => ShardedMatchingEngine.bids e
  | SELL => ShardedMatchingEngine.asks e
  end.

(** ** The calls on a price level *)

(** A call of a method of a price level, with the store at the time of
    the call. *)
Inductive level_call :=
| CallSetRegime (r : MarketRegime)
| CallAddOrder (h : list Order.t) (order : nat)
| CallRemoveOrder (h : list Order.t) (order : nat)
| CallGetTopOrder (h : list Order.t).

(** The call on an [AdaptivePriceLevel]. *)
Definition adaptive_call (lv : AdaptivePriceLevel.level) (c : level_call)
  : AdaptivePriceLevel.level :=
  match c with
  | CallSetRegime r => AdaptivePriceLevel.set_level_regime r lv
  | CallAddOrder h a => AdaptivePriceLevel.add_order h a lv
  | CallRemoveOrder h a => (AdaptivePriceLevel.remove_order h a lv).2
  | CallGetTopOrder h => (AdaptivePriceLevel.get_top_order h lv).2
  end.

(** The call on a [PriceLevel], which has no regime. *)
Definition plain_call (l : PriceLevel.t) (c : level_call) : PriceLevel.t :=
  match c with
  | CallSetRegime _ => l
  | CallAddOrder h a => PriceLevel.add_order h a l
  | CallRemoveOrder h a => (PriceLevel.remove_order h a l).2
  | CallGetTopOrder _ => l
  end.

(** ** The counters of the exchange engine *)

(** The counters count the entries of the histories. *)
Definition nse_counts (e : NSEMatchingEngine.t) : Prop :=
  NSEMatchingEngine.total_trades e
  = length (NSEMatchingEngine.trade_history e)
  ∧ NSEMatchingEngine.total_orders_processed e
    = length (NSEMatchingEngine.order_history e).

(** ** Conservation of quantity *)

(** The orders of the store [h] have filled what the trades [ts] record
    for their ids, and no more than their quantity; and the trades are
    between orders of the store. *)
Definition conserved (h : list Order.t) (ts : list Trade.t) : Prop :=
  (∀ y, (y < length h)%nat →
        Order.filled_quantity (deref h y)
        = traded_quantity (Order.order_id (deref h y)) ts
        ∧ 0 ≤ Order.filled_quantity (deref h y) ≤ Order.quantity (deref h y))
  ∧ ∀ t, t ∈ ts →
         Trade.buy_order_id t ∈ Order.order_id <$> h
         ∧ Trade.sell_order_id t ∈ Order.order_id <$> h.

(** The same for the exchange engine: the trades are those of its
    history and the trades [pend] that a call of [_match_order] has
    still to add to it. *)
Definition nse_conserved (pend : list Trade.t) (e : NSEMatchingEngine.t)
  : Prop :=
  conserved (NSEMatchingEngine.objs e)
    (NSEMatchingEngine.trade_history e ++ pend).

(** ** The statistics of a sharded side *)

(** The number of the orders that the shards have in their
    [order_map]s. *)
Definition shard_order_count (b : ShardedOrderBookSide.t) : nat :=
  sum_list_with (λ s, size (OrderBookSide.order_map s))
    (ShardedOrderBookSide.shards b).

(** The counters of a side count the orders that came and went. *)
Definition side_counts (b : ShardedOrderBookSide.t) : Prop :=
  ShardedOrderBookSide.total_orders b
  = (ShardedOrderBookSide.total_cancellations b + shard_order_count b)%nat.

Definition sharded_counts (e : ShardedMatchingEngine.t) : Prop :=
  side_counts (ShardedMatchingEngine.bids e)
  ∧ side_counts (ShardedMatchingEngine.asks e).

(** ** The sides of the exchange engine *)

(** The side [sd] of the book of the exchange engine. *)
Definition nse_side (e : NSEMatchingEngine.t) (sd : OrderSide)
  : OrderBookSide.t :=
  match sd with
  | BUY => NSEMatchingEngine.bids e
  | SELL => NSEMatchingEngine.asks e
  end.

(** * Properties *)

(** ** [while] loops *)

Section while_loop.

Context {S : Type} (pass : S → S + S).

(** More fuel does not change a result. *)
Lemma while_loop_fuel_mono (fuel fuel' : nat) s r :
  (fuel ≤ fuel')%nat →
  while_loop pass fuel s = Some r → while_loop pass fuel' s = Some r.
Proof.
  revert fuel' s.
  induction fuel as [|fuel IH]; intros fuel' s Hle H; [done|].
  destruct fuel' as [|fuel']; [lia|]. simpl in *.
  destruct (pass s); [done|]. apply IH; [lia|done].
Qed.

(** An invariant of the passes holds when the loop is left. *)
Lemma while_loop_invariant (I Q : S → Prop) fuel s r :
  (∀ s s', I s → pass s = inr s' → I s') →
  (∀ s s', I s → pass s = inl s' → Q s') →
  I s → while_loop pass fuel s = Some r → Q r.
Proof.
  intros Hstep Hexit. revert s.
  induction fuel as [|fuel IH]; intros s HI H; [done|]. simpl in H.
  destruct (pass s) as [s'|s'] eqn:E.
  - injection H as <-. by eapply Hexit.
  - eapply IH; [|exact H]. by eapply Hstep.
Qed.

(** A measure that every pass decreases bounds the fuel that the loop
    needs. *)
Lemma while_loop_total (I : S → Prop) (m : S → nat) fuel s :
  (∀ s s', I s → pass s = inr s' → I s' ∧ (m s' < m s)%nat) →
  I s → (m s < fuel)%nat → is_Some (while_loop pass fuel s).
Proof.
  intros Hstep. revert s.
  induction fuel as [|fuel IH]; intros s HI Hm; [lia|]. simpl.
  destruct (pass s) as [s'|s'] eqn:E; [done|].
  destruct (Hstep _ _ HI E) as [HI' Hm']. apply IH; [done|lia].
Qed.

End while_loop.


(** ** More fuel does not change a result *)

Lemma base_add_order_fuel_mono (fuel fuel' : nat) order e r :
  (fuel ≤ fuel')%nat →
  BaseMatchingEngine.add_order fuel order e = Some r →
  BaseMatchingEngine.add_order fuel' order e = Some r.
Proof.
  intros Hle. unfold BaseMatchingEngine.add_order.
  unfold BaseMatchingEngine._match_buy_order,
    BaseMatchingEngine._match_sell_order.
  destruct (Order.side _); simpl;
    destruct (while_loop _ fuel _) eqn:E; try done;
    by rewrite (while_loop_fuel_mono _ _ _ _ _ Hle E).
Qed.

Lemma base_submit_fuel_mono (fuel fuel' : nat) o e r :
  (fuel ≤ fuel')%nat →
  BaseMatchingEngine.submit fuel o e = Some r →
  BaseMatchingEngine.submit fuel' o e = Some r.
Proof. unfold BaseMatchingEngine.submit. simpl. apply base_add_order_fuel_mono. Qed.

Lemma run_base_fuel_mono (fuel fuel' : nat) os e r :
  (fuel ≤ fuel')%nat →
  Scenario.run_base fuel os e = Some r →
  Scenario.run_base fuel' os e = Some r.
Proof.
  intros Hle. revert e r.
  induction os as [|o os IH]; intros e r; simpl; [done|].
  destruct (BaseMatchingEngine.submit fuel o e) as [[tr e']|] eqn:E; [|done].
  rewrite (base_submit_fuel_mono _ _ _ _ _ Hle E).
  destruct (Scenario.run_base fuel os e') as [[out e'']|] eqn:E2; [|done].
  by rewrite (IH _ _ E2).
Qed.


Lemma process_triggered_mono
    (f g : nat → NSEMatchingEngine.t
           → option (list Trade.t * NSEMatchingEngine.t))
    triggered e r :
  (∀ o e' r', f o e' = Some r' → g o e' = Some r') →
  NSEMatchingEngine.process_triggered f triggered e = Some r →
  NSEMatchingEngine.process_triggered g triggered e = Some r.
Proof.
  intros Hfg. revert e.
  induction triggered as [|o l IH]; intros e; simpl; [done|].
  destruct (f o _) as [[tr e2]|] eqn:E; [|done].
  rewrite (Hfg _ _ _ E). apply IH.
Qed.

Lemma nse_match_order_fuel_mono (fuel fuel' : nat) order e r :
  (fuel ≤ fuel')%nat →
  NSEMatchingEngine._match_order fuel order e = Some r →
  NSEMatchingEngine._match_order fuel' order e = Some r.
Proof.
  revert fuel' order e r.
  induction fuel as [|fuel IH]; intros fuel' order e r Hle H; [done|].
  destruct fuel' as [|fuel']; [lia|].
  simpl in *.
  assert (Hle' : (fuel ≤ fuel')%nat) by lia.
  set (m := match Order.side (deref (NSEMatchingEngine.objs e) order) with
            | BUY => NSEMatchingEngine._match_buy_order fuel order e
            | SELL => NSEMatchingEngine._match_sell_order fuel order e
            end) in *.
  set (m' := match Order.side (deref (NSEMatchingEngine.objs e) order) with
             | BUY => NSEMatchingEngine._match_buy_order fuel' order e
             | SELL => NSEMatchingEngine._match_sell_order fuel' order e
             end).
  destruct m as [[trades e1]|] eqn:Em; [|done].
  assert (Em' : m' = Some (trades, e1)).
  { subst m m'. destruct (Order.side _).
    - by apply (while_loop_fuel_mono _ fuel).
    - by apply (while_loop_fuel_mono _ fuel). }
  rewrite Em'.
  destruct (last trades) as [tr|]; [|done].
  unfold NSEMatchingEngine._check_pending_stop_orders_with in *.
  destruct (NSEMatchingEngine.split_triggered _) as [triggered pending].
  destruct (NSEMatchingEngine.process_triggered
              (NSEMatchingEngine._match_order fuel) _ _) as [e4|] eqn:E4;
    [|done].
  erewrite process_triggered_mono; [exact H| |exact E4].
  intros o e' r'. by apply IH.
Qed.

Lemma nse_handle_continuous_fuel_mono (fuel fuel' : nat) order e r :
  (fuel ≤ fuel')%nat →
  NSEMatchingEngine._handle_continuous_order fuel order e = Some r →
  NSEMatchingEngine._handle_continuous_order fuel' order e = Some r.
Proof.
  intros Hle. unfold NSEMatchingEngine._handle_continuous_order,
    NSEMatchingEngine._handle_stop_loss_order,
    NSEMatchingEngine._handle_fok_order.
  destruct (bool_decide (_ ∈ _)).
  - destruct (NSEMatchingEngine._is_stop_triggered _ _); [|done].
    by apply nse_match_order_fuel_mono.
  - destruct (bool_decide (_ = FOK)).
    + destruct (_ <=? _); [|done]. by apply nse_match_order_fuel_mono.
    + destruct (NSEMatchingEngine._match_order fuel order e)
        as [[tr e1]|] eqn:E; [|done].
      by rewrite (nse_match_order_fuel_mono _ _ _ _ _ Hle E).
Qed.

Lemma nse_process_order_fuel_mono (fuel fuel' : nat) now order e r :
  (fuel ≤ fuel')%nat →
  NSEMatchingEngine.process_order fuel now order e = Some r →
  NSEMatchingEngine.process_order fuel' now order e = Some r.
Proof.
  intros Hle. unfold NSEMatchingEngine.process_order.
  repeat (case_match; try done);
    by apply nse_handle_continuous_fuel_mono.
Qed.

Lemma nse_submit_fuel_mono (fuel fuel' : nat) now o e r :
  (fuel ≤ fuel')%nat →
  NSEMatchingEngine.submit fuel now o e = Some r →
  NSEMatchingEngine.submit fuel' now o e = Some r.
Proof.
  unfold NSEMatchingEngine.submit. simpl. apply nse_process_order_fuel_mono.
Qed.

Lemma run_nse_fuel_mono (fuel fuel' : nat) now os e r :
  (fuel ≤ fuel')%nat →
  Scenario.run_nse fuel now os e = Some r →
  Scenario.run_nse fuel' now os e = Some r.
Proof.
  intros Hle. revert e r.
  induction os as [|o os IH]; intros e r; simpl; [done|].
  destruct (NSEMatchingEngine.submit fuel now o e) as [[tr e']|] eqn:E;
    [|done].
  rewrite (nse_submit_fuel_mono _ _ _ _ _ _ Hle E).
  destruct (Scenario.run_nse fuel now os e') as [[out e'']|] eqn:E2; [|done].
  by rewrite (IH _ _ E2).
Qed.

(** ** Scenarios evaluated on the engines *)

(** C9: BUY b1 @100 qty 100, BUY b2 @100 qty 200 and SELL s1 @100 qty 150,
    processed in this order by the base engine with enough fuel, give no
    trade for the two buys and then the trades (b1, s1, 100, 100) and
    (b2, s1, 100, 50) in this order; afterwards b1 is fully filled and no
    longer in the book, and b2 is the only order resting at 100 on the bid
    side, with remaining quantity 150. *)
Theorem C9_fifo_at_same_price (k : nat) :
  ∃ e,
    Scenario.run_base (3 + k)
      [Scenario.s1_b1; Scenario.s1_b2; Scenario.s1_s1]
      BaseMatchingEngine.new
    = Some ([ []; [];
              [ Trade.mk "b1" "s1" 100 100; Trade.mk "b2" "s1" 100 50 ] ],
            e)
    ∧ Order.order_id (deref (BaseMatchingEngine.objs e) 0) = "b1"
    ∧ Order.remaining_quantity (deref (BaseMatchingEngine.objs e) 0) = 0
    ∧ OrderBookSide.order_map (BaseMatchingEngine.bids e) !! "b1" = None
    ∧ OrderBookSide.order_map (BaseMatchingEngine.bids e) !! "b2"
      = Some 1%nat
    ∧ PriceLevel.orders
        <$> OrderBookSide.price_levels (BaseMatchingEngine.bids e) !! 100
      = Some [1%nat]
    ∧ Order.remaining_quantity (deref (BaseMatchingEngine.objs e) 1) = 150
    ∧ OrderBookSide.price_levels (BaseMatchingEngine.asks e) = ∅.
Proof.
  eexists. split.
  - eapply (run_base_fuel_mono 3); [lia|]. vm_compute. reflexivity.
  - vm_compute. repeat split; reflexivity.
Qed.

(** C1, at the input where the base engine departs from it: a buy limit
    order b1 rests at 105 and a sell limit order s1 arrives at 100.  The
    one trade is priced 100, the price of the incoming sell order, and not
    105, the price of the resting buy order: [Trade.create_trade] takes
    the sell order's price whenever neither order is a market order. *)
Theorem C1_limit_sell_against_resting_buy (k : nat) :
  ∃ e,
    Scenario.run_base (2 + k) [Scenario.cross_buy; Scenario.cross_sell]
      BaseMatchingEngine.new
    = Some ([ []; [ Trade.mk "b1" "s1" 100 10 ] ], e)
    ∧ Order.price Scenario.cross_buy = 105
    ∧ Order.price Scenario.cross_sell = 100.
Proof.
  eexists. split.
  - eapply (run_base_fuel_mono 2); [lia|]. vm_compute. reflexivity.
  - split; reflexivity.
Qed.

(** C5, at the input where the base engine departs from it: a sell order
    of 100 rests at 100 and a buy order of 30 is matched against it.  The
    level at 100 still holds the sell order, whose remaining quantity is
    70, and its [total_volume] is still 100: the matching loop advances
    [filled_quantity] and leaves [total_volume] as it was. *)
Theorem C5_partial_fill_breaks_volume (k : nat) :
  ∃ e l,
    Scenario.run_base (2 + k) [Scenario.part_sell; Scenario.part_buy]
      BaseMatchingEngine.new
    = Some ([ []; [ Trade.mk "b1" "s1" 100 30 ] ], e)
    ∧ OrderBookSide.price_levels (BaseMatchingEngine.asks e) !! 100 = Some l
    ∧ PriceLevel.orders l = [0%nat]
    ∧ PriceLevel.total_volume l = 100
    ∧ level_remaining (BaseMatchingEngine.objs e) l = 70
    ∧ ¬ volume_invariant (BaseMatchingEngine.objs e)
          (BaseMatchingEngine.asks e).
Proof.
  eexists. eexists. split; [|split].
  - eapply (run_base_fuel_mono 2); [lia|]. vm_compute. reflexivity.
  - vm_compute. reflexivity.
  - repeat split; try (vm_compute; reflexivity).
    intros Hinv. specialize (Hinv 100 _ eq_refl). vm_compute in Hinv.
    discriminate.
Qed.

(** C3, at the input where the exchange engine departs from it: asks of
    50 at 100 and of 50 at 105, and a fill-or-kill buy order of 100 with
    limit 100.  The depth at prices up to the limit is 50, less than the
    order's quantity, yet the order is matched: it trades 50 at 100 and is
    left filled in part.  [_handle_fok_order] passes the order's price as
    the limit only when the order type is LIMIT, which a FOK order never
    is, so the depth it computes is that of the whole ask side. *)
Theorem C3_fok_filled_in_part (k : nat) :
  ∃ e2 e3,
    Scenario.run_nse (3 + k) 0 [Scenario.fok_s1; Scenario.fok_s2]
      Scenario.nse
    = Some ([ []; [] ], e2)
    ∧ NSEMatchingEngine._get_available_volume_at_price
        (NSEMatchingEngine.asks e2) (Some 100) = 50
    ∧ NSEMatchingEngine._get_available_volume_at_price
        (NSEMatchingEngine.asks e2) None = 100
    ∧ NSEMatchingEngine.submit (3 + k) 0 Scenario.fok_buy e2
      = Some ([ Trade.mk "FOK1" "S1" 100 50 ], e3)
    ∧ Order.quantity (deref (NSEMatchingEngine.objs e3) 2) = 100
    ∧ Order.filled_quantity (deref (NSEMatchingEngine.objs e3) 2) = 50
    ∧ OrderBookSide.price_levels (NSEMatchingEngine.asks e3) !! 100 = None
    ∧ is_Some
        (OrderBookSide.price_levels (NSEMatchingEngine.asks e2) !! 100).
Proof.
  eexists. eexists. split; [|split; [|split; [|split]]].
  - eapply (run_nse_fuel_mono 3); [lia|]. vm_compute. reflexivity.
  - vm_compute. reflexivity.
  - vm_compute. reflexivity.
  - eapply (nse_submit_fuel_mono 3); [lia|]. vm_compute. reflexivity.
  - vm_compute. repeat split; try reflexivity. eexists. reflexivity.
Qed.

(** C6, at the input where the base adaptive engine departs from it: the
    engine is in the NORMAL regime and the detector answers
    HIGH_VOLATILITY.  The transition sets the regime and counts the
    change, but the history entry has HIGH_VOLATILITY as its from-field:
    [_transition_regime] builds the entry from [current_regime] after it
    assigned the new regime to it. *)
Theorem C6_base_history_from_field (now0 now1 now2 : Z) :
  let e := AdaptiveMatchingEngine.new now0 in
  let e' :=
    AdaptiveMatchingEngine.handle_detected_regime now1 now2 HIGH_VOLATILITY
      e in
  AdaptiveMatchingEngine.current_regime e = NORMAL
  ∧ AdaptiveMatchingEngine.current_regime e' = HIGH_VOLATILITY
  ∧ AdaptiveMatchingEngine.regime_change_count e' = 1%nat
  ∧ AdaptiveMatchingEngine.regime_history e'
    = [ mkRegimeChange now2 HIGH_VOLATILITY HIGH_VOLATILITY ].
Proof. repeat split. Qed.

(** ** The object store *)

Lemma deref_update f a h b :
  deref (update f a h) b
  = if bool_decide (a = b ∧ (a < length h)%nat) then f (deref h a)
    else deref h b.
Proof.
  unfold deref, update. case_bool_decide as Hab.
  - destruct Hab as [<- Hlt].
    destruct (lookup_lt_is_Some_2 h a Hlt) as [o Ho].
    by rewrite list_lookup_alter_eq, Ho.
  - destruct (decide (a = b)) as [<-|Hne].
    + rewrite list_lookup_alter_eq.
      rewrite (lookup_ge_None_2 h a); [done|]. lia.
    + by rewrite list_lookup_alter_ne.
Qed.

Lemma deref_update_ne f a h b : a ≠ b → deref (update f a h) b = deref h b.
Proof.
  intros Hne. rewrite deref_update. case_bool_decide; [|done]. tauto.
Qed.

Lemma deref_update_eq f a h :
  (a < length h)%nat → deref (update f a h) a = f (deref h a).
Proof.
  intros Hlt. rewrite deref_update. case_bool_decide; [done|]. tauto.
Qed.

Lemma length_update f a h : length (update f a h) = length h.
Proof. apply length_alter. Qed.

Lemma deref_ge h a : (length h ≤ a)%nat → deref h a = null_order.
Proof. intros Hge. unfold deref. by rewrite lookup_ge_None_2. Qed.

(** ** The call auction *)

Section auction.

Import NSEMatchingEngine.

Lemma elem_of_insert_unique x y l :
  x ∈ insert_unique y l ↔ x = y ∨ x ∈ l.
Proof.
  induction l as [|z l IH]; simpl.
  - rewrite list_elem_of_singleton. set_solver.
  - destruct (y <? z) eqn:E1; [set_solver|].
    destruct (y =? z) eqn:E2.
    + apply Z.eqb_eq in E2. subst. set_solver.
    + rewrite !elem_of_cons, IH. tauto.
Qed.

Lemma elem_of_sorted_set x l : x ∈ sorted_set l ↔ x ∈ l.
Proof.
  unfold sorted_set. induction l as [|y l IH]; simpl; [done|].
  rewrite elem_of_insert_unique, IH, elem_of_cons. done.
Qed.

Lemma elem_of_insert_by_timestamp h x y l :
  x ∈ insert_by_timestamp h y l ↔ x = y ∨ x ∈ l.
Proof.
  induction l as [|z l IH]; simpl.
  - rewrite list_elem_of_singleton. set_solver.
  - destruct (_ <=? _); [set_solver|].
    rewrite !elem_of_cons, IH. tauto.
Qed.

Lemma elem_of_sort_by_timestamp h x l : x ∈ sort_by_timestamp h l ↔ x ∈ l.
Proof.
  unfold sort_by_timestamp. induction l as [|y l IH]; simpl; [done|].
  rewrite elem_of_insert_by_timestamp, IH, elem_of_cons. done.
Qed.

(** The groups of [orders_by_price]. *)
Lemma elem_of_group_append p x d q a os :
  (q, os) ∈ group_append p x d → a ∈ os →
  (a = x ∧ q = p) ∨ ∃ os', (q, os') ∈ d ∧ a ∈ os'.
Proof.
  induction d as [|[p' xs] d IH]; simpl.
  - intros H1%list_elem_of_singleton Ha. injection H1 as -> ->.
    apply list_elem_of_singleton in Ha. by left.
  - destruct (p' =? p) eqn:E.
    + apply Z.eqb_eq in E. subst p'.
      intros [Heq|Hin]%elem_of_cons Ha.
      * injection Heq as -> ->.
        apply elem_of_app in Ha as [Ha|Ha%list_elem_of_singleton].
        -- right. exists xs. split; [left|done].
        -- by left.
      * right. exists os. split; [by right|done].
    + intros [Heq|Hin]%elem_of_cons Ha.
      * injection Heq as -> ->. right. exists xs. split; [left|done].
      * destruct (IH Hin Ha) as [?|(os' & ? & ?)]; [by left|].
        right. exists os'. split; [by right|done].
Qed.

Lemma group_append_keys p x d :
  ∀ q, q ∈ (group_append p x d).*1 ↔ q = p ∨ q ∈ d.*1.
Proof.
  induction d as [|[p' xs] d IH]; intros q; simpl.
  - rewrite list_elem_of_singleton. set_solver.
  - destruct (p' =? p) eqn:E; simpl.
    + apply Z.eqb_eq in E. subst. set_solver.
    + rewrite !elem_of_cons, IH. tauto.
Qed.

Lemma orders_by_price_spec h s auction q os a :
  (q, os) ∈ orders_by_price h s auction → a ∈ os →
  a ∈ auction ∧ Order.side (deref h a) = s ∧ Order.price (deref h a) = q.
Proof.
  unfold orders_by_price. revert os.
  induction auction as [|x auction IH] using rev_ind; intros os; simpl.
  - by intros ?%elem_of_nil.
  - rewrite foldl_app. simpl. case_bool_decide as Hs.
    + intros Hin Ha.
      destruct (elem_of_group_append _ _ _ _ _ _ Hin Ha)
        as [[-> ->]|(os' & Hin' & Ha')].
      * split; [set_solver|done].
      * destruct (IH _ Hin' Ha') as (? & ? & ?). split; [set_solver|done].
    + intros Hin Ha. destruct (IH _ Hin Ha) as (? & ? & ?).
      split; [set_solver|done].
Qed.

Lemma orders_by_price_keys h s auction q :
  q ∈ (orders_by_price h s auction).*1 ↔
  ∃ a, a ∈ auction ∧ Order.side (deref h a) = s
       ∧ Order.price (deref h a) = q.
Proof.
  unfold orders_by_price.
  induction auction as [|x auction IH] using rev_ind; simpl.
  - split; [by intros ?%elem_of_nil|]. intros (a & ?%elem_of_nil & _). done.
  - rewrite foldl_app. simpl. case_bool_decide as Hs.
    + rewrite group_append_keys, IH. split.
      * intros [-> |(a & ? & ? & ?)]; [exists x|exists a]; set_solver.
      * intros (a & [Ha| ->%list_elem_of_singleton]%elem_of_app & ? & ?);
          [right; by exists a|by left].
    + rewrite IH. split.
      * intros (a & ? & ? & ?). exists a. set_solver.
      * intros (a & [Ha| ->%list_elem_of_singleton]%elem_of_app & ? & ?);
          [by exists a|done].
Qed.

Lemma elem_of_eligible cond d a :
  a ∈ eligible cond d → ∃ q os, (q, os) ∈ d ∧ a ∈ os.
Proof.
  unfold eligible. rewrite list_elem_of_In, in_flat_map.
  intros ([q os] & Hin & Ha). simpl in Ha.
  destruct (cond q); [|done].
  exists q, os. by rewrite !list_elem_of_In.
Qed.

(** Every candidate price is the price of a buffered order. *)
Lemma elem_of_all_prices h auction q :
  q ∈ all_prices (orders_by_price h BUY auction)
                 (orders_by_price h SELL auction)
  ↔ ∃ a, a ∈ auction ∧ Order.price (deref h a) = q.
Proof.
  unfold all_prices. rewrite elem_of_sorted_set, elem_of_app,
    !orders_by_price_keys.
  split.
  - intros [(a & ? & ? & ?)|(a & ? & ? & ?)]; by exists a.
  - intros (a & ? & ?).
    destruct (Order.side (deref h a)) eqn:E; [left|right]; by exists a.
Qed.

(** The loop of [_find_equilibrium_price]. *)
Lemma equilibrium_step_invariant h ref bo so seen acc p :
  equilibrium_invariant h ref bo so seen acc →
  equilibrium_invariant h ref bo so (seen ++ [p])
    (equilibrium_step h ref bo so acc p).
Proof.
  destruct acc as [best maxv]. unfold equilibrium_invariant,
    equilibrium_step. simpl. intros [Hmax Hbest].
  set (tv := tradeable_volume h bo so) in *.
  destruct (maxv <? tv p) eqn:Hlt; simpl.
  - apply Z.ltb_lt in Hlt. split.
    + intros q [Hq| ->%list_elem_of_singleton]%elem_of_app; [|lia].
      specialize (Hmax q Hq). lia.
    + split; [set_solver|]. split; [done|]. split.
      * destruct best; [|lia]. destruct Hbest as (_ & _ & ? & _). lia.
      * intros _ q [Hq| ->%list_elem_of_singleton]%elem_of_app Hqv; [|lia].
        specialize (Hmax q Hq). lia.
  - apply Z.ltb_ge in Hlt. destruct best as [b|]; simpl.
    + destruct Hbest as (Hb & Hbv & Hpos & Htie).
      destruct ((tv p =? maxv) && truthy ref
                && (Z.abs (p - default 0 ref) <? Z.abs (b - default 0 ref)))
        eqn:Hc; simpl.
      * apply andb_true_iff in Hc as [[Heq Href]%andb_true_iff Habs].
        apply Z.eqb_eq in Heq. apply Z.ltb_lt in Habs. split.
        -- intros q [Hq| ->%list_elem_of_singleton]%elem_of_app; [|lia].
           by apply Hmax.
        -- split; [set_solver|]. split; [done|]. split; [done|].
           intros _ q [Hq| ->%list_elem_of_singleton]%elem_of_app Hqv;
             [|lia].
           specialize (Htie Href q Hq Hqv). lia.
      * split.
        -- intros q [Hq| ->%list_elem_of_singleton]%elem_of_app; [|lia].
           by apply Hmax.
        -- split; [set_solver|]. split; [done|]. split; [done|].
           intros Href q [Hq| ->%list_elem_of_singleton]%elem_of_app Hqv.
           ++ by apply Htie.
           ++ rewrite Href, andb_true_r in Hc.
              apply andb_false_iff in Hc as [Hc|Hc].
              ** apply Z.eqb_neq in Hc. lia.
              ** apply Z.ltb_ge in Hc. lia.
    + subst maxv. split; [|done].
      intros q [Hq| ->%list_elem_of_singleton]%elem_of_app; [|lia].
      by apply Hmax.
Qed.

Lemma equilibrium_fold_invariant h ref bo so prices seen acc :
  equilibrium_invariant h ref bo so seen acc →
  equilibrium_invariant h ref bo so (seen ++ prices)
    (foldl (equilibrium_step h ref bo so) acc prices).
Proof.
  revert seen acc.
  induction prices as [|p prices IH]; intros seen acc Hinv; simpl.
  - by rewrite app_nil_r.
  - rewrite (assoc_L (++) seen [p] prices : seen ++ p :: prices = _).
    apply IH. by apply equilibrium_step_invariant.
Qed.

Lemma find_equilibrium_price_invariant e bo so :
  equilibrium_invariant (objs e) (reference_price e) bo so
    (all_prices bo so) (_find_equilibrium_price e bo so).
Proof.
  unfold _find_equilibrium_price.
  apply (equilibrium_fold_invariant _ _ _ _ _ []).
  split; [by intros q ?%elem_of_nil|done].
Qed.

(** Every trade of the auction loop is priced at the price handed to
    it. *)
Lemma auction_pass_prices p s s' :
  auction_pass p s = inl s' ∨ auction_pass p s = inr s' →
  Forall (λ t, Trade.price t = p) s.1.2 →
  Forall (λ t, Trade.price t = p) s'.1.2.
Proof.
  destruct s as [[[buyers sellers] trades] e]. simpl.
  destruct buyers as [|b buyers], sellers as [|sl sellers];
    try (intros [[= <-]|[=]]; done).
  destruct (_ =? 0); [intros [[=]|[= <-]]; done|].
  destruct (_ =? 0); [intros [[=]|[= <-]]; done|].
  intros [[=]|[= <-]] Hall. simpl.
  apply Forall_app. split; [done|]. by constructor.
Qed.

Lemma execute_auction_at_price_prices e p bo so r :
  _execute_auction_at_price p bo so e = Some r →
  Forall (λ t, Trade.price t = p) r.1.
Proof.
  unfold _execute_auction_at_price.
  destruct (while_loop _ _ _) as [[[[bs ss] trades] e']|] eqn:E; [|done].
  intros [= <-]. simpl.
  eapply (while_loop_invariant (auction_pass p)
            (λ s, Forall (λ t, Trade.price t = p) s.1.2)
            (λ s, Forall (λ t, Trade.price t = p) s.1.2)) in E;
    [exact E| | |by constructor].
  - intros s s' Hs Hp. eapply auction_pass_prices; eauto.
  - intros s s' Hs Hp. eapply auction_pass_prices; eauto.
Qed.

(** Every pass that goes on shortens one of the two lists, whatever the
    store holds. *)
Lemma auction_pass_decreases p buyers sellers trades e s' :
  (∀ b s, b ∈ buyers → s ∈ sellers → b ≠ s) →
  auction_pass p (buyers, sellers, trades, e) = inr s' →
  (∀ b s, b ∈ s'.1.1.1 → s ∈ s'.1.1.2 → b ≠ s)
  ∧ (length s'.1.1.1 + length s'.1.1.2
     < length buyers + length sellers)%nat.
Proof.
  intros Hdisj. simpl.
  destruct buyers as [|b buyers], sellers as [|s sellers]; try done.
  assert (Hbs : b ≠ s) by (apply Hdisj; left).
  destruct (Order.remaining_quantity (deref (objs e) b) =? 0) eqn:Hb.
  { intros [= <-]. simpl. split; [|lia].
    intros b' s' Hb' Hs'. apply Hdisj; [by right|done]. }
  destruct (Order.remaining_quantity (deref (objs e) s) =? 0) eqn:Hs.
  { intros [= <-]. simpl. split; [|lia].
    intros b' s' Hb' Hs'. apply Hdisj; [done|by right]. }
  apply Z.eqb_neq in Hb, Hs.
  assert (Hbl : (b < length (objs e))%nat).
  { destruct (decide (b < length (objs e))%nat); [done|].
    rewrite deref_ge in Hb by lia. done. }
  assert (Hsl : (s < length (objs e))%nat).
  { destruct (decide (s < length (objs e))%nat); [done|].
    rewrite deref_ge in Hs by lia. done. }
  set (q := Z.min _ _).
  rewrite (deref_update_ne _ s _ b) by done.
  rewrite deref_update_eq by done.
  rewrite deref_update_eq by (by rewrite length_update).
  rewrite (deref_update_ne _ b _ s) by done.
  intros [= <-]. simpl.
  unfold Order.remaining_quantity, Order.add_filled in *. simpl.
  assert (Hq : q = Order.quantity (deref (objs e) b)
                   - Order.filled_quantity (deref (objs e) b)
               ∨ q = Order.quantity (deref (objs e) s)
                     - Order.filled_quantity (deref (objs e) s))
    by (subst q; lia).
  split.
  - intros b' s' Hb' Hs'. apply Hdisj.
    + destruct (_ =? 0) in Hb'; [by right|done].
    + destruct (_ =? 0) in Hs'; [by right|done].
  - destruct Hq as [Hq|Hq]; rewrite Hq.
    + replace (_ - (_ + (_ - _)) =? 0) with true by (symmetry; lia).
      destruct (_ =? 0); simpl; lia.
    + replace (Order.quantity (deref (objs e) s)
               - (Order.filled_quantity (deref (objs e) s) + _) =? 0)
        with true by (symmetry; lia).
      destruct (_ =? 0); simpl; lia.
Qed.

Lemma execute_auction_at_price_total e p :
  is_Some
    (_execute_auction_at_price p
       (orders_by_price (objs e) BUY (auction_orders e))
       (orders_by_price (objs e) SELL (auction_orders e)) e).
Proof.
  unfold _execute_auction_at_price.
  match goal with
  | |- context [while_loop ?f ?n ?s0] =>
      destruct (while_loop_total f
                  (λ st, ∀ b sl, b ∈ st.1.1.1 → sl ∈ st.1.1.2 → b ≠ sl)
                  (λ st, (length st.1.1.1 + length st.1.1.2)%nat) n s0)
        as [[[[bs ss] trades] e'] ->]
  end; [| |simpl; lia|done].
  - intros [[[buyers sellers] trades] e0] s' HI Hp. simpl in HI.
    by apply (auction_pass_decreases _ _ _ _ _ _ HI Hp).
  - simpl.
    intros b s Hb%elem_of_sort_by_timestamp Hs%elem_of_sort_by_timestamp ->.
    apply elem_of_eligible in Hb as (q1 & os1 & Hin1 & Hb).
    apply elem_of_eligible in Hs as (q2 & os2 & Hin2 & Hs).
    destruct (orders_by_price_spec _ _ _ _ _ _ Hin1 Hb) as (_ & Hs1 & _).
    destruct (orders_by_price_spec _ _ _ _ _ _ Hin2 Hs) as (_ & Hs2 & _).
    congruence.
Qed.

(** C7: [execute_call_auction] returns, and when the buffer yields an
    equilibrium price p* every trade it returns is priced p*; p* is the
    price of a buffered order, no price of a buffered order has a larger
    tradeable volume (the smaller of the buy volume at prices >= p and
    the sell volume at prices <= p), and when a reference price is set no
    price with the same tradeable volume is closer to it.  Without an
    equilibrium price there is no trade.  For the six orders of scenario
    S3, whatever their timestamps and whatever the engine's settings, the
    tradeable volumes at 100, 101 and 102 are 120, 250 and 100, the
    equilibrium price is 101 and all trades are at 101; on the engine of
    the tests, with the orders entered in the pre-open phase at times 1
    to 6, the trades are (b1, s1, 100), (b2, s1, 20) and (b2, s2, 130),
    all at 101. *)
Theorem C7_call_auction_equilibrium (e : NSEMatchingEngine.t)
    (t1 t2 t3 t4 t5 t6 : Z) (k : nat) :
  (let h := objs e in
   let bo := orders_by_price h BUY (auction_orders e) in
   let so := orders_by_price h SELL (auction_orders e) in
   let tv := tradeable_volume h bo so in
   ∃ trades e',
     execute_call_auction e = Some (trades, e')
     ∧ match (_find_equilibrium_price e bo so).1 with
       | Some p =>
           Forall (λ t, Trade.price t = p) trades
           ∧ (∃ a, a ∈ auction_orders e ∧ Order.price (deref h a) = p)
           ∧ (∀ a, a ∈ auction_orders e →
                   tv (Order.price (deref h a)) ≤ tv p)
           ∧ (truthy (reference_price e) = true →
              ∀ a, a ∈ auction_orders e →
                   tv (Order.price (deref h a)) = tv p →
                   Z.abs (p - default 0 (reference_price e))
                   ≤ Z.abs (Order.price (deref h a)
                            - default 0 (reference_price e)))
       | None => trades = []
       end)
  ∧ (let e3 :=
       set_auction_orders [0; 1; 2; 3; 4; 5]%nat
         (set_objs (Scenario.s3_orders [t1; t2; t3; t4; t5; t6]) e) in
     let bo := orders_by_price (objs e3) BUY (auction_orders e3) in
     let so := orders_by_price (objs e3) SELL (auction_orders e3) in
     tradeable_volume (objs e3) bo so 100 = 120
     ∧ tradeable_volume (objs e3) bo so 101 = 250
     ∧ tradeable_volume (objs e3) bo so 102 = 100
     ∧ _find_equilibrium_price e3 bo so = (Some 101, 250)
     ∧ ∃ trades e', execute_call_auction e3 = Some (trades, e')
                    ∧ Forall (λ t, Trade.price t = 101) trades)
  ∧ (∃ e1 e2,
       Scenario.run_nse k 0 (Scenario.s3_orders [1; 2; 3; 4; 5; 6])
         (set_trading_phase PRE_OPEN Scenario.nse)
       = Some ([ []; []; []; []; []; [] ], e1)
       ∧ execute_call_auction e1
         = Some ([ Trade.mk "b1" "s1" 101 100; Trade.mk "b2" "s1" 101 20;
                   Trade.mk "b2" "s2" 101 130 ], e2)
       ∧ opening_price e2 = Some 101
       ∧ trading_phase e2 = CONTINUOUS).
Proof.
  assert (Hgen : ∀ e : NSEMatchingEngine.t,
    let h := objs e in
    let bo := orders_by_price h BUY (auction_orders e) in
    let so := orders_by_price h SELL (auction_orders e) in
    let tv := tradeable_volume h bo so in
    ∃ trades e',
      execute_call_auction e = Some (trades, e')
      ∧ match (_find_equilibrium_price e bo so).1 with
        | Some p =>
            Forall (λ t, Trade.price t = p) trades
            ∧ (∃ a, a ∈ auction_orders e ∧ Order.price (deref h a) = p)
            ∧ (∀ a, a ∈ auction_orders e →
                    tv (Order.price (deref h a)) ≤ tv p)
            ∧ (truthy (reference_price e) = true →
               ∀ a, a ∈ auction_orders e →
                    tv (Order.price (deref h a)) = tv p →
                    Z.abs (p - default 0 (reference_price e))
                    ≤ Z.abs (Order.price (deref h a)
                             - default 0 (reference_price e)))
        | None => trades = []
        end).
  { clear. intros e. cbv zeta.
    pose proof (find_equilibrium_price_invariant e
                  (orders_by_price (objs e) BUY (auction_orders e))
                  (orders_by_price (objs e) SELL (auction_orders e)))
      as [Hmax Hbest].
    unfold execute_call_auction.
    destruct (_find_equilibrium_price e _ _) as [best maxv] eqn:Heq.
    simpl in Hmax, Hbest. simpl fst.
    destruct (decide (auction_orders e = [])) as [Hnil|Hne].
    { (* nothing buffered: no candidate price *)
      rewrite Hnil in Heq |- *. injection Heq as <- <-.
      by eexists _, _. }
    destruct (auction_orders e) as [|a0 rest] eqn:Hao; [done|].
    cbv iota. rewrite <- Hao in *. clear Hao Hne a0 rest.
    destruct best as [p|]; [|by eexists _, _].
    destruct Hbest as (Hp & Hpv & Hpos & Htie).
    destruct (execute_auction_at_price_total e p) as [[trades e1] Hex].
    rewrite Hex.
    eexists _, _. split; [reflexivity|].
    split; [by apply (execute_auction_at_price_prices _ _ _ _ _ Hex)|].
    split; [by apply elem_of_all_prices|].
    split.
    - intros a Ha. rewrite Hpv. apply Hmax.
      apply elem_of_all_prices. by exists a.
    - intros Href a Ha Hv. apply Htie; [done| |by rewrite <- Hpv].
      apply elem_of_all_prices. by exists a. }
  split; [apply Hgen|]. split.
  - split; [reflexivity|]. split; [reflexivity|]. split; [reflexivity|].
    match goal with
    | |- ?eq ∧ _ => assert (Heq : eq) by reflexivity
    end.
    split; [exact Heq|].
    destruct (Hgen (set_auction_orders [0; 1; 2; 3; 4; 5]%nat
                      (set_objs (Scenario.s3_orders [t1; t2; t3; t4; t5; t6])
                         e)))
      as (trades & e' & Hex & Hp).
    cbv zeta in Heq, Hp. rewrite Heq in Hp. simpl in Hp.
    exists trades, e'. split; [exact Hex|]. apply Hp.
  - eexists _, _. split; [|split].
    + eapply (run_nse_fuel_mono 0); [lia|]. vm_compute. reflexivity.
    + vm_compute. reflexivity.
    + vm_compute. split; reflexivity.
Qed.

End auction.

(** ** The exchange engine: what matching leaves untouched *)

Section nse_frame.

Import NSEMatchingEngine.

Lemma nse_frame_refl e : nse_frame e e.
Proof. unfold nse_frame. repeat split. Qed.

Lemma nse_frame_trans e1 e2 e3 :
  nse_frame e1 e2 → nse_frame e2 e3 → nse_frame e1 e3.
Proof.
  unfold nse_frame. intros H1 H2.
  repeat match goal with H : _ ∧ _ |- _ => destruct H end.
  repeat split; congruence.
Qed.

Lemma nse_frame_set_asks a e : nse_frame e (set_asks a e).
Proof. unfold nse_frame. repeat split. Qed.

Lemma nse_frame_set_bids b e : nse_frame e (set_bids b e).
Proof. unfold nse_frame. repeat split. Qed.

Lemma nse_frame_set_objs h e : nse_frame e (set_objs h e).
Proof. unfold nse_frame. repeat split. Qed.

Lemma nse_buy_pass_frame buy s s' :
  _match_buy_order_pass buy s = inl s' ∨ _match_buy_order_pass buy s = inr s' →
  nse_frame s.2 s'.2.
Proof.
  destruct s as [trades e]. simpl.
  destruct (negb _); [intros [[= <-]|[=]]; apply nse_frame_refl|].
  destruct (OrderBookSide.get_best_price (asks e)) as [best asks1].
  destruct best as [bp|]; [|intros [[= <-]|[=]]; apply nse_frame_set_asks].
  destruct (negb _); [intros [[= <-]|[=]]; apply nse_frame_set_asks|].
  destruct (OrderBookSide.get_price_level bp asks1);
    [|intros [[= <-]|[=]]; apply nse_frame_set_asks].
  destruct (PriceLevel.get_top_order _).
  - intros [[=]|[= <-]]. simpl.
    eapply nse_frame_trans;
      [apply nse_frame_set_objs|apply nse_frame_set_asks].
  - intros [[=]|[= <-]]. apply nse_frame_set_asks.
Qed.

Lemma nse_sell_pass_frame sell s s' :
  _match_sell_order_pass sell s = inl s'
  ∨ _match_sell_order_pass sell s = inr s' →
  nse_frame s.2 s'.2.
Proof.
  destruct s as [trades e]. simpl.
  destruct (negb _); [intros [[= <-]|[=]]; apply nse_frame_refl|].
  destruct (OrderBookSide.get_best_price (bids e)) as [best bids1].
  destruct best as [bp|]; [|intros [[= <-]|[=]]; apply nse_frame_set_bids].
  destruct (negb _); [intros [[= <-]|[=]]; apply nse_frame_set_bids|].
  destruct (OrderBookSide.get_price_level bp bids1);
    [|intros [[= <-]|[=]]; apply nse_frame_set_bids].
  destruct (PriceLevel.get_top_order _).
  - intros [[=]|[= <-]]. simpl.
    eapply nse_frame_trans;
      [apply nse_frame_set_objs|apply nse_frame_set_bids].
  - intros [[=]|[= <-]]. apply nse_frame_set_bids.
Qed.

Lemma direct_match_frame fuel order e r :
  direct_match fuel order e = Some r → nse_frame e r.2.
Proof.
  unfold direct_match, _match_buy_order, _match_sell_order.
  destruct (Order.side _); intros H.
  - eapply (while_loop_invariant _ (λ s, nse_frame e s.2)
              (λ s, nse_frame e s.2)) in H;
      [exact H| | |apply nse_frame_refl];
      intros s s' Hs Hp; (eapply nse_frame_trans; [exact Hs|]);
      eapply nse_buy_pass_frame; eauto.
  - eapply (while_loop_invariant _ (λ s, nse_frame e s.2)
              (λ s, nse_frame e s.2)) in H;
      [exact H| | |apply nse_frame_refl];
      intros s s' Hs Hp; (eapply nse_frame_trans; [exact Hs|]);
      eapply nse_sell_pass_frame; eauto.
Qed.

Lemma add_to_order_book_frame order e : nse_frame e (_add_to_order_book order e).
Proof.
  unfold _add_to_order_book.
  destruct (Order.side _); [apply nse_frame_set_bids|apply nse_frame_set_asks].
Qed.

End nse_frame.

(** ** Stop orders activated by a trade *)

Section nse_stops.

Import NSEMatchingEngine.

Lemma match_order_unfold fuel order e trades e' :
  _match_order (S fuel) order e = Some (trades, e') →
  ∃ e1,
    direct_match fuel order e = Some (trades, e1)
    ∧ match last trades with
      | Some tr =>
          ∃ e4,
            _check_pending_stop_orders fuel (after_breaker tr e1) = Some e4
            ∧ e' = set_trades (trade_history e4 ++ trades)
                     (total_trades e4 + length trades)%nat e4
      | None =>
          e' = set_trades (trade_history e1 ++ trades)
                 (total_trades e1 + length trades)%nat e1
      end.
Proof.
  simpl. unfold direct_match, _check_pending_stop_orders, after_breaker.
  destruct (match Order.side _ with BUY => _ | SELL => _ end)
    as [[trades1 e1]|]; [|done].
  destruct (last trades1) as [tr|] eqn:Hlast.
  - destruct (_check_pending_stop_orders_with _ _) as [e4|] eqn:E4; [|done].
    intros [= <- <-]. exists e1. rewrite Hlast. eauto.
  - intros [= <- <-]. exists e1. by rewrite Hlast.
Qed.





End nse_stops.


(** ** The circuit breaker *)

Section nse_breaker.

Import NSEMatchingEngine.









End nse_breaker.





(** ** The book side under its representation invariant *)

Section book_side.

Import OrderBookSide.

(** *** The heap *)

Lemma elem_of_heappush hp x y : y ∈ heappush hp x ↔ y = x ∨ y ∈ hp.
Proof.
  induction hp as [|z hp IH]; simpl.
  - rewrite list_elem_of_singleton. set_solver.
  - destruct (x <=? z); [set_solver|].
    rewrite !elem_of_cons, IH. tauto.
Qed.

Lemma heappush_sorted hp x :
  StronglySorted Z.le hp → StronglySorted Z.le (heappush hp x).
Proof.
  induction hp as [|z hp IH]; simpl; intros Hs.
  - repeat constructor.
  - destruct (x <=? z) eqn:E.
    + apply Z.leb_le in E. constructor; [done|].
      apply StronglySorted_cons in Hs as [Hall _].
      constructor; [done|].
      eapply Forall_impl; [exact Hall|]. simpl. lia.
    + apply Z.leb_gt in E.
      apply StronglySorted_cons in Hs as [Hall Hs].
      constructor; [by apply IH|].
      apply Forall_forall. intros y [-> |Hy]%elem_of_heappush; [lia|].
      by eapply Forall_forall in Hall.
Qed.

Lemma rebuild_heap_fold_elem s (ps : list Z) hp k :
  k ∈ foldl (λ hp p, heappush hp (heap_key s p)) hp ps
  ↔ k ∈ hp ∨ ∃ p, p ∈ ps ∧ k = heap_key s p.
Proof.
  revert hp. induction ps as [|p ps IH]; intros hp; simpl.
  - split; [by left|]. intros [?|(p & ?%elem_of_nil & _)]; done.
  - rewrite IH, elem_of_heappush. split.
    + intros [[-> |?]|(q & ? & ?)]; [right; exists p|by left|right; exists q];
        set_solver.
    + intros [?|(q & [-> |?]%elem_of_cons & ->)]; [tauto|tauto|].
      right. by exists q.
Qed.

Lemma rebuild_heap_fold_sorted s (ps : list Z) hp :
  StronglySorted Z.le hp →
  StronglySorted Z.le (foldl (λ hp p, heappush hp (heap_key s p)) hp ps).
Proof.
  revert hp. induction ps as [|p ps IH]; intros hp Hs; simpl; [done|].
  apply IH. by apply heappush_sorted.
Qed.

Lemma rebuild_heap_elem s (pls : gmap Z PriceLevel.t) k :
  k ∈ rebuild_heap s pls ↔ ∃ p, is_Some (pls !! p) ∧ k = heap_key s p.
Proof.
  unfold rebuild_heap. rewrite rebuild_heap_fold_elem. split.
  - intros [?%elem_of_nil|(p & Hp & ->)]; [done|].
    exists p. split; [|done].
    apply list_elem_of_fmap in Hp as ([p' l] & -> & Hin).
    apply elem_of_map_to_list in Hin. by exists l.
  - intros (p & [l Hl] & ->). right. exists p. split; [|done].
    apply list_elem_of_fmap. exists (p, l). split; [done|].
    by apply elem_of_map_to_list.
Qed.

Lemma rebuild_heap_sorted s (pls : gmap Z PriceLevel.t) :
  StronglySorted Z.le (rebuild_heap s pls).
Proof. apply rebuild_heap_fold_sorted. constructor. Qed.

Lemma heap_key_involutive s p : heap_key s (heap_key s p) = p.
Proof. destruct s; simpl; lia. Qed.

Lemma heap_key_inj s p q : heap_key s p = heap_key s q → p = q.
Proof. destruct s; simpl; lia. Qed.

(** *** Levels *)

Lemma level_orders_lookup b p l :
  price_levels b !! p = Some l → level_orders b p = PriceLevel.orders l.
Proof. unfold level_orders. by intros ->. Qed.

Lemma level_orders_None b p :
  price_levels b !! p = None → level_orders b p = [].
Proof. unfold level_orders. by intros ->. Qed.

Lemma elem_of_level_orders b p a :
  a ∈ level_orders b p →
  ∃ l, price_levels b !! p = Some l ∧ a ∈ PriceLevel.orders l.
Proof.
  unfold level_orders. destruct (price_levels b !! p) as [l|]; simpl.
  - intros Ha. by exists l.
  - by intros ?%elem_of_nil.
Qed.

Lemma wf_level_is_Some h b p :
  wf_side h b → level_orders b p ≠ [] ↔ is_Some (price_levels b !! p).
Proof.
  intros Hwf. unfold level_orders.
  destruct (price_levels b !! p) as [l|] eqn:E; simpl.
  - split; [by eauto|]. intros _. by eapply wf_level_nonempty.
  - split; [done|]. by intros [? ?].
Qed.

(** *** [get_best_price] *)

Lemma get_best_price_wf h b :
  wf_side h b → get_best_price b = (_heap_peek b, b).
Proof.
  intros Hwf. unfold get_best_price, _heap_peek.
  destruct (heap b) as [|k hp] eqn:Hheap; simpl; [done|].
  unfold _heap_peek. rewrite Hheap.
  assert (Hk : k ∈ heap b) by (rewrite Hheap; left).
  apply (wf_heap_elem _ _ Hwf) in Hk as (p & [l Hl] & ->).
  rewrite heap_key_involutive, Hl.
  pose proof (wf_level_nonempty _ _ Hwf _ _ Hl) as Hne.
  unfold PriceLevel.is_empty. by rewrite bool_decide_eq_false_2.
Qed.

Lemma heap_peek_best h b p :
  wf_side h b → _heap_peek b = Some p → is_best_price b p.
Proof.
  intros Hwf. unfold _heap_peek.
  destruct (heap b) as [|k hp] eqn:Hheap; [done|]. intros [= <-].
  assert (Hk : k ∈ heap b) by (rewrite Hheap; left).
  apply (wf_heap_elem _ _ Hwf) in Hk as (p & Hp & ->).
  rewrite heap_key_involutive. split; [done|].
  intros q Hq.
  assert (Hq' : heap_key (side b) q ∈ heap b).
  { apply (wf_heap_elem _ _ Hwf). by exists q. }
  pose proof (wf_heap_sorted _ _ Hwf) as Hs. rewrite Hheap in Hs, Hq'.
  apply StronglySorted_cons in Hs as [Hall _].
  apply elem_of_cons in Hq' as [-> |Hq']; [done|].
  by eapply Forall_forall in Hall.
Qed.

Lemma heap_peek_None h b :
  wf_side h b → _heap_peek b = None → price_levels b = ∅.
Proof.
  intros Hwf. unfold _heap_peek.
  destruct (heap b) as [|k hp] eqn:Hheap; [|done]. intros _.
  apply map_empty. intros p.
  destruct (price_levels b !! p) as [l|] eqn:E; [|done].
  assert (Hk : heap_key (side b) p ∈ heap b).
  { apply (wf_heap_elem _ _ Hwf). exists p. eauto. }
  rewrite Hheap in Hk. by apply elem_of_nil in Hk.
Qed.


(** *** [add_order] *)

Lemma add_order_fields h a b :
  let p := Order.price (deref h a) in
  let id := Order.order_id (deref h a) in
  let b' := (add_order h a b).2 in
  side b' = side b
  ∧ price_levels b'
    = <[p := PriceLevel.add_order h a
               (default (PriceLevel.new p) (price_levels b !! p))]>
        (price_levels b)
  ∧ heap b'
    = match price_levels b !! p with
      | Some _ => heap b
      | None => heappush (heap b) (heap_key (side b) p)
      end
  ∧ order_map b' = <[id := a]> (order_map b)
  ∧ order_to_price_level b' = <[id := p]> (order_to_price_level b).
Proof.
  intros p id b'. subst b'. unfold add_order. fold p id.
  destruct (price_levels b !! p) as [l|] eqn:E; simpl.
  - rewrite E. simpl. done.
  - rewrite lookup_insert_eq. simpl. by rewrite insert_insert_eq.
Qed.

Lemma add_order_level_orders h a b q :
  level_orders (add_order h a b).2 q
  = if decide (q = Order.price (deref h a)) then level_orders b q ++ [a]
    else level_orders b q.
Proof.
  destruct (add_order_fields h a b) as (_ & Hl & _).
  unfold level_orders. rewrite Hl. clear Hl.
  destruct (decide (q = _)) as [-> |Hne].
  - rewrite lookup_insert_eq. simpl.
    by destruct (price_levels b !! _).
  - by rewrite lookup_insert_ne.
Qed.

Lemma add_order_wf h a b :
  wf_side h b → (a < length h)%nat →
  order_map b !! Order.order_id (deref h a) = None →
  wf_side h (add_order h a b).2.
Proof.
  intros Hwf Ha Hfresh.
  destruct (add_order_fields h a b) as (Hside & Hl & Hheap & Hom & Ho2l).
  set (p := Order.price (deref h a)) in *.
  set (id := Order.order_id (deref h a)) in *.
  assert (Hnotin : ∀ q, a ∉ level_orders b q).
  { intros q Hin. apply (wf_level_orders _ _ Hwf) in Hin as (_ & _ & Hin).
    fold id in Hin. congruence. }
  split.
  - intros q l. rewrite Hl.
    destruct (decide (q = p)) as [-> |Hne].
    + rewrite lookup_insert_eq. intros [= <-]. simpl.
      destruct (price_levels b !! p) as [l|] eqn:E; simpl; [|done].
      by eapply (wf_level_price _ _ Hwf).
    + rewrite lookup_insert_ne by done. by apply (wf_level_price _ _ Hwf).
  - intros q l. rewrite Hl.
    destruct (decide (q = p)) as [-> |Hne].
    + rewrite lookup_insert_eq. intros [= <-]. simpl.
      by destruct (PriceLevel.orders _).
    + rewrite lookup_insert_ne by done. by apply (wf_level_nonempty _ _ Hwf).
  - intros q. rewrite add_order_level_orders. fold p.
    destruct (decide (q = p)) as [-> |Hne]; [|by apply (wf_level_nodup _ _ Hwf)].
    apply NoDup_app. split; [by apply (wf_level_nodup _ _ Hwf)|].
    split; [|apply NoDup_singleton].
    intros x Hx ->%list_elem_of_singleton. by eapply Hnotin.
  - intros q x. rewrite add_order_level_orders, Hom. fold p.
    intros Hx.
    assert (Hcase : (x = a ∧ q = p) ∨ x ∈ level_orders b q).
    { destruct (decide (q = p)) as [-> |Hne]; [|by right].
      apply elem_of_app in Hx as [Hx|Hx%list_elem_of_singleton];
        [by right|by left]. }
    destruct Hcase as [[-> ->]|Hx'].
    + split; [done|]. split; [done|]. by rewrite lookup_insert_eq.
    + destruct (wf_level_orders _ _ Hwf _ _ Hx') as (? & ? & Hm).
      split; [done|]. split; [done|].
      rewrite lookup_insert_ne; [done|]. intros Heq.
      fold id in Hfresh. rewrite Heq in Hfresh. congruence.
  - intros id' x. rewrite Hom.
    destruct (decide (id = id')) as [<- |Hne].
    + rewrite lookup_insert_eq. intros [= <-]. split; [done|].
      rewrite add_order_level_orders. fold p.
      rewrite decide_True by done. set_solver.
    + rewrite lookup_insert_ne by done. intros Hx.
      destruct (wf_order_map _ _ Hwf _ _ Hx) as [? Hin]. split; [done|].
      rewrite add_order_level_orders.
      destruct (decide _); [set_solver|done].
  - intros id'. rewrite Ho2l, Hom.
    destruct (decide (id = id')) as [<- |Hne].
    + by rewrite !lookup_insert_eq.
    + rewrite !lookup_insert_ne by done.
      by apply (wf_order_to_price_level _ _ Hwf).
  - rewrite Hheap. destruct (price_levels b !! p).
    + by apply (wf_heap_sorted _ _ Hwf).
    + apply heappush_sorted. by apply (wf_heap_sorted _ _ Hwf).
  - intros k. rewrite Hheap, Hside, Hl.
    assert (Hkeys : ∀ q, is_Some (<[p := PriceLevel.add_order h a
               (default (PriceLevel.new p) (price_levels b !! p))]>
                             (price_levels b) !! q)
                         ↔ q = p ∨ is_Some (price_levels b !! q)).
    { intros q. rewrite lookup_insert_is_Some. split.
      - intros [?|[? ?]]; [by left|by right].
      - intros [?|?]; [by left|].
        destruct (decide (p = q)); [by left|by right]. }
    destruct (price_levels b !! p) as [l|] eqn:E.
    + rewrite (wf_heap_elem _ _ Hwf). split.
      * intros (q & Hq & ->). exists q. split; [|done].
        apply Hkeys. by right.
      * intros (q & Hq & ->). exists q. split; [|done].
        apply Hkeys in Hq as [-> |Hq]; [by eauto|done].
    + rewrite elem_of_heappush, (wf_heap_elem _ _ Hwf). split.
      * intros [-> |(q & Hq & ->)]; [exists p|exists q];
          (split; [apply Hkeys|done]); [by left|by right].
      * intros (q & Hq & ->). apply Hkeys in Hq as [-> |Hq]; [by left|].
        right. by exists q.
Qed.

(** *** [remove_order] *)

Lemma filter_ne_not_in (a : nat) (l : list nat) :
  a ∉ l → filter (λ x, x ≠ a) l = l.
Proof.
  induction l as [|y l IH]; intros Ha; [done|].
  apply not_elem_of_cons in Ha as [Hne Ha].
  rewrite filter_cons_True by done. by rewrite IH.
Qed.

Lemma remove_first_filter (P : nat → bool) (a : nat) (l : list nat) :
  NoDup l → a ∈ l → P a = true → (∀ x, x ∈ l → P x = true → x = a) →
  remove_first P l = Some (filter (λ x, x ≠ a) l).
Proof.
  induction l as [|y l IH]; intros Hnd Ha HPa Huniq; simpl.
  - by apply elem_of_nil in Ha.
  - apply NoDup_cons in Hnd as [Hy Hnd].
    destruct (P y) eqn:HPy.
    + assert (y = a) as -> by (apply Huniq; [left|done]).
      rewrite filter_cons_False by (intros ?; done).
      by rewrite filter_ne_not_in.
    + assert (y ≠ a) by (intros ->; congruence).
      apply elem_of_cons in Ha as [-> |Ha]; [done|].
      rewrite IH; [|done..|].
      * by rewrite filter_cons_True.
      * intros x Hx. apply Huniq. by right.
Qed.

Lemma remove_order_absent h id b :
  wf_side h b → order_map b !! id = None → remove_order h id b = (false, b).
Proof.
  intros Hwf Hid. unfold remove_order.
  by rewrite (wf_order_to_price_level _ _ Hwf), Hid.
Qed.

(** What [remove_order] returns for a resting order. *)
Lemma remove_order_fields h id a b :
  wf_side h b → order_map b !! id = Some a →
  let p := Order.price (deref h a) in
  let os := filter (λ x, x ≠ a) (level_orders b p) in
  ∃ l tv,
    price_levels b !! p = Some l
    ∧ remove_order h id b
      = (true,
         if bool_decide (os = []) then
           mk (side b) (rebuild_heap (side b) (delete p (price_levels b)))
              (delete p (price_levels b)) (delete id (order_map b))
              (delete id (order_to_price_level b))
         else
           mk (side b) (heap b)
              (<[p := PriceLevel.mk p os tv]> (price_levels b))
              (delete id (order_map b))
              (delete id (order_to_price_level b))).
Proof.
  intros Hwf Hid p os.
  destruct (wf_order_map _ _ Hwf _ _ Hid) as [Hida Hin]. fold p in Hin.
  destruct (elem_of_level_orders _ _ _ Hin) as (l & Hl & Hal).
  exists l, (PriceLevel.total_volume l
             - Order.remaining_quantity (deref h a)).
  split; [done|].
  unfold remove_order.
  rewrite (wf_order_to_price_level _ _ Hwf), Hid. simpl. fold p.
  rewrite Hl. unfold PriceLevel.remove_order.
  assert (Hos : level_orders b p = PriceLevel.orders l)
    by by apply level_orders_lookup.
  rewrite (remove_first_filter _ a).
  - unfold PriceLevel.is_empty. simpl.
    rewrite (wf_level_price _ _ Hwf _ _ Hl).
    subst os. rewrite Hos.
    destruct (bool_decide (filter _ _ = [])); [|done].
    by rewrite delete_insert_eq.
  - rewrite <- Hos. apply (wf_level_nodup _ _ Hwf).
  - done.
  - unfold PriceLevel.same_order. by rewrite bool_decide_eq_true_2.
  - intros x Hx. unfold PriceLevel.same_order.
    intros [Hx'|Hx']%orb_true_iff; apply bool_decide_eq_true_1 in Hx';
      [done|].
    rewrite <- Hos in Hx.
    destruct (wf_level_orders _ _ Hwf _ _ Hx) as (_ & _ & Hmx).
    destruct (wf_level_orders _ _ Hwf _ _ Hin) as (_ & _ & Hma).
    rewrite Hx' in Hmx. congruence.
Qed.

Lemma remove_order_level_orders h id a b q :
  wf_side h b → order_map b !! id = Some a →
  level_orders (remove_order h id b).2 q
  = filter (λ x, x ≠ a) (level_orders b q).
Proof.
  intros Hwf Hid.
  destruct (remove_order_fields _ _ _ _ Hwf Hid) as (l & tv & Hl & ->).
  simpl. set (p := Order.price (deref h a)) in *.
  destruct (decide (q = p)) as [-> |Hne].
  - case_bool_decide as Hos; unfold level_orders at 1; simpl.
    + by rewrite lookup_delete_eq, Hos.
    + by rewrite lookup_insert_eq.
  - assert (Hq : a ∉ level_orders b q).
    { intros Hin. by destruct (wf_level_orders _ _ Hwf _ _ Hin) as (_ & ? & _). }
    rewrite (filter_ne_not_in _ _ Hq).
    case_bool_decide; unfold level_orders; simpl.
    + by rewrite lookup_delete_ne.
    + by rewrite lookup_insert_ne.
Qed.

Lemma remove_order_order_map h id a b :
  wf_side h b → order_map b !! id = Some a →
  order_map (remove_order h id b).2 = delete id (order_map b)
  ∧ side (remove_order h id b).2 = side b
  ∧ (remove_order h id b).1 = true.
Proof.
  intros Hwf Hid.
  destruct (remove_order_fields _ _ _ _ Hwf Hid) as (l & tv & Hl & ->).
  simpl. by case_bool_decide.
Qed.

Lemma remove_order_wf h id a b :
  wf_side h b → order_map b !! id = Some a →
  wf_side h (remove_order h id b).2.
Proof.
  intros Hwf Hid.
  pose proof (λ q, remove_order_level_orders h id a b q Hwf Hid) as Hlo.
  destruct (remove_order_order_map _ _ _ _ Hwf Hid) as (Hom & Hside & _).
  destruct (wf_order_map _ _ Hwf _ _ Hid) as [Hida Hin].
  destruct (remove_order_fields _ _ _ _ Hwf Hid) as (l & tv & Hl & Heq).
  set (p := Order.price (deref h a)) in *.
  set (os := filter (λ x, x ≠ a) (level_orders b p)) in *.
  set (b' := (remove_order h id b).2) in *.
  assert (Hb' : b' = if bool_decide (os = []) then
           mk (side b) (rebuild_heap (side b) (delete p (price_levels b)))
              (delete p (price_levels b)) (delete id (order_map b))
              (delete id (order_to_price_level b))
         else
           mk (side b) (heap b)
              (<[p := PriceLevel.mk p os tv]> (price_levels b))
              (delete id (order_map b))
              (delete id (order_to_price_level b))).
  { subst b'. by rewrite Heq. }
  clear Heq.
  assert (Hne_id : ∀ x, x ≠ a → is_Some (order_map b !! Order.order_id (deref h x)) →
                        order_map b !! Order.order_id (deref h x) = Some x →
                        Order.order_id (deref h x) ≠ id).
  { intros x Hxa _ Hx Heq. rewrite Heq in Hx. congruence. }
  split.
  - intros q l'. rewrite Hb'. case_bool_decide; simpl.
    + intros [? Hq]%lookup_delete_Some. by apply (wf_level_price _ _ Hwf).
    + intros [[<- <-]|[? Hq]]%lookup_insert_Some; [done|].
      by apply (wf_level_price _ _ Hwf).
  - intros q l'. rewrite Hb'. case_bool_decide; simpl.
    + intros [? Hq]%lookup_delete_Some. by apply (wf_level_nonempty _ _ Hwf _ _ Hq).
    + intros [[<- <-]|[? Hq]]%lookup_insert_Some; [done|].
      by apply (wf_level_nonempty _ _ Hwf _ _ Hq).
  - intros q. rewrite Hlo. apply NoDup_filter, (wf_level_nodup _ _ Hwf).
  - intros q x. rewrite Hlo, Hom. intros [Hxa Hx]%list_elem_of_filter.
    destruct (wf_level_orders _ _ Hwf _ _ Hx) as (? & ? & Hm).
    split; [done|]. split; [done|].
    rewrite lookup_delete_ne; [done|].
    intros Heq. rewrite <- Heq in Hm. congruence.
  - intros id' x. rewrite Hom. intros [Hne Hx]%lookup_delete_Some.
    destruct (wf_order_map _ _ Hwf _ _ Hx) as [Hidx Hinx].
    split; [done|]. rewrite Hlo. apply list_elem_of_filter. split; [|done].
    intros ->. congruence.
  - intros id'. rewrite Hom.
    assert (order_to_price_level b' = delete id (order_to_price_level b))
      as ->.
    { rewrite Hb'. by case_bool_decide. }
    destruct (decide (id = id')) as [<- |Hne].
    + by rewrite !lookup_delete_eq.
    + rewrite !lookup_delete_ne by done.
      by apply (wf_order_to_price_level _ _ Hwf).
  - rewrite Hb'. case_bool_decide; simpl.
    + apply rebuild_heap_sorted.
    + apply (wf_heap_sorted _ _ Hwf).
  - intros k. rewrite Hb'. case_bool_decide; simpl.
    + apply rebuild_heap_elem.
    + rewrite (wf_heap_elem _ _ Hwf). split.
      * intros (q & Hq & ->). exists q. split; [|done].
        rewrite lookup_insert_is_Some.
        destruct (decide (p = q)); [by left|by right].
      * intros (q & Hq & ->). exists q. split; [|done].
        apply lookup_insert_is_Some in Hq as [<- |[_ Hq]]; [by eauto|done].
Qed.

(** *** Repeated calls of [get_best_price]

    These hold for every book side, well formed or not. *)

Lemma get_best_price_loop_spec n b r b' :
  (length (heap b) ≤ n)%nat →
  get_best_price_loop n b = (r, b') →
  match r with
  | Some p =>
      _heap_peek b' = Some p
      ∧ ∃ l, price_levels b' !! p = Some l ∧ PriceLevel.is_empty l = false
  | None => heap b' = []
  end.
Proof.
  revert b. induction n as [|n IH]; intros b Hlen; simpl.
  - intros [= <- <-]. destruct (heap b); [done|simpl in Hlen; lia].
  - unfold _heap_peek.
    destruct (heap b) as [|k hp] eqn:Hheap; [by intros [= <- <-]|].
    destruct (price_levels b !! heap_key (side b) k) as [l|] eqn:Hl.
    + destruct (PriceLevel.is_empty l) eqn:He; simpl.
      * apply IH. simpl in *. lia.
      * intros [= <- <-]. rewrite Hheap. eauto.
    + apply IH. unfold _heap_pop. simpl. rewrite ?Hheap. simpl in *. lia.
Qed.

Lemma get_best_price_idem b :
  get_best_price (get_best_price b).2 = get_best_price b.
Proof.
  destruct (get_best_price b) as [r b'] eqn:E. simpl.
  apply get_best_price_loop_spec in E; [|done].
  unfold get_best_price. destruct r as [p|].
  - destruct E as (Hpeek & l & Hl & He). unfold _heap_peek in Hpeek.
    destruct (heap b') as [|k hp] eqn:Hheap; [done|]. simpl.
    unfold _heap_peek. rewrite Hheap. injection Hpeek as ->.
    by rewrite Hl, He.
  - by rewrite E.
Qed.

End book_side.

Section sharded_best_price.

Import ShardedOrderBookSide.

Lemma scan_shards_idem s acc sh :
  scan_shards s acc (scan_shards s acc sh).2 = scan_shards s acc sh.
Proof.
  revert acc. induction sh as [|shard sh IH]; intros acc; simpl; [done|].
  destruct (OrderBookSide.get_best_price shard) as [sb shard'] eqn:E.
  pose proof (get_best_price_idem shard) as Hidem. rewrite E in Hidem.
  simpl in Hidem.
  set (acc' := match sb with Some _ => _ | None => acc end).
  specialize (IH acc').
  destruct (scan_shards s acc' sh) as [r rest'] eqn:E2. simpl in *.
  rewrite Hidem. fold acc'. by rewrite IH.
Qed.

Lemma sharded_get_best_price_idem b :
  get_best_price (get_best_price b).2 = get_best_price b.
Proof.
  unfold get_best_price.
  destruct (_cache_valid b && _) eqn:Hc; simpl; [by rewrite Hc|].
  destruct (scan_shards (side b) None (shards b)) as [r sh'] eqn:E. simpl.
  destruct r as [p|]; simpl.
  - done.
  - rewrite ?bool_decide_eq_false_2 by (by intros [? ?]). simpl.
    pose proof (scan_shards_idem (side b) None (shards b)) as Hidem.
    rewrite E in Hidem. simpl in Hidem. by rewrite Hidem.
Qed.

End sharded_best_price.

(** ** Fills and the book *)

Section fills.

Import OrderBookSide.

Lemma fills_only_refl h : fills_only h h.
Proof. split; [done|]. intros a. by destruct (deref h a). Qed.

Lemma fills_only_trans h1 h2 h3 :
  fills_only h1 h2 → fills_only h2 h3 → fills_only h1 h3.
Proof.
  intros [Hl1 H1] [Hl2 H2]. split; [congruence|].
  intros a. rewrite (H2 a) at 1. rewrite (H1 a) at 1. done.
Qed.

Lemma fills_only_update q a h : fills_only h (update (Order.add_filled q) a h).
Proof.
  split; [apply length_update|].
  intros b. rewrite deref_update. case_bool_decide as Hab.
  - destruct Hab as [<- _]. by destruct (deref h a).
  - by destruct (deref h b).
Qed.

Lemma fills_only_fill_pair q x a h : fills_only h (fill_pair q x a h).
Proof.
  unfold fill_pair.
  eapply fills_only_trans; apply fills_only_update.
Qed.

Lemma fills_only_fields h h' a :
  fills_only h h' →
  Order.order_id (deref h' a) = Order.order_id (deref h a)
  ∧ Order.price (deref h' a) = Order.price (deref h a)
  ∧ Order.side (deref h' a) = Order.side (deref h a)
  ∧ Order.timestamp (deref h' a) = Order.timestamp (deref h a)
  ∧ Order.order_type (deref h' a) = Order.order_type (deref h a)
  ∧ Order.quantity (deref h' a) = Order.quantity (deref h a).
Proof. intros [_ H]. rewrite (H a). done. Qed.

Lemma fills_only_ids h h' :
  fills_only h h' → Order.order_id <$> h' = Order.order_id <$> h.
Proof.
  intros Hf. pose proof Hf as [Hlen H].
  apply list_eq. intros i. rewrite !list_lookup_fmap.
  destruct (h !! i) as [o|] eqn:E1, (h' !! i) as [o'|] eqn:E2; simpl.
  - f_equal. destruct (fills_only_fields _ _ i Hf) as [Hid _].
    unfold deref in Hid. by rewrite E1, E2 in Hid.
  - apply lookup_lt_Some in E1. apply lookup_ge_None in E2. lia.
  - apply lookup_lt_Some in E2. apply lookup_ge_None in E1. lia.
  - done.
Qed.

(** A well-formed side stays so when the store changes away from the
    ids and prices of its resting orders. *)
Lemma wf_side_store h h' b :
  wf_side h b → (length h ≤ length h')%nat →
  (∀ a, rests b a →
        Order.order_id (deref h' a) = Order.order_id (deref h a)
        ∧ Order.price (deref h' a) = Order.price (deref h a)) →
  wf_side h' b.
Proof.
  intros Hwf Hlen Hagree.
  assert (Hom : ∀ id a, order_map b !! id = Some a → rests b a).
  { intros id a Hid. destruct (wf_order_map _ _ Hwf _ _ Hid) as [_ Hin].
    by eexists. }
  split.
  - apply (wf_level_price _ _ Hwf).
  - apply (wf_level_nonempty _ _ Hwf).
  - apply (wf_level_nodup _ _ Hwf).
  - intros p a Ha.
    destruct (Hagree a) as [-> ->]; [by exists p|].
    destruct (wf_level_orders _ _ Hwf _ _ Ha) as (? & ? & ?).
    split; [lia|done].
  - intros id a Hid.
    destruct (Hagree a) as [-> ->]; [by eapply Hom|].
    by apply (wf_order_map _ _ Hwf).
  - intros id. rewrite (wf_order_to_price_level _ _ Hwf).
    destruct (order_map b !! id) as [a|] eqn:Hid; simpl; [|done].
    destruct (Hagree a) as [_ ->]; [by eapply Hom|done].
  - apply (wf_heap_sorted _ _ Hwf).
  - apply (wf_heap_elem _ _ Hwf).
Qed.

Lemma wf_side_fills h h' b : wf_side h b → fills_only h h' → wf_side h' b.
Proof.
  intros Hwf Hf. apply (wf_side_store h); [done|destruct Hf; lia|].
  intros a _. by destruct (fills_only_fields _ _ a Hf) as (? & ? & _).
Qed.

Lemma rests_remove_order h id a b x :
  wf_side h b → order_map b !! id = Some a →
  rests (remove_order h id b).2 x ↔ rests b x ∧ x ≠ a.
Proof.
  intros Hwf Hid. unfold rests. split.
  - intros [p Hp]. rewrite (remove_order_level_orders _ _ _ _ _ Hwf Hid) in Hp.
    apply list_elem_of_filter in Hp as [? ?]. split; [by exists p|done].
  - intros [[p Hp] Hne]. exists p.
    rewrite (remove_order_level_orders _ _ _ _ _ Hwf Hid).
    by apply list_elem_of_filter.
Qed.

Lemma rests_add_order h a b x :
  rests (add_order h a b).2 x ↔ rests b x ∨ x = a.
Proof.
  unfold rests. split.
  - intros [p Hp]. rewrite add_order_level_orders in Hp.
    destruct (decide _); [|left; by exists p].
    apply elem_of_app in Hp as [?|?%list_elem_of_singleton];
      [left; by exists p|by right].
  - intros [[p Hp]| ->].
    + exists p. rewrite add_order_level_orders.
      destruct (decide _); [set_solver|done].
    + exists (Order.price (deref h a)). rewrite add_order_level_orders.
      rewrite decide_True by done. set_solver.
Qed.

Lemma rests_iff_order_map h b a :
  wf_side h b →
  rests b a ↔ ((a < length h)%nat
               ∧ order_map b !! Order.order_id (deref h a) = Some a).
Proof.
  intros Hwf. split.
  - intros [p Hp]. by destruct (wf_level_orders _ _ Hwf _ _ Hp) as (? & ? & ?).
  - intros [_ Hm]. destruct (wf_order_map _ _ Hwf _ _ Hm) as [_ ?].
    by eexists.
Qed.

(** *** One fill *)

Lemma deref_fill_pair q x a h y :
  x ≠ a → (x < length h)%nat → (a < length h)%nat →
  deref (fill_pair q x a h) y
  = if decide (y = x ∨ y = a) then Order.add_filled q (deref h y)
    else deref h y.
Proof.
  intros Hxa Hx Ha. unfold fill_pair.
  rewrite deref_update. case_bool_decide as H1.
  - destruct H1 as [<- _]. rewrite deref_update_ne by done.
    by rewrite decide_True by (by right).
  - rewrite deref_update. case_bool_decide as H2.
    + destruct H2 as [<- _]. by rewrite decide_True by (by left).
    + rewrite decide_False; [done|].
      intros [-> | ->].
      * apply H2. done.
      * apply H1. split; [done|]. by rewrite length_update.
Qed.

Lemma remaining_add_filled q o :
  Order.remaining_quantity (Order.add_filled q o)
  = Order.remaining_quantity o - q.
Proof. unfold Order.remaining_quantity, Order.add_filled. simpl. lia. Qed.

(** The side that holds the resting order [a] after a fill of [q]
    against the incoming order [x]. *)
Lemma fill_step h b x a q :
  wf_side h b → live_side h b →
  (x < length h)%nat → ¬ rests b x → rests b a →
  0 < q ≤ Order.remaining_quantity (deref h a) →
  let h2 := fill_pair q x a h in
  let b2 := drop_if_filled h2 a b in
  wf_side h2 b2 ∧ live_side h2 b2 ∧ side b2 = side b
  ∧ (∀ p, level_orders b2 p
          = if decide (q = Order.remaining_quantity (deref h a))
            then filter (λ y, y ≠ a) (level_orders b p)
            else level_orders b p)
  ∧ Order.remaining_quantity (deref h2 x)
    = Order.remaining_quantity (deref h x) - q
  ∧ Order.remaining_quantity (deref h2 a)
    = Order.remaining_quantity (deref h a) - q.
Proof.
  intros Hwf Hlive Hx Hnx Ha Hq h2 b2.
  assert (Hxa : x ≠ a) by (intros ->; done).
  assert (Hal : (a < length h)%nat).
  { by apply (rests_iff_order_map _ _ _ Hwf) in Ha as [? _]. }
  assert (Hd : ∀ y, deref h2 y
                    = if decide (y = x ∨ y = a)
                      then Order.add_filled q (deref h y) else deref h y).
  { intros y. by apply deref_fill_pair. }
  assert (Hf : fills_only h h2) by apply fills_only_fill_pair.
  pose proof (wf_side_fills _ _ _ Hwf Hf) as Hwf2.
  assert (Hra : Order.remaining_quantity (deref h2 a)
                = Order.remaining_quantity (deref h a) - q).
  { rewrite Hd, decide_True by (by right). apply remaining_add_filled. }
  assert (Hrx : Order.remaining_quantity (deref h2 x)
                = Order.remaining_quantity (deref h x) - q).
  { rewrite Hd, decide_True by (by left). apply remaining_add_filled. }
  assert (Hma : order_map b !! Order.order_id (deref h2 a) = Some a).
  { by apply (rests_iff_order_map _ _ _ Hwf2) in Ha as [_ ?]. }
  assert (Hlive_rest : ∀ y, rests b y → y ≠ a →
            0 < Order.remaining_quantity (deref h2 y)
            ∧ Order.side (deref h2 y) = side b).
  { intros y Hy Hya. rewrite Hd, decide_False.
    - by apply Hlive.
    - intros [-> | ->]; done. }
  subst b2. unfold drop_if_filled. rewrite Hra.
  destruct (decide (q = Order.remaining_quantity (deref h a))) as [Heq|Hne].
  - replace (_ - q =? 0) with true by (symmetry; lia).
    destruct (remove_order_order_map _ _ _ _ Hwf2 Hma) as (_ & Hside & _).
    split; [by eapply remove_order_wf|].
    split.
    { intros y Hy. rewrite Hside.
      apply (rests_remove_order _ _ _ _ _ Hwf2 Hma) in Hy as [Hy Hya].
      by apply Hlive_rest. }
    split; [done|].
    split; [|done].
    intros p. by apply remove_order_level_orders.
  - replace (_ - q =? 0) with false by (symmetry; lia).
    split; [done|]. split; [|done].
    intros y Hy. destruct (decide (y = a)) as [-> |Hya].
    + rewrite Hra. split; [lia|].
      destruct (fills_only_fields _ _ a Hf) as (_ & _ & -> & _).
      by apply Hlive.
    + by apply Hlive_rest.
Qed.

(** A side that holds neither of the two orders is not affected. *)
Lemma fill_other_side h b x a q :
  wf_side h b → live_side h b → ¬ rests b x → ¬ rests b a →
  wf_side (fill_pair q x a h) b ∧ live_side (fill_pair q x a h) b.
Proof.
  intros Hwf Hlive Hnx Hna.
  split; [by eapply wf_side_fills, fills_only_fill_pair|].
  intros y Hy. unfold fill_pair.
  rewrite !deref_update_ne; [by apply Hlive| |]; by intros ->.
Qed.

Lemma rests_sides_disjoint h b1 b2 a :
  live_side h b1 → live_side h b2 → side b1 ≠ side b2 →
  rests b1 a → ¬ rests b2 a.
Proof.
  intros H1 H2 Hne Ha Ha'.
  destruct (H1 _ Ha) as [_ ?]. destruct (H2 _ Ha') as [_ ?]. congruence.
Qed.


(** *** Ids and allocation *)

Lemma ids_inj h a a' :
  NoDup (Order.order_id <$> h) →
  (a < length h)%nat → (a' < length h)%nat →
  Order.order_id (deref h a) = Order.order_id (deref h a') → a = a'.
Proof.
  intros Hnd Ha Ha' Heq.
  destruct (lookup_lt_is_Some_2 h a Ha) as [o Ho].
  destruct (lookup_lt_is_Some_2 h a' Ha') as [o' Ho'].
  unfold deref in Heq. rewrite Ho, Ho' in Heq. simpl in Heq.
  eapply (NoDup_lookup _ a a' (Order.order_id o) Hnd);
    rewrite list_lookup_fmap.
  - by rewrite Ho.
  - rewrite Ho'. simpl. by rewrite Heq.
Qed.

Lemma deref_alloc_old h o a : (a < length h)%nat → deref (h ++ [o]) a = deref h a.
Proof. intros Ha. unfold deref. by rewrite lookup_app_l. Qed.

Lemma deref_alloc_new h o : deref (h ++ [o]) (length h) = o.
Proof.
  unfold deref. rewrite lookup_app_r by lia.
  by rewrite Nat.sub_diag.
Qed.

Lemma rests_lt h b a : wf_side h b → rests b a → (a < length h)%nat.
Proof. intros Hwf Ha. by apply (rests_iff_order_map _ _ _ Hwf) in Ha as [? _]. Qed.

Lemma wf_side_alloc h o b : wf_side h b → wf_side (h ++ [o]) b.
Proof.
  intros Hwf. apply (wf_side_store h); [done|rewrite length_app; lia|].
  intros a Ha. by rewrite deref_alloc_old by by eapply rests_lt.
Qed.

Lemma live_side_alloc h o b :
  wf_side h b → live_side h b → live_side (h ++ [o]) b.
Proof.
  intros Hwf Hlive a Ha.
  rewrite deref_alloc_old by by eapply rests_lt. by apply Hlive.
Qed.

Lemma wf_book_alloc h o bids asks :
  wf_book h bids asks → Order.order_id o ∉ Order.order_id <$> h →
  wf_book (h ++ [o]) bids asks.
Proof.
  intros Hwf Hfresh. constructor; try apply Hwf.
  - apply wf_side_alloc, Hwf.
  - apply wf_side_alloc, Hwf.
  - apply live_side_alloc; apply Hwf.
  - apply live_side_alloc; apply Hwf.
  - rewrite fmap_app. apply NoDup_app. split; [apply Hwf|].
    split; [|apply NoDup_singleton].
    intros id Hid ->%list_elem_of_singleton. done.
Qed.

Lemma order_map_fresh h b a :
  wf_side h b → NoDup (Order.order_id <$> h) → (a < length h)%nat →
  ¬ rests b a →
  OrderBookSide.order_map b !! Order.order_id (deref h a) = None.
Proof.
  intros Hwf Hnd Ha Hna.
  destruct (OrderBookSide.order_map b !! _) as [a'|] eqn:E; [|done].
  destruct (wf_order_map _ _ Hwf _ _ E) as [Hid Hin].
  assert (Ha' : rests b a') by by eexists.
  assert (a' = a) as ->; [|done].
  eapply ids_inj; [done| |done|done]. by eapply rests_lt.
Qed.

(** [OrderBookSide.add_order] of an order that has something left. *)
Lemma live_side_add_order h b a :
  live_side h b → 0 < Order.remaining_quantity (deref h a) →
  Order.side (deref h a) = OrderBookSide.side b →
  live_side h (OrderBookSide.add_order h a b).2.
Proof.
  intros Hlive Hrem Hside y Hy.
  destruct (add_order_fields h a b) as (-> & _).
  apply rests_add_order in Hy as [Hy| ->]; [by apply Hlive|done].
Qed.

End fills.

(** ** The base engine on well-formed states *)

Section base_engine.

Import BaseMatchingEngine.

Lemma base_eta e :
  mk (objs e) (bids e) (asks e) (trade_history e) (order_history e) = e.
Proof. by destruct e. Qed.

Lemma head_level_orders h b p :
  wf_side h b → is_Some (OrderBookSide.price_levels b !! p) →
  ∃ l a, OrderBookSide.price_levels b !! p = Some l
         ∧ PriceLevel.get_top_order l = Some a
         ∧ head (level_orders b p) = Some a.
Proof.
  intros Hwf [l Hl]. pose proof (wf_level_nonempty _ _ Hwf _ _ Hl) as Hne.
  unfold PriceLevel.get_top_order, level_orders. rewrite Hl. simpl.
  destruct (PriceLevel.orders l) as [|a os] eqn:E; [done|].
  exists l, a. by rewrite E.
Qed.

Lemma head_rests b p a : head (level_orders b p) = Some a → rests b a.
Proof.
  intros H. exists p. destruct (level_orders b p); [done|].
  injection H as ->. left.
Qed.

(** What a pass of the buy loop does on a well-formed ask side. *)
Lemma base_buy_pass_inv buy trades e :
  wf_side (objs e) (asks e) →
  match _match_buy_order_pass buy (trades, e) with
  | inl s' => s' = (trades, e)
  | inr s' =>
      ∃ p a,
        is_best_price (asks e) p
        ∧ head (level_orders (asks e) p) = Some a
        ∧ 0 < Order.remaining_quantity (deref (objs e) buy)
        ∧ (Order.order_type (deref (objs e) buy) = MARKET
           ∨ p ≤ Order.price (deref (objs e) buy))
        ∧ let q := Z.min (Order.remaining_quantity (deref (objs e) buy))
                         (Order.remaining_quantity (deref (objs e) a)) in
          let h2 := fill_pair q buy a (objs e) in
          s' = (trades
                ++ [Trade.create_trade (deref (objs e) buy)
                      (deref (objs e) a) q],
                mk h2 (bids e) (drop_if_filled h2 a (asks e))
                   (trade_history e) (order_history e))
  end.
Proof.
  intros Hwf. unfold _match_buy_order_pass.
  destruct (0 <? _) eqn:Hrem; simpl; [|done]. apply Z.ltb_lt in Hrem.
  rewrite (get_best_price_wf _ _ Hwf), base_eta.
  destruct (OrderBookSide._heap_peek (asks e)) as [p|] eqn:Hpeek; [|done].
  pose proof (heap_peek_best _ _ _ Hwf Hpeek) as Hbest.
  destruct (bool_decide _ || _) eqn:Hcross; simpl; [|done].
  destruct Hbest as [Hp Hmin].
  destruct (head_level_orders _ _ _ Hwf Hp) as (l & a & Hl & Htop & Hhead).
  unfold OrderBookSide.get_price_level. rewrite Hl, Htop.
  exists p, a. split; [done|]. split; [done|]. split; [done|].
  split; [|done].
  apply orb_true_iff in Hcross as [Hm%bool_decide_eq_true_1|Hle%Z.leb_le];
    [by left|by right].
Qed.

Lemma base_sell_pass_inv sell trades e :
  wf_side (objs e) (bids e) →
  match _match_sell_order_pass sell (trades, e) with
  | inl s' => s' = (trades, e)
  | inr s' =>
      ∃ p a,
        is_best_price (bids e) p
        ∧ head (level_orders (bids e) p) = Some a
        ∧ 0 < Order.remaining_quantity (deref (objs e) sell)
        ∧ (Order.order_type (deref (objs e) sell) = MARKET
           ∨ Order.price (deref (objs e) sell) ≤ p)
        ∧ let q := Z.min (Order.remaining_quantity (deref (objs e) sell))
                         (Order.remaining_quantity (deref (objs e) a)) in
          let h2 := fill_pair q sell a (objs e) in
          s' = (trades
                ++ [Trade.create_trade (deref (objs e) a)
                      (deref (objs e) sell) q],
                mk h2 (drop_if_filled h2 a (bids e)) (asks e)
                   (trade_history e) (order_history e))
  end.
Proof.
  intros Hwf. unfold _match_sell_order_pass.
  destruct (0 <? _) eqn:Hrem; simpl; [|done]. apply Z.ltb_lt in Hrem.
  rewrite (get_best_price_wf _ _ Hwf), base_eta.
  destruct (OrderBookSide._heap_peek (bids e)) as [p|] eqn:Hpeek; [|done].
  pose proof (heap_peek_best _ _ _ Hwf Hpeek) as Hbest.
  destruct (bool_decide _ || _) eqn:Hcross; simpl; [|done].
  destruct Hbest as [Hp Hmin].
  destruct (head_level_orders _ _ _ Hwf Hp) as (l & a & Hl & Htop & Hhead).
  unfold OrderBookSide.get_price_level. rewrite Hl, Htop.
  exists p, a. split; [done|]. split; [done|]. split; [done|].
  split; [|done].
  apply orb_true_iff in Hcross as [Hm%bool_decide_eq_true_1|Hle%Z.leb_le];
    [by left|by right].
Qed.

(** A pass of the buy loop that trades keeps the invariant and fills at
    least one unit of the incoming order. *)
Lemma base_buy_pass_step order s s' :
  base_loop_inv order s →
  _match_buy_order_pass order s = inr s' →
  base_loop_inv order s'
  ∧ (base_left order s' < base_left order s)%nat
  ∧ fills_only (objs s.2) (objs s'.2)
  ∧ trade_history s'.2 = trade_history s.2
  ∧ order_history s'.2 = order_history s.2.
Proof.
  destruct s as [trades e]. intros (Hwf & Hlen & Hnb & Hna) Hpass.
  simpl in Hwf, Hlen, Hnb, Hna.
  pose proof (base_buy_pass_inv order trades e (wfb_asks _ _ _ Hwf)) as Hinv.
  rewrite Hpass in Hinv.
  destruct Hinv as (p & a & Hbest & Hhead & Hrem & Hcross & ->).
  pose proof (head_rests _ _ _ Hhead) as Ha.
  destruct (wfb_asks_live _ _ _ Hwf _ Ha) as [Hra Hsa].
  set (q := Z.min _ _) in *.
  assert (Hq : 0 < q ≤ Order.remaining_quantity (deref (objs e) a))
    by (subst q; lia).
  destruct (fill_step _ _ order a q (wfb_asks _ _ _ Hwf)
              (wfb_asks_live _ _ _ Hwf) Hlen Hna Ha Hq)
    as (Hwf2 & Hlive2 & Hside2 & Hlo & Hrx & _).
  assert (Hab : ¬ rests (bids e) a).
  { eapply (rests_sides_disjoint _ (asks e) (bids e));
      [apply Hwf..| |done].
    rewrite (wfb_asks_side _ _ _ Hwf), (wfb_bids_side _ _ _ Hwf). done. }
  destruct (fill_other_side _ _ order a q (wfb_bids _ _ _ Hwf)
              (wfb_bids_live _ _ _ Hwf) Hnb Hab) as [Hwfb2 Hliveb2].
  pose proof (fills_only_fill_pair q order a (objs e)) as Hf.
  split; [|split; [|done]].
  - split; [|split; [|split]]; simpl.
    + constructor; simpl;
        [exact Hwfb2|exact Hwf2|exact Hliveb2|exact Hlive2|apply Hwf
        |rewrite Hside2; apply Hwf
        |rewrite (fills_only_ids _ _ Hf); apply Hwf].
    + destruct Hf as [-> _]. done.
    + done.
    + intros [p' Hin]. rewrite Hlo in Hin. apply Hna. exists p'.
      destruct (decide _); [|done].
      by apply list_elem_of_filter in Hin as [_ ?].
  - unfold base_left. simpl. rewrite Hrx. subst q. lia.
Qed.

Lemma base_buy_pass_exit order s s' :
  base_loop_inv order s → _match_buy_order_pass order s = inl s' → s' = s.
Proof.
  destruct s as [trades e]. intros (Hwf & _) Hpass. simpl in Hwf.
  pose proof (base_buy_pass_inv order trades e (wfb_asks _ _ _ Hwf)) as Hinv.
  by rewrite Hpass in Hinv.
Qed.

(** A pass of the sell loop that trades keeps the invariant and fills at
    least one unit of the incoming order. *)
Lemma base_sell_pass_step order s s' :
  base_loop_inv order s →
  _match_sell_order_pass order s = inr s' →
  base_loop_inv order s'
  ∧ (base_left order s' < base_left order s)%nat
  ∧ fills_only (objs s.2) (objs s'.2)
  ∧ trade_history s'.2 = trade_history s.2
  ∧ order_history s'.2 = order_history s.2.
Proof.
  destruct s as [trades e]. intros (Hwf & Hlen & Hnb & Hna) Hpass.
  simpl in Hwf, Hlen, Hnb, Hna.
  pose proof (base_sell_pass_inv order trades e (wfb_bids _ _ _ Hwf)) as Hinv.
  rewrite Hpass in Hinv.
  destruct Hinv as (p & a & Hbest & Hhead & Hrem & Hcross & ->).
  pose proof (head_rests _ _ _ Hhead) as Ha.
  destruct (wfb_bids_live _ _ _ Hwf _ Ha) as [Hra Hsa].
  set (q := Z.min _ _) in *.
  assert (Hq : 0 < q ≤ Order.remaining_quantity (deref (objs e) a))
    by (subst q; lia).
  destruct (fill_step _ _ order a q (wfb_bids _ _ _ Hwf)
              (wfb_bids_live _ _ _ Hwf) Hlen Hnb Ha Hq)
    as (Hwf2 & Hlive2 & Hside2 & Hlo & Hrx & _).
  assert (Hab : ¬ rests (asks e) a).
  { eapply (rests_sides_disjoint _ (bids e) (asks e));
      [apply Hwf..| |done].
    rewrite (wfb_bids_side _ _ _ Hwf), (wfb_asks_side _ _ _ Hwf). done. }
  destruct (fill_other_side _ _ order a q (wfb_asks _ _ _ Hwf)
              (wfb_asks_live _ _ _ Hwf) Hna Hab) as [Hwfb2 Hliveb2].
  pose proof (fills_only_fill_pair q order a (objs e)) as Hf.
  split; [|split; [|done]].
  - split; [|split; [|split]]; simpl.
    + constructor; simpl;
        [exact Hwf2|exact Hwfb2|exact Hlive2|exact Hliveb2
        |rewrite Hside2; apply Hwf|apply Hwf
        |rewrite (fills_only_ids _ _ Hf); apply Hwf].
    + destruct Hf as [-> _]. done.
    + intros [p' Hin]. rewrite Hlo in Hin. apply Hnb. exists p'.
      destruct (decide _); [|done].
      by apply list_elem_of_filter in Hin as [_ ?].
    + done.
  - unfold base_left. simpl. rewrite Hrx. subst q. lia.
Qed.

Lemma base_sell_pass_exit order s s' :
  base_loop_inv order s → _match_sell_order_pass order s = inl s' → s' = s.
Proof.
  destruct s as [trades e]. intros (Hwf & _) Hpass. simpl in Hwf.
  pose proof (base_sell_pass_inv order trades e (wfb_bids _ _ _ Hwf)) as Hinv.
  by rewrite Hpass in Hinv.
Qed.

(** The matching loops end, within a fuel of one more than what is
    left of the incoming order, in a well-formed state. *)
Lemma base_match_buy_spec fuel order e :
  base_loop_inv order ([], e) → (base_left order ([], e) < fuel)%nat →
  ∃ r,
    _match_buy_order fuel order e = Some r
    ∧ base_loop_inv order r
    ∧ fills_only (objs e) (objs r.2)
    ∧ trade_history r.2 = trade_history e
    ∧ order_history r.2 = order_history e.
Proof.
  intros Hinv Hfuel. unfold _match_buy_order.
  destruct (while_loop_total (_match_buy_order_pass order)
              (base_loop_inv order) (base_left order) fuel ([], e))
    as [r Hr]; [|done|done|].
  { intros s s' Hs Hp.
    by destruct (base_buy_pass_step _ _ _ Hs Hp) as (? & ? & _). }
  exists r. split; [done|].
  eapply (while_loop_invariant (_match_buy_order_pass order)
            (λ s, base_loop_inv order s
                  ∧ fills_only (objs e) (objs s.2)
                  ∧ trade_history s.2 = trade_history e
                  ∧ order_history s.2 = order_history e)
            (λ s, base_loop_inv order s
                  ∧ fills_only (objs e) (objs s.2)
                  ∧ trade_history s.2 = trade_history e
                  ∧ order_history s.2 = order_history e)); [| | |exact Hr].
  - intros s s' (Hs & Hf & Hth & Hoh) Hp.
    destruct (base_buy_pass_step _ _ _ Hs Hp) as (? & _ & Hf' & Hth' & Hoh').
    split; [done|]. split; [by eapply fills_only_trans|].
    split; congruence.
  - intros s s' (Hs & Hf & Hth & Hoh) Hp.
    by rewrite (base_buy_pass_exit _ _ _ Hs Hp).
  - split; [done|]. split; [apply fills_only_refl|done].
Qed.

Lemma base_match_sell_spec fuel order e :
  base_loop_inv order ([], e) → (base_left order ([], e) < fuel)%nat →
  ∃ r,
    _match_sell_order fuel order e = Some r
    ∧ base_loop_inv order r
    ∧ fills_only (objs e) (objs r.2)
    ∧ trade_history r.2 = trade_history e
    ∧ order_history r.2 = order_history e.
Proof.
  intros Hinv Hfuel. unfold _match_sell_order.
  destruct (while_loop_total (_match_sell_order_pass order)
              (base_loop_inv order) (base_left order) fuel ([], e))
    as [r Hr]; [|done|done|].
  { intros s s' Hs Hp.
    by destruct (base_sell_pass_step _ _ _ Hs Hp) as (? & ? & _). }
  exists r. split; [done|].
  eapply (while_loop_invariant (_match_sell_order_pass order)
            (λ s, base_loop_inv order s
                  ∧ fills_only (objs e) (objs s.2)
                  ∧ trade_history s.2 = trade_history e
                  ∧ order_history s.2 = order_history e)
            (λ s, base_loop_inv order s
                  ∧ fills_only (objs e) (objs s.2)
                  ∧ trade_history s.2 = trade_history e
                  ∧ order_history s.2 = order_history e)); [| | |exact Hr].
  - intros s s' (Hs & Hf & Hth & Hoh) Hp.
    destruct (base_sell_pass_step _ _ _ Hs Hp) as (? & _ & Hf' & Hth' & Hoh').
    split; [done|]. split; [by eapply fills_only_trans|].
    split; congruence.
  - intros s s' (Hs & Hf & Hth & Hoh) Hp.
    by rewrite (base_sell_pass_exit _ _ _ Hs Hp).
  - split; [done|]. split; [apply fills_only_refl|done].
Qed.

Lemma base_add_to_order_book_wf order e :
  wf_base e → (order < length (objs e))%nat →
  ¬ rests (bids e) order → ¬ rests (asks e) order →
  0 < Order.remaining_quantity (deref (objs e) order) →
  wf_base (_add_to_order_book order e).
Proof.
  intros Hwf Hlen Hnb Hna Hrem. unfold _add_to_order_book.
  destruct (Order.side (deref (objs e) order)) eqn:Hside.
  - destruct (add_order_fields (objs e) order (bids e)) as (Hs & _).
    constructor; cbn [objs bids asks]; try apply Hwf.
    + apply add_order_wf; [apply Hwf|done|].
      apply order_map_fresh; [apply Hwf|apply Hwf|done|done].
    + apply live_side_add_order; [apply Hwf|done|].
      by rewrite (wfb_bids_side _ _ _ Hwf).
    + rewrite Hs. apply Hwf.
  - destruct (add_order_fields (objs e) order (asks e)) as (Hs & _).
    constructor; cbn [objs bids asks]; try apply Hwf.
    + apply add_order_wf; [apply Hwf|done|].
      apply order_map_fresh; [apply Hwf|apply Hwf|done|done].
    + apply live_side_add_order; [apply Hwf|done|].
      by rewrite (wfb_asks_side _ _ _ Hwf).
    + rewrite Hs. apply Hwf.
Qed.

(** [add_order] on a well-formed state, for an order of the store that
    does not rest in the book. *)
Lemma base_add_order_wf fuel order e :
  wf_base e → (order < length (objs e))%nat →
  ¬ rests (bids e) order → ¬ rests (asks e) order →
  (Z.to_nat (Order.remaining_quantity (deref (objs e) order)) < fuel)%nat →
  ∃ trades e',
    add_order fuel order e = Some (trades, e')
    ∧ wf_base e'
    ∧ fills_only (objs e) (objs e')
    ∧ trade_history e' = trade_history e ++ trades
    ∧ order_history e' = order_history e ++ [order].
Proof.
  intros Hwf Hlen Hnb Hna Hfuel. unfold add_order.
  set (e0 := mk (objs e) (bids e) (asks e) (trade_history e)
                (order_history e ++ [order])).
  assert (Hinv0 : base_loop_inv order ([], e0)).
  { split; [|done]. by destruct Hwf. }
  assert (Hm : ∃ r,
    match Order.side (deref (objs e0) order) with
    | BUY => _match_buy_order fuel order e0
    | SELL => _match_sell_order fuel order e0
    end = Some r
    ∧ base_loop_inv order r
    ∧ fills_only (objs e0) (objs r.2)
    ∧ trade_history r.2 = trade_history e0
    ∧ order_history r.2 = order_history e0).
  { destruct (Order.side _);
      [apply base_match_buy_spec|apply base_match_sell_spec]; done. }
  destruct Hm as ([trades e1] & -> & (Hwf1 & Hlen1 & Hnb1 & Hna1)
                  & Hf & Hth & Hoh).
  simpl in *.
  eexists _, _. split; [reflexivity|].
  destruct (_ && _) eqn:Hadd; simpl.
  - apply andb_true_iff in Hadd as [Hrem%Z.ltb_lt _].
    pose proof (base_add_to_order_book_wf order e1 Hwf1 Hlen1 Hnb1 Hna1 Hrem)
      as Hwf2.
    unfold _add_to_order_book in *.
    destruct (Order.side _); simpl in *.
    + split; [by destruct Hwf2|]. by rewrite Hth, Hoh.
    + split; [by destruct Hwf2|]. by rewrite Hth, Hoh.
  - split; [by destruct Hwf1|]. by rewrite Hth, Hoh.
Qed.

(** A new order with a new id: [submit] returns, within a fuel of one
    more than the order's remaining quantity, and leaves a well-formed
    state. *)
Lemma base_submit_wf fuel o e :
  wf_base e → Order.order_id o ∉ Order.order_id <$> objs e →
  (Z.to_nat (Order.remaining_quantity o) < fuel)%nat →
  ∃ trades e',
    submit fuel o e = Some (trades, e')
    ∧ wf_base e'
    ∧ fills_only (objs e ++ [o]) (objs e')
    ∧ trade_history e' = trade_history e ++ trades.
Proof.
  intros Hwf Hfresh Hfuel. unfold submit, alloc.
  destruct (base_add_order_wf fuel (length (objs e))
              (mk (objs e ++ [o]) (bids e) (asks e) (trade_history e)
                  (order_history e)))
    as (trades & e' & -> & Hwf' & Hf & Hth & _); simpl.
  - by apply wf_book_alloc.
  - rewrite length_app. simpl. lia.
  - intros Hr. apply (rests_lt _ _ _ (wfb_bids _ _ _ Hwf)) in Hr. lia.
  - intros Hr. apply (rests_lt _ _ _ (wfb_asks _ _ _ Hwf)) in Hr. lia.
  - by rewrite deref_alloc_new.
  - by eexists _, _.
Qed.

Lemma wf_base_new : wf_base new.
Proof.
  constructor; simpl; try done.
  - constructor; simpl; try done.
    + intros p. unfold level_orders. simpl. rewrite lookup_empty. constructor.
    + intros p a. unfold level_orders. simpl. rewrite lookup_empty.
      by intros ?%elem_of_nil.
    + constructor.
    + intros k. split; [by intros ?%elem_of_nil|].
      intros (p & [? ?] & _). done.
  - constructor; simpl; try done.
    + intros p. unfold level_orders. simpl. rewrite lookup_empty. constructor.
    + intros p a. unfold level_orders. simpl. rewrite lookup_empty.
      by intros ?%elem_of_nil.
    + constructor.
    + intros k. split; [by intros ?%elem_of_nil|].
      intros (p & [? ?] & _). done.
  - intros a [p Hp]. unfold level_orders in Hp. simpl in Hp.
    rewrite lookup_empty in Hp. by apply elem_of_nil in Hp.
  - intros a [p Hp]. unfold level_orders in Hp. simpl in Hp.
    rewrite lookup_empty in Hp. by apply elem_of_nil in Hp.
  - constructor.
Qed.

End base_engine.

(** * Cancellation *)

Section cancel_sides.

Import OrderBookSide.

(** An order with the id [id] rests on a well-formed side exactly when
    [order_map] has the id. *)
Lemma rests_id_order_map h b id :
  wf_side h b →
  (∃ a, rests b a ∧ Order.order_id (deref h a) = id)
  ↔ is_Some (order_map b !! id).
Proof.
  intros Hwf. split.
  - intros (a & [p Hp] & <-).
    destruct (wf_level_orders _ _ Hwf _ _ Hp) as (_ & _ & Hom). by eexists.
  - intros [a Ha]. destruct (wf_order_map _ _ Hwf _ _ Ha) as [Hid Hin].
    exists a. split; [by eexists|done].
Qed.

(** [remove_order] for an id of the side: the order leaves it, and
    the side stays well formed and live. *)
Lemma remove_order_present h id a b :
  wf_side h b → live_side h b → order_map b !! id = Some a →
  ∃ b',
    remove_order h id b = (true, b')
    ∧ wf_side h b' ∧ live_side h b' ∧ side b' = side b
    ∧ (∀ x, rests b' x ↔ rests b x ∧ x ≠ a)
    ∧ Order.order_id (deref h a) = id ∧ rests b a.
Proof.
  intros Hwf Hlive Hid.
  destruct (remove_order_order_map h id a b Hwf Hid) as (_ & Hside & Hr).
  pose proof (remove_order_wf h id a b Hwf Hid) as Hwf'.
  pose proof (λ x, rests_remove_order h id a b x Hwf Hid) as Hrests.
  destruct (remove_order h id b) as [r b'] eqn:E. simpl in *. subst r.
  destruct (wf_order_map _ _ Hwf _ _ Hid) as [Hida Hin].
  exists b'. split; [done|]. split; [done|]. split.
  { intros x Hx. rewrite Hside. apply Hlive. by apply Hrests. }
  split; [done|]. split; [done|]. split; [done|]. by eexists.
Qed.

End cancel_sides.

Section cancel_base.

Import BaseMatchingEngine.

Lemma wf_book_sides_disjoint h bids asks a :
  wf_book h bids asks → rests bids a → ¬ rests asks a.
Proof.
  intros Hwf Ha.
  eapply (rests_sides_disjoint h bids asks a); [apply Hwf..| |done].
  rewrite (wfb_bids_side _ _ _ Hwf), (wfb_asks_side _ _ _ Hwf). done.
Qed.

(** The order of a well-formed book with a given id is one object. *)
Lemma wf_book_rests_bids_asks h bids asks a a' :
  wf_book h bids asks → rests bids a → rests asks a' →
  Order.order_id (deref h a) ≠ Order.order_id (deref h a').
Proof.
  intros Hwf Ha Ha' Hid.
  assert (a = a') as <-.
  { eapply ids_inj; [apply Hwf| | |done].
    - eapply rests_lt; [apply (wfb_bids _ _ _ Hwf)|done].
    - eapply rests_lt; [apply (wfb_asks _ _ _ Hwf)|done]. }
  eapply (rests_sides_disjoint h bids asks a); [apply Hwf..| |done|done].
  rewrite (wfb_bids_side _ _ _ Hwf), (wfb_asks_side _ _ _ Hwf). done.
Qed.

Lemma wf_book_rests_inj h bids asks a a' :
  wf_book h bids asks →
  rests bids a ∨ rests asks a → rests bids a' ∨ rests asks a' →
  Order.order_id (deref h a) = Order.order_id (deref h a') → a = a'.
Proof.
  intros Hwf Ha Ha' Hid.
  eapply ids_inj; [apply Hwf| | |done].
  - destruct Ha as [Ha|Ha];
      [eapply rests_lt; [apply (wfb_bids _ _ _ Hwf)|done]
      |eapply rests_lt; [apply (wfb_asks _ _ _ Hwf)|done]].
  - destruct Ha' as [Ha'|Ha'];
      [eapply rests_lt; [apply (wfb_bids _ _ _ Hwf)|done]
      |eapply rests_lt; [apply (wfb_asks _ _ _ Hwf)|done]].
Qed.

(** The lookup of [cancel_order] in the two sides of a well-formed
    book. *)
Lemma cancel_book_spec h bids asks id :
  wf_book h bids asks →
  let r :=
    if bool_decide (is_Some (OrderBookSide.order_map bids !! id)) then
      let '(r, bids') := OrderBookSide.remove_order h id bids in
      (r, bids', asks)
    else if bool_decide (is_Some (OrderBookSide.order_map asks !! id)) then
      let '(r, asks') := OrderBookSide.remove_order h id asks in
      (r, bids, asks')
    else (false, bids, asks) in
  wf_book h r.1.2 r.2
  ∧ (r.1.1 = true
     ↔ ∃ a, (rests bids a ∨ rests asks a) ∧ Order.order_id (deref h a) = id)
  ∧ (∀ a, rests r.1.2 a ∨ rests r.2 a
          ↔ (rests bids a ∨ rests asks a)
            ∧ Order.order_id (deref h a) ≠ id)
  ∧ (r.1.1 = false → r.1.2 = bids ∧ r.2 = asks).
Proof.
  intros Hwf.
  pose proof (rests_id_order_map h bids id (wfb_bids _ _ _ Hwf)) as Hb.
  pose proof (rests_id_order_map h asks id (wfb_asks _ _ _ Hwf)) as Ha.
  case_bool_decide as Eb; [|case_bool_decide as Ea].
  - destruct Eb as [a Eb].
    destruct (remove_order_present h id a bids (wfb_bids _ _ _ Hwf)
                (wfb_bids_live _ _ _ Hwf) Eb)
      as (b' & -> & Hwf' & Hlive' & Hside' & Hrests & Hid & Hra).
    simpl. split; [|split; [|split; [|done]]].
    + constructor; try apply Hwf; [done|done|].
      rewrite Hside'. apply Hwf.
    + split; [|done]. intros _. exists a. by split; [left|].
    + intros x. rewrite Hrests. split.
      * intros [[Hx Hne]|Hx].
        -- split; [by left|]. intros Hidx. apply Hne.
           eapply (wf_book_rests_inj h bids asks); [done|by left|by left|].
           congruence.
        -- split; [by right|]. intros Hidx.
           eapply (wf_book_rests_bids_asks h bids asks a x); [done..|].
           congruence.
      * intros [[Hx|Hx] Hne]; [left|by right].
        split; [done|]. intros ->. done.
  - destruct Ea as [a Ea].
    destruct (remove_order_present h id a asks (wfb_asks _ _ _ Hwf)
                (wfb_asks_live _ _ _ Hwf) Ea)
      as (b' & -> & Hwf' & Hlive' & Hside' & Hrests & Hid & Hra).
    simpl. split; [|split; [|split; [|done]]].
    + constructor; try apply Hwf; [done|done|].
      rewrite Hside'. apply Hwf.
    + split; [|done]. intros _. exists a. by split; [right|].
    + intros x. rewrite Hrests. split.
      * intros [Hx|[Hx Hne]].
        -- split; [by left|]. intros Hidx.
           eapply (wf_book_rests_bids_asks h bids asks x a); [done..|].
           congruence.
        -- split; [by right|]. intros Hidx. apply Hne.
           eapply (wf_book_rests_inj h bids asks); [done|by right|by right|].
           congruence.
      * intros [[Hx|Hx] Hne]; [by left|right].
        split; [done|]. intros ->. done.
  - simpl. split; [done|]. split; [|split; [|done]].
    + split; [done|]. intros (a & [Hx|Hx] & Hid).
      * destruct Eb. apply Hb. by exists a.
      * destruct Ea. apply Ha. by exists a.
    + intros x. split; [|tauto]. intros Hx. split; [done|]. intros Hid.
      destruct Hx as [Hx|Hx].
      * destruct Eb. apply Hb. by exists x.
      * destruct Ea. apply Ha. by exists x.
Qed.

Lemma base_cancel_spec id e :
  wf_base e →
  wf_base (cancel_order id e).2
  ∧ ((cancel_order id e).1 = true ↔ holds_id (Base e) id)
  ∧ (∀ a, held (Base (cancel_order id e).2) a
          ↔ held (Base e) a ∧ Order.order_id (deref (objs e) a) ≠ id)
  ∧ objs (cancel_order id e).2 = objs e.
Proof.
  intros Hwf.
  pose proof (cancel_book_spec _ _ _ id Hwf) as Hs.
  unfold cancel_order, holds_id, held, wf_base. simpl in *.
  repeat case_bool_decide;
    repeat destruct (OrderBookSide.remove_order _ _ _); simpl in *;
    destruct Hs as (Hs1 & Hs2 & Hs3 & _); done.
Qed.

End cancel_base.

Section cancel_nse.

Import NSEMatchingEngine.

Lemma elem_of_dict_del {A} (id k : string) (a : A) d :
  (k, a) ∈ dict_del id d ↔ (k, a) ∈ d ∧ k ≠ id.
Proof. unfold dict_del. rewrite list_elem_of_filter. simpl. tauto. Qed.

Lemma elem_of_pending_values (d : list (string * nat)) a :
  a ∈ d.*2 ↔ ∃ k, (k, a) ∈ d.
Proof.
  rewrite list_elem_of_fmap. split.
  - intros ([k a'] & -> & Hin). by exists k.
  - intros [k Hin]. by exists (k, a).
Qed.

Lemma elem_of_pending_keys (d : list (string * nat)) k :
  k ∈ d.*1 ↔ ∃ a, (k, a) ∈ d.
Proof.
  rewrite list_elem_of_fmap. split.
  - intros ([k' a] & -> & Hin). by exists a.
  - intros [a Hin]. by exists (k, a).
Qed.

(** A state with the same store that holds no more than a well-formed
    one, over a well-formed book, is well formed. *)
Lemma wf_nse_shrink e e' :
  wf_nse e →
  objs e' = objs e →
  wf_book (objs e) (bids e') (asks e') →
  (∀ a, rests (bids e') a → rests (bids e) a) →
  (∀ a, rests (asks e') a → rests (asks e) a) →
  (∀ ka, ka ∈ pending_stop_orders e' → ka ∈ pending_stop_orders e) →
  (∀ a, a ∈ auction_orders e' → a ∈ auction_orders e) →
  NoDup (auction_orders e') →
  wf_nse e'.
Proof.
  intros [Hwf Hpend Hauc Hnd Hdisc] Hobjs Hwf' Hb Ha Hp Hau Hnd'.
  constructor; rewrite ?Hobjs; try done.
  - intros k a Hk%Hp. destruct (Hpend _ _ Hk) as (? & ? & ? & ? & ?).
    naive_solver.
  - intros a Ha'%Hau. destruct (Hauc _ Ha') as (? & ? & ? & Hnp & ?).
    split; [done|]. split; [naive_solver|]. split; [naive_solver|].
    split; [|done]. intros [k Hk]%elem_of_pending_values. apply Hnp.
    apply elem_of_pending_values. exists k. by apply Hp.
Qed.

(** The synchronous cancellation of the exchange engine on a
    well-formed state. *)
Lemma nse_cancel_sync_spec id e :
  wf_nse e →
  wf_nse (cancel_sync id e).2
  ∧ ((cancel_sync id e).1 = true ↔ holds_id (NSE e) id)
  ∧ (∀ a, held (NSE (cancel_sync id e).2) a
          ↔ held (NSE e) a ∧ Order.order_id (deref (objs e) a) ≠ id)
  ∧ objs (cancel_sync id e).2 = objs e
  ∧ async_cancel (cancel_sync id e).2 = async_cancel e.
Proof.
  intros Hwfn. destruct (Hwfn) as [Hwf Hpend Hauc Hnd Hdisc].
  pose proof (cancel_book_spec _ _ _ id Hwf) as Hs.
  pose proof (rests_id_order_map _ _ id (wfb_bids _ _ _ Hwf)) as Hb.
  pose proof (rests_id_order_map _ _ id (wfb_asks _ _ _ Hwf)) as Ha.
  assert (Hpid : ∀ a, a ∈ (pending_stop_orders e).*2 →
            is_Some (OrderBookSide.order_map (bids e) !! id)
            ∨ is_Some (OrderBookSide.order_map (asks e) !! id) →
            Order.order_id (deref (objs e) a) ≠ id).
  { intros a [k Hk]%elem_of_pending_values Hin Hid.
    destruct (Hpend _ _ Hk) as (Hlen & _ & Hnb & Hna & _).
    destruct Hin as [Hin|Hin].
    - apply Hb in Hin as (a' & Ha' & Hid').
      assert (a' = a) as ->; [|done].
      eapply ids_inj; [apply Hwf| |done|congruence].
      eapply rests_lt; [apply (wfb_bids _ _ _ Hwf)|done].
    - apply Ha in Hin as (a' & Ha' & Hid').
      assert (a' = a) as ->; [|done].
      eapply ids_inj; [apply Hwf| |done|congruence].
      eapply rests_lt; [apply (wfb_asks _ _ _ Hwf)|done]. }
  unfold cancel_sync, holds_id, held. simpl in *.
  case_bool_decide as Eb; [|case_bool_decide as Ea].
  - destruct (OrderBookSide.remove_order _ _ (bids e)) as [r b'].
    simpl in *. destruct Hs as (Hs1 & Hs2 & Hs3 & _).
    split; [|split; [|split; [|done]]].
    + apply (wf_nse_shrink e); simpl; try done.
      intros a Hr. assert (rests b' a ∨ rests (asks e) a) as Hx by by left.
      apply Hs3 in Hx as [[Hx|Hx] _]; [done|].
      by destruct (wf_book_sides_disjoint _ _ _ a Hs1).
    + rewrite Hs2. split.
      * intros (a & Hx & Hid). exists a. split; [tauto|done].
      * intros (a & [Hx|[Hx|Hx]] & Hid); [by exists a; split; [left|]
          |by exists a; split; [right|]|].
        destruct (Hpid a Hx); [by left|done].
    + intros a. specialize (Hs3 a). specialize (Hpid a).
      split.
      * intros [Hx|[Hx|Hx]]; [tauto|tauto|].
        split; [tauto|]. apply Hpid; [done|by left].
      * intros [[Hx|[Hx|Hx]] Hne]; tauto.
  - destruct (OrderBookSide.remove_order _ _ (asks e)) as [r b'].
    simpl in *. destruct Hs as (Hs1 & Hs2 & Hs3 & _).
    split; [|split; [|split; [|done]]].
    + apply (wf_nse_shrink e); simpl; try done.
      intros a Hr. assert (rests (bids e) a ∨ rests b' a) as Hx by by right.
      apply Hs3 in Hx as [[Hx|Hx] _]; [|done].
      by destruct (wf_book_sides_disjoint _ _ _ a Hs1).
    + rewrite Hs2. split.
      * intros (a & Hx & Hid). exists a. split; [tauto|done].
      * intros (a & [Hx|[Hx|Hx]] & Hid); [by exists a; split; [left|]
          |by exists a; split; [right|]|].
        destruct (Hpid a Hx); [by right|done].
    + intros a. specialize (Hs3 a). specialize (Hpid a).
      split.
      * intros [Hx|[Hx|Hx]]; [tauto|tauto|].
        split; [tauto|]. apply Hpid; [done|by right].
      * intros [[Hx|[Hx|Hx]] Hne]; tauto.
  - assert (Hrid : ∀ a, rests (bids e) a ∨ rests (asks e) a →
                        Order.order_id (deref (objs e) a) ≠ id).
    { intros a [Hx|Hx] Hid.
      - destruct Eb. apply Hb. by exists a.
      - destruct Ea. apply Ha. by exists a. }
    unfold dict_mem. case_bool_decide as Ep; simpl.
    + split; [|split; [|split; [|done]]].
      * apply (wf_nse_shrink e); simpl; try done.
        by intros [k a] [Hk _]%elem_of_dict_del.
      * split; [|done]. intros _.
        apply elem_of_pending_keys in Ep as [a Hk]. exists a.
        split; [|by destruct (Hpend _ _ Hk) as (? & ? & _)].
        right; right. apply elem_of_pending_values. by exists id.
      * intros a. rewrite !elem_of_pending_values. split.
        -- intros [Hx|[Hx|[k [Hk Hne]%elem_of_dict_del]]];
             [split; [tauto|apply Hrid; tauto]..|].
           split; [right; right; by exists k|].
           by destruct (Hpend _ _ Hk) as (? & <- & _).
        -- intros [[Hx|[Hx|[k Hk]]] Hne]; [tauto|tauto|].
           right; right. exists k. apply elem_of_dict_del.
           split; [done|]. by destruct (Hpend _ _ Hk) as (? & -> & _).
    + split; [done|]. split; [|split; [|done]].
      * split; [done|].
        intros (a & [Hx|[Hx|[k Hk]%elem_of_pending_values]] & Hid);
          [destruct (Hrid a); tauto..|].
        destruct Ep. apply elem_of_pending_keys. exists a.
        destruct (Hpend _ _ Hk) as (? & Hkk & _).
        by replace id with k by congruence.
      * intros a. split; [|tauto]. intros Hx. split; [done|].
        destruct Hx as [Hx|[Hx|[k Hk]%elem_of_pending_values]];
          [apply Hrid; tauto..|].
        intros Hid. destruct Ep. apply elem_of_pending_keys. exists a.
        destruct (Hpend _ _ Hk) as (? & Hkk & _).
        by replace id with k by congruence.
Qed.

End cancel_nse.

(** * The sharded order book on well-formed states *)

Section sharded_side.

Import ShardedOrderBookSide.

Lemma sharded_eta b :
  mk (side b) (num_shards b) (shards b) (_best_price_cache b)
     (_cache_valid b) (total_orders b) (total_cancellations b) = b.
Proof. by destruct b. Qed.

Lemma collect_orders_shard_orders p sh :
  collect_orders p sh = shard_orders sh p.
Proof.
  unfold collect_orders, shard_orders. induction sh as [|s sh IH]; [done|].
  simpl. rewrite IH. f_equal.
  unfold OrderBookSide.get_price_level, level_orders.
  destruct (OrderBookSide.price_levels s !! p) as [l|]; simpl; [|done].
  unfold PriceLevel.is_empty. case_bool_decide as E; simpl; [|done].
  by rewrite E.
Qed.

Lemma elem_of_shard_orders sh p a :
  a ∈ shard_orders sh p ↔ ∃ s, s ∈ sh ∧ a ∈ level_orders s p.
Proof.
  unfold shard_orders. induction sh as [|s sh IH]; simpl.
  - split; [by intros ?%elem_of_nil|]. by intros (? & ?%elem_of_nil & _).
  - rewrite elem_of_app, IH. setoid_rewrite elem_of_cons. naive_solver.
Qed.

Lemma shard_rests_elem sh a :
  shard_rests sh a ↔ ∃ s, s ∈ sh ∧ rests s a.
Proof.
  unfold shard_rests. split.
  - intros (i & s & Hi & Hr). exists s. split; [|done].
    by eapply list_elem_of_lookup_2.
  - intros (s & [i Hi]%list_elem_of_lookup_1 & Hr). by exists i, s.
Qed.

Lemma shard_rests_orders sh a :
  shard_rests sh a ↔ ∃ p, a ∈ shard_orders sh p.
Proof.
  rewrite shard_rests_elem. setoid_rewrite elem_of_shard_orders.
  unfold rests. naive_solver.
Qed.

Lemma shard_index_lt h b id :
  wf_sharded_side h b → (_get_shard_index id b < length (shards b))%nat.
Proof.
  intros Hwf. rewrite (wfs_length _ _ Hwf). unfold _get_shard_index.
  apply Nat.mod_upper_bound. pose proof (wfs_pos _ _ Hwf). lia.
Qed.

Lemma shard_index_lookup h b id :
  wf_sharded_side h b → is_Some (shards b !! _get_shard_index id b).
Proof. intros Hwf. apply lookup_lt_is_Some. by eapply shard_index_lt. Qed.

(** The orders of the shards after one shard was replaced. *)
Lemma shard_orders_split sh i s p :
  sh !! i = Some s →
  shard_orders sh p
  = shard_orders (take i sh) p ++ level_orders s p
    ++ shard_orders (drop (S i) sh) p.
Proof.
  intros Hi. rewrite <- (take_drop_middle sh i s Hi) at 1.
  unfold shard_orders. by rewrite flat_map_app.
Qed.

Lemma shard_orders_insert sh i s s' p :
  sh !! i = Some s →
  shard_orders (<[i := s']> sh) p
  = shard_orders (take i sh) p ++ level_orders s' p
    ++ shard_orders (drop (S i) sh) p.
Proof.
  intros Hi. pose proof (lookup_lt_Some _ _ _ Hi) as Hlt.
  rewrite (shard_orders_split (<[i := s']> sh) i s' p)
    by by apply list_lookup_insert_eq.
  rewrite take_insert_ge by lia. rewrite drop_insert_lt by lia. done.
Qed.

(** An order of the shard [i] is in no other shard. *)
Lemma shard_orders_other h b i s a p :
  wf_sharded_side h b → shards b !! i = Some s → rests s a →
  (a ∉ shard_orders (take i (shards b)) p)
  ∧ (a ∉ shard_orders (drop (S i) (shards b)) p).
Proof.
  intros Hwf Hi Ha.
  pose proof (wfs_index _ _ Hwf _ _ _ Hi Ha) as Hidx.
  split; intros (s' & [j Hj]%list_elem_of_lookup_1 & Hin)%elem_of_shard_orders.
  - pose proof (lookup_lt_Some _ _ _ Hj) as Hlt.
    rewrite length_take in Hlt.
    rewrite lookup_take_lt in Hj by lia.
    assert (Hr : rests s' a) by by eexists.
    pose proof (wfs_index _ _ Hwf _ _ _ Hj Hr). lia.
  - rewrite lookup_drop in Hj.
    assert (Hr : rests s' a) by by eexists.
    pose proof (wfs_index _ _ Hwf _ _ _ Hj Hr). lia.
Qed.

(** [remove_order] for an id that no order of the shards has. *)
Lemma sharded_remove_absent h id b :
  wf_sharded_side h b →
  (∀ a, shard_rests (shards b) a → Order.order_id (deref h a) ≠ id) →
  remove_order h id b = (false, b).
Proof.
  intros Hwf Hno. unfold remove_order.
  destruct (shard_index_lookup h b id Hwf) as [s Hs]. rewrite Hs.
  assert (Hom : OrderBookSide.order_map s !! id = None).
  { destruct (OrderBookSide.order_map s !! id) as [a|] eqn:E; [|done].
    destruct (wf_order_map _ _ (wfs_wf _ _ Hwf _ _ Hs) _ _ E) as [Hid Hin].
    destruct (Hno a); [|done]. eexists _, s. split; [done|]. by eexists. }
  rewrite (remove_order_absent _ _ _ (wfs_wf _ _ Hwf _ _ Hs) Hom).
  rewrite list_insert_id by done. by rewrite sharded_eta.
Qed.

(** [remove_order] for the id of an order of the shards. *)
Lemma sharded_remove_present h b a :
  wf_sharded_side h b → shard_rests (shards b) a →
  ∃ b',
    remove_order h (Order.order_id (deref h a)) b = (true, b')
    ∧ wf_sharded_side h b'
    ∧ side b' = side b ∧ num_shards b' = num_shards b
    ∧ ∀ p, shard_orders (shards b') p
           = filter (λ x, x ≠ a) (shard_orders (shards b) p).
Proof.
  intros Hwf (i & s & Hi & Ha). unfold remove_order.
  rewrite (wfs_index _ _ Hwf _ _ _ Hi Ha), Hi.
  pose proof (wfs_wf _ _ Hwf _ _ Hi) as Hwfs.
  assert (Hom : OrderBookSide.order_map s !! Order.order_id (deref h a)
                = Some a).
  { destruct Ha as [p Hp]. by destruct (wf_level_orders _ _ Hwfs _ _ Hp) as (_ & _ & ?). }
  destruct (remove_order_present h _ a s Hwfs (wfs_live _ _ Hwf _ _ Hi) Hom)
    as (s' & Hrm & Hwf' & Hlive' & Hside' & Hrests & _).
  pose proof (λ q, remove_order_level_orders h _ a s q Hwfs Hom) as Hlo.
  rewrite Hrm in Hlo |- *. simpl in Hlo.
  eexists. split; [done|]. simpl.
  assert (Hlk : ∀ j s2, <[i := s']> (shards b) !! j = Some s2 →
            (j = i ∧ s2 = s') ∨ (j ≠ i ∧ shards b !! j = Some s2)).
  { intros j s2. rewrite list_lookup_insert. case_decide as E.
    - intros [= <-]. left. by destruct E.
    - intros Hj. right. split; [|done]. intros ->.
      apply E. split; [done|]. by eapply lookup_lt_Some. }
  split; [|split; [done|split; [done|]]].
  - constructor; simpl.
    + rewrite length_insert. apply Hwf.
    + apply Hwf.
    + intros j s2 [[-> ->]|[_ Hj]]%Hlk; [done|by eapply wfs_wf].
    + intros j s2 [[-> ->]|[_ Hj]]%Hlk; [done|by eapply wfs_live].
    + intros j s2 [[-> ->]|[_ Hj]]%Hlk;
        [rewrite Hside'|]; by eapply wfs_side.
    + intros j s2 x [[-> ->]|[_ Hj]]%Hlk Hx.
      * apply Hrests in Hx as [Hx _].
        apply (wfs_index _ _ Hwf _ _ _ Hi Hx).
      * apply (wfs_index _ _ Hwf _ _ _ Hj Hx).
    + done.
  - intros p. rewrite (shard_orders_insert _ _ _ _ _ Hi).
    rewrite (shard_orders_split _ _ _ p Hi), !filter_app, Hlo.
    destruct (shard_orders_other h b i s a p Hwf Hi Ha) as [H1 H2].
    by rewrite (filter_ne_not_in a _ H1), (filter_ne_not_in a _ H2).
Qed.

(** [add_order] for an order that is not in the shards. *)
Lemma sharded_add_order_spec h b a :
  wf_sharded_side h b → NoDup (Order.order_id <$> h) →
  (a < length h)%nat → ¬ shard_rests (shards b) a →
  0 < Order.remaining_quantity (deref h a) →
  Order.side (deref h a) = side b →
  ∃ b',
    add_order h a b = (true, b')
    ∧ wf_sharded_side h b'
    ∧ side b' = side b ∧ num_shards b' = num_shards b
    ∧ ∀ p, shard_orders (shards b') p
           ≡ₚ if decide (p = Order.price (deref h a))
              then shard_orders (shards b) p ++ [a]
              else shard_orders (shards b) p.
Proof.
  intros Hwf Hnd Hlen Hna Hrem Hsd. unfold add_order.
  set (i := _get_shard_index _ b).
  destruct (shard_index_lookup h b (Order.order_id (deref h a)) Hwf)
    as [s Hi]. fold i in Hi. rewrite Hi.
  pose proof (wfs_wf _ _ Hwf _ _ Hi) as Hwfs.
  assert (Hnas : ¬ rests s a).
  { intros Hr. apply Hna. by exists i, s. }
  pose proof (order_map_fresh h s a Hwfs Hnd Hlen Hnas) as Hom.
  pose proof (add_order_wf h a s Hwfs Hlen Hom) as Hwf'.
  pose proof (live_side_add_order h s a (wfs_live _ _ Hwf _ _ Hi) Hrem) as Hlive'.
  destruct (add_order_fields h a s) as (Hside' & _).
  pose proof (λ q, add_order_level_orders h a s q) as Hlo.
  pose proof (λ x, rests_add_order h a s x) as Hrests.
  assert (Hfst : (OrderBookSide.add_order h a s).1 = true) by done.
  destruct (OrderBookSide.add_order h a s) as [r s'].
  simpl in *. subst r.
  eexists. split; [done|]. simpl.
  assert (Hlk : ∀ j s2, <[i := s']> (shards b) !! j = Some s2 →
            (j = i ∧ s2 = s') ∨ (j ≠ i ∧ shards b !! j = Some s2)).
  { intros j s2. rewrite list_lookup_insert. case_decide as E.
    - intros [= <-]. left. by destruct E.
    - intros Hj. right. split; [|done]. intros ->.
      apply E. split; [done|]. by eapply lookup_lt_Some. }
  split; [|split; [done|split; [done|]]].
  - constructor; simpl.
    + rewrite length_insert. apply Hwf.
    + apply Hwf.
    + intros j s2 [[-> ->]|[_ Hj]]%Hlk; [done|by eapply wfs_wf].
    + intros j s2 [[-> ->]|[_ Hj]]%Hlk; [|by eapply wfs_live].
      apply Hlive'. rewrite Hsd. symmetry. by eapply wfs_side.
    + intros j s2 [[-> ->]|[_ Hj]]%Hlk;
        [rewrite Hside'|]; by eapply wfs_side.
    + intros j s2 x [[-> ->]|[_ Hj]]%Hlk Hx.
      * apply Hrests in Hx as [Hx| ->]; [|done].
        apply (wfs_index _ _ Hwf _ _ _ Hi Hx).
      * apply (wfs_index _ _ Hwf _ _ _ Hj Hx).
    + done.
  - intros p. rewrite (shard_orders_insert _ _ _ _ _ Hi), Hlo.
    rewrite (shard_orders_split _ _ _ p Hi).
    case_decide; [|done].
    rewrite <- !app_assoc. do 2 f_equiv. apply Permutation_app_comm.
Qed.

(** The scan of the shards leaves well-formed shards as they are and
    returns the best of the running best and of the prices of their
    levels. *)
Lemma scan_shards_spec h sd acc sh :
  (∀ s, s ∈ sh → wf_side h s ∧ OrderBookSide.side s = sd) →
  ∃ best,
    scan_shards sd acc sh = (best, sh)
    ∧ match best with
      | Some p =>
          (acc = Some p
           ∨ ∃ s, s ∈ sh ∧ is_Some (OrderBookSide.price_levels s !! p))
          ∧ (∀ q, acc = Some q →
                  OrderBookSide.heap_key sd p ≤ OrderBookSide.heap_key sd q)
          ∧ (∀ q s, s ∈ sh → is_Some (OrderBookSide.price_levels s !! q) →
                    OrderBookSide.heap_key sd p ≤ OrderBookSide.heap_key sd q)
      | None => acc = None ∧ ∀ s, s ∈ sh → OrderBookSide.price_levels s = ∅
      end.
Proof.
  revert acc. induction sh as [|s sh IH]; intros acc Hwf; simpl.
  - exists acc. split; [done|]. destruct acc as [p|].
    + split; [by left|]. split; [by intros q [= ->]|].
      by intros q s ?%elem_of_nil.
    + split; [done|]. by intros s ?%elem_of_nil.
  - destruct (Hwf s) as [Hwfs Hsd]; [by left|].
    rewrite (get_best_price_wf _ _ Hwfs).
    set (acc' := match OrderBookSide._heap_peek s, acc with
                 | None, _ => acc
                 | Some sb, None => Some sb
                 | Some sb, Some bp =>
                     match sd with
                     | BUY => Some (Z.max bp sb)
                     | SELL => Some (Z.min bp sb)
                     end
                 end).
    destruct (IH acc') as (best & -> & Hbest).
    { intros s' Hs'. apply Hwf. by right. }
    exists best. split; [done|].
    destruct (OrderBookSide._heap_peek s) as [sb|] eqn:Hpeek.
    + destruct (heap_peek_best _ _ _ Hwfs Hpeek) as [Hsb Hmin].
      rewrite Hsd in Hmin.
      assert (Hacc' : (acc' = Some sb ∨ acc' = acc)
                ∧ ∃ p', acc' = Some p'
                  ∧ OrderBookSide.heap_key sd p' ≤ OrderBookSide.heap_key sd sb
                  ∧ ∀ q, acc = Some q →
                      OrderBookSide.heap_key sd p'
                      ≤ OrderBookSide.heap_key sd q).
      { subst acc'. destruct acc as [bp|]; [|naive_solver lia].
        destruct sd; simpl.
        - destruct (Z.max_spec bp sb) as [[? ->]|[? ->]].
          + split; [by left|]. eexists. split; [done|].
            split; [lia|]. intros q [= ->]. lia.
          + split; [by right|]. eexists. split; [done|].
            split; [lia|]. intros q [= ->]. lia.
        - destruct (Z.min_spec bp sb) as [[? ->]|[? ->]].
          + split; [by right|]. eexists. split; [done|].
            split; [lia|]. intros q [= ->]. lia.
          + split; [by left|]. eexists. split; [done|].
            split; [lia|]. intros q [= ->]. lia. }
      destruct Hacc' as (Hor & p' & Hp' & Hle & Hleq).
      destruct best as [p|]; [|by destruct Hbest as [? _]; congruence].
      destruct Hbest as (Hin & Hacc & Hall).
      pose proof (Hacc _ Hp') as Hpp'.
      split; [|split].
      * destruct Hin as [Hin|(s' & Hs' & Hin)].
        -- destruct Hor as [Hor|Hor].
           ++ right. exists s. split; [by left|]. congruence.
           ++ left. congruence.
        -- right. exists s'. split; [by right|done].
      * intros q Hq. specialize (Hleq _ Hq). lia.
      * intros q s' [->|Hs']%elem_of_cons Hq.
        -- specialize (Hmin _ Hq). lia.
        -- by eapply Hall.
    + pose proof (heap_peek_None _ _ Hwfs Hpeek) as Hempty.
      subst acc'. destruct best as [p|].
      * destruct Hbest as (Hin & Hacc & Hall). split; [|split; [done|]].
        -- destruct Hin as [Hin|(s' & Hs' & Hin)]; [by left|].
           right. exists s'. split; [by right|done].
        -- intros q s' [->|Hs']%elem_of_cons Hq.
           ++ rewrite Hempty, lookup_empty in Hq. by destruct Hq.
           ++ by eapply Hall.
      * destruct Hbest as [? Hall]. split; [done|].
        intros s' [->|Hs']%elem_of_cons; [done|by apply Hall].
Qed.

Lemma wf_sharded_side_with_cache h b best :
  wf_sharded_side h b →
  (∀ p, best = Some p → shards_best_price (side b) (shards b) p) →
  wf_sharded_side h (with_cache best b).
Proof.
  intros Hwf Hbest. constructor; simpl;
    [apply Hwf|apply Hwf|apply (wfs_wf _ _ Hwf)|apply (wfs_live _ _ Hwf)
    |apply (wfs_side _ _ Hwf)|apply (wfs_index _ _ Hwf)|].
  intros p _. apply Hbest.
Qed.

(** [get_best_price] on a well-formed sharded side: the shards stay as
    they are and the price returned, which is cached, is the best one. *)
Lemma sharded_get_best_price_spec h b :
  wf_sharded_side h b →
  ∃ best,
    get_best_price b = (best, with_cache best b)
    ∧ wf_sharded_side h (with_cache best b)
    ∧ match best with
      | Some p => shards_best_price (side b) (shards b) p
      | None => ∀ s, s ∈ shards b → OrderBookSide.price_levels s = ∅
      end.
Proof.
  intros Hwf. unfold get_best_price.
  destruct (_cache_valid b && _) eqn:Hc.
  - apply andb_true_iff in Hc as [Hv [p Hp]%bool_decide_eq_true_1].
    exists (Some p). pose proof (wfs_cache _ _ Hwf p Hv Hp) as Hbest.
    split; [|split; [|done]].
    + rewrite Hp. f_equal. unfold with_cache.
      rewrite <- (sharded_eta b) at 1. by rewrite Hp, Hv.
    + apply wf_sharded_side_with_cache; [done|]. by intros ? [= <-].
  - destruct (scan_shards_spec h (side b) None (shards b))
      as (best & -> & Hbest).
    { intros s [i Hi]%list_elem_of_lookup_1.
      split; [by eapply wfs_wf|by eapply wfs_side]. }
    exists best. split; [done|].
    assert (Hb : match best with
      | Some p => shards_best_price (side b) (shards b) p
      | None => ∀ s, s ∈ shards b → OrderBookSide.price_levels s = ∅
      end).
    { destruct best as [p|]; [|by destruct Hbest].
      destruct Hbest as ([?|Hin] & _ & Hall); [done|]. by split. }
    split; [|done].
    apply wf_sharded_side_with_cache; [done|]. by intros ? ->.
Qed.

(** [get_orders_at_best_price] once the best price is cached. *)
Lemma sharded_get_orders_cached h b p :
  get_orders_at_best_price h (with_cache (Some p) b)
  = (sort_by_timestamp h (shard_orders (shards b) p),
     with_cache (Some p) b).
Proof.
  unfold get_orders_at_best_price, get_best_price. simpl.
  by rewrite collect_orders_shard_orders.
Qed.

Lemma wf_side_new h sd : wf_side h (OrderBookSide.new sd).
Proof.
  constructor; simpl; try done.
  - intros p. unfold level_orders. simpl. rewrite lookup_empty. constructor.
  - intros p a. unfold level_orders. simpl. rewrite lookup_empty.
    by intros ?%elem_of_nil.
  - constructor.
  - intros k. split; [by intros ?%elem_of_nil|].
    intros (p & [? ?] & _). done.
Qed.

Lemma rests_new sd a : ¬ rests (OrderBookSide.new sd) a.
Proof.
  intros [p Hp]. unfold level_orders in Hp. simpl in Hp.
  rewrite lookup_empty in Hp. by apply elem_of_nil in Hp.
Qed.

Lemma wf_sharded_side_new h sd n : wf_sharded_side h (new sd n).
Proof.
  constructor; simpl.
  - by rewrite length_replicate.
  - lia.
  - intros i s [-> _]%lookup_replicate. apply wf_side_new.
  - intros i s [-> _]%lookup_replicate a Ha. by apply rests_new in Ha.
  - by intros i s [-> _]%lookup_replicate.
  - intros i s a [-> _]%lookup_replicate Ha. by apply rests_new in Ha.
  - done.
Qed.

Lemma shard_rests_new sd n a : ¬ shard_rests (shards (new sd n)) a.
Proof.
  intros (i & s & [-> _]%lookup_replicate & Ha). by apply rests_new in Ha.
Qed.

Lemma shard_rests_lt h b a :
  wf_sharded_side h b → shard_rests (shards b) a → (a < length h)%nat.
Proof.
  intros Hwf (i & s & Hi & Ha).
  eapply rests_lt; [by eapply wfs_wf|done].
Qed.

(** A new object in the store. *)
Lemma wf_sharded_side_alloc h o b :
  wf_sharded_side h b → wf_sharded_side (h ++ [o]) b.
Proof.
  intros Hwf. constructor; try apply Hwf.
  - intros i s Hi. apply wf_side_alloc. by eapply wfs_wf.
  - intros i s Hi. apply live_side_alloc; [by eapply wfs_wf|by eapply wfs_live].
  - intros i s a Hi Ha.
    rewrite deref_alloc_old; [by eapply wfs_index|].
    eapply rests_lt; [by eapply wfs_wf|done].
Qed.

(** A fill between the incoming order [x] and the order [a] of the
    shards, after which [a] leaves them when nothing of it remains. *)
Lemma sharded_fill_step h b x a q :
  wf_sharded_side h b →
  (x < length h)%nat → ¬ shard_rests (shards b) x →
  shard_rests (shards b) a →
  0 < q ≤ Order.remaining_quantity (deref h a) →
  let h2 := fill_pair q x a h in
  let b2 :=
    if Order.remaining_quantity (deref h2 a) =? 0
    then (remove_order h2 (Order.order_id (deref h2 a)) b).2
    else b in
  wf_sharded_side h2 b2
  ∧ side b2 = side b ∧ num_shards b2 = num_shards b
  ∧ (∀ p, shard_orders (shards b2) p
          = if decide (q = Order.remaining_quantity (deref h a))
            then filter (λ y, y ≠ a) (shard_orders (shards b) p)
            else shard_orders (shards b) p)
  ∧ Order.remaining_quantity (deref h2 x)
    = Order.remaining_quantity (deref h x) - q.
Proof.
  intros Hwf Hx Hnx (i & s & Hi & Ha) Hq h2.
  pose proof (wfs_wf _ _ Hwf _ _ Hi) as Hwfs.
  assert (Hnxs : ¬ rests s x). { intros ?. apply Hnx. by exists i, s. }
  destruct (fill_step h s x a q Hwfs (wfs_live _ _ Hwf _ _ Hi) Hx Hnxs Ha Hq)
    as (Hwf2 & Hlive2 & Hside2 & Hlo2 & Hrx & Hra). fold h2 in Hwf2, Hlive2, Hlo2, Hrx, Hra.
  pose proof (fills_only_fill_pair q x a h) as Hf. fold h2 in Hf.
  assert (Hother : ∀ j s', j ≠ i → shards b !! j = Some s' →
            wf_side h2 s' ∧ live_side h2 s').
  { intros j s' Hne Hj.
    apply fill_other_side;
      [by eapply wfs_wf|by eapply wfs_live| |].
    - intros ?. apply Hnx. by exists j, s'.
    - intros Ha'. pose proof (wfs_index _ _ Hwf _ _ _ Hj Ha').
      pose proof (wfs_index _ _ Hwf _ _ _ Hi Ha). congruence. }
  assert (Hidx : ∀ j s' y, shards b !! j = Some s' → rests s' y →
            _get_shard_index (Order.order_id (deref h2 y)) b = j).
  { intros j s' y Hj Hy.
    destruct (fills_only_fields h h2 y Hf) as (-> & _).
    by eapply wfs_index. }
  pose proof (wf_side_fills _ _ _ Hwfs Hf) as Hwfs2.
  assert (Hom : OrderBookSide.order_map s !! Order.order_id (deref h2 a)
                = Some a).
  { destruct Ha as [p Hp].
    by destruct (wf_level_orders _ _ Hwfs2 _ _ Hp) as (_ & _ & ?). }
  intros b2. subst b2. rewrite Hra.
  change (fill_pair q x a h) with h2 in Hside2.
  unfold drop_if_filled in Hwf2, Hlive2, Hside2, Hlo2.
  rewrite Hra in Hwf2, Hlive2, Hside2, Hlo2.
  destruct (decide (q = Order.remaining_quantity (deref h a))) as [Hd|Hd].
  - assert (E : (Order.remaining_quantity (deref h a) - q =? 0) = true)
      by (apply Z.eqb_eq; lia).
    rewrite E in *.
    unfold remove_order.
    rewrite (Hidx _ _ _ Hi Ha), Hi.
    destruct (remove_order_order_map h2 _ a s Hwfs2 Hom) as (_ & _ & Hr).
    destruct (OrderBookSide.remove_order h2 _ s) as [r s'].
    simpl in Hwf2, Hlive2, Hside2, Hlo2, Hr. subst r. simpl.
    assert (Hlk : ∀ j s2, <[i := s']> (shards b) !! j = Some s2 →
              (j = i ∧ s2 = s') ∨ (j ≠ i ∧ shards b !! j = Some s2)).
    { intros j s2. rewrite list_lookup_insert. case_decide as E'.
      - intros [= <-]. left. by destruct E'.
      - intros Hj. right. split; [|done]. intros ->.
        apply E'. split; [done|]. by eapply lookup_lt_Some. }
    split; [|split; [done|split; [done|split; [|done]]]].
    + constructor; simpl.
      * rewrite length_insert. apply Hwf.
      * apply Hwf.
      * intros j s2 [[-> ->]|[? Hj]]%Hlk; [done|by eapply Hother].
      * intros j s2 [[-> ->]|[? Hj]]%Hlk; [done|by eapply Hother].
      * intros j s2 [[-> ->]|[_ Hj]]%Hlk;
          [rewrite Hside2|]; by eapply wfs_side.
      * intros j s2 y [[-> ->]|[_ Hj]]%Hlk Hy; [|by eapply Hidx].
        apply (Hidx _ _ _ Hi). destruct Hy as [p Hp]. exists p.
        rewrite Hlo2 in Hp. by apply list_elem_of_filter in Hp as [_ ?].
      * done.
    + intros p. rewrite (shard_orders_insert _ _ _ _ _ Hi).
      rewrite (shard_orders_split _ _ _ p Hi), !filter_app, Hlo2.
      destruct (shard_orders_other h b i s a p Hwf Hi Ha) as [H1 H2].
      by rewrite (filter_ne_not_in a _ H1), (filter_ne_not_in a _ H2).
  - assert (E : (Order.remaining_quantity (deref h a) - q =? 0) = false)
      by (apply Z.eqb_neq; lia).
    rewrite E in *.
    split; [|split; [done|split; [done|split; [done|done]]]].
    constructor; try apply Hwf.
    + intros j s2 Hj. destruct (decide (j = i)) as [->|Hne];
        [|by eapply Hother]. by simplify_eq.
    + intros j s2 Hj. destruct (decide (j = i)) as [->|Hne];
        [|by eapply Hother]. by simplify_eq.
    + done.
Qed.

(** The same fill seen from a sharded side that holds neither order. *)
Lemma sharded_fill_other_side h b x a q :
  wf_sharded_side h b →
  ¬ shard_rests (shards b) x → ¬ shard_rests (shards b) a →
  wf_sharded_side (fill_pair q x a h) b.
Proof.
  intros Hwf Hnx Hna.
  pose proof (fills_only_fill_pair q x a h) as Hf.
  assert (Hother : ∀ j s', shards b !! j = Some s' →
            wf_side (fill_pair q x a h) s'
            ∧ live_side (fill_pair q x a h) s').
  { intros j s' Hj.
    apply fill_other_side; [by eapply wfs_wf|by eapply wfs_live| |].
    - intros ?. apply Hnx. by exists j, s'.
    - intros ?. apply Hna. by exists j, s'. }
  constructor; try apply Hwf.
  - intros j s' Hj. by eapply Hother.
  - intros j s' Hj. by eapply Hother.
  - intros j s' y Hj Hy.
    destruct (fills_only_fields h _ y Hf) as (-> & _).
    by eapply wfs_index.
Qed.

(** Whether an order with the id [id] rests in the shards. *)
Lemma sharded_side_id_dec h b id :
  wf_sharded_side h b →
  (∃ a, shard_rests (shards b) a ∧ Order.order_id (deref h a) = id)
  ∨ (∀ a, shard_rests (shards b) a → Order.order_id (deref h a) ≠ id).
Proof.
  intros Hwf. destruct (shard_index_lookup h b id Hwf) as [s Hs].
  pose proof (wfs_wf _ _ Hwf _ _ Hs) as Hwfs.
  destruct (OrderBookSide.order_map s !! id) as [a|] eqn:E.
  - left. destruct (wf_order_map _ _ Hwfs _ _ E) as [Hid Hin].
    exists a. split; [|done]. eexists _, s. split; [done|]. by eexists.
  - right. intros a (j & s' & Hj & Ha) Hid.
    pose proof (wfs_index _ _ Hwf _ _ _ Hj Ha) as Hidx.
    rewrite Hid in Hidx. subst j. simplify_eq.
    destruct Ha as [p Hp].
    destruct (wf_level_orders _ _ Hwfs _ _ Hp) as (_ & _ & Hom).
    congruence.
Qed.

(** [remove_order] on a well-formed sharded side. *)
Lemma sharded_remove_spec h b id :
  wf_sharded_side h b → NoDup (Order.order_id <$> h) →
  wf_sharded_side h (remove_order h id b).2
  ∧ side (remove_order h id b).2 = side b
  ∧ ((remove_order h id b).1 = true
     ↔ ∃ a, shard_rests (shards b) a ∧ Order.order_id (deref h a) = id)
  ∧ (∀ x, shard_rests (shards (remove_order h id b).2) x
          ↔ shard_rests (shards b) x ∧ Order.order_id (deref h x) ≠ id)
  ∧ ((remove_order h id b).1 = false → (remove_order h id b).2 = b).
Proof.
  intros Hwf Hnd.
  destruct (sharded_side_id_dec h b id Hwf) as [(a & Ha & Hid)|Hno].
  - destruct (sharded_remove_present h b a Hwf Ha)
      as (b' & Hrm & Hwf' & Hside' & _ & Hlo).
    rewrite Hid in Hrm. rewrite Hrm. simpl.
    split; [done|]. split; [done|]. split; [|split; [|done]].
    + split; [|done]. intros _. by exists a.
    + intros x. rewrite !shard_rests_orders. setoid_rewrite Hlo.
      setoid_rewrite list_elem_of_filter. split.
      * intros (p & Hne & Hin). split; [by exists p|].
        intros Hidx. apply Hne.
        eapply ids_inj; [done| | |congruence].
        -- eapply (shard_rests_lt h b); [done|]. apply shard_rests_orders.
           by exists p.
        -- by eapply (shard_rests_lt h b).
      * intros [(p & Hin) Hne]. exists p. split; [|done]. by intros ->.
  - rewrite (sharded_remove_absent h id b Hwf Hno). simpl.
    split; [done|]. split; [done|]. split; [|split; [|done]].
    + split; [done|]. intros (a & Ha & Hid). by destruct (Hno a).
    + intros x. split; [|tauto]. intros Hx. split; [done|]. by apply Hno.
Qed.

End sharded_side.

(** * The sharded engine on well-formed states *)

Section sharded_engine.

Import ShardedMatchingEngine.

(** A pass of the buy loop, with the answers of the sharded ask side
    written out. *)
Lemma sharded_buy_pass_eq buy trades e :
  wf_sharded_side (objs e) (asks e) →
  ∃ best,
    wf_sharded_side (objs e) (with_cache best (asks e))
    ∧ match best with
      | Some p =>
          shards_best_price (ShardedOrderBookSide.side (asks e))
            (ShardedOrderBookSide.shards (asks e)) p
      | None =>
          ∀ s, s ∈ ShardedOrderBookSide.shards (asks e) →
               OrderBookSide.price_levels s = ∅
      end
    ∧ _match_buy_order_pass buy (trades, e)
      = let h := objs e in
        let asks1 := with_cache best (asks e) in
        let e1 := mk h (num_shards e) (bids e) asks1 (trade_history e)
                     (order_history e) in
        if negb (0 <? Order.remaining_quantity (deref h buy))
        then inl (trades, e)
        else
          match best with
          | None => inl (trades, e1)
          | Some p =>
              if negb (bool_decide (Order.order_type (deref h buy) = MARKET)
                       || (p <=? Order.price (deref h buy)))
              then inl (trades, e1)
              else
                match
                  sort_by_timestamp h
                    (shard_orders (ShardedOrderBookSide.shards (asks e)) p)
                with
                | [] => inr (trades, e1)
                | a :: _ =>
                    let q := Z.min (Order.remaining_quantity (deref h buy))
                                   (Order.remaining_quantity (deref h a)) in
                    let h2 := fill_pair q buy a h in
                    inr (trades
                         ++ [Trade.create_trade (deref h buy) (deref h a) q],
                         mk h2 (num_shards e) (bids e)
                            (if Order.remaining_quantity (deref h2 a) =? 0
                             then (ShardedOrderBookSide.remove_order h2
                                     (Order.order_id (deref h2 a)) asks1).2
                             else asks1)
                            (trade_history e) (order_history e))
                end
          end.
Proof.
  intros Hwf.
  destruct (sharded_get_best_price_spec _ _ Hwf) as (best & Hgb & Hwf1 & Hb).
  exists best. split; [done|]. split; [done|].
  unfold _match_buy_order_pass. rewrite Hgb. simpl.
  destruct (negb _); [done|].
  destruct best as [p|]; [|done].
  destruct (negb _); [done|].
  rewrite sharded_get_orders_cached. done.
Qed.

Lemma sharded_sell_pass_eq sell trades e :
  wf_sharded_side (objs e) (bids e) →
  ∃ best,
    wf_sharded_side (objs e) (with_cache best (bids e))
    ∧ match best with
      | Some p =>
          shards_best_price (ShardedOrderBookSide.side (bids e))
            (ShardedOrderBookSide.shards (bids e)) p
      | None =>
          ∀ s, s ∈ ShardedOrderBookSide.shards (bids e) →
               OrderBookSide.price_levels s = ∅
      end
    ∧ _match_sell_order_pass sell (trades, e)
      = let h := objs e in
        let bids1 := with_cache best (bids e) in
        let e1 := mk h (num_shards e) bids1 (asks e) (trade_history e)
                     (order_history e) in
        if negb (0 <? Order.remaining_quantity (deref h sell))
        then inl (trades, e)
        else
          match best with
          | None => inl (trades, e1)
          | Some p =>
              if negb (bool_decide (Order.order_type (deref h sell) = MARKET)
                       || (Order.price (deref h sell) <=? p))
              then inl (trades, e1)
              else
                match
                  sort_by_timestamp h
                    (shard_orders (ShardedOrderBookSide.shards (bids e)) p)
                with
                | [] => inr (trades, e1)
                | a :: _ =>
                    let q := Z.min (Order.remaining_quantity (deref h sell))
                                   (Order.remaining_quantity (deref h a)) in
                    let h2 := fill_pair q sell a h in
                    inr (trades
                         ++ [Trade.create_trade (deref h a) (deref h sell) q],
                         mk h2 (num_shards e)
                            (if Order.remaining_quantity (deref h2 a) =? 0
                             then (ShardedOrderBookSide.remove_order h2
                                     (Order.order_id (deref h2 a)) bids1).2
                             else bids1)
                            (asks e) (trade_history e) (order_history e))
                end
          end.
Proof.
  intros Hwf.
  destruct (sharded_get_best_price_spec _ _ Hwf) as (best & Hgb & Hwf1 & Hb).
  exists best. split; [done|]. split; [done|].
  unfold _match_sell_order_pass. rewrite Hgb. simpl.
  destruct (negb _); [done|].
  destruct best as [p|]; [|done].
  destruct (negb _); [done|].
  rewrite sharded_get_orders_cached. done.
Qed.

(** At the best price of the shards there is an order. *)
Lemma shards_best_price_head h b p :
  wf_sharded_side h b →
  shards_best_price (ShardedOrderBookSide.side b)
    (ShardedOrderBookSide.shards b) p →
  ∃ a l,
    sort_by_timestamp h (shard_orders (ShardedOrderBookSide.shards b) p)
    = a :: l
    ∧ a ∈ shard_orders (ShardedOrderBookSide.shards b) p.
Proof.
  intros Hwf [(s & Hs & Hp) _].
  apply list_elem_of_lookup_1 in Hs as Hi. destruct Hi as [i Hi].
  apply (wf_level_is_Some _ _ _ (wfs_wf _ _ Hwf _ _ Hi)) in Hp.
  destruct (level_orders s p) as [|a0 l0] eqn:E; [done|].
  assert (Hin : a0 ∈ sort_by_timestamp h
                  (shard_orders (ShardedOrderBookSide.shards b) p)).
  { apply elem_of_sort_by_timestamp, elem_of_shard_orders.
    exists s. split; [done|]. rewrite E. by left. }
  destruct (sort_by_timestamp _ _) as [|a l] eqn:E'.
  { by apply elem_of_nil in Hin. }
  exists a, l. split; [done|].
  apply (elem_of_sort_by_timestamp h). rewrite E'. by left.
Qed.

(** An order rests on one sharded side at most. *)
Lemma shard_rests_sides_disjoint h b1 b2 a :
  wf_sharded_side h b1 → wf_sharded_side h b2 →
  ShardedOrderBookSide.side b1 ≠ ShardedOrderBookSide.side b2 →
  shard_rests (ShardedOrderBookSide.shards b1) a →
  ¬ shard_rests (ShardedOrderBookSide.shards b2) a.
Proof.
  intros Hwf1 Hwf2 Hne (i & s & Hi & Ha) (j & s' & Hj & Ha').
  destruct (wfs_live _ _ Hwf1 _ _ Hi _ Ha) as [_ H1].
  destruct (wfs_live _ _ Hwf2 _ _ Hj _ Ha') as [_ H2].
  rewrite (wfs_side _ _ Hwf1 _ _ Hi) in H1.
  rewrite (wfs_side _ _ Hwf2 _ _ Hj) in H2. congruence.
Qed.

Lemma shard_rests_live h b a :
  wf_sharded_side h b → shard_rests (ShardedOrderBookSide.shards b) a →
  0 < Order.remaining_quantity (deref h a).
Proof.
  intros Hwf (i & s & Hi & Ha). by destruct (wfs_live _ _ Hwf _ _ Hi _ Ha).
Qed.

(** A pass of the buy loop that goes on keeps the invariant and fills
    at least one unit of the incoming order. *)
Lemma sharded_buy_pass_step order s s' :
  sharded_loop_inv order s →
  _match_buy_order_pass order s = inr s' →
  sharded_loop_inv order s'
  ∧ (sharded_left order s' < sharded_left order s)%nat
  ∧ fills_only (objs s.2) (objs s'.2)
  ∧ trade_history s'.2 = trade_history s.2
  ∧ order_history s'.2 = order_history s.2.
Proof.
  destruct s as [trades e]. intros (Hwf & Hlen & Hnb & Hna) Hpass.
  simpl in Hwf, Hlen, Hnb, Hna.
  destruct (sharded_buy_pass_eq order trades e (wfse_asks _ Hwf))
    as (best & Hwf1 & Hbest & Heq).
  rewrite Hpass in Heq. simpl in Heq.
  destruct (0 <? _) eqn:Hrem; [|done]. apply Z.ltb_lt in Hrem. simpl in Heq.
  destruct best as [p|]; [|done].
  destruct (negb _); [done|].
  destruct (shards_best_price_head _ _ _ (wfse_asks _ Hwf) Hbest)
    as (a & l & Hsort & Hin).
  rewrite Hsort in Heq. injection Heq as ->.
  assert (Ha : shard_rests (ShardedOrderBookSide.shards (asks e)) a).
  { apply shard_rests_orders. by exists p. }
  pose proof (shard_rests_live _ _ _ (wfse_asks _ Hwf) Ha) as Hra.
  set (q := Z.min _ _) in *.
  assert (Hq : 0 < q ≤ Order.remaining_quantity (deref (objs e) a))
    by (subst q; lia).
  destruct (sharded_fill_step _ (with_cache (Some p) (asks e)) order a q
              Hwf1 Hlen Hna Ha Hq)
    as (Hwf2 & Hside2 & Hn2 & Hlo & Hrx).
  assert (Hab : ¬ shard_rests (ShardedOrderBookSide.shards (bids e)) a).
  { eapply (shard_rests_sides_disjoint _ (asks e) (bids e));
      [apply Hwf..| |done].
    rewrite (wfse_bids_side _ Hwf), (wfse_asks_side _ Hwf). done. }
  pose proof (sharded_fill_other_side _ _ order a q (wfse_bids _ Hwf) Hnb Hab)
    as Hwfb2.
  pose proof (fills_only_fill_pair q order a (objs e)) as Hf.
  split; [|split; [|done]].
  - split; [|split; [|split]]; simpl.
    + constructor; simpl;
        [exact Hwfb2|exact Hwf2|apply Hwf
        |rewrite Hside2; apply Hwf
        |rewrite (fills_only_ids _ _ Hf); apply Hwf].
    + destruct Hf as [-> _]. done.
    + done.
    + intros [p' Hin']%shard_rests_orders. rewrite Hlo in Hin'.
      apply Hna. apply shard_rests_orders. exists p'.
      destruct (decide _); [|done].
      by apply list_elem_of_filter in Hin' as [_ ?].
  - unfold sharded_left. simpl. rewrite Hrx. subst q. lia.
Qed.

(** A pass that leaves the loop changes the cache at most. *)
Lemma sharded_buy_pass_exit order s s' :
  sharded_loop_inv order s →
  _match_buy_order_pass order s = inl s' →
  sharded_loop_inv order s'
  ∧ s'.1 = s.1 ∧ objs s'.2 = objs s.2
  ∧ trade_history s'.2 = trade_history s.2
  ∧ order_history s'.2 = order_history s.2.
Proof.
  destruct s as [trades e]. intros (Hwf & Hlen & Hnb & Hna) Hpass.
  simpl in Hwf, Hlen, Hnb, Hna.
  destruct (sharded_buy_pass_eq order trades e (wfse_asks _ Hwf))
    as (best & Hwf1 & Hbest & Heq).
  rewrite Hpass in Heq. simpl in Heq.
  assert (Hinv1 : sharded_loop_inv order
            (trades, mk (objs e) (num_shards e) (bids e)
                        (with_cache best (asks e)) (trade_history e)
                        (order_history e))).
  { split; [|done]. constructor; simpl; try apply Hwf. done. }
  destruct (negb (0 <? _)); [by injection Heq as ->|].
  destruct best as [p|]; [|by injection Heq as ->].
  destruct (negb _); [by injection Heq as ->|].
  by destruct (sort_by_timestamp _ _).
Qed.

Lemma sharded_sell_pass_step order s s' :
  sharded_loop_inv order s →
  _match_sell_order_pass order s = inr s' →
  sharded_loop_inv order s'
  ∧ (sharded_left order s' < sharded_left order s)%nat
  ∧ fills_only (objs s.2) (objs s'.2)
  ∧ trade_history s'.2 = trade_history s.2
  ∧ order_history s'.2 = order_history s.2.
Proof.
  destruct s as [trades e]. intros (Hwf & Hlen & Hnb & Hna) Hpass.
  simpl in Hwf, Hlen, Hnb, Hna.
  destruct (sharded_sell_pass_eq order trades e (wfse_bids _ Hwf))
    as (best & Hwf1 & Hbest & Heq).
  rewrite Hpass in Heq. simpl in Heq.
  destruct (0 <? _) eqn:Hrem; [|done]. apply Z.ltb_lt in Hrem. simpl in Heq.
  destruct best as [p|]; [|done].
  destruct (negb _); [done|].
  destruct (shards_best_price_head _ _ _ (wfse_bids _ Hwf) Hbest)
    as (a & l & Hsort & Hin).
  rewrite Hsort in Heq. injection Heq as ->.
  assert (Ha : shard_rests (ShardedOrderBookSide.shards (bids e)) a).
  { apply shard_rests_orders. by exists p. }
  pose proof (shard_rests_live _ _ _ (wfse_bids _ Hwf) Ha) as Hra.
  set (q := Z.min _ _) in *.
  assert (Hq : 0 < q ≤ Order.remaining_quantity (deref (objs e) a))
    by (subst q; lia).
  destruct (sharded_fill_step _ (with_cache (Some p) (bids e)) order a q
              Hwf1 Hlen Hnb Ha Hq)
    as (Hwf2 & Hside2 & Hn2 & Hlo & Hrx).
  assert (Hab : ¬ shard_rests (ShardedOrderBookSide.shards (asks e)) a).
  { eapply (shard_rests_sides_disjoint _ (bids e) (asks e));
      [apply Hwf..| |done].
    rewrite (wfse_bids_side _ Hwf), (wfse_asks_side _ Hwf). done. }
  pose proof (sharded_fill_other_side _ _ order a q (wfse_asks _ Hwf) Hna Hab)
    as Hwfa2.
  pose proof (fills_only_fill_pair q order a (objs e)) as Hf.
  split; [|split; [|done]].
  - split; [|split; [|split]]; simpl.
    + constructor; simpl;
        [exact Hwf2|exact Hwfa2
        |rewrite Hside2; apply Hwf|apply Hwf
        |rewrite (fills_only_ids _ _ Hf); apply Hwf].
    + destruct Hf as [-> _]. done.
    + intros [p' Hin']%shard_rests_orders. rewrite Hlo in Hin'.
      apply Hnb. apply shard_rests_orders. exists p'.
      destruct (decide _); [|done].
      by apply list_elem_of_filter in Hin' as [_ ?].
    + done.
  - unfold sharded_left. simpl. rewrite Hrx. subst q. lia.
Qed.

Lemma sharded_sell_pass_exit order s s' :
  sharded_loop_inv order s →
  _match_sell_order_pass order s = inl s' →
  sharded_loop_inv order s'
  ∧ s'.1 = s.1 ∧ objs s'.2 = objs s.2
  ∧ trade_history s'.2 = trade_history s.2
  ∧ order_history s'.2 = order_history s.2.
Proof.
  destruct s as [trades e]. intros (Hwf & Hlen & Hnb & Hna) Hpass.
  simpl in Hwf, Hlen, Hnb, Hna.
  destruct (sharded_sell_pass_eq order trades e (wfse_bids _ Hwf))
    as (best & Hwf1 & Hbest & Heq).
  rewrite Hpass in Heq. simpl in Heq.
  assert (Hinv1 : sharded_loop_inv order
            (trades, mk (objs e) (num_shards e)
                        (with_cache best (bids e)) (asks e)
                        (trade_history e) (order_history e))).
  { split; [|done]. constructor; simpl; try apply Hwf. done. }
  destruct (negb (0 <? _)); [by injection Heq as ->|].
  destruct best as [p|]; [|by injection Heq as ->].
  destruct (negb _); [by injection Heq as ->|].
  by destruct (sort_by_timestamp _ _).
Qed.

(** The matching loops of the sharded engine end, within a fuel of one
    more than what is left of the incoming order, in a well-formed
    state. *)
Lemma sharded_match_buy_spec fuel order e :
  sharded_loop_inv order ([], e) → (sharded_left order ([], e) < fuel)%nat →
  ∃ r,
    _match_buy_order fuel order e = Some r
    ∧ sharded_loop_inv order r
    ∧ fills_only (objs e) (objs r.2)
    ∧ trade_history r.2 = trade_history e
    ∧ order_history r.2 = order_history e.
Proof.
  intros Hinv Hfuel. unfold _match_buy_order.
  destruct (while_loop_total (_match_buy_order_pass order)
              (sharded_loop_inv order) (sharded_left order) fuel ([], e))
    as [r Hr]; [|done|done|].
  { intros s s' Hs Hp.
    by destruct (sharded_buy_pass_step _ _ _ Hs Hp) as (? & ? & _). }
  exists r. split; [done|].
  eapply (while_loop_invariant (_match_buy_order_pass order)
            (λ s, sharded_loop_inv order s
                  ∧ fills_only (objs e) (objs s.2)
                  ∧ trade_history s.2 = trade_history e
                  ∧ order_history s.2 = order_history e)
            (λ s, sharded_loop_inv order s
                  ∧ fills_only (objs e) (objs s.2)
                  ∧ trade_history s.2 = trade_history e
                  ∧ order_history s.2 = order_history e)); [| | |exact Hr].
  - intros s s' (Hs & Hf & Hth & Hoh) Hp.
    destruct (sharded_buy_pass_step _ _ _ Hs Hp)
      as (? & _ & Hf' & Hth' & Hoh').
    split; [done|]. split; [by eapply fills_only_trans|].
    split; congruence.
  - intros s s' (Hs & Hf & Hth & Hoh) Hp.
    destruct (sharded_buy_pass_exit _ _ _ Hs Hp)
      as (? & _ & Ho & Hth' & Hoh').
    split; [done|]. rewrite Ho. split; [done|]. split; congruence.
  - split; [done|]. split; [apply fills_only_refl|done].
Qed.

Lemma sharded_match_sell_spec fuel order e :
  sharded_loop_inv order ([], e) → (sharded_left order ([], e) < fuel)%nat →
  ∃ r,
    _match_sell_order fuel order e = Some r
    ∧ sharded_loop_inv order r
    ∧ fills_only (objs e) (objs r.2)
    ∧ trade_history r.2 = trade_history e
    ∧ order_history r.2 = order_history e.
Proof.
  intros Hinv Hfuel. unfold _match_sell_order.
  destruct (while_loop_total (_match_sell_order_pass order)
              (sharded_loop_inv order) (sharded_left order) fuel ([], e))
    as [r Hr]; [|done|done|].
  { intros s s' Hs Hp.
    by destruct (sharded_sell_pass_step _ _ _ Hs Hp) as (? & ? & _). }
  exists r. split; [done|].
  eapply (while_loop_invariant (_match_sell_order_pass order)
            (λ s, sharded_loop_inv order s
                  ∧ fills_only (objs e) (objs s.2)
                  ∧ trade_history s.2 = trade_history e
                  ∧ order_history s.2 = order_history e)
            (λ s, sharded_loop_inv order s
                  ∧ fills_only (objs e) (objs s.2)
                  ∧ trade_history s.2 = trade_history e
                  ∧ order_history s.2 = order_history e)); [| | |exact Hr].
  - intros s s' (Hs & Hf & Hth & Hoh) Hp.
    destruct (sharded_sell_pass_step _ _ _ Hs Hp)
      as (? & _ & Hf' & Hth' & Hoh').
    split; [done|]. split; [by eapply fills_only_trans|].
    split; congruence.
  - intros s s' (Hs & Hf & Hth & Hoh) Hp.
    destruct (sharded_sell_pass_exit _ _ _ Hs Hp)
      as (? & _ & Ho & Hth' & Hoh').
    split; [done|]. rewrite Ho. split; [done|]. split; congruence.
  - split; [done|]. split; [apply fills_only_refl|done].
Qed.

Lemma sharded_add_to_order_book_wf order e :
  wf_sharded e → (order < length (objs e))%nat →
  ¬ shard_rests (ShardedOrderBookSide.shards (bids e)) order →
  ¬ shard_rests (ShardedOrderBookSide.shards (asks e)) order →
  0 < Order.remaining_quantity (deref (objs e) order) →
  wf_sharded (_add_to_order_book order e).
Proof.
  intros Hwf Hlen Hnb Hna Hrem. unfold _add_to_order_book.
  destruct (Order.side (deref (objs e) order)) eqn:Hside.
  - destruct (sharded_add_order_spec (objs e) (bids e) order
                (wfse_bids _ Hwf) (wfse_ids _ Hwf) Hlen Hnb Hrem)
      as (b' & -> & Hwf' & Hside' & _).
    { by rewrite (wfse_bids_side _ Hwf). }
    constructor; cbn [objs bids asks snd]; try apply Hwf; [done|].
    rewrite Hside'. apply Hwf.
  - destruct (sharded_add_order_spec (objs e) (asks e) order
                (wfse_asks _ Hwf) (wfse_ids _ Hwf) Hlen Hna Hrem)
      as (b' & -> & Hwf' & Hside' & _).
    { by rewrite (wfse_asks_side _ Hwf). }
    constructor; cbn [objs bids asks snd]; try apply Hwf; [done|].
    rewrite Hside'. apply Hwf.
Qed.

Lemma sharded_add_order_wf fuel order e :
  wf_sharded e → (order < length (objs e))%nat →
  ¬ shard_rests (ShardedOrderBookSide.shards (bids e)) order →
  ¬ shard_rests (ShardedOrderBookSide.shards (asks e)) order →
  (Z.to_nat (Order.remaining_quantity (deref (objs e) order)) < fuel)%nat →
  ∃ trades e',
    add_order fuel order e = Some (trades, e')
    ∧ wf_sharded e'
    ∧ fills_only (objs e) (objs e')
    ∧ trade_history e' = trade_history e ++ trades
    ∧ order_history e' = order_history e ++ [order].
Proof.
  intros Hwf Hlen Hnb Hna Hfuel. unfold add_order.
  set (e0 := mk (objs e) (num_shards e) (bids e) (asks e) (trade_history e)
                (order_history e ++ [order])).
  assert (Hinv0 : sharded_loop_inv order ([], e0)).
  { split; [|done]. by destruct Hwf. }
  assert (Hm : ∃ r,
    match Order.side (deref (objs e0) order) with
    | BUY => _match_buy_order fuel order e0
    | SELL => _match_sell_order fuel order e0
    end = Some r
    ∧ sharded_loop_inv order r
    ∧ fills_only (objs e0) (objs r.2)
    ∧ trade_history r.2 = trade_history e0
    ∧ order_history r.2 = order_history e0).
  { destruct (Order.side _);
      [apply sharded_match_buy_spec|apply sharded_match_sell_spec]; done. }
  destruct Hm as ([trades e1] & -> & (Hwf1 & Hlen1 & Hnb1 & Hna1)
                  & Hf & Hth & Hoh).
  simpl in *.
  eexists _, _. split; [reflexivity|].
  destruct (_ && _) eqn:Hadd; simpl.
  - apply andb_true_iff in Hadd as [Hrem%Z.ltb_lt _].
    pose proof (sharded_add_to_order_book_wf order e1 Hwf1 Hlen1 Hnb1 Hna1
                  Hrem) as Hwf2.
    unfold _add_to_order_book in *.
    destruct (Order.side _); simpl in *.
    + split; [by destruct Hwf2|]. by rewrite Hth, Hoh.
    + split; [by destruct Hwf2|]. by rewrite Hth, Hoh.
  - split; [by destruct Hwf1|]. by rewrite Hth, Hoh.
Qed.

Lemma wf_sharded_alloc e o :
  wf_sharded e → Order.order_id o ∉ Order.order_id <$> objs e →
  wf_sharded (mk (objs e ++ [o]) (num_shards e) (bids e) (asks e)
                 (trade_history e) (order_history e)).
Proof.
  intros Hwf Hfresh. constructor; simpl; try apply Hwf.
  - apply wf_sharded_side_alloc, Hwf.
  - apply wf_sharded_side_alloc, Hwf.
  - rewrite fmap_app. apply NoDup_app. split; [apply Hwf|].
    split; [|apply NoDup_singleton].
    intros id Hid ->%list_elem_of_singleton. done.
Qed.

Lemma sharded_submit_wf fuel o e :
  wf_sharded e → Order.order_id o ∉ Order.order_id <$> objs e →
  (Z.to_nat (Order.remaining_quantity o) < fuel)%nat →
  ∃ trades e',
    submit fuel o e = Some (trades, e')
    ∧ wf_sharded e'
    ∧ fills_only (objs e ++ [o]) (objs e')
    ∧ trade_history e' = trade_history e ++ trades.
Proof.
  intros Hwf Hfresh Hfuel. unfold submit, alloc, process_order.
  destruct (sharded_add_order_wf fuel (length (objs e))
              (mk (objs e ++ [o]) (num_shards e) (bids e) (asks e)
                  (trade_history e) (order_history e)))
    as (trades & e' & -> & Hwf' & Hf & Hth & _); simpl.
  - by apply wf_sharded_alloc.
  - rewrite length_app. simpl. lia.
  - intros Hr. apply (shard_rests_lt _ _ _ (wfse_bids _ Hwf)) in Hr. lia.
  - intros Hr. apply (shard_rests_lt _ _ _ (wfse_asks _ Hwf)) in Hr. lia.
  - by rewrite deref_alloc_new.
  - by eexists _, _.
Qed.

Lemma wf_sharded_new n : wf_sharded (new n).
Proof.
  constructor; simpl; [apply wf_sharded_side_new..|done|done|constructor].
Qed.

(** [cancel_order] of the sharded engine on a well-formed state. *)
Lemma sharded_cancel_spec id e :
  wf_sharded e →
  wf_sharded (cancel_order id e).2
  ∧ ((cancel_order id e).1 = true ↔ holds_id (Sharded e) id)
  ∧ (∀ a, held (Sharded (cancel_order id e).2) a
          ↔ held (Sharded e) a ∧ Order.order_id (deref (objs e) a) ≠ id)
  ∧ objs (cancel_order id e).2 = objs e.
Proof.
  intros Hwf.
  destruct (sharded_remove_spec (objs e) (bids e) id (wfse_bids _ Hwf)
              (wfse_ids _ Hwf)) as (Hb1 & Hb2 & Hb3 & Hb4 & Hb5).
  destruct (sharded_remove_spec (objs e) (asks e) id (wfse_asks _ Hwf)
              (wfse_ids _ Hwf)) as (Ha1 & Ha2 & Ha3 & Ha4 & Ha5).
  assert (Hdis : ∀ a a',
    shard_rests (ShardedOrderBookSide.shards (bids e)) a →
    shard_rests (ShardedOrderBookSide.shards (asks e)) a' →
    Order.order_id (deref (objs e) a) ≠ Order.order_id (deref (objs e) a')).
  { intros a a' Ha Ha' Hid.
    assert (a = a') as <-.
    { eapply ids_inj; [apply Hwf| | |done];
        eapply shard_rests_lt; [apply (wfse_bids _ Hwf)|done
                               |apply (wfse_asks _ Hwf)|done]. }
    eapply (shard_rests_sides_disjoint _ (bids e) (asks e));
      [apply Hwf..| |done|done].
    rewrite (wfse_bids_side _ Hwf), (wfse_asks_side _ Hwf). done. }
  unfold cancel_order, holds_id, held. simpl.
  destruct (ShardedOrderBookSide.remove_order (objs e) id (bids e))
    as [r1 bids'] eqn:E1. simpl in *.
  destruct r1; simpl.
  - destruct Hb3 as [Hb3 _]. destruct (Hb3 eq_refl) as (a0 & Ha0 & Hid0).
    split; [|split; [|split; [|done]]].
    + constructor; simpl; try apply Hwf; [done|].
      rewrite Hb2. apply Hwf.
    + split; [|done]. intros _. exists a0. split; [by left|done].
    + intros a. rewrite Hb4. split.
      * intros [[Hx Hne]|Hx]; [split; [by left|done]|].
        split; [by right|]. intros Hid. apply (Hdis a0 a); [done..|].
        congruence.
      * intros [[Hx|Hx] Hne]; [by left|by right].
  - rewrite (Hb5 eq_refl) in *.
    destruct (ShardedOrderBookSide.remove_order (objs e) id (asks e))
      as [r2 asks'] eqn:E2. simpl in *.
    assert (Hnb : ∀ a, shard_rests (ShardedOrderBookSide.shards (bids e)) a →
                       Order.order_id (deref (objs e) a) ≠ id).
    { intros a Ha Hid. destruct Hb3 as [_ Hb3].
      by discriminate Hb3; exists a. }
    split; [|split; [|split; [|done]]].
    + constructor; simpl; try apply Hwf; [done|].
      rewrite Ha2. apply Hwf.
    + rewrite Ha3. split.
      * intros (a & Ha & Hid). exists a. split; [by right|done].
      * intros (a & [Ha|Ha] & Hid); [by destruct (Hnb a)|by exists a].
    + intros a. rewrite Ha4. split.
      * intros [Hx|[Hx Hne]]; [|split; [by right|done]].
        split; [by left|by apply Hnb].
      * intros [[Hx|Hx] Hne]; [by left|by right].
Qed.

End sharded_engine.

(** * The sharded engine against the base engine *)

Section timestamps.

Context (h : list Order.t).

Local Abbreviation ts a := (Order.timestamp (deref h a)).

Lemma insert_by_timestamp_perm x l : insert_by_timestamp h x l ≡ₚ x :: l.
Proof.
  induction l as [|y l IH]; simpl; [done|].
  destruct (_ <=? _); [done|]. rewrite IH. apply Permutation_swap.
Qed.

Lemma sort_by_timestamp_perm l : sort_by_timestamp h l ≡ₚ l.
Proof.
  unfold sort_by_timestamp. induction l as [|x l IH]; simpl; [done|].
  by rewrite insert_by_timestamp_perm, IH.
Qed.

Lemma insert_by_timestamp_sorted x l :
  StronglySorted (λ a b, ts a ≤ ts b) l →
  StronglySorted (λ a b, ts a ≤ ts b) (insert_by_timestamp h x l).
Proof.
  induction 1 as [|y l Hl IH Hy]; simpl.
  - repeat constructor.
  - destruct (_ <=? _) eqn:E.
    + apply Z.leb_le in E. constructor; [by constructor|].
      constructor; [done|].
      eapply Forall_impl; [exact Hy|]. simpl. lia.
    + apply Z.leb_gt in E. constructor; [done|].
      rewrite insert_by_timestamp_perm. constructor; [lia|done].
Qed.

Lemma sort_by_timestamp_sorted l :
  StronglySorted (λ a b, ts a ≤ ts b) (sort_by_timestamp h l).
Proof.
  unfold sort_by_timestamp. induction l as [|x l IH]; simpl; [constructor|].
  by apply insert_by_timestamp_sorted.
Qed.






End timestamps.


Section sides.



Lemma nonempty_elem (l : list nat) : l ≠ [] ↔ ∃ a, a ∈ l.
Proof.
  destruct l as [|a l].
  - split; [done|]. by intros [a ?%elem_of_nil].
  - split; [|done]. intros _. exists a. by left.
Qed.



End sides.

Section base_pass.

Import BaseMatchingEngine.

(** A pass of the buy loop of the base engine, with the answers of the
    ask side written out. *)
Lemma base_buy_pass_eq buy trades e :
  wf_side (objs e) (asks e) →
  _match_buy_order_pass buy (trades, e)
  = let h := objs e in
    if negb (0 <? Order.remaining_quantity (deref h buy))
    then inl (trades, e)
    else
      match OrderBookSide._heap_peek (asks e) with
      | None => inl (trades, e)
      | Some p =>
          if negb (bool_decide (Order.order_type (deref h buy) = MARKET)
                   || (p <=? Order.price (deref h buy)))
          then inl (trades, e)
          else
            match level_orders (asks e) p with
            | [] => inl (trades, e)
            | a :: _ =>
                let q := Z.min (Order.remaining_quantity (deref h buy))
                               (Order.remaining_quantity (deref h a)) in
                let h2 := fill_pair q buy a h in
                inr (trades
                     ++ [Trade.create_trade (deref h buy) (deref h a) q],
                     mk h2 (bids e) (drop_if_filled h2 a (asks e))
                        (trade_history e) (order_history e))
            end
      end.
Proof.
  intros Hwf. unfold _match_buy_order_pass. simpl.
  destruct (negb (0 <? _)); [done|].
  rewrite (get_best_price_wf _ _ Hwf), base_eta.
  destruct (OrderBookSide._heap_peek (asks e)) as [p|] eqn:Hpeek; [|done].
  destruct (negb _); [done|].
  destruct (heap_peek_best _ _ _ Hwf Hpeek) as [Hp _].
  destruct (head_level_orders _ _ _ Hwf Hp) as (l & a & Hl & Htop & Hhead).
  unfold OrderBookSide.get_price_level. rewrite Hl, Htop.
  destruct (level_orders (asks e) p) as [|a' l']; [done|].
  by injection Hhead as ->.
Qed.

Lemma base_sell_pass_eq sell trades e :
  wf_side (objs e) (bids e) →
  _match_sell_order_pass sell (trades, e)
  = let h := objs e in
    if negb (0 <? Order.remaining_quantity (deref h sell))
    then inl (trades, e)
    else
      match OrderBookSide._heap_peek (bids e) with
      | None => inl (trades, e)
      | Some p =>
          if negb (bool_decide (Order.order_type (deref h sell) = MARKET)
                   || (Order.price (deref h sell) <=? p))
          then inl (trades, e)
          else
            match level_orders (bids e) p with
            | [] => inl (trades, e)
            | a :: _ =>
                let q := Z.min (Order.remaining_quantity (deref h sell))
                               (Order.remaining_quantity (deref h a)) in
                let h2 := fill_pair q sell a h in
                inr (trades
                     ++ [Trade.create_trade (deref h a) (deref h sell) q],
                     mk h2 (drop_if_filled h2 a (bids e)) (asks e)
                        (trade_history e) (order_history e))
            end
      end.
Proof.
  intros Hwf. unfold _match_sell_order_pass. simpl.
  destruct (negb (0 <? _)); [done|].
  rewrite (get_best_price_wf _ _ Hwf), base_eta.
  destruct (OrderBookSide._heap_peek (bids e)) as [p|] eqn:Hpeek; [|done].
  destruct (negb _); [done|].
  destruct (heap_peek_best _ _ _ Hwf Hpeek) as [Hp _].
  destruct (head_level_orders _ _ _ Hwf Hp) as (l & a & Hl & Htop & Hhead).
  unfold OrderBookSide.get_price_level. rewrite Hl, Htop.
  destruct (level_orders (bids e) p) as [|a' l']; [done|].
  by injection Hhead as ->.
Qed.

End base_pass.

Section passes.









End passes.

Section engines.

Lemma sharded_add_order_fuel_mono (fuel fuel' : nat) order e r :
  (fuel ≤ fuel')%nat →
  ShardedMatchingEngine.add_order fuel order e = Some r →
  ShardedMatchingEngine.add_order fuel' order e = Some r.
Proof.
  intros Hle. unfold ShardedMatchingEngine.add_order.
  unfold ShardedMatchingEngine._match_buy_order,
    ShardedMatchingEngine._match_sell_order.
  destruct (Order.side _); simpl;
    destruct (while_loop _ fuel _) eqn:E; try done;
    by rewrite (while_loop_fuel_mono _ _ _ _ _ Hle E).
Qed.

Lemma sharded_submit_fuel_mono (fuel fuel' : nat) o e r :
  (fuel ≤ fuel')%nat →
  ShardedMatchingEngine.submit fuel o e = Some r →
  ShardedMatchingEngine.submit fuel' o e = Some r.
Proof.
  unfold ShardedMatchingEngine.submit, ShardedMatchingEngine.process_order.
  simpl. apply sharded_add_order_fuel_mono.
Qed.

(** Whatever the fuel, a call of [submit] that returns leaves a
    well-formed state. *)
Lemma base_submit_inv fuel o e tr e' :
  wf_base e →
  Order.order_id o ∉ Order.order_id <$> BaseMatchingEngine.objs e →
  BaseMatchingEngine.submit fuel o e = Some (tr, e') →
  wf_base e'
  ∧ fills_only (BaseMatchingEngine.objs e ++ [o]) (BaseMatchingEngine.objs e')
  ∧ BaseMatchingEngine.trade_history e'
    = BaseMatchingEngine.trade_history e ++ tr.
Proof.
  intros Hwf Hfresh Hsub.
  set (fuel' := (fuel `max` S (Z.to_nat (Order.remaining_quantity o)))%nat).
  destruct (base_submit_wf fuel' o e Hwf Hfresh) as (tr' & e'' & Hsub' & H);
    [lia|].
  rewrite (base_submit_fuel_mono fuel fuel' _ _ _ ltac:(lia) Hsub) in Hsub'.
  by simplify_eq.
Qed.

Lemma sharded_submit_inv fuel o e tr e' :
  wf_sharded e →
  Order.order_id o ∉ Order.order_id <$> ShardedMatchingEngine.objs e →
  ShardedMatchingEngine.submit fuel o e = Some (tr, e') →
  wf_sharded e'
  ∧ fills_only (ShardedMatchingEngine.objs e ++ [o])
      (ShardedMatchingEngine.objs e')
  ∧ ShardedMatchingEngine.trade_history e'
    = ShardedMatchingEngine.trade_history e ++ tr.
Proof.
  intros Hwf Hfresh Hsub.
  set (fuel' := (fuel `max` S (Z.to_nat (Order.remaining_quantity o)))%nat).
  destruct (sharded_submit_wf fuel' o e Hwf Hfresh)
    as (tr' & e'' & Hsub' & H); [lia|].
  rewrite (sharded_submit_fuel_mono fuel fuel' _ _ _ ltac:(lia) Hsub) in Hsub'.
  by simplify_eq.
Qed.






End engines.

Section runs.














End runs.

(** * The exchange engine on well-formed states *)

Section nse_basics.

Import NSEMatchingEngine.

Lemma visible_quantity_pos o :
  disclosed_ok o → 0 < Order.remaining_quantity o →
  0 < Order.visible_quantity o ≤ Order.remaining_quantity o.
Proof.
  intros Hd Hrem. unfold Order.visible_quantity.
  destruct (bool_decide _ && _) eqn:E; [|lia].
  apply andb_true_iff in E as [Hty%bool_decide_eq_true_1 Ht].
  destruct (Order.disclosed_quantity o) as [d|] eqn:Ed; [|done].
  simpl in *. apply negb_true_iff, Z.eqb_neq in Ht.
  specialize (Hd Hty d Ed). lia.
Qed.

Lemma fills_only_disclosed h h' a :
  fills_only h h' → disclosed_ok (deref h a) → disclosed_ok (deref h' a).
Proof.
  intros [_ Hf]. rewrite (Hf a). unfold disclosed_ok. by simpl.
Qed.

Lemma ids_deref h h' a :
  Order.order_id <$> h' = Order.order_id <$> h →
  Order.order_id (deref h' a) = Order.order_id (deref h a).
Proof.
  intros Hids. unfold deref.
  assert (H := f_equal (λ l, l !! a) Hids). simpl in H.
  rewrite !list_lookup_fmap in H.
  destruct (h' !! a), (h !! a); simpl in *; congruence.
Qed.

Lemma ids_update f a h :
  (∀ o, Order.order_id (f o) = Order.order_id o) →
  Order.order_id <$> update f a h = Order.order_id <$> h.
Proof.
  intros Hf. unfold update. apply list_eq. intros i.
  rewrite !list_lookup_fmap.
  destruct (decide (i = a)) as [->|Hne].
  - rewrite list_lookup_alter_eq. destruct (h !! a); simpl; [|done].
    by rewrite Hf.
  - by rewrite list_lookup_alter_ne.
Qed.

(** ** [reduce_level_volume] *)

Lemma reduce_level_volume_level_orders p q b p' :
  level_orders (reduce_level_volume p q b) p' = level_orders b p'.
Proof.
  unfold level_orders, reduce_level_volume. simpl.
  rewrite lookup_alter. case_decide as E; [|done]. subst.
  by destruct (OrderBookSide.price_levels b !! p').
Qed.

Lemma reduce_level_volume_rests p q b a :
  rests (reduce_level_volume p q b) a ↔ rests b a.
Proof.
  unfold rests. by setoid_rewrite reduce_level_volume_level_orders.
Qed.

Lemma reduce_level_volume_wf h p q b :
  wf_side h b → wf_side h (reduce_level_volume p q b).
Proof.
  intros Hwf.
  assert (Hlk : ∀ p' l',
    OrderBookSide.price_levels (reduce_level_volume p q b) !! p' = Some l' →
    ∃ l, OrderBookSide.price_levels b !! p' = Some l
         ∧ PriceLevel.price l' = PriceLevel.price l
         ∧ PriceLevel.orders l' = PriceLevel.orders l).
  { intros p' l'. unfold reduce_level_volume. simpl.
    rewrite lookup_alter. case_decide as E.
    - subst. destruct (OrderBookSide.price_levels b !! p') as [l|];
        simpl; [|done]. intros [= <-]. by exists l.
    - intros Hl. by exists l'. }
  constructor.
  - intros p' l' (l & Hl & -> & _)%Hlk. by eapply wf_level_price.
  - intros p' l' (l & Hl & _ & ->)%Hlk. by eapply wf_level_nonempty.
  - intros p'. rewrite reduce_level_volume_level_orders.
    apply (wf_level_nodup _ _ Hwf).
  - intros p' a. rewrite reduce_level_volume_level_orders.
    apply (wf_level_orders _ _ Hwf).
  - intros id a Hid. setoid_rewrite reduce_level_volume_level_orders.
    by apply (wf_order_map _ _ Hwf).
  - apply (wf_order_to_price_level _ _ Hwf).
  - apply (wf_heap_sorted _ _ Hwf).
  - intros k. rewrite (wf_heap_elem _ _ Hwf k). simpl.
    assert (Hs : ∀ p', is_Some (alter
        (λ l, PriceLevel.mk (PriceLevel.price l) (PriceLevel.orders l)
                (PriceLevel.total_volume l - q)) p
        (OrderBookSide.price_levels b) !! p')
      ↔ is_Some (OrderBookSide.price_levels b !! p')).
    { intros p'. rewrite lookup_alter. case_decide; [|done]. subst.
      by rewrite fmap_is_Some. }
    by setoid_rewrite Hs.
Qed.

Lemma reduce_level_volume_live h p q b :
  live_side h b → live_side h (reduce_level_volume p q b).
Proof. intros Hl a Ha%reduce_level_volume_rests. by apply Hl. Qed.

(** ** Assignments that change nothing *)

Lemma nse_set_asks_id e : set_asks (asks e) e = e.
Proof. by destruct e. Qed.

Lemma nse_set_bids_id e : set_bids (bids e) e = e.
Proof. by destruct e. Qed.

(** ** Steps *)

Lemma nse_step_refl e : nse_step e e.
Proof. by repeat split. Qed.

Lemma nse_step_trans e1 e2 e3 :
  nse_step e1 e2 → nse_step e2 e3 → nse_step e1 e3.
Proof.
  intros (H1 & H2 & H3 & H4 & H5) (G1 & G2 & G3 & G4 & G5).
  repeat split; try congruence. intros y Hy. by apply H3, G3.
Qed.

Lemma nse_free_step e e' x : nse_step e e' → nse_free e x → nse_free e' x.
Proof.
  intros (H1 & H2 & H3 & H4 & H5) (Hx & Hh & Ha).
  split; [by rewrite H1|]. split; [by intros ?%H3|by rewrite H4].
Qed.

(** A state that holds no more than a well-formed one, in which the
    objects of the store have the ids they had, is well formed when its
    book is and what its pending and auction orders need holds. *)
Lemma wf_nse_store e e' :
  wf_nse e →
  length (objs e') = length (objs e) →
  Order.order_id <$> objs e' = Order.order_id <$> objs e →
  wf_book (objs e') (bids e') (asks e') →
  (∀ y, rests (bids e') y → rests (bids e) y) →
  (∀ y, rests (asks e') y → rests (asks e) y) →
  (∀ ka, ka ∈ pending_stop_orders e' → ka ∈ pending_stop_orders e) →
  auction_orders e' = auction_orders e →
  async_cancel e' = async_cancel e →
  (∀ y, y ∈ (pending_stop_orders e').*2 ∨ y ∈ auction_orders e →
        0 < Order.remaining_quantity (deref (objs e') y)) →
  (∀ y, disclosed_ok (deref (objs e') y)) →
  wf_nse e' ∧ nse_step e e'.
Proof.
  intros [Hwf Hpend Hauc Hnd Hdisc] Hlen Hids Hwf' Hb Ha Hp Hau Has Hrem Hd.
  split.
  - constructor; try done.
    + intros k a Hk. destruct (Hpend _ _ (Hp _ Hk)) as (? & ? & ? & ? & ?).
      split; [by rewrite Hlen|]. split; [by rewrite (ids_deref _ _ _ Hids)|].
      split; [naive_solver|]. split; [naive_solver|].
      apply Hrem. left. apply elem_of_pending_values. by exists k.
    + rewrite Hau. intros a Ha'.
      destruct (Hauc _ Ha') as (? & ? & ? & Hnp & ?).
      split; [by rewrite Hlen|]. split; [naive_solver|].
      split; [naive_solver|]. split; [|by apply Hrem; right].
      intros [k Hk]%elem_of_pending_values. apply Hnp.
      apply elem_of_pending_values. exists k. by apply Hp.
    + by rewrite Hau.
  - split; [done|]. split; [done|]. split; [|done].
    intros y [Hy|[Hy|Hy]]; simpl; [left; by apply Hb|right; left; by apply Ha|].
    right; right. apply elem_of_pending_values in Hy as [k Hk].
    apply elem_of_pending_values. exists k. by apply Hp.
Qed.

End nse_basics.

Section nse_passes.

Import NSEMatchingEngine.

Lemma nse_buy_pass_inv buy trades e :
  wf_side (objs e) (asks e) →
  match _match_buy_order_pass buy (trades, e) with
  | inl s' => s' = (trades, e)
  | inr s' =>
      ∃ p a,
        head (level_orders (asks e) p) = Some a
        ∧ 0 < Order.remaining_quantity (deref (objs e) buy)
        ∧ let q := Z.min (Order.remaining_quantity (deref (objs e) buy))
                         (Order.visible_quantity (deref (objs e) a)) in
          let h2 := fill_pair q buy a (objs e) in
          s' = (trades
                ++ [Trade.mk (Order.order_id (deref (objs e) buy))
                      (Order.order_id (deref (objs e) a))
                      (Order.price (deref (objs e) a)) q],
                set_asks
                  (drop_if_filled h2 a (reduce_level_volume p q (asks e)))
                  (set_objs h2 e))
  end.
Proof.
  intros Hwf. unfold _match_buy_order_pass.
  destruct (0 <? _) eqn:Hrem; simpl; [|done]. apply Z.ltb_lt in Hrem.
  rewrite (get_best_price_wf _ _ Hwf), nse_set_asks_id.
  destruct (OrderBookSide._heap_peek (asks e)) as [p|] eqn:Hpeek; [|done].
  destruct (heap_peek_best _ _ _ Hwf Hpeek) as [Hp _].
  destruct (negb _); [done|].
  destruct (head_level_orders _ _ _ Hwf Hp) as (l & a & Hl & Htop & Hhead).
  unfold OrderBookSide.get_price_level. rewrite Hl, Htop.
  exists p, a. done.
Qed.

Lemma nse_sell_pass_inv sell trades e :
  wf_side (objs e) (bids e) →
  match _match_sell_order_pass sell (trades, e) with
  | inl s' => s' = (trades, e)
  | inr s' =>
      ∃ p a,
        head (level_orders (bids e) p) = Some a
        ∧ 0 < Order.remaining_quantity (deref (objs e) sell)
        ∧ let q := Z.min (Order.remaining_quantity (deref (objs e) sell))
                         (Order.visible_quantity (deref (objs e) a)) in
          let h2 := fill_pair q sell a (objs e) in
          s' = (trades
                ++ [Trade.mk (Order.order_id (deref (objs e) a))
                      (Order.order_id (deref (objs e) sell))
                      (Order.price (deref (objs e) a)) q],
                set_bids
                  (drop_if_filled h2 a (reduce_level_volume p q (bids e)))
                  (set_objs h2 e))
  end.
Proof.
  intros Hwf. unfold _match_sell_order_pass.
  destruct (0 <? _) eqn:Hrem; simpl; [|done]. apply Z.ltb_lt in Hrem.
  rewrite (get_best_price_wf _ _ Hwf), nse_set_bids_id.
  destruct (OrderBookSide._heap_peek (bids e)) as [p|] eqn:Hpeek; [|done].
  destruct (heap_peek_best _ _ _ Hwf Hpeek) as [Hp _].
  destruct (negb _); [done|].
  destruct (head_level_orders _ _ _ Hwf Hp) as (l & a & Hl & Htop & Hhead).
  unfold OrderBookSide.get_price_level. rewrite Hl, Htop.
  exists p, a. done.
Qed.

(** The store after a fill away from the orders [y] that are neither
    the incoming nor the resting one. *)
Lemma deref_fill_pair_other q x a h y :
  y ≠ x → y ≠ a → deref (fill_pair q x a h) y = deref h y.
Proof.
  intros Hx Ha. unfold fill_pair. by rewrite !deref_update_ne.
Qed.

(** A fill of the incoming order [x] from the book of a well-formed
    state, on the ask side. *)
Lemma wf_nse_fill_asks e x a p q :
  wf_nse e → nse_free e x → rests (asks e) a →
  0 < q ≤ Order.remaining_quantity (deref (objs e) a) →
  let h2 := fill_pair q x a (objs e) in
  let e' := set_asks (drop_if_filled h2 a (reduce_level_volume p q (asks e)))
              (set_objs h2 e) in
  wf_nse e' ∧ nse_step e e'.
Proof.
  intros Hwfn (Hx & Hnh & Hnau) Ha Hq h2 e'.
  destruct (Hwfn) as [Hwf Hpend Hauc Hnd Hdisc].
  simpl in Hnh.
  assert (Hnb : ¬ rests (bids e) x) by tauto.
  assert (Hna : ¬ rests (asks e) x) by tauto.
  assert (Hnp : x ∉ (pending_stop_orders e).*2) by tauto.
  pose proof (fills_only_fill_pair q x a (objs e)) as Hf. fold h2 in Hf.
  destruct (fill_step (objs e) (reduce_level_volume p q (asks e)) x a q)
    as (Hwf2 & Hlive2 & Hside2 & Hlo & _);
    [by apply reduce_level_volume_wf, Hwf
    |by apply reduce_level_volume_live, Hwf
    |done|by rewrite reduce_level_volume_rests
    |by rewrite reduce_level_volume_rests|done|].
  fold h2 in Hwf2, Hlive2, Hside2, Hlo.
  assert (Hab : ¬ rests (bids e) a).
  { intros Hab. by destruct (wf_book_sides_disjoint _ _ _ a Hwf). }
  destruct (fill_other_side (objs e) (bids e) x a q) as [Hwfb2 Hliveb2];
    [apply Hwf|apply Hwf|done|done|]. fold h2 in Hwfb2, Hliveb2.
  assert (Hsub : ∀ y,
    rests (drop_if_filled h2 a (reduce_level_volume p q (asks e))) y →
    rests (asks e) y).
  { intros y [p' Hy]. rewrite Hlo, reduce_level_volume_level_orders in Hy.
    exists p'. destruct (decide _); [|done].
    by apply list_elem_of_filter in Hy as [_ ?]. }
  assert (Hother : ∀ y,
    y ∈ (pending_stop_orders e).*2 ∨ y ∈ auction_orders e →
    deref h2 y = deref (objs e) y).
  { intros y Hy. apply deref_fill_pair_other.
    - intros ->. destruct Hy as [Hy|Hy]; done.
    - intros ->. destruct Hy as [[k Hk]%elem_of_pending_values|Hy].
      + by destruct (Hpend _ _ Hk) as (_ & _ & _ & ? & _).
      + by destruct (Hauc _ Hy) as (_ & _ & ? & _). }
  apply wf_nse_store; subst e'; simpl; try done.
  - by destruct Hf.
  - by apply fills_only_ids.
  - constructor; simpl;
      [exact Hwfb2|exact Hwf2|exact Hliveb2|exact Hlive2|apply Hwf
      |rewrite Hside2; apply Hwf
      |rewrite (fills_only_ids _ _ Hf); apply Hwf].
  - intros y Hy. rewrite (Hother y Hy).
    destruct Hy as [[k Hk]%elem_of_pending_values|Hy].
    + by destruct (Hpend _ _ Hk) as (_ & _ & _ & _ & ?).
    + by destruct (Hauc _ Hy) as (_ & _ & _ & _ & ?).
  - intros y. by eapply fills_only_disclosed.
Qed.

Lemma wf_nse_fill_bids e x a p q :
  wf_nse e → nse_free e x → rests (bids e) a →
  0 < q ≤ Order.remaining_quantity (deref (objs e) a) →
  let h2 := fill_pair q x a (objs e) in
  let e' := set_bids (drop_if_filled h2 a (reduce_level_volume p q (bids e)))
              (set_objs h2 e) in
  wf_nse e' ∧ nse_step e e'.
Proof.
  intros Hwfn (Hx & Hnh & Hnau) Ha Hq h2 e'.
  destruct (Hwfn) as [Hwf Hpend Hauc Hnd Hdisc].
  simpl in Hnh.
  assert (Hnb : ¬ rests (bids e) x) by tauto.
  assert (Hna : ¬ rests (asks e) x) by tauto.
  assert (Hnp : x ∉ (pending_stop_orders e).*2) by tauto.
  pose proof (fills_only_fill_pair q x a (objs e)) as Hf. fold h2 in Hf.
  destruct (fill_step (objs e) (reduce_level_volume p q (bids e)) x a q)
    as (Hwf2 & Hlive2 & Hside2 & Hlo & _);
    [by apply reduce_level_volume_wf, Hwf
    |by apply reduce_level_volume_live, Hwf
    |done|by rewrite reduce_level_volume_rests
    |by rewrite reduce_level_volume_rests|done|].
  fold h2 in Hwf2, Hlive2, Hside2, Hlo.
  assert (Hab : ¬ rests (asks e) a).
  { by apply (wf_book_sides_disjoint _ _ _ a Hwf). }
  destruct (fill_other_side (objs e) (asks e) x a q) as [Hwfb2 Hliveb2];
    [apply Hwf|apply Hwf|done|done|]. fold h2 in Hwfb2, Hliveb2.
  assert (Hsub : ∀ y,
    rests (drop_if_filled h2 a (reduce_level_volume p q (bids e))) y →
    rests (bids e) y).
  { intros y [p' Hy]. rewrite Hlo, reduce_level_volume_level_orders in Hy.
    exists p'. destruct (decide _); [|done].
    by apply list_elem_of_filter in Hy as [_ ?]. }
  assert (Hother : ∀ y,
    y ∈ (pending_stop_orders e).*2 ∨ y ∈ auction_orders e →
    deref h2 y = deref (objs e) y).
  { intros y Hy. apply deref_fill_pair_other.
    - intros ->. destruct Hy as [Hy|Hy]; done.
    - intros ->. destruct Hy as [[k Hk]%elem_of_pending_values|Hy].
      + by destruct (Hpend _ _ Hk) as (_ & _ & ? & _).
      + by destruct (Hauc _ Hy) as (_ & ? & _). }
  apply wf_nse_store; subst e'; simpl; try done.
  - by destruct Hf.
  - by apply fills_only_ids.
  - constructor; simpl;
      [exact Hwf2|exact Hwfb2|exact Hlive2|exact Hliveb2
      |rewrite Hside2; apply Hwf|apply Hwf
      |rewrite (fills_only_ids _ _ Hf); apply Hwf].
  - intros y Hy. rewrite (Hother y Hy).
    destruct Hy as [[k Hk]%elem_of_pending_values|Hy].
    + by destruct (Hpend _ _ Hk) as (_ & _ & _ & _ & ?).
    + by destruct (Hauc _ Hy) as (_ & _ & _ & _ & ?).
  - intros y. by eapply fills_only_disclosed.
Qed.

(** The passes of the matching loops keep the state well formed. *)
Lemma nse_buy_pass_wf x s s' :
  wf_nse s.2 → nse_free s.2 x →
  _match_buy_order_pass x s = inl s' ∨ _match_buy_order_pass x s = inr s' →
  wf_nse s'.2 ∧ nse_step s.2 s'.2.
Proof.
  destruct s as [trades e]. cbn [fst snd]. intros Hwfn Hfree Hpass.
  pose proof (nse_buy_pass_inv x trades e
                (wfb_asks _ _ _ (wfn_book _ Hwfn))) as Hinv.
  destruct Hpass as [Hpass|Hpass]; rewrite Hpass in Hinv.
  { subst s'. split; [done|apply nse_step_refl]. }
  destruct Hinv as (p & a & Hhead & Hrem & ->).
  pose proof (head_rests _ _ _ Hhead) as Ha.
  destruct (wfb_asks_live _ _ _ (wfn_book _ Hwfn) _ Ha) as [Hra _].
  pose proof (visible_quantity_pos _ (wfn_disclosed _ Hwfn a) Hra) as Hv.
  apply wf_nse_fill_asks; [done|done|done|lia].
Qed.

Lemma nse_sell_pass_wf x s s' :
  wf_nse s.2 → nse_free s.2 x →
  _match_sell_order_pass x s = inl s' ∨ _match_sell_order_pass x s = inr s' →
  wf_nse s'.2 ∧ nse_step s.2 s'.2.
Proof.
  destruct s as [trades e]. cbn [fst snd]. intros Hwfn Hfree Hpass.
  pose proof (nse_sell_pass_inv x trades e
                (wfb_bids _ _ _ (wfn_book _ Hwfn))) as Hinv.
  destruct Hpass as [Hpass|Hpass]; rewrite Hpass in Hinv.
  { subst s'. split; [done|apply nse_step_refl]. }
  destruct Hinv as (p & a & Hhead & Hrem & ->).
  pose proof (head_rests _ _ _ Hhead) as Ha.
  destruct (wfb_bids_live _ _ _ (wfn_book _ Hwfn) _ Ha) as [Hra _].
  pose proof (visible_quantity_pos _ (wfn_disclosed _ Hwfn a) Hra) as Hv.
  apply wf_nse_fill_bids; [done|done|done|lia].
Qed.

(** The matching loops, with any fuel. *)
Lemma nse_direct_match_wf fuel x e r :
  wf_nse e → nse_free e x →
  direct_match fuel x e = Some r →
  wf_nse r.2 ∧ nse_step e r.2.
Proof.
  intros Hwfn Hfree. unfold direct_match, _match_buy_order, _match_sell_order.
  destruct (Order.side _).
  - apply (while_loop_invariant (_match_buy_order_pass x)
             (λ s, wf_nse s.2 ∧ nse_step e s.2)
             (λ s, wf_nse s.2 ∧ nse_step e s.2)).
    + intros s s' [Hs1 Hs2] Hp.
      destruct (nse_buy_pass_wf x s s' Hs1) as [? ?];
        [by eapply nse_free_step|by right|].
      split; [done|by eapply nse_step_trans].
    + intros s s' [Hs1 Hs2] Hp.
      destruct (nse_buy_pass_wf x s s' Hs1) as [? ?];
        [by eapply nse_free_step|by left|].
      split; [done|by eapply nse_step_trans].
    + split; [done|apply nse_step_refl].
  - apply (while_loop_invariant (_match_sell_order_pass x)
             (λ s, wf_nse s.2 ∧ nse_step e s.2)
             (λ s, wf_nse s.2 ∧ nse_step e s.2)).
    + intros s s' [Hs1 Hs2] Hp.
      destruct (nse_sell_pass_wf x s s' Hs1) as [? ?];
        [by eapply nse_free_step|by right|].
      split; [done|by eapply nse_step_trans].
    + intros s s' [Hs1 Hs2] Hp.
      destruct (nse_sell_pass_wf x s s' Hs1) as [? ?];
        [by eapply nse_free_step|by left|].
      split; [done|by eapply nse_step_trans].
    + split; [done|apply nse_step_refl].
Qed.

End nse_passes.

Section nse_match_order.

Import NSEMatchingEngine.

(** The fields that the invariant reads. *)
Lemma wf_nse_same e e' :
  wf_nse e →
  objs e' = objs e → bids e' = bids e → asks e' = asks e →
  pending_stop_orders e' = pending_stop_orders e →
  auction_orders e' = auction_orders e →
  async_cancel e' = async_cancel e →
  wf_nse e' ∧ nse_step e e'.
Proof.
  intros [Hwf Hpend Hauc Hnd Hdisc] Ho Hb Ha Hp Hau Has.
  split.
  - constructor; rewrite ?Ho, ?Hb, ?Ha, ?Hp, ?Hau; done.
  - unfold nse_step. simpl. rewrite Ho, Hb, Ha, Hp, Hau, Has. done.
Qed.

Lemma after_breaker_wf tr e :
  wf_nse e → wf_nse (after_breaker tr e) ∧ nse_step e (after_breaker tr e).
Proof.
  intros Hwf. unfold after_breaker, _check_circuit_breaker.
  destruct (negb _); [by apply wf_nse_same|].
  destruct (Qle_bool _ _); by apply wf_nse_same.
Qed.

Lemma activate_stop_id o : Order.order_id (activate_stop o) = Order.order_id o.
Proof. unfold activate_stop. by case_bool_decide. Qed.

Lemma activate_stop_disclosed o : disclosed_ok (activate_stop o).
Proof. unfold activate_stop, disclosed_ok. by case_bool_decide. Qed.

(** An object that the engine does not hold is updated in place. *)
Lemma wf_nse_update_free e x f :
  wf_nse e → nse_free e x →
  (∀ o, Order.order_id (f o) = Order.order_id o) →
  (∀ o, disclosed_ok o → disclosed_ok (f o)) →
  wf_nse (set_objs (update f x (objs e)) e)
  ∧ nse_step e (set_objs (update f x (objs e)) e).
Proof.
  intros Hwfn (Hx & Hnh & Hnau) Hid Hdf.
  destruct (Hwfn) as [Hwf Hpend Hauc Hnd Hdisc]. simpl in Hnh.
  assert (Hres : ∀ b a, rests b a → ¬ rests b x →
                        deref (update f x (objs e)) a = deref (objs e) a).
  { intros b a Ha Hnx. apply deref_update_ne. by intros ->. }
  apply wf_nse_store; simpl; try done.
  - apply length_update.
  - by apply ids_update.
  - constructor; try apply Hwf.
    + apply (wf_side_store (objs e)); [apply Hwf|by rewrite length_update|].
      intros a Ha. rewrite (Hres (bids e)); [done|done|tauto].
    + apply (wf_side_store (objs e)); [apply Hwf|by rewrite length_update|].
      intros a Ha. rewrite (Hres (asks e)); [done|done|tauto].
    + intros a Ha. rewrite (Hres (bids e)); [|done|tauto].
      by apply (wfb_bids_live _ _ _ Hwf).
    + intros a Ha. rewrite (Hres (asks e)); [|done|tauto].
      by apply (wfb_asks_live _ _ _ Hwf).
    + rewrite ids_update by done. apply Hwf.
  - intros y Hy. rewrite deref_update_ne.
    + destruct Hy as [[k Hk]%elem_of_pending_values|Hy].
      * by destruct (Hpend _ _ Hk) as (_ & _ & _ & _ & ?).
      * by destruct (Hauc _ Hy) as (_ & _ & _ & _ & ?).
    + intros ->. destruct Hy as [Hy|Hy]; tauto.
  - intros y. rewrite deref_update. case_bool_decide; [|done].
    by apply Hdf.
Qed.

(** The first loop of [_check_pending_stop_orders]: what is left
    pending was pending, and the key of a triggered order is not left. *)
Lemma split_triggered_spec e :
  (∀ ka, ka ∈ (split_triggered e).2 → ka ∈ pending_stop_orders e)
  ∧ (∀ a, a ∈ (split_triggered e).1 →
          ∃ k, (k, a) ∈ pending_stop_orders e
               ∧ k ∉ ((split_triggered e).2).*1).
Proof.
  unfold split_triggered.
  set (step := λ (acc : list nat * list (string * nat)) (kv : string * nat),
                 if _is_stop_triggered kv.2 e
                 then (acc.1 ++ [kv.2], dict_del kv.1 acc.2) else acc).
  assert (H : ∀ l acc,
    (∀ kv, kv ∈ l → kv ∈ pending_stop_orders e) →
    (∀ ka, ka ∈ acc.2 → ka ∈ pending_stop_orders e) →
    (∀ a, a ∈ acc.1 →
          ∃ k, (k, a) ∈ pending_stop_orders e ∧ k ∉ (acc.2).*1) →
    (∀ ka, ka ∈ (foldl step acc l).2 → ka ∈ pending_stop_orders e)
    ∧ (∀ a, a ∈ (foldl step acc l).1 →
            ∃ k, (k, a) ∈ pending_stop_orders e
                 ∧ k ∉ ((foldl step acc l).2).*1)).
  { induction l as [|[k0 a0] l IH]; intros acc Hl H2 H1; [done|]. simpl.
    apply IH.
    - intros kv' Hkv'. apply Hl. by right.
    - unfold step. destruct (_is_stop_triggered _ _); [|done]. simpl.
      intros [k a] [Hka _]%elem_of_dict_del. by apply H2.
    - unfold step. destruct (_is_stop_triggered _ _); [|done]. simpl.
      intros a [Ha| ->%list_elem_of_singleton]%elem_of_app.
      + destruct (H1 a Ha) as (k & Hk & Hnk). exists k. split; [done|].
        intros [a' [Hin _]%elem_of_dict_del]%elem_of_pending_keys.
        apply Hnk, elem_of_pending_keys. by exists a'.
      + exists k0. split; [apply Hl; by left|].
        intros [a' [_ Hne]%elem_of_dict_del]%elem_of_pending_keys. done. }
  apply H; simpl; [done|done|]. by intros a ?%elem_of_nil.
Qed.

(** The second loop of [_check_pending_stop_orders], for a function
    that matches an order the engine does not hold and keeps the state
    well formed. *)
Lemma process_triggered_wf
    (f : nat → t → option (list Trade.t * t)) triggered e e4 :
  (∀ o e1 r, wf_nse e1 → nse_free e1 o → f o e1 = Some r →
             wf_nse r.2 ∧ nse_step e1 r.2) →
  wf_nse e → (∀ y, y ∈ triggered → nse_free e y) →
  process_triggered f triggered e = Some e4 →
  wf_nse e4 ∧ nse_step e e4.
Proof.
  intros Hf. revert e.
  induction triggered as [|o l IH]; intros e Hwf Hfree Hp; simpl in Hp.
  { injection Hp as <-. split; [done|apply nse_step_refl]. }
  destruct (wf_nse_update_free e o activate_stop Hwf) as [Hwf1 Hs1];
    [apply Hfree; by left|apply activate_stop_id
    |intros; apply activate_stop_disclosed|].
  destruct (f o _) as [[tr e2]|] eqn:E; [|done].
  destruct (Hf _ _ _ Hwf1 (nse_free_step _ _ _ Hs1 (Hfree o ltac:(by left))) E)
    as [Hwf2 Hs2]. simpl in Hwf2, Hs2.
  destruct (IH e2 Hwf2) as [Hwf4 Hs4]; [|done|].
  - intros y Hy. eapply nse_free_step; [exact Hs2|].
    eapply nse_free_step; [exact Hs1|]. apply Hfree. by right.
  - split; [done|].
    eapply nse_step_trans; [exact Hs1|]. by eapply nse_step_trans.
Qed.

(** [_check_pending_stop_orders] *)
Lemma check_pending_stop_orders_wf
    (f : nat → t → option (list Trade.t * t)) e e4 :
  (∀ o e1 r, wf_nse e1 → nse_free e1 o → f o e1 = Some r →
             wf_nse r.2 ∧ nse_step e1 r.2) →
  wf_nse e →
  _check_pending_stop_orders_with f e = Some e4 →
  wf_nse e4 ∧ nse_step e e4.
Proof.
  intros Hf Hwfn. unfold _check_pending_stop_orders_with.
  destruct (split_triggered_spec e) as [Hsub Htrig].
  destruct (split_triggered e) as [triggered pending]. simpl in *.
  destruct (Hwfn) as [Hwf Hpend Hauc Hnd Hdisc].
  destruct (wf_nse_store e (set_pending_stop_orders pending e)) as [Hwf1 Hs1];
    simpl; try done.
  { intros y [[k Hk]%elem_of_pending_values|Hy].
    - by destruct (Hpend _ _ (Hsub _ Hk)) as (_ & _ & _ & _ & ?).
    - by destruct (Hauc _ Hy) as (_ & _ & _ & _ & ?). }
  intros Hp.
  destruct (process_triggered_wf f triggered _ e4 Hf Hwf1) as [Hwf4 Hs4];
    [|done|].
  - intros y Hy. destruct (Htrig y Hy) as (k & Hk & Hnk).
    destruct (Hpend _ _ Hk) as (Hlt & -> & Hnb & Hna & _).
    split; [done|]. split; simpl.
    + intros [?|[?|[k' Hk']%elem_of_pending_values]]; [done|done|].
      destruct (Hpend _ _ (Hsub _ Hk')) as (_ & -> & _).
      apply Hnk, elem_of_pending_keys. by exists y.
    + intros Hy'. destruct (Hauc _ Hy') as (_ & _ & _ & Hnp & _).
      apply Hnp, elem_of_pending_values. by eexists.
  - split; [done|]. by eapply nse_step_trans.
Qed.

(** [_match_order] for an order that the engine does not hold, with
    any fuel. *)
Lemma nse_match_order_wf fuel order e r :
  wf_nse e → nse_free e order →
  _match_order fuel order e = Some r →
  wf_nse r.2 ∧ nse_step e r.2.
Proof.
  revert order e r. induction fuel as [|fuel IH]; intros order e r Hwfn Hfree;
    [done|].
  destruct r as [trades e']. intros Hm.
  destruct (match_order_unfold _ _ _ _ _ Hm) as (e1 & Hd & Hlast).
  destruct (nse_direct_match_wf _ _ _ _ Hwfn Hfree Hd) as [Hwf1 Hs1].
  simpl in Hwf1, Hs1.
  destruct (last trades) as [tr|].
  - destruct Hlast as (e4 & Hc & ->).
    destruct (after_breaker_wf tr e1 Hwf1) as [Hwf3 Hs3].
    destruct (check_pending_stop_orders_wf _ _ _ IH Hwf3 Hc) as [Hwf4 Hs4].
    destruct (wf_nse_same e4
                (set_trades (trade_history e4 ++ trades)
                   (total_trades e4 + length trades)%nat e4) Hwf4)
      as [Hwf5 Hs5]; [done..|].
    split; [done|].
    eapply nse_step_trans; [exact Hs1|].
    eapply nse_step_trans; [exact Hs3|]. by eapply nse_step_trans.
  - subst e'.
    destruct (wf_nse_same e1
                (set_trades (trade_history e1 ++ trades)
                   (total_trades e1 + length trades)%nat e1) Hwf1)
      as [Hwf5 Hs5]; [done..|].
    split; [done|]. by eapply nse_step_trans.
Qed.

End nse_match_order.

Section nse_process_order.

Import NSEMatchingEngine.

Lemma elem_of_dict_set {A} (k k' : string) (v v' : A) d :
  (k', v') ∈ dict_set k v d → (k', v') = (k, v) ∨ (k', v') ∈ d.
Proof.
  induction d as [|[k0 v0] d IH]; simpl.
  - intros ->%list_elem_of_singleton. by left.
  - case_bool_decide.
    + intros [->|Hin]%elem_of_cons; [by left|right; by right].
    + intros [->|Hin]%elem_of_cons; [right; by left|].
      destruct (IH Hin); [by left|right; by right].
Qed.

(** The order [x], which the engine does not hold, is added to the
    book. *)
Lemma nse_add_to_order_book_wf x e :
  wf_nse e → nse_free e x →
  0 < Order.remaining_quantity (deref (objs e) x) →
  wf_nse (_add_to_order_book x e)
  ∧ async_cancel (_add_to_order_book x e) = async_cancel e.
Proof.
  intros Hwfn (Hx & Hnh & Hnau) Hrem.
  destruct (Hwfn) as [Hwf Hpend Hauc Hnd Hdisc]. simpl in Hnh.
  assert (Hnb : ¬ rests (bids e) x) by tauto.
  assert (Hna : ¬ rests (asks e) x) by tauto.
  assert (Hnp : x ∉ (pending_stop_orders e).*2) by tauto.
  unfold _add_to_order_book.
  destruct (Order.side (deref (objs e) x)) eqn:Hside.
  - destruct (add_order_fields (objs e) x (bids e)) as (Hs & _).
    pose proof (λ y, rests_add_order (objs e) x (bids e) y) as Hr.
    assert (Hwfb : wf_side (objs e)
                     (OrderBookSide.add_order (objs e) x (bids e)).2).
    { apply add_order_wf; [apply Hwf|done|].
      apply order_map_fresh; [apply Hwf|apply Hwf|done|done]. }
    assert (Hlb : live_side (objs e)
                    (OrderBookSide.add_order (objs e) x (bids e)).2).
    { apply live_side_add_order; [apply Hwf|done|].
      by rewrite (wfb_bids_side _ _ _ Hwf). }
    destruct (OrderBookSide.add_order (objs e) x (bids e)) as [r b'].
    simpl in *.
    split; [|done]. constructor; simpl; try done.
    + constructor; try apply Hwf; [done|done|].
      rewrite Hs. apply Hwf.
    + intros k a Hk. destruct (Hpend _ _ Hk) as (? & ? & ? & ? & ?).
      split; [done|]. split; [done|]. split; [|done].
      rewrite Hr. intros [?| ->]; [done|].
      apply Hnp, elem_of_pending_values. by exists k.
    + intros a Ha. destruct (Hauc _ Ha) as (? & ? & ? & ? & ?).
      split; [done|]. split; [|done].
      rewrite Hr. intros [?| ->]; done.
  - destruct (add_order_fields (objs e) x (asks e)) as (Hs & _).
    pose proof (λ y, rests_add_order (objs e) x (asks e) y) as Hr.
    assert (Hwfb : wf_side (objs e)
                     (OrderBookSide.add_order (objs e) x (asks e)).2).
    { apply add_order_wf; [apply Hwf|done|].
      apply order_map_fresh; [apply Hwf|apply Hwf|done|done]. }
    assert (Hlb : live_side (objs e)
                    (OrderBookSide.add_order (objs e) x (asks e)).2).
    { apply live_side_add_order; [apply Hwf|done|].
      by rewrite (wfb_asks_side _ _ _ Hwf). }
    destruct (OrderBookSide.add_order (objs e) x (asks e)) as [r b'].
    simpl in *.
    split; [|done]. constructor; simpl; try done.
    + constructor; try apply Hwf; [done|done|].
      rewrite Hs. apply Hwf.
    + intros k a Hk. destruct (Hpend _ _ Hk) as (? & ? & ? & ? & ?).
      split; [done|]. split; [done|]. split; [done|]. split; [|done].
      rewrite Hr. intros [?| ->]; [done|].
      apply Hnp, elem_of_pending_values. by exists k.
    + intros a Ha. destruct (Hauc _ Ha) as (? & ? & ? & ? & ?).
      split; [done|]. split; [done|]. split; [|done].
      rewrite Hr. intros [?| ->]; done.
Qed.

Lemma nse_free_remaining e e' x :
  nse_step e e' → nse_free e x → nse_free e' x.
Proof. apply nse_free_step. Qed.

Lemma nse_handle_stop_loss_order_wf fuel x e r :
  wf_nse e → nse_free e x →
  0 < Order.remaining_quantity (deref (objs e) x) →
  _handle_stop_loss_order fuel x e = Some r →
  wf_nse r.2 ∧ async_cancel r.2 = async_cancel e.
Proof.
  intros Hwfn Hfree Hrem. unfold _handle_stop_loss_order.
  destruct (_is_stop_triggered x e).
  - destruct (wf_nse_update_free e x activate_stop Hwfn Hfree)
      as [Hwf1 Hs1];
      [apply activate_stop_id|intros; apply activate_stop_disclosed|].
    intros Hm.
    destruct (nse_match_order_wf _ _ _ _ Hwf1
                (nse_free_step _ _ _ Hs1 Hfree) Hm) as [Hwf2 Hs2].
    split; [done|].
    destruct Hs1 as (_ & _ & _ & _ & Ha1).
    destruct Hs2 as (_ & _ & _ & _ & Ha2). congruence.
  - intros [= <-]. simpl. split; [|done].
    destruct (Hwfn) as [Hwf Hpend Hauc Hnd Hdisc].
    destruct Hfree as (Hx & Hnh & Hnau). simpl in Hnh.
    constructor; simpl; try done.
    + intros k a [[= -> ->]|Hk]%elem_of_dict_set; [|by apply Hpend].
      split; [done|]. split; [done|]. split; [tauto|]. split; [tauto|done].
    + intros a Ha. destruct (Hauc _ Ha) as (? & ? & ? & Hnp & ?).
      split; [done|]. split; [done|]. split; [done|]. split; [|done].
      intros [k [[= -> ->]|Hk]%elem_of_dict_set]%elem_of_pending_values;
        [done|]. apply Hnp, elem_of_pending_values. by exists k.
Qed.

Lemma nse_handle_continuous_order_wf fuel x e r :
  wf_nse e → nse_free e x →
  0 < Order.remaining_quantity (deref (objs e) x) →
  _handle_continuous_order fuel x e = Some r →
  wf_nse r.2 ∧ async_cancel r.2 = async_cancel e.
Proof.
  intros Hwfn Hfree Hrem. unfold _handle_continuous_order.
  case_bool_decide; [by apply nse_handle_stop_loss_order_wf|].
  case_bool_decide.
  { unfold _handle_fok_order. destruct (_ <=? _).
    - intros Hm.
      destruct (nse_match_order_wf _ _ _ _ Hwfn Hfree Hm) as [Hwf2 Hs2].
      split; [done|]. by destruct Hs2 as (_ & _ & _ & _ & ?).
    - by intros [= <-]. }
  destruct (_match_order fuel x e) as [[trades e1]|] eqn:Hm; [|done].
  destruct (nse_match_order_wf _ _ _ _ Hwfn Hfree Hm) as [Hwf1 Hs1].
  simpl in Hwf1, Hs1.
  pose proof (nse_free_step _ _ _ Hs1 Hfree) as Hfree1.
  assert (Has : async_cancel e1 = async_cancel e)
    by by destruct Hs1 as (_ & _ & _ & _ & ?).
  intros [= <-]. simpl.
  destruct (0 <? _) eqn:Hr; [|done]. apply Z.ltb_lt in Hr.
  unfold _add_iceberg_to_book.
  repeat case_bool_decide; try done;
    destruct (nse_add_to_order_book_wf x e1 Hwf1 Hfree1 Hr) as [? ?];
    (split; [done|congruence]).
Qed.

(** [process_order] for an order of the store that the engine does not
    hold and of which something remains to fill. *)
Lemma nse_process_order_wf fuel now x e r :
  wf_nse e → nse_free e x →
  0 < Order.remaining_quantity (deref (objs e) x) →
  process_order fuel now x e = Some r →
  wf_nse r.2 ∧ async_cancel r.2 = async_cancel e.
Proof.
  intros Hwfn Hfree Hrem. unfold process_order.
  set (e0 := set_orders _ _ e).
  destruct (wf_nse_same e e0 Hwfn) as [Hwf0 Hs0]; [done..|].
  pose proof (nse_free_step _ _ _ Hs0 Hfree) as Hfree0.
  assert (Has0 : async_cancel e0 = async_cancel e) by done.
  destruct (is_halted e0); [by intros [= <-]|].
  destruct (Order.is_expired _ _); [by intros [= <-]|].
  set (limit_kind := bool_decide _).
  set (e1 := if limit_kind then _ else e0).
  assert (H1 : wf_nse e1 ∧ nse_step e0 e1
               ∧ 0 < Order.remaining_quantity (deref (objs e1) x)).
  { subst e1. destruct limit_kind.
    - destruct (wf_nse_update_free e0 x
                  (λ o, Order.set_price
                          (_validate_tick_size (Order.price o) e0) o)
                  Hwf0 Hfree0) as [? ?]; [done|done|].
      split; [done|]. split; [done|]. simpl.
      rewrite deref_update_eq by apply Hfree. done.
    - split; [done|]. split; [apply nse_step_refl|done]. }
  destruct H1 as (Hwf1 & Hs1 & Hrem1).
  pose proof (nse_free_step _ _ _ Hs1 Hfree0) as Hfree1.
  assert (Has1 : async_cancel e1 = async_cancel e).
  { destruct Hs1 as (_ & _ & _ & _ & ?). congruence. }
  destruct (limit_kind && _); [by intros [= <-]|].
  case_bool_decide.
  - intros [= <-]. simpl. split; [|done].
    destruct (Hwf1) as [Hwf Hpend Hauc Hnd Hdisc].
    destruct Hfree1 as (Hx & Hnh & Hnau). simpl in Hnh.
    constructor; simpl; try done.
    + intros a [Ha| ->%list_elem_of_singleton]%elem_of_app;
        [by apply Hauc|].
      split; [done|]. split; [tauto|]. split; [tauto|]. split; [tauto|done].
    + apply NoDup_app. split; [done|]. split; [|apply NoDup_singleton].
      by intros a Ha ->%list_elem_of_singleton.
  - intros Hc.
    destruct (nse_handle_continuous_order_wf _ _ _ _ Hwf1 Hfree1 Hrem1 Hc)
      as [? ?].
    split; [done|congruence].
Qed.

Lemma new_order_remaining o : new_order o → 0 < Order.remaining_quantity o.
Proof.
  intros [Hp Hf]. unfold Order.post_init in Hp.
  apply andb_true_iff in Hp as [Hp _].
  apply andb_true_iff in Hp as [Hp _].
  apply andb_true_iff in Hp as [Hp _].
  apply negb_true_iff, Z.leb_gt in Hp.
  unfold Order.remaining_quantity. lia.
Qed.

Lemma new_order_disclosed o : new_order o → disclosed_ok o.
Proof.
  intros [Hp _] Hty d Hd. unfold Order.post_init in Hp.
  apply andb_true_iff in Hp as [_ Hp].
  rewrite bool_decide_eq_true_2, Hd in Hp by done.
  apply negb_true_iff, Z.leb_gt in Hp. lia.
Qed.

(** [submit] of a new order with a new id. *)
Lemma nse_submit_wf fuel now o e r :
  wf_nse e → new_order o →
  Order.order_id o ∉ Order.order_id <$> objs e →
  submit fuel now o e = Some r →
  wf_nse r.2 ∧ async_cancel r.2 = async_cancel e.
Proof.
  intros Hwfn Hnew Hfresh. unfold submit, alloc.
  destruct (Hwfn) as [Hwf Hpend Hauc Hnd Hdisc].
  set (e1 := set_objs (objs e ++ [o]) e).
  assert (Hwf1 : wf_nse e1).
  { constructor; simpl; try done.
    - by apply wf_book_alloc.
    - intros k a Hk. destruct (Hpend _ _ Hk) as (? & ? & ? & ? & ?).
      rewrite length_app, deref_alloc_old by done. simpl.
      split; [lia|done].
    - intros a Ha. destruct (Hauc _ Ha) as (? & ? & ? & ? & ?).
      rewrite length_app, deref_alloc_old by done. simpl.
      split; [lia|done].
    - intros a. destruct (decide (a < length (objs e))%nat).
      + by rewrite deref_alloc_old.
      + destruct (decide (a = length (objs e))) as [->|].
        * rewrite deref_alloc_new. by apply new_order_disclosed.
        * rewrite deref_ge; [done|]. rewrite length_app. simpl. lia. }
  assert (Hfree1 : nse_free e1 (length (objs e))).
  { split; [simpl; rewrite length_app; simpl; lia|]. split; simpl.
    - intros [Hr|[Hr|[k Hk]%elem_of_pending_values]].
      + apply (rests_lt _ _ _ (wfb_bids _ _ _ Hwf)) in Hr. lia.
      + apply (rests_lt _ _ _ (wfb_asks _ _ _ Hwf)) in Hr. lia.
      + destruct (Hpend _ _ Hk) as (? & _). lia.
    - intros Ha. destruct (Hauc _ Ha) as (? & _). lia. }
  intros Hp.
  apply (nse_process_order_wf fuel now (length (objs e)) e1 r Hwf1 Hfree1);
    [|done].
  simpl. rewrite deref_alloc_new. by apply new_order_remaining.
Qed.

End nse_process_order.

Section nse_auction.

Import NSEMatchingEngine.

Lemma add_to_order_book_set_auction_orders x l e :
  _add_to_order_book x (set_auction_orders l e)
  = set_auction_orders l (_add_to_order_book x e).
Proof. unfold _add_to_order_book. simpl. by destruct (Order.side _). Qed.

Lemma add_to_order_book_fields x e :
  objs (_add_to_order_book x e) = objs e
  ∧ pending_stop_orders (_add_to_order_book x e) = pending_stop_orders e
  ∧ auction_orders (_add_to_order_book x e) = auction_orders e
  ∧ async_cancel (_add_to_order_book x e) = async_cancel e
  ∧ (∀ y, rests (bids (_add_to_order_book x e)) y
          → rests (bids e) y ∨ y = x)
  ∧ (∀ y, rests (asks (_add_to_order_book x e)) y
          → rests (asks e) y ∨ y = x).
Proof.
  unfold _add_to_order_book.
  destruct (Order.side _); simpl; repeat split; try done; intros y Hy;
    try (by left); by apply rests_add_order in Hy.
Qed.

(** The loop that moves the orders of the auction to the book. *)
Lemma add_auction_orders_fold_wf (u : bool) l e :
  wf_nse (set_auction_orders [] e) → auction_ready u e l →
  let e' :=
    foldl
      (λ e' order,
         let o := deref (objs e') order in
         if (negb u || (0 <? Order.remaining_quantity o))
            && bool_decide (Order.order_type o = LIMIT)
         then _add_to_order_book order e' else e')
      e l in
  wf_nse (set_auction_orders [] e')
  ∧ async_cancel e' = async_cancel e
  ∧ auction_orders e' = auction_orders e.
Proof.
  revert e. induction l as [|x l IH]; intros e Hwf [Hnd Hl]; simpl; [done|].
  apply NoDup_cons in Hnd as [Hx Hnd].
  destruct (Hl x) as (Hlt & Hnb & Hna & Hnp & Hrem); [by left|].
  destruct (_ && _) eqn:Hc.
  - apply andb_true_iff in Hc as [Hc _].
    assert (Hr : 0 < Order.remaining_quantity (deref (objs e) x)).
    { apply orb_true_iff in Hc as [Hu|Hr%Z.ltb_lt]; [|done].
      apply Hrem. by destruct u. }
    destruct (nse_add_to_order_book_wf x (set_auction_orders [] e) Hwf)
      as [Hwf' Has'].
    { split; [done|]. split; simpl; [tauto|]. apply not_elem_of_nil. }
    { done. }
    rewrite add_to_order_book_set_auction_orders in Hwf', Has'.
    destruct (add_to_order_book_fields x e)
      as (Ho & Hp & Hau & Hasy & Hrb & Hra).
    destruct (IH (_add_to_order_book x e) Hwf') as (? & ? & ?).
    + split; [done|]. intros a Ha.
      destruct (Hl a) as (? & ? & ? & ? & ?); [by right|].
      rewrite Ho, Hp. split; [done|].
      assert (a ≠ x) by (by intros ->).
      split; [by intros [?|?]%Hrb|]. split; [by intros [?|?]%Hra|done].
    + split; [done|]. rewrite <- Hasy, <- Hau. by split.
  - apply IH; [done|]. split; [done|]. intros a Ha. apply Hl. by right.
Qed.

Lemma add_auction_orders_wf (u : bool) e :
  wf_nse (set_auction_orders [] e) → auction_ready u e (auction_orders e) →
  wf_nse (set_auction_orders [] (add_auction_orders u e))
  ∧ async_cancel (add_auction_orders u e) = async_cancel e.
Proof.
  intros Hwf Hr.
  destruct (add_auction_orders_fold_wf u _ e Hwf Hr) as (? & ? & _).
  done.
Qed.

Lemma wf_nse_no_auction e : wf_nse e → wf_nse (set_auction_orders [] e).
Proof.
  intros [Hwf Hpend Hauc Hnd Hdisc]. constructor; simpl; try done.
  - by intros a ?%elem_of_nil.
  - constructor.
Qed.

Lemma wf_nse_auction_ready u e : wf_nse e → auction_ready u e (auction_orders e).
Proof.
  intros [Hwf Hpend Hauc Hnd Hdisc]. split; [done|].
  intros a Ha. destruct (Hauc _ Ha) as (? & ? & ? & ? & ?). done.
Qed.

(** A pass of the loop of the auction keeps its invariant. *)
Lemma auction_pass_inv p l async s s' :
  auction_inv l async s →
  auction_pass p s = inl s' ∨ auction_pass p s = inr s' →
  auction_inv l async s'.
Proof.
  destruct s as [[[buyers sellers] trades] e].
  intros (Hwf & Hready & Hsub & Hau & Has) Hpass.
  cbn [fst snd] in *. unfold auction_pass in Hpass.
  destruct buyers as [|b buyers'], sellers as [|s0 sellers'];
    try (destruct Hpass as [Hpass|Hpass]; simplify_eq; done).
  set (buy := deref (objs e) b) in *. set (sell := deref (objs e) s0) in *.
  destruct (Order.remaining_quantity buy =? 0).
  { destruct Hpass as [Hpass|Hpass]; simplify_eq.
    split; [done|]. split; [done|]. split; [|done].
    intros a Ha. apply Hsub. simpl in *. set_solver. }
  destruct (Order.remaining_quantity sell =? 0).
  { destruct Hpass as [Hpass|Hpass]; simplify_eq.
    split; [done|]. split; [done|]. split; [|done].
    intros a Ha. apply Hsub. simpl in *. set_solver. }
  destruct Hpass as [Hpass|Hpass]; [done|]. injection Hpass as <-.
  set (q := Z.min _ _).
  change (update (Order.add_filled q) s0
            (update (Order.add_filled q) b (objs e)))
    with (fill_pair q b s0 (objs e)).
  set (h2 := fill_pair q b s0 (objs e)).
  pose proof (fills_only_fill_pair q b s0 (objs e)) as Hf. fold h2 in Hf.
  destruct Hready as [Hnd Hl].
  destruct (Hl b) as (Hbl & Hbb & Hba & Hbp & _);
    [apply Hsub; left; by left|].
  destruct (Hl s0) as (Hsl & Hsb & Hsa & Hsp & _);
    [apply Hsub; right; by left|].
  destruct (Hwf) as [Hwfb Hpend _ _ Hdisc]. simpl in Hwfb, Hpend, Hdisc.
  destruct (fill_other_side (objs e) (bids e) b s0 q) as [Hwfb2 Hlb2];
    [apply Hwfb|apply Hwfb|done|done|].
  destruct (fill_other_side (objs e) (asks e) b s0 q) as [Hwfa2 Hla2];
    [apply Hwfb|apply Hwfb|done|done|].
  fold h2 in Hwfb2, Hlb2, Hwfa2, Hla2.
  cbn [fst snd].
  set (e' := set_objs h2 _).
  destruct (wf_nse_store (set_auction_orders [] e)
              (set_auction_orders [] e') Hwf) as [Hwf' _];
    subst e'; simpl; try done.
  { by destruct Hf. }
  { by apply fills_only_ids. }
  { constructor; simpl;
      [exact Hwfb2|exact Hwfa2|exact Hlb2|exact Hla2|apply Hwfb|apply Hwfb
      |rewrite (fills_only_ids _ _ Hf); apply Hwfb]. }
  { intros y [Hy|Hy%elem_of_nil]; [|done].
    unfold h2. rewrite deref_fill_pair_other.
    - apply elem_of_pending_values in Hy as [k Hk].
      by destruct (Hpend _ _ Hk) as (_ & _ & _ & _ & ?).
    - by intros ->.
    - by intros ->. }
  { intros y. by eapply fills_only_disclosed. }
  split; [done|]. split; [|split; [|done]].
  - split; [done|]. intros a Ha. simpl.
    destruct (Hl a Ha) as (? & ? & ? & ? & ?).
    destruct Hf as [-> _]. done.
  - intros a Ha. apply Hsub. simpl in *.
    repeat case_match; set_solver.
Qed.

Lemma execute_auction_at_price_wf p e r :
  wf_nse e →
  _execute_auction_at_price p
    (orders_by_price (objs e) BUY (auction_orders e))
    (orders_by_price (objs e) SELL (auction_orders e)) e = Some r →
  wf_nse (set_auction_orders [] r.2)
  ∧ auction_ready true r.2 (auction_orders r.2)
  ∧ async_cancel r.2 = async_cancel e.
Proof.
  intros Hwf. unfold _execute_auction_at_price.
  set (buyers := sort_by_timestamp _ _). set (sellers := sort_by_timestamp _ _).
  destruct (while_loop _ _ _) as [[[[bs ss] trades] e']|] eqn:E; [|done].
  intros [= <-]. simpl.
  assert (Hinv : auction_inv (auction_orders e) (async_cancel e)
                   (bs, ss, trades, e')).
  { eapply (while_loop_invariant (auction_pass p)
              (auction_inv (auction_orders e) (async_cancel e))
              (auction_inv (auction_orders e) (async_cancel e)));
      [| | |exact E].
    - intros s s' Hs Hp. eapply auction_pass_inv; [done|by right].
    - intros s s' Hs Hp. eapply auction_pass_inv; [done|by left].
    - split; [by apply wf_nse_no_auction|].
      split; [by apply wf_nse_auction_ready|]. split; [|done].
      cbn [fst snd]. subst buyers sellers.
      intros a [Ha|Ha]; apply elem_of_sort_by_timestamp in Ha;
        apply elem_of_eligible in Ha as (q & os & Hq & Ha);
        by destruct (orders_by_price_spec _ _ _ _ _ _ Hq Ha). }
  destruct Hinv as (? & ? & _ & Hau & ?). cbn [fst snd] in *.
  by rewrite Hau.
Qed.

(** The fields that the proofs about the auction read. *)
Lemma auction_state_same u e e' :
  objs e' = objs e → bids e' = bids e → asks e' = asks e →
  pending_stop_orders e' = pending_stop_orders e →
  auction_orders e' = auction_orders e →
  async_cancel e' = async_cancel e →
  wf_nse (set_auction_orders [] e) →
  auction_ready u e (auction_orders e) →
  wf_nse (set_auction_orders [] e')
  ∧ auction_ready u e' (auction_orders e')
  ∧ async_cancel e' = async_cancel e.
Proof.
  intros Ho Hb Ha Hp Hau Has Hwf Hr.
  split; [|split; [|done]].
  - by destruct (wf_nse_same (set_auction_orders [] e)
                   (set_auction_orders [] e') Hwf).
  - unfold auction_ready. by rewrite Ho, Hb, Ha, Hp, Hau.
Qed.

Lemma update_price_bands_fields e :
  objs (_update_price_bands e) = objs e
  ∧ bids (_update_price_bands e) = bids e
  ∧ asks (_update_price_bands e) = asks e
  ∧ pending_stop_orders (_update_price_bands e) = pending_stop_orders e
  ∧ auction_orders (_update_price_bands e) = auction_orders e
  ∧ async_cancel (_update_price_bands e) = async_cancel e.
Proof.
  unfold _update_price_bands. destruct (reference_price e); [|done].
  by destruct (negb _).
Qed.

(** [execute_call_auction] *)
Lemma nse_execute_call_auction_wf e r :
  wf_nse e → execute_call_auction e = Some r →
  wf_nse r.2 ∧ async_cancel r.2 = async_cancel e.
Proof.
  intros Hwf. unfold execute_call_auction.
  destruct (auction_orders e) as [|a0 l0] eqn:El; [by intros [= <-]|].
  rewrite <- El.
  destruct (_find_equilibrium_price _ _ _).1 as [p|].
  - destruct (_execute_auction_at_price _ _ _ _) as [[trades e1]|] eqn:E;
      [|done].
    destruct (execute_auction_at_price_wf _ _ _ Hwf E) as (Hwf1 & Hr1 & Has1).
    cbn [fst snd] in *.
    set (e2 := if bool_decide (trading_phase e1 = PRE_OPEN) then _ else e1).
    assert (H2 : wf_nse (set_auction_orders [] e2)
                 ∧ auction_ready true e2 (auction_orders e2)
                 ∧ async_cancel e2 = async_cancel e1).
    { subst e2. case_bool_decide; [|done].
      destruct (reference_price _).
      - by apply (auction_state_same true e1).
      - destruct (update_price_bands_fields
                    (set_reference (Some p)
                       (upper_band (set_last_traded_price (Some p)
                          (set_opening_price (Some p) e1)))
                       (lower_band (set_last_traded_price (Some p)
                          (set_opening_price (Some p) e1)))
                       (set_last_traded_price (Some p)
                          (set_opening_price (Some p) e1))))
          as (? & ? & ? & ? & ? & ?).
        by apply (auction_state_same true e1). }
    destruct H2 as (Hwf2 & Hr2 & Has2).
    destruct (add_auction_orders_wf true e2 Hwf2 Hr2) as [Hwf3 Has3].
    intros [= <-]. cbn [snd].
    destruct (wf_nse_same _
                (set_halt (is_halted (add_auction_orders true e2)) CONTINUOUS
                   (circuit_breaker_hits (add_auction_orders true e2))
                   (set_auction_orders [] (add_auction_orders true e2)))
                Hwf3) as [? ?]; [done..|].
    split; [done|]. simpl. congruence.
  - intros [= <-]. cbn [snd].
    destruct (add_auction_orders_wf false e) as [? ?];
      [by apply wf_nse_no_auction|by apply wf_nse_auction_ready|].
    done.
Qed.


End nse_auction.

Section nse_setters.

Import NSEMatchingEngine.

Lemma wf_nse_new sym tick cb band async :
  wf_nse (new sym tick cb band async).
Proof.
  constructor; simpl.
  - constructor; simpl;
      [apply wf_side_new|apply wf_side_new| | |done|done|constructor].
    + intros a Ha. by destruct (rests_new _ _ Ha).
    + intros a Ha. by destruct (rests_new _ _ Ha).
  - by intros k a ?%elem_of_nil.
  - by intros a ?%elem_of_nil.
  - constructor.
  - intros a. unfold deref. simpl. by intros [=].
Qed.

Lemma nse_set_reference_price_wf p e :
  wf_nse e →
  wf_nse (set_reference_price p e)
  ∧ async_cancel (set_reference_price p e) = async_cancel e.
Proof.
  intros Hwf. unfold set_reference_price.
  destruct (update_price_bands_fields
              (set_reference (Some p) (upper_band e) (lower_band e) e))
    as (? & ? & ? & ? & ? & ?).
  by destruct (wf_nse_same e
                 (_update_price_bands
                    (set_reference (Some p) (upper_band e) (lower_band e) e))
                 Hwf).
Qed.

Lemma nse_resume_trading_wf e :
  wf_nse e →
  wf_nse (resume_trading e)
  ∧ async_cancel (resume_trading e) = async_cancel e.
Proof. intros Hwf. by destruct (wf_nse_same e (resume_trading e) Hwf). Qed.

Lemma nse_set_trading_phase_wf ph e :
  wf_nse e →
  wf_nse (set_trading_phase ph e)
  ∧ async_cancel (set_trading_phase ph e) = async_cancel e.
Proof.
  intros Hwf. unfold set_trading_phase. case_bool_decide.
  - split; [|done]. apply wf_nse_no_auction.
    by destruct (wf_nse_same e
                   (set_halt (is_halted e) ph (circuit_breaker_hits e) e)
                   Hwf).
  - by destruct (wf_nse_same e
                   (set_halt (is_halted e) ph (circuit_breaker_hits e) e)
                   Hwf).
Qed.

End nse_setters.

(** * The sharded engine and the base engine produce the same trades *)




(** * Cancellation *)

Section cancel.

Lemma cancel_spec e id :
  wf_engine e →
  wf_engine (cancel id e).2
  ∧ ((cancel id e).1 = true ↔ holds_id e id)
  ∧ (∀ a, held (cancel id e).2 a
          ↔ held e a ∧ Order.order_id (deref (store e) a) ≠ id)
  ∧ store (cancel id e).2 = store e.
Proof.
  destruct e as [e|e|e]; simpl.
  - intros Hwf. pose proof (base_cancel_spec id e Hwf) as H.
    by destruct (BaseMatchingEngine.cancel_order id e).
  - intros Hwf. pose proof (sharded_cancel_spec id e Hwf) as H.
    by destruct (ShardedMatchingEngine.cancel_order id e).
  - intros [Hwf Hsync].
    pose proof (nse_cancel_sync_spec id e Hwf) as H.
    unfold NSEMatchingEngine.cancel_order. rewrite Hsync.
    destruct (NSEMatchingEngine.cancel_sync id e) as [r e']. simpl in *.
    destruct H as (? & ? & ? & ? & ?). split; [split; [done|congruence]|done].
Qed.

(** What an engine holds is in the store and has something left to
    fill. *)
Lemma wf_engine_held e a :
  wf_engine e → held e a →
  (a < length (store e))%nat
  ∧ 0 < Order.remaining_quantity (deref (store e) a).
Proof.
  destruct e as [e|e|e]; simpl.
  - intros Hwf [Ha|Ha].
    + split; [by eapply rests_lt; [apply (wfb_bids _ _ _ Hwf)|]|].
      by destruct (wfb_bids_live _ _ _ Hwf _ Ha).
    + split; [by eapply rests_lt; [apply (wfb_asks _ _ _ Hwf)|]|].
      by destruct (wfb_asks_live _ _ _ Hwf _ Ha).
  - intros Hwf [Ha|Ha].
    + split; [by eapply shard_rests_lt; [apply (wfse_bids _ Hwf)|]|].
      by eapply shard_rests_live; [apply (wfse_bids _ Hwf)|].
    + split; [by eapply shard_rests_lt; [apply (wfse_asks _ Hwf)|]|].
      by eapply shard_rests_live; [apply (wfse_asks _ Hwf)|].
  - intros [[Hwf Hpend] _] [Ha|[Ha|Ha]].
    + split; [by eapply rests_lt; [apply (wfb_bids _ _ _ Hwf)|]|].
      by destruct (wfb_bids_live _ _ _ Hwf _ Ha).
    + split; [by eapply rests_lt; [apply (wfb_asks _ _ _ Hwf)|]|].
      by destruct (wfb_asks_live _ _ _ Hwf _ Ha).
    + apply elem_of_pending_values in Ha as [k Hk].
      by destruct (Hpend _ _ Hk) as (? & _ & _ & _ & ?).
Qed.

Lemma wf_engine_ids e : wf_engine e → NoDup (Order.order_id <$> store e).
Proof.
  destruct e as [e|e|e]; simpl.
  - apply wfb_ids.
  - apply wfse_ids.
  - intros [[Hwf _] _]. apply (wfb_ids _ _ _ Hwf).
Qed.

(** Every state that an engine reaches is well formed. *)
Lemma reachable_wf e : reachable e → wf_engine e.
Proof.
  induction 1 as [|fuel o e trades e' _ IH Hid Hsub
                  |n|fuel o e trades e' _ IH Hid Hsub
                  |sym tick cb band|fuel now o e trades e' _ IH Ho Hid Hsub
                  |p e _ IH|ph e _ IH|e _ IH|e trades e' _ IH Hrun
                  |id e _ IH]; simpl in *.
  - apply wf_base_new.
  - by destruct (base_submit_inv fuel o e trades e' IH Hid Hsub).
  - apply wf_sharded_new.
  - by destruct (sharded_submit_inv fuel o e trades e' IH Hid Hsub).
  - split; [apply wf_nse_new|done].
  - destruct IH as [Hwf Hsync].
    destruct (nse_submit_wf fuel now o e (trades, e') Hwf Ho Hid Hsub)
      as [? Has].
    split; [done|]. cbn [snd] in Has. congruence.
  - destruct IH as [Hwf Hsync].
    destruct (nse_set_reference_price_wf p e Hwf) as [? Has].
    split; [done|congruence].
  - destruct IH as [Hwf Hsync].
    destruct (nse_set_trading_phase_wf ph e Hwf) as [? Has].
    split; [done|congruence].
  - destruct IH as [Hwf Hsync].
    destruct (nse_resume_trading_wf e Hwf) as [? Has].
    split; [done|congruence].
  - destruct IH as [Hwf Hsync].
    destruct (nse_execute_call_auction_wf e (trades, e') Hwf Hrun)
      as [? Has].
    split; [done|]. cbn [snd] in Has. congruence.
  - by destruct (cancel_spec e id IH).
Qed.

(** [cancel_order] on a well-formed state: the result tells whether the
    engine held an order with the id; a second cancellation finds
    nothing, and neither does the cancellation of an order of which
    nothing remains. *)
Lemma cancel_wf_spec e id :
  wf_engine e →
  ((cancel id e).1 = true ↔ holds_id e id)
  ∧ (∀ a, held (cancel id e).2 a
          ↔ held e a ∧ Order.order_id (deref (store e) a) ≠ id)
  ∧ store (cancel id e).2 = store e
  ∧ (cancel id (cancel id e).2).1 = false
  ∧ (∀ a, (a < length (store e))%nat →
          Order.order_id (deref (store e) a) = id →
          Order.remaining_quantity (deref (store e) a) = 0 →
          (cancel id e).1 = false).
Proof.
  intros Hwf.
  destruct (cancel_spec e id Hwf) as (Hwf' & Hr & Hheld & Hstore).
  destruct (cancel_spec _ id Hwf') as (_ & Hr' & _).
  split; [done|]. split; [done|]. split; [done|]. split.
  - destruct (cancel id (cancel id e).2).1 eqn:E; [|done].
    destruct Hr' as [Hr' _]. destruct (Hr' eq_refl) as (a & Ha & Hid).
    apply Hheld in Ha as [_ Hne]. rewrite Hstore in Hid. done.
  - intros a Ha Hid Hrem.
    destruct (cancel id e).1 eqn:E; [|done].
    destruct Hr as [Hr _]. destruct (Hr eq_refl) as (a' & Ha' & Hid').
    destruct (wf_engine_held e a' Hwf Ha') as [Hlt Hpos].
    assert (a' = a) as ->; [|lia].
    eapply (ids_inj (store e)); [by apply wf_engine_ids|done|done|congruence].
Qed.

End cancel.

(** C8, as stated, fails for the exchange engine with [async_cancel]:
    [cancel_order] puts the id in the queue and returns [True] for an
    id that no order has, a second time as well, and the worker that
    takes the id from the queue finds nothing to remove. *)
Lemma C8_counterexample :
  let e := NSEMatchingEngine.new "TEST" 1 10 20 true in
  let r1 := NSEMatchingEngine.cancel_order "nope" e in
  let r2 := NSEMatchingEngine.cancel_order "nope" r1.2 in
  let e' := NSEMatchingEngine._cancel_worker_step r2.2 in
  r1.1 = true ∧ r2.1 = true
  ∧ NSEMatchingEngine.bids e' = NSEMatchingEngine.bids e
  ∧ NSEMatchingEngine.asks e' = NSEMatchingEngine.asks e
  ∧ NSEMatchingEngine.pending_stop_orders e' = []
  ∧ NSEMatchingEngine.pending_stop_orders e = [].
Proof. by vm_compute. Qed.

(** C8, amended: for the base engine, the sharded engine and the
    exchange engine without [async_cancel], in every state that the
    engine reaches from a new one by submitting new orders with ids not
    used before, by the other calls of its interface and by
    cancellations, [cancel_order id] returns [True] exactly when the
    engine holds an order with that id, resting in the book or pending
    as a stop order; the orders it holds afterwards are those it held
    but for that one; so a second cancellation of the id returns
    [False], and so does the cancellation of the id of an order of
    which nothing remains to fill. *)
Theorem C8_synchronous_cancel (e : engine) (id : string) :
  reachable e →
  ((cancel id e).1 = true ↔ holds_id e id)
  ∧ (∀ a, held (cancel id e).2 a
          ↔ held e a ∧ Order.order_id (deref (store e) a) ≠ id)
  ∧ store (cancel id e).2 = store e
  ∧ (cancel id (cancel id e).2).1 = false
  ∧ (∀ a, (a < length (store e))%nat →
          Order.order_id (deref (store e) a) = id →
          Order.remaining_quantity (deref (store e) a) = 0 →
          (cancel id e).1 = false).
Proof. intros Hr. by apply cancel_wf_spec, reachable_wf. Qed.

Lemma C8_synchronous_cancel_witness :
  let e := Base Scenario.cancel_state in
  reachable e
  ∧ (cancel "b1" e).1 = true
  ∧ (cancel "b1" (cancel "b1" e).2).1 = false.
Proof.
  intros e.
  assert (Hr : reachable e).
  { apply (reach_base_submit 11 Scenario.cancel_bid BaseMatchingEngine.new
             [] Scenario.cancel_state reach_base_new).
    - simpl. apply not_elem_of_nil.
    - vm_compute. reflexivity. }
  destruct (C8_synchronous_cancel e "b1" Hr) as (_ & _ & _ & H5 & _).
  split; [exact Hr|]. split; [vm_compute; reflexivity|exact H5].
Defined.

(** * The accounts of the matching loops *)

Section accounts.

Lemma fills_total_app fs fs' :
  fills_total (fs ++ fs') = fills_total fs + fills_total fs'.
Proof.
  unfold fills_total. rewrite fmap_app.
  induction (fs.*2) as [|q l IH]; simpl; lia.
Qed.

Lemma filled_of_app y fs fs' :
  filled_of y (fs ++ fs') = filled_of y fs + filled_of y fs'.
Proof. unfold filled_of. by rewrite filter_app, fills_total_app. Qed.

Lemma filled_of_singleton y a q :
  filled_of y [(a, q)] = if decide (a = y) then q else 0.
Proof.
  unfold filled_of. rewrite filter_cons. simpl.
  destruct (decide (a = y)); unfold fills_total; simpl; lia.
Qed.

Lemma filled_of_absent y fs : y ∉ fs.*1 → filled_of y fs = 0.
Proof.
  unfold filled_of. induction fs as [|[a q] fs IH]; [done|].
  rewrite fmap_cons, not_elem_of_cons. simpl. intros [Hne Hy].
  rewrite filter_cons. simpl. rewrite decide_False by done. by apply IH.
Qed.

Lemma fills_total_nonneg fs : (∀ f, f ∈ fs → 0 < f.2) → 0 ≤ fills_total fs.
Proof.
  unfold fills_total. induction fs as [|f fs IH]; intros H; [done|].
  rewrite fmap_cons. cbn [foldr].
  pose proof (H f ltac:(left)).
  assert (0 ≤ foldr Z.add 0 fs.*2) by (apply IH; intros; apply H; by right).
  lia.
Qed.

Lemma price_key_fills sd h h' a :
  fills_only h h' → price_key sd h' a = price_key sd h a.
Proof.
  intros Hf. unfold price_key.
  by destruct (fills_only_fields _ _ a Hf) as (_ & -> & _).
Qed.

Lemma create_trade_fills h h' b s q :
  fills_only h h' →
  Trade.create_trade (deref h' b) (deref h' s) q
  = Trade.create_trade (deref h b) (deref h s) q.
Proof.
  intros Hf. unfold Trade.create_trade.
  destruct (fills_only_fields _ _ b Hf) as (-> & -> & _ & _ & -> & _).
  by destruct (fills_only_fields _ _ s Hf) as (-> & -> & _ & _ & -> & _).
Qed.

Lemma match_account_refl sd h R x :
  match_account sd h R x [] h R ∧ whole_fills x [] h R.
Proof.
  split; constructor; try done.
  - apply fills_only_refl.
  - by intros f ?%elem_of_nil.
  - unfold fills_total. simpl. lia.
  - intros y _. unfold filled_of, fills_total. simpl. lia.
  - by intros f a ?%elem_of_nil.
  - constructor.
  - constructor.
  - by intros f ?%elem_of_nil.
Qed.

(** One fill: the incoming order [x] takes [q] units, as many as it
    can, from an order [a] at the best price. *)
Lemma match_account_step sd h0 R0 x fs h R a q h' (R' : nat → Prop) :
  match_account sd h0 R0 x fs h R →
  whole_fills x fs h R →
  (x < length h)%nat → (a < length h)%nat → x ≠ a →
  R a →
  (∀ a', R a' → price_key sd h a ≤ price_key sd h a') →
  0 < Order.remaining_quantity (deref h a) →
  0 < Order.remaining_quantity (deref h x) →
  (Order.order_type (deref h x) = MARKET
   ∨ price_key sd h a ≤ price_key sd h x) →
  q = Z.min (Order.remaining_quantity (deref h x))
            (Order.remaining_quantity (deref h a)) →
  h' = fill_pair q x a h →
  (∀ a', R' a'
         ↔ R a' ∧ ¬ (a' = a ∧ q = Order.remaining_quantity (deref h a))) →
  match_account sd h0 R0 x (fs ++ [(a, q)]) h' R'
  ∧ whole_fills x (fs ++ [(a, q)]) h' R'.
Proof.
  intros [Hf Hres Hinc Hoth Hnn Hshr Hkept Hbest Hsort] [Hnd Hpart]
         Hx Ha Hxa HRa Hmin Hra Hrx Hcross -> -> HR'.
  set (q := Z.min _ _).
  assert (Hq : 0 < q) by (subst q; lia).
  assert (Hd : ∀ y, deref (fill_pair q x a h) y
                    = if decide (y = x ∨ y = a)
                      then Order.add_filled q (deref h y) else deref h y).
  { intros y. by apply deref_fill_pair. }
  assert (Hf' : fills_only h0 (fill_pair q x a h)).
  { eapply fills_only_trans; [done|apply fills_only_fill_pair]. }
  assert (Hold : ∀ f, f ∈ fs → ¬ R f.1).
  { intros f Hin HR. specialize (Hpart f Hin HR). lia. }
  assert (Hanew : a ∉ fs.*1).
  { intros (f & -> & Hin)%list_elem_of_fmap. by apply (Hold f). }
  split; constructor.
  - done.
  - intros f [Hin| ->%list_elem_of_singleton]%elem_of_app; [by apply Hres|].
    simpl. split; [by apply Hshr|]. split; [done|]. split; [done|].
    destruct (fills_only_fields _ _ x Hf) as (_ & _ & _ & _ & <- & _).
    rewrite <- !(price_key_fills sd h0 h) by done. done.
  - rewrite Hd, decide_True by (by left).
    rewrite remaining_add_filled, fills_total_app, Hinc.
    unfold fills_total at 3. simpl. lia.
  - intros y Hy. rewrite Hd, filled_of_app, filled_of_singleton.
    destruct (decide (a = y)) as [<-|Hay].
    + rewrite decide_True by (by right).
      rewrite remaining_add_filled, (Hoth a) by done. lia.
    + rewrite decide_False by (intros [?|?]; congruence).
      rewrite (Hoth y) by done. lia.
  - intros y Hy. specialize (Hnn y Hy). rewrite Hd.
    destruct (decide (y = x ∨ y = a)) as [[-> | ->]|]; [| |done];
      rewrite remaining_add_filled; subst q; lia.
  - intros a' Ha'. apply Hshr. by apply HR'.
  - intros a' Ha' Hnin. rewrite fmap_app, not_elem_of_app in Hnin.
    destruct Hnin as [Hn1 Hn2]. apply HR'. split; [by apply Hkept|].
    intros [-> _]. apply Hn2. simpl. left.
  - intros f a' [Hin| ->%list_elem_of_singleton]%elem_of_app Ha'.
    + apply Hbest; [done|]. by apply HR'.
    + simpl. rewrite <- !(price_key_fills sd h0 h) by done.
      apply Hmin. by apply HR'.
  - apply StronglySorted_app_2; [|done|repeat constructor].
    intros f f' Hin ->%list_elem_of_singleton. simpl. by apply Hbest.
  - rewrite fmap_app. apply NoDup_app. split; [done|].
    split; [|apply NoDup_singleton].
    intros y Hy ->%list_elem_of_singleton. done.
  - intros f [Hin| ->%list_elem_of_singleton]%elem_of_app HRf.
    + apply HR' in HRf as [HRf _]. by destruct (Hold f).
    + simpl in HRf. apply HR' in HRf as [_ Hne].
      rewrite Hd, decide_True by (by left). rewrite remaining_add_filled.
      assert (q ≠ Order.remaining_quantity (deref h a)) by naive_solver.
      subst q. lia.
Qed.

(** What the fills of a side tell about its resting orders. *)
Lemma rests_fill_step h b x a q :
  wf_side h b → live_side h b →
  (x < length h)%nat → ¬ rests b x → rests b a →
  0 < q ≤ Order.remaining_quantity (deref h a) →
  ∀ a', rests (drop_if_filled (fill_pair q x a h) a b) a'
        ↔ rests b a'
          ∧ ¬ (a' = a ∧ q = Order.remaining_quantity (deref h a)).
Proof.
  intros Hwf Hlive Hx Hnx Ha Hq a'.
  destruct (fill_step h b x a q Hwf Hlive Hx Hnx Ha Hq)
    as (_ & _ & _ & Hlo & _).
  unfold rests. setoid_rewrite Hlo.
  destruct (decide (q = _)) as [Heq|Hne].
  - setoid_rewrite list_elem_of_filter. naive_solver.
  - naive_solver.
Qed.

End accounts.

Section base_accounts.

Import BaseMatchingEngine.

(** The head of the best level is at a best price. *)
Lemma best_head_price_key h b p a :
  wf_side h b → is_best_price b p → head (level_orders b p) = Some a →
  Order.price (deref h a) = p
  ∧ ∀ a', rests b a' →
          price_key (OrderBookSide.side b) h a
          ≤ price_key (OrderBookSide.side b) h a'.
Proof.
  intros Hwf [Hp Hmin] Hhead.
  assert (Ha : a ∈ level_orders b p).
  { destruct (level_orders b p); [done|]. injection Hhead as ->. left. }
  destruct (wf_level_orders _ _ Hwf _ _ Ha) as (_ & Hpa & _).
  split; [done|]. intros a' [p' Ha'].
  destruct (wf_level_orders _ _ Hwf _ _ Ha') as (_ & Hpa' & _).
  unfold price_key. rewrite Hpa, Hpa'. apply Hmin.
  unfold level_orders in Ha'.
  destruct (OrderBookSide.price_levels b !! p'); [done|].
  by apply elem_of_nil in Ha'.
Qed.

(** Nothing rests on a side whose heap is empty. *)
Lemma heap_peek_None_rests h b a :
  wf_side h b → OrderBookSide._heap_peek b = None → ¬ rests b a.
Proof.
  intros Hwf Hpeek [p Hp]. unfold level_orders in Hp.
  rewrite (heap_peek_None _ _ Hwf Hpeek), lookup_empty in Hp.
  by apply elem_of_nil in Hp.
Qed.

Lemma base_match_buy_account fuel x e r :
  base_loop_inv x ([], e) → _match_buy_order fuel x e = Some r →
  base_buy_account x e r
  ∧ match_exit SELL x (objs r.2) (rests (asks r.2)).
Proof.
  intros Hinv0 Hrun. unfold _match_buy_order in Hrun.
  eapply (while_loop_invariant (_match_buy_order_pass x)
            (base_buy_account x e)
            (λ s, base_buy_account x e s
                  ∧ match_exit SELL x (objs s.2) (rests (asks s.2))));
    [| | |exact Hrun].
  - intros [trades c] s' (fs & Hinv & Htr & Hb & Hth & Hoh & Hacc & Hwh) Hp.
    destruct (base_buy_pass_step _ _ _ Hinv Hp)
      as (Hinv' & _ & _ & Hth' & Hoh').
    cbn [fst snd] in Hth, Hoh, Hth', Hoh'.
    rewrite Hth in Hth'. rewrite Hoh in Hoh'.
    destruct Hinv as (Hwf & Hlen & Hnb & Hna). cbn [fst snd] in *.
    pose proof (base_buy_pass_inv x trades c (wfb_asks _ _ _ Hwf)) as Hpi.
    rewrite Hp in Hpi.
    destruct Hpi as (p & a & Hbest & Hhead & Hrem & Hcross & ->).
    pose proof (head_rests _ _ _ Hhead) as Ha.
    destruct (wfb_asks_live _ _ _ Hwf _ Ha) as [Hra Hsa].
    destruct (best_head_price_key _ _ _ _ (wfb_asks _ _ _ Hwf) Hbest Hhead)
      as [Hpa Hmin].
    rewrite (wfb_asks_side _ _ _ Hwf) in Hmin.
    set (q := Z.min _ _) in *.
    assert (Hq : 0 < q ≤ Order.remaining_quantity (deref (objs c) a))
      by (subst q; lia).
    exists (fs ++ [(a, q)]). split; [done|]. split.
    { cbn [fst snd]. rewrite fmap_app, Htr. simpl.
      by rewrite (create_trade_fills _ _ _ _ _ (ma_fills _ _ _ _ _ _ _ Hacc)). }
    split; [done|]. split; [done|]. split; [done|].
    cbn [fst snd objs bids asks].
    apply (match_account_step SELL (objs e) (rests (asks e)) x fs (objs c)
             (rests (asks c)) a q); try done.
    + eapply rests_lt; [apply (wfb_asks _ _ _ Hwf)|done].
    + by intros ->.
    + destruct Hcross as [?|?]; [by left|right].
      unfold price_key. simpl. by rewrite Hpa.
    + apply rests_fill_step; try done; apply Hwf.
  - intros [trades c] s' Hs Hp.
    destruct (Hs) as (fs & Hinv & _).
    rewrite (base_buy_pass_exit _ _ _ Hinv Hp). split; [done|].
    destruct Hinv as (Hwf & _). cbn [fst snd] in *.
    rewrite (base_buy_pass_eq x trades c (wfb_asks _ _ _ Hwf)) in Hp.
    cbv zeta in Hp. intros Hrem a Ha.
    destruct (0 <? _) eqn:E; [|apply Z.ltb_ge in E; lia].
    cbn [negb] in Hp.
    destruct (OrderBookSide._heap_peek (asks c)) as [p|] eqn:Hpeek.
    2:{ by destruct (heap_peek_None_rests _ _ a (wfb_asks _ _ _ Hwf) Hpeek). }
    pose proof (heap_peek_best _ _ _ (wfb_asks _ _ _ Hwf) Hpeek) as Hbest.
    destruct (head_level_orders _ _ p (wfb_asks _ _ _ Hwf))
      as (l & a0 & Hl & _ & Hhead); [apply Hbest|].
    destruct (best_head_price_key _ _ _ _ (wfb_asks _ _ _ Hwf) Hbest Hhead)
      as [Hpa Hmin].
    rewrite (wfb_asks_side _ _ _ Hwf) in Hmin.
    destruct (bool_decide _ || _) eqn:Hcross; cbn [negb] in Hp.
    { destruct (level_orders (asks c) p); done. }
    apply orb_false_iff in Hcross as [Hm%bool_decide_eq_false_1 Hlt%Z.leb_gt].
    split; [done|].
    specialize (Hmin a Ha). unfold price_key in *. simpl in *. lia.
  - exists []. split; [done|]. split; [done|]. split; [done|].
    split; [done|]. split; [done|]. apply match_account_refl.
Qed.


Lemma base_match_sell_account fuel x e r :
  base_loop_inv x ([], e) → _match_sell_order fuel x e = Some r →
  base_sell_account x e r
  ∧ match_exit BUY x (objs r.2) (rests (bids r.2)).
Proof.
  intros Hinv0 Hrun. unfold _match_sell_order in Hrun.
  eapply (while_loop_invariant (_match_sell_order_pass x)
            (base_sell_account x e)
            (λ s, base_sell_account x e s
                  ∧ match_exit BUY x (objs s.2) (rests (bids s.2))));
    [| | |exact Hrun].
  - intros [trades c] s' (fs & Hinv & Htr & Hb & Hth & Hoh & Hacc & Hwh) Hp.
    destruct (base_sell_pass_step _ _ _ Hinv Hp)
      as (Hinv' & _ & _ & Hth' & Hoh').
    cbn [fst snd] in Hth, Hoh, Hth', Hoh'.
    rewrite Hth in Hth'. rewrite Hoh in Hoh'.
    destruct Hinv as (Hwf & Hlen & Hnb & Hna). cbn [fst snd] in *.
    pose proof (base_sell_pass_inv x trades c (wfb_bids _ _ _ Hwf)) as Hpi.
    rewrite Hp in Hpi.
    destruct Hpi as (p & a & Hbest & Hhead & Hrem & Hcross & ->).
    pose proof (head_rests _ _ _ Hhead) as Ha.
    destruct (wfb_bids_live _ _ _ Hwf _ Ha) as [Hra Hsa].
    destruct (best_head_price_key _ _ _ _ (wfb_bids _ _ _ Hwf) Hbest Hhead)
      as [Hpa Hmin].
    rewrite (wfb_bids_side _ _ _ Hwf) in Hmin.
    set (q := Z.min _ _) in *.
    assert (Hq : 0 < q ≤ Order.remaining_quantity (deref (objs c) a))
      by (subst q; lia).
    exists (fs ++ [(a, q)]). split; [done|]. split.
    { cbn [fst snd]. rewrite fmap_app, Htr. simpl.
      by rewrite (create_trade_fills _ _ _ _ _ (ma_fills _ _ _ _ _ _ _ Hacc)). }
    split; [done|]. split; [done|]. split; [done|].
    cbn [fst snd objs asks bids].
    apply (match_account_step BUY (objs e) (rests (bids e)) x fs (objs c)
             (rests (bids c)) a q); try done.
    + eapply rests_lt; [apply (wfb_bids _ _ _ Hwf)|done].
    + by intros ->.
    + destruct Hcross as [?|?]; [by left|right].
      unfold price_key. simpl. rewrite Hpa. lia.
    + apply rests_fill_step; try done; apply Hwf.
  - intros [trades c] s' Hs Hp.
    destruct (Hs) as (fs & Hinv & _).
    rewrite (base_sell_pass_exit _ _ _ Hinv Hp). split; [done|].
    destruct Hinv as (Hwf & _). cbn [fst snd] in *.
    rewrite (base_sell_pass_eq x trades c (wfb_bids _ _ _ Hwf)) in Hp.
    cbv zeta in Hp. intros Hrem a Ha.
    destruct (0 <? _) eqn:E; [|apply Z.ltb_ge in E; lia].
    cbn [negb] in Hp.
    destruct (OrderBookSide._heap_peek (bids c)) as [p|] eqn:Hpeek.
    2:{ by destruct (heap_peek_None_rests _ _ a (wfb_bids _ _ _ Hwf) Hpeek). }
    pose proof (heap_peek_best _ _ _ (wfb_bids _ _ _ Hwf) Hpeek) as Hbest.
    destruct (head_level_orders _ _ p (wfb_bids _ _ _ Hwf))
      as (l & a0 & Hl & _ & Hhead); [apply Hbest|].
    destruct (best_head_price_key _ _ _ _ (wfb_bids _ _ _ Hwf) Hbest Hhead)
      as [Hpa Hmin].
    rewrite (wfb_bids_side _ _ _ Hwf) in Hmin.
    destruct (bool_decide _ || _) eqn:Hcross; cbn [negb] in Hp.
    { destruct (level_orders (bids c) p); done. }
    apply orb_false_iff in Hcross as [Hm%bool_decide_eq_false_1 Hlt%Z.leb_gt].
    split; [done|].
    specialize (Hmin a Ha). unfold price_key in *. simpl in *. lia.
  - exists []. split; [done|]. split; [done|]. split; [done|].
    split; [done|]. split; [done|]. apply match_account_refl.
Qed.



End base_accounts.

(** ** What an account tells *)

Section order_accounts.

Context (h0 : list Order.t) (R0 : OrderSide → nat → Prop) (x : nat)
        (trades : list Trade.t) (h : list Order.t)
        (R : OrderSide → nat → Prop).
Context (Hacc : order_account h0 R0 x trades h R).

Lemma order_account_fills : fills_only h0 h.
Proof. destruct Hacc as (fs & _ & [] & _). done. Qed.

(** A book that was not crossed is not crossed afterwards. *)
Lemma order_account_uncrossed :
  uncrossed h0 (R0 BUY) (R0 SELL) → uncrossed h (R BUY) (R SELL).
Proof.
  intros Hun b a Hb Ha.
  destruct Hacc as (fs & _ & Hm & _ & Hexit & Hown).
  pose proof (ma_fills _ _ _ _ _ _ _ Hm) as Hf.
  destruct (fills_only_fields _ _ a Hf) as (_ & Hpa & _).
  destruct (fills_only_fields _ _ b Hf) as (_ & Hpb & _).
  destruct (fills_only_fields _ _ x Hf) as (_ & Hpx & _).
  unfold match_exit, price_key in Hexit.
  destruct (Order.side (deref h0 x)); simpl in *.
  - pose proof (ma_shrink _ _ _ _ _ _ _ Hm a Ha) as Ha0.
    apply Hown in Hb as [Hb|(-> & Hrem & _)].
    + rewrite Hpa, Hpb. by apply Hun.
    + by destruct (Hexit Hrem a Ha).
  - pose proof (ma_shrink _ _ _ _ _ _ _ Hm b Hb) as Hb0.
    apply Hown in Ha as [Ha|(-> & Hrem & _)].
    + rewrite Hpa, Hpb. by apply Hun.
    + destruct (Hexit Hrem b Hb). lia.
Qed.

(** Only limit orders rest afterwards if only limit orders rested. *)
Lemma order_account_limit sd :
  resting_limit h0 (R0 sd) → resting_limit h (R sd).
Proof.
  intros Hl a Ha.
  destruct Hacc as (fs & _ & Hm & _ & _ & Hown).
  pose proof (ma_fills _ _ _ _ _ _ _ Hm) as Hf.
  destruct (fills_only_fields _ _ a Hf) as (_ & _ & _ & _ & Hta & _).
  destruct (Order.side (deref h0 x)), sd; simpl in *.
  - apply Hown in Ha as [Ha|(-> & _ & ?)]; [|done].
    rewrite Hta. by apply Hl.
  - rewrite Hta. apply Hl. by apply (ma_shrink _ _ _ _ _ _ _ Hm).
  - rewrite Hta. apply Hl. by apply (ma_shrink _ _ _ _ _ _ _ Hm).
  - apply Hown in Ha as [Ha|(-> & _ & ?)]; [|done].
    rewrite Hta. by apply Hl.
Qed.

End order_accounts.


(** The quantity that the trades of an account record for an order. *)
Lemma traded_quantity_fills h0 x fs y :
  NoDup (Order.order_id <$> h0) →
  (x < length h0)%nat → (y < length h0)%nat →
  (∀ f, f ∈ fs → (f.1 < length h0)%nat ∧ f.1 ≠ x) →
  traded_quantity (Order.order_id (deref h0 y)) (fill_trade h0 x <$> fs)
  = if decide (y = x) then fills_total fs else filled_of y fs.
Proof.
  intros Hnd Hx Hy. unfold traded_quantity, filled_of, fills_total.
  induction fs as [|f fs IH]; intros Hfs.
  { simpl. by destruct (decide _). }
  destruct (Hfs f ltac:(left)) as [Hf Hfx].
  specialize (IH (λ f' H', Hfs f' ltac:(by right))).
  rewrite fmap_cons, !filter_cons.
  assert (Hids : Trade.buy_order_id (fill_trade h0 x f)
                 = Order.order_id (deref h0 x)
                 ∧ Trade.sell_order_id (fill_trade h0 x f)
                   = Order.order_id (deref h0 f.1)
                 ∨ Trade.buy_order_id (fill_trade h0 x f)
                   = Order.order_id (deref h0 f.1)
                   ∧ Trade.sell_order_id (fill_trade h0 x f)
                     = Order.order_id (deref h0 x)).
  { unfold fill_trade. destruct (Order.side _); [by left|by right]. }
  assert (Hq : Trade.quantity (fill_trade h0 x f) = f.2).
  { unfold fill_trade. by destruct (Order.side _). }
  assert (Hnames : (Trade.buy_order_id (fill_trade h0 x f)
                    = Order.order_id (deref h0 y)
                    ∨ Trade.sell_order_id (fill_trade h0 x f)
                      = Order.order_id (deref h0 y))
                   ↔ y = x ∨ f.1 = y).
  { split.
    - intros Hn.
      assert (Order.order_id (deref h0 x) = Order.order_id (deref h0 y)
              ∨ Order.order_id (deref h0 f.1) = Order.order_id (deref h0 y))
        as [He|He]
        by (destruct Hids as [[H1 H2]|[H1 H2]]; rewrite H1, H2 in Hn; tauto).
      + left. symmetry. by apply (ids_inj h0).
      + right. by apply (ids_inj h0).
    - intros [-> | <-]; destruct Hids as [[H1 H2]|[H1 H2]];
        rewrite H1, H2; tauto. }
  destruct (decide (y = x)) as [->|Hyx].
  - rewrite decide_True by (apply Hnames; by left).
    rewrite !fmap_cons. cbn [foldr]. rewrite IH, Hq. done.
  - destruct (decide (f.1 = y)) as [Hfy|Hfy].
    + rewrite decide_True by (apply Hnames; by right).
      rewrite !fmap_cons. cbn [foldr]. rewrite IH, Hq. done.
    + rewrite decide_False by (rewrite Hnames; naive_solver). done.
Qed.

Section order_accounts_of.

Context (fs : list (nat * Z)) (h0 : list Order.t)
        (R0 : OrderSide → nat → Prop) (x : nat)
        (trades : list Trade.t) (h : list Order.t)
        (R : OrderSide → nat → Prop).
Context (Hacc : order_account_of fs h0 R0 x trades h R).

(** The two orders of a trade, and its price between their limits. *)
Lemma order_account_limits t :
  (∀ sd a, R0 sd a →
           Order.order_type (deref h0 a) = LIMIT
           ∧ Order.side (deref h0 a) = sd) →
  t ∈ trades →
  ∃ b s : nat,
    (b = x ∧ R0 SELL s ∨ s = x ∧ R0 BUY b)
    ∧ Trade.buy_order_id t = Order.order_id (deref h b)
    ∧ Trade.sell_order_id t = Order.order_id (deref h s)
    ∧ Order.side (deref h b) = BUY ∧ Order.side (deref h s) = SELL
    ∧ 0 < Trade.quantity t
    ∧ (Order.order_type (deref h b) = LIMIT →
       Trade.price t ≤ Order.price (deref h b))
    ∧ (Order.order_type (deref h s) = LIMIT →
       Order.price (deref h s) ≤ Trade.price t).
Proof.
  intros Hlim Ht. destruct Hacc as (-> & Hm & _).
  apply list_elem_of_fmap in Ht as (f & -> & Hf).
  pose proof (ma_fills _ _ _ _ _ _ _ Hm) as Hfill.
  destruct (ma_resting _ _ _ _ _ _ _ Hm f Hf) as (HR & Hne & Hq & Hcross).
  destruct (Hlim _ _ HR) as [Hty Hsd].
  destruct (fills_only_fields _ _ x Hfill)
    as (Hi1 & Hp1 & Hs1 & _ & Ht1 & _).
  destruct (fills_only_fields _ _ f.1 Hfill)
    as (Hi2 & Hp2 & Hs2 & _ & Ht2 & _).
  unfold fill_trade, Trade.create_trade, price_key in *.
  destruct (Order.side (deref h0 x)) eqn:Hside; simpl in *.
  - exists x, f.1. split; [by left|].
    rewrite Hi1, Hi2, Hp1, Hp2, Hs1, Hs2, Ht1, Ht2, Hty.
    split; [done|]. split; [done|]. split; [done|]. split; [done|].
    split; [done|].
    rewrite (bool_decide_eq_false_2 (LIMIT = MARKET)) by done.
    split; [|intros _; by destruct (bool_decide _)].
    intros Hl. rewrite Hl in *.
    rewrite (bool_decide_eq_false_2 (LIMIT = MARKET)) by done.
    destruct Hcross as [?|?]; [done|lia].
  - exists f.1, x. split; [by right|].
    rewrite Hi1, Hi2, Hp1, Hp2, Hs1, Hs2, Ht1, Ht2, Hty.
    split; [done|]. split; [done|]. split; [done|]. split; [done|].
    split; [done|].
    rewrite (bool_decide_eq_false_2 (LIMIT = MARKET)) by done.
    split.
    + intros _. case_bool_decide as Hm'; [lia|].
      destruct Hcross as [?|?]; [done|lia].
    + intros Hl. rewrite Hl.
      by rewrite (bool_decide_eq_false_2 (LIMIT = MARKET)).
Qed.

(** The order that came in does not rest on the other side. *)
Lemma order_account_other_side :
  ¬ R0 (other_side (Order.side (deref h0 x))) x →
  ¬ R (other_side (Order.side (deref h0 x))) x.
Proof.
  intros Hn Hx. destruct Hacc as (_ & Hm & _).
  by apply Hn, (ma_shrink _ _ _ _ _ _ _ Hm).
Qed.

(** What an order in the store has filled more than before is what
    the trades record for it. *)
Lemma order_account_filled y :
  NoDup (Order.order_id <$> h0) → (x < length h0)%nat →
  (∀ sd a, R0 sd a → (a < length h0)%nat) → (y < length h0)%nat →
  Order.filled_quantity (deref h y)
  = Order.filled_quantity (deref h0 y)
    + traded_quantity (Order.order_id (deref h0 y)) trades.
Proof.
  intros Hnd Hx HR Hy. destruct Hacc as (-> & Hm & _).
  rewrite (traded_quantity_fills h0 x fs y Hnd Hx Hy).
  2:{ intros f Hf.
      destruct (ma_resting _ _ _ _ _ _ _ Hm f Hf) as (HRf & Hne & _).
      split; [by eapply HR|done]. }
  pose proof (ma_fills _ _ _ _ _ _ _ Hm) as Hfill.
  destruct (fills_only_fields _ _ y Hfill) as (_ & _ & _ & _ & _ & Hq).
  destruct (decide (y = x)) as [->|Hyx].
  - pose proof (ma_incoming _ _ _ _ _ _ _ Hm) as Hi.
    unfold Order.remaining_quantity in Hi. lia.
  - pose proof (ma_others _ _ _ _ _ _ _ Hm y Hyx) as Hi.
    unfold Order.remaining_quantity in Hi. lia.
Qed.

End order_accounts_of.


Section base_add_order.

Import BaseMatchingEngine.

(** The account of [add_order] of the base engine. *)
Lemma base_add_order_account fuel x e trades e' :
  wf_base e → (x < length (objs e))%nat →
  ¬ rests (bids e) x → ¬ rests (asks e) x →
  add_order fuel x e = Some (trades, e') →
  wf_base e'
  ∧ order_account (objs e) (base_rests e) x trades (objs e') (base_rests e')
  ∧ trade_history e' = trade_history e ++ trades
  ∧ order_history e' = order_history e ++ [x].
Proof.
  intros Hwf Hlen Hnb Hna. unfold add_order, order_account, order_account_of.
  set (e0 := mk (objs e) (bids e) (asks e) (trade_history e)
                (order_history e ++ [x])).
  assert (Hinv0 : base_loop_inv x ([], e0)).
  { split; [|done]. by destruct Hwf. }
  change (objs e0) with (objs e). unfold fill_trade.
  destruct (Order.side (deref (objs e) x)) eqn:Hside.
  - destruct (_match_buy_order fuel x e0) as [[tr e1]|] eqn:Hrun; [|done].
    destruct (base_match_buy_account _ _ _ _ Hinv0 Hrun)
      as ((fs & Hinv & Htr & Hb & Hth & Hoh & Hm & Hwh) & Hexit).
    destruct Hinv as (Hwf1 & Hlen1 & Hnb1 & Hna1).
    cbn [fst snd] in *. subst tr.
    pose proof (ma_fills _ _ _ _ _ _ _ Hm) as Hf.
    destruct (fills_only_fields _ _ x Hf) as (_ & _ & Hs1 & _).
    change (objs e0) with (objs e) in *. rewrite Hside in Hs1.
    destruct (_ && _) eqn:Hadd; intros [= <- <-].
    + apply andb_true_iff in Hadd as [Hrem%Z.ltb_lt Hlim%bool_decide_eq_true_1].
      pose proof (base_add_to_order_book_wf x e1 Hwf1 Hlen1 Hnb1 Hna1 Hrem)
        as Hwf2.
      unfold _add_to_order_book in *. rewrite Hs1 in *.
      cbn [objs bids asks trade_history order_history] in *.
      split; [by destruct Hwf2|]. split; [|by rewrite Hth, Hoh].
      exists fs. split; [done|]. split; [done|]. split; [done|].
      split; [done|]. intros y. unfold base_rests. cbn [bids asks]. rewrite rests_add_order, Hb.
      naive_solver.
    + apply andb_false_iff in Hadd.
      cbn [objs bids asks trade_history order_history] in *.
      split; [by destruct Hwf1, e1|]. split; [|by rewrite Hth, Hoh].
      exists fs. split; [done|]. split; [done|]. split; [done|].
      split; [done|]. intros y. unfold base_rests. cbn [bids asks]. rewrite Hb. split; [by left|].
      intros [?|(-> & Hrem & Hlim)]; [done|].
      destruct Hadd as [Hadd%Z.ltb_ge|Hadd%bool_decide_eq_false_1]; [lia|done].
  - destruct (_match_sell_order fuel x e0) as [[tr e1]|] eqn:Hrun; [|done].
    destruct (base_match_sell_account _ _ _ _ Hinv0 Hrun)
      as ((fs & Hinv & Htr & Hb & Hth & Hoh & Hm & Hwh) & Hexit).
    destruct Hinv as (Hwf1 & Hlen1 & Hnb1 & Hna1).
    cbn [fst snd] in *. subst tr.
    pose proof (ma_fills _ _ _ _ _ _ _ Hm) as Hf.
    destruct (fills_only_fields _ _ x Hf) as (_ & _ & Hs1 & _).
    change (objs e0) with (objs e) in *. rewrite Hside in Hs1.
    destruct (_ && _) eqn:Hadd; intros [= <- <-].
    + apply andb_true_iff in Hadd as [Hrem%Z.ltb_lt Hlim%bool_decide_eq_true_1].
      pose proof (base_add_to_order_book_wf x e1 Hwf1 Hlen1 Hnb1 Hna1 Hrem)
        as Hwf2.
      unfold _add_to_order_book in *. rewrite Hs1 in *.
      cbn [objs bids asks trade_history order_history] in *.
      split; [by destruct Hwf2|]. split; [|by rewrite Hth, Hoh].
      exists fs. split; [done|]. split; [done|]. split; [done|].
      split; [done|]. intros y. unfold base_rests. cbn [bids asks]. rewrite rests_add_order, Hb.
      naive_solver.
    + apply andb_false_iff in Hadd.
      cbn [objs bids asks trade_history order_history] in *.
      split; [by destruct Hwf1, e1|]. split; [|by rewrite Hth, Hoh].
      exists fs. split; [done|]. split; [done|]. split; [done|].
      split; [done|]. intros y. unfold base_rests. cbn [bids asks]. rewrite Hb. split; [by left|].
      intros [?|(-> & Hrem & Hlim)]; [done|].
      destruct Hadd as [Hadd%Z.ltb_ge|Hadd%bool_decide_eq_false_1]; [lia|done].
Qed.

End base_add_order.

Section base_sound.

Import BaseMatchingEngine.

(** The account of [submit] of the base engine: the new order is the
    object [length (objs e)] of the store. *)
Lemma base_submit_account fuel o e trades e' :
  wf_base e → Order.order_id o ∉ Order.order_id <$> objs e →
  submit fuel o e = Some (trades, e') →
  wf_base e'
  ∧ order_account (objs e ++ [o]) (base_rests e) (length (objs e)) trades
      (objs e') (base_rests e')
  ∧ trade_history e' = trade_history e ++ trades
  ∧ order_history e' = order_history e ++ [length (objs e)].
Proof.
  intros Hwf Hfresh Hsub. unfold submit, alloc in Hsub.
  apply (base_add_order_account fuel (length (objs e))
           (mk (objs e ++ [o]) (bids e) (asks e) (trade_history e)
               (order_history e))) in Hsub; [done|..]; cbn [objs bids asks].
  - by apply wf_book_alloc.
  - rewrite length_app. simpl. lia.
  - intros Hr. apply (rests_lt _ _ _ (wfb_bids _ _ _ Hwf)) in Hr. lia.
  - intros Hr. apply (rests_lt _ _ _ (wfb_asks _ _ _ Hwf)) in Hr. lia.
Qed.

Lemma base_rests_lt e sd a :
  wf_base e → base_rests e sd a → (a < length (objs e))%nat.
Proof.
  intros Hwf Ha. destruct sd; simpl in Ha.
  - by eapply rests_lt; [apply (wfb_bids _ _ _ Hwf)|].
  - by eapply rests_lt; [apply (wfb_asks _ _ _ Hwf)|].
Qed.

Lemma base_rests_live e sd a :
  wf_base e → base_rests e sd a →
  0 < Order.remaining_quantity (deref (objs e) a)
  ∧ Order.side (deref (objs e) a) = sd.
Proof.
  intros Hwf Ha. destruct sd; simpl in Ha.
  - destruct (wfb_bids_live _ _ _ Hwf _ Ha) as [? Hs].
    by rewrite (wfb_bids_side _ _ _ Hwf) in Hs.
  - destruct (wfb_asks_live _ _ _ Hwf _ Ha) as [? Hs].
    by rewrite (wfb_asks_side _ _ _ Hwf) in Hs.
Qed.

Lemma base_submit_sound fuel o e trades e' :
  sound_base e → Order.order_id o ∉ Order.order_id <$> objs e →
  submit fuel o e = Some (trades, e') → sound_base e'.
Proof.
  intros [Hwf Hun Hlb Hla] Hfresh Hsub.
  destruct (base_submit_account _ _ _ _ _ Hwf Hfresh Hsub)
    as (Hwf' & Hacc & _).
  constructor; [done|..].
  - apply (order_account_uncrossed _ _ _ _ _ _ Hacc).
    intros b a Hb Ha.
    rewrite !deref_alloc_old; [by apply Hun|..].
    + by apply (base_rests_lt e SELL).
    + by apply (base_rests_lt e BUY).
  - apply (order_account_limit _ _ _ _ _ _ Hacc BUY).
    intros a Ha. rewrite deref_alloc_old; [by apply Hlb|].
    by apply (base_rests_lt e BUY).
  - apply (order_account_limit _ _ _ _ _ _ Hacc SELL).
    intros a Ha. rewrite deref_alloc_old; [by apply Hla|].
    by apply (base_rests_lt e SELL).
Qed.

(** The resting orders of a sound state, seen in the store that holds
    a new order as well. *)
Lemma sound_base_resting e o sd a :
  sound_base e → base_rests e sd a →
  Order.order_type (deref (objs e ++ [o]) a) = LIMIT
  ∧ Order.side (deref (objs e ++ [o]) a) = sd.
Proof.
  intros [Hwf _ Hlb Hla] Ha.
  rewrite deref_alloc_old by (by eapply base_rests_lt).
  split; [|by apply (base_rests_live e sd a Hwf)].
  destruct sd; [by apply Hlb|by apply Hla].
Qed.

(** A cancellation leaves on each side orders that rested there. *)
Lemma base_cancel_rests id e sd a :
  wf_base e → base_rests (cancel_order id e).2 sd a → base_rests e sd a.
Proof.
  intros Hwf Ha.
  destruct (base_cancel_spec id e Hwf) as (Hwf' & _ & Hheld & Hobjs).
  destruct (base_rests_live _ _ _ Hwf' Ha) as [_ Hs]. rewrite Hobjs in Hs.
  assert (Hh : held (Base (cancel_order id e).2) a).
  { destruct sd; [by left|by right]. }
  apply Hheld in Hh as [[Hb|Hb] _].
  - destruct (base_rests_live e BUY a Hwf Hb) as [_ Hs'].
    destruct sd; [done|congruence].
  - destruct (base_rests_live e SELL a Hwf Hb) as [_ Hs'].
    destruct sd; [congruence|done].
Qed.

Lemma base_cancel_sound id e :
  sound_base e → sound_base (cancel_order id e).2.
Proof.
  intros [Hwf Hun Hlb Hla].
  destruct (base_cancel_spec id e Hwf) as (Hwf' & _ & _ & Hobjs).
  constructor; [done|..]; rewrite Hobjs.
  - intros b a Hb Ha.
    apply Hun; [by apply (base_cancel_rests id e BUY)
               |by apply (base_cancel_rests id e SELL)].
  - intros a Ha. by apply Hlb, (base_cancel_rests id e BUY).
  - intros a Ha. by apply Hla, (base_cancel_rests id e SELL).
Qed.

Lemma sound_base_new : sound_base new.
Proof.
  constructor; [apply wf_base_new|..]; simpl.
  - intros b a Hb. by destruct (rests_new _ _ Hb).
  - intros a Ha. by destruct (rests_new _ _ Ha).
  - intros a Ha. by destruct (rests_new _ _ Ha).
Qed.

(** Every state that the base engine reaches is sound. *)
Lemma reachable_base_sound e : reachable e → ∀ eb, e = Base eb → sound_base eb.
Proof.
  induction 1 as [|fuel o e trades e' _ IH Hid Hsub
                  | | | | | | | | |id e _ IH]; intros eb Heq; try done.
  - injection Heq as <-. apply sound_base_new.
  - injection Heq as <-. eapply base_submit_sound; [by apply IH|done..].
  - destruct e as [e0|e0|e0]; simpl in Heq; try done.
    injection Heq as <-. apply base_cancel_sound. by apply IH.
Qed.

End base_sound.

(** * The accounts of the sharded engine *)

Section sharded_accounts.

Import ShardedMatchingEngine.

(** An order at the best price of the shards is at a best price. *)
Lemma shards_best_price_key h b p a :
  wf_sharded_side h b →
  shards_best_price (ShardedOrderBookSide.side b)
    (ShardedOrderBookSide.shards b) p →
  a ∈ shard_orders (ShardedOrderBookSide.shards b) p →
  Order.price (deref h a) = p
  ∧ ∀ a', shard_rests (ShardedOrderBookSide.shards b) a' →
          price_key (ShardedOrderBookSide.side b) h a
          ≤ price_key (ShardedOrderBookSide.side b) h a'.
Proof.
  intros Hwf [_ Hmin] (s & [i Hi]%list_elem_of_lookup_1 & Ha)%elem_of_shard_orders.
  destruct (wf_level_orders _ _ (wfs_wf _ _ Hwf _ _ Hi) _ _ Ha)
    as (_ & Hpa & _).
  split; [done|]. intros a' (j & s' & Hj & [p' Ha']).
  destruct (wf_level_orders _ _ (wfs_wf _ _ Hwf _ _ Hj) _ _ Ha')
    as (_ & Hpa' & _).
  unfold price_key. rewrite Hpa, Hpa'. apply (Hmin p' s').
  - by eapply list_elem_of_lookup_2.
  - unfold level_orders in Ha'.
    destruct (OrderBookSide.price_levels s' !! p'); [done|].
    by apply elem_of_nil in Ha'.
Qed.

(** The orders that rest in the shards after a fill. *)
Lemma shard_rests_fill_step h b x a q :
  wf_sharded_side h b →
  (x < length h)%nat → ¬ shard_rests (ShardedOrderBookSide.shards b) x →
  shard_rests (ShardedOrderBookSide.shards b) a →
  0 < q ≤ Order.remaining_quantity (deref h a) →
  let h2 := fill_pair q x a h in
  let b2 :=
    if Order.remaining_quantity (deref h2 a) =? 0
    then (ShardedOrderBookSide.remove_order h2
            (Order.order_id (deref h2 a)) b).2
    else b in
  ∀ a', shard_rests (ShardedOrderBookSide.shards b2) a'
        ↔ shard_rests (ShardedOrderBookSide.shards b) a'
          ∧ ¬ (a' = a ∧ q = Order.remaining_quantity (deref h a)).
Proof.
  intros Hwf Hx Hnx Ha Hq h2 b2 a'.
  destruct (sharded_fill_step h b x a q Hwf Hx Hnx Ha Hq)
    as (_ & _ & _ & Hlo & _).
  fold h2 in Hlo. fold b2 in Hlo.
  rewrite !shard_rests_orders. setoid_rewrite Hlo.
  destruct (decide (q = _)) as [Heq|Hne].
  - setoid_rewrite list_elem_of_filter. naive_solver.
  - naive_solver.
Qed.

Lemma sharded_match_buy_account fuel x e r :
  sharded_loop_inv x ([], e) → _match_buy_order fuel x e = Some r →
  sharded_buy_account x e r
  ∧ match_exit SELL x (objs r.2) (sharded_rests r.2 SELL).
Proof.
  intros Hinv0 Hrun. unfold _match_buy_order in Hrun.
  eapply (while_loop_invariant (_match_buy_order_pass x)
            (sharded_buy_account x e)
            (λ s, sharded_buy_account x e s
                  ∧ match_exit SELL x (objs s.2) (sharded_rests s.2 SELL)));
    [| | |exact Hrun].
  - intros [trades c] s'
           (fs & Hinv & Htr & Hb & Hn & Hth & Hoh & Hacc & Hwh & Htime) Hp.
    destruct (sharded_buy_pass_step _ _ _ Hinv Hp)
      as (Hinv' & _ & _ & Hth' & Hoh').
    cbn [fst snd] in Hth, Hoh, Hth', Hoh'.
    rewrite Hth in Hth'. rewrite Hoh in Hoh'.
    destruct Hinv as (Hwf & Hlen & Hnb & Hna). cbn [fst snd] in *.
    destruct (sharded_buy_pass_eq x trades c (wfse_asks _ Hwf))
      as (best & Hwf1 & Hbest & Heq).
    rewrite Hp in Heq. cbv zeta in Heq.
    destruct (0 <? _) eqn:Hrem; [|done]. apply Z.ltb_lt in Hrem.
    cbn [negb] in Heq.
    destruct best as [p|]; [|done].
    destruct (bool_decide _ || _) eqn:Hcross; cbn [negb] in Heq; [|done].
    destruct (shards_best_price_head _ _ _ (wfse_asks _ Hwf) Hbest)
      as (a & l & Hsort & Hin).
    rewrite Hsort in Heq. injection Heq as ->.
    assert (Ha : shard_rests (ShardedOrderBookSide.shards (asks c)) a).
    { apply shard_rests_orders. by exists p. }
    pose proof (shard_rests_live _ _ _ (wfse_asks _ Hwf) Ha) as Hra.
    destruct (shards_best_price_key _ _ _ _ (wfse_asks _ Hwf) Hbest Hin)
      as [Hpa Hmin].
    rewrite (wfse_asks_side _ Hwf) in Hmin.
    set (q := Z.min _ _) in *.
    assert (Hq : 0 < q ≤ Order.remaining_quantity (deref (objs c) a))
      by (subst q; lia).
    pose proof (shard_rests_fill_step _ (with_cache (Some p) (asks c)) x a q
                  Hwf1 Hlen Hna Ha Hq) as HR'.
    cbv zeta in HR'.
    pose proof (ma_fills _ _ _ _ _ _ _ Hacc) as Hf.
    exists (fs ++ [(a, q)]). split; [done|]. split.
    { cbn [fst snd]. rewrite fmap_app, Htr. simpl.
      by rewrite (create_trade_fills _ _ _ _ _ Hf). }
    split; [done|]. split; [done|]. split; [done|]. split; [done|].
    cbn [fst snd objs bids asks].
    apply and_assoc. split.
    { apply (match_account_step SELL (objs e) (sharded_rests e SELL) x fs
               (objs c) (sharded_rests c SELL) a q); try done.
      - eapply shard_rests_lt; [apply (wfse_asks _ Hwf)|done].
      - by intros ->.
      - apply orb_true_iff in Hcross
          as [Hm%bool_decide_eq_true_1|Hle%Z.leb_le]; [by left|right].
        unfold price_key. simpl. by rewrite Hpa. }
    intros f a' [Hin'| ->%list_elem_of_singleton]%elem_of_app Ha' Hpp.
    + apply Htime; [done| |done]. by apply HR' in Ha' as [? _].
    + cbn [fst] in *. apply HR' in Ha' as [Ha' _].
        destruct (fills_only_fields _ _ a Hf) as (_ & Hp1 & _ & Ht1 & _).
        destruct (fills_only_fields _ _ a' Hf) as (_ & Hp2 & _ & Ht2 & _).
        rewrite <- Ht1, <- Ht2.
        assert (Hin2 : a' ∈ a :: l).
        { rewrite <- Hsort. apply elem_of_sort_by_timestamp.
          apply shard_rests_orders in Ha' as [p' Ha'].
          destruct (shards_best_price_key _ _ _ _ (wfse_asks _ Hwf)
                      Hbest Hin) as [_ _].
          apply elem_of_shard_orders in Ha' as Hs.
          destruct Hs as (s & [i Hi]%list_elem_of_lookup_1 & Hs).
          destruct (wf_level_orders _ _ (wfs_wf _ _ (wfse_asks _ Hwf) _ _ Hi)
                      _ _ Hs) as (_ & Hp' & _).
          replace p with p' by congruence. done. }
        pose proof (sort_by_timestamp_sorted (objs c)
                      (shard_orders (ShardedOrderBookSide.shards (asks c)) p))
          as Hsorted.
        rewrite Hsort in Hsorted.
        apply elem_of_cons in Hin2 as [->|Hin2]; [lia|].
        apply StronglySorted_inv in Hsorted as [_ Hall].
        rewrite Forall_forall in Hall. by apply Hall.
  - intros [trades c] s' Hs Hp.
    destruct (Hs) as (fs & Hinv & Htr & Hb & Hn & Hth & Hoh & Hacc & Hwh
                      & Htime).
    destruct (sharded_buy_pass_exit _ _ _ Hinv Hp)
      as (Hinv' & Htr' & Hobjs' & Hth' & Hoh').
    destruct Hinv as (Hwf & Hlen & Hnb & Hna). cbn [fst snd] in *.
    destruct (sharded_buy_pass_eq x trades c (wfse_asks _ Hwf))
      as (best & Hwf1 & Hbest & Heq).
    rewrite Hp in Heq. cbv zeta in Heq.
    assert (Hsame : bids s'.2 = bids c ∧ num_shards s'.2 = num_shards c
                    ∧ sharded_rests s'.2 SELL = sharded_rests c SELL).
    { destruct (negb (0 <? _)); [by injection Heq as ->|].
      destruct best as [p|]; [|by injection Heq as ->].
      destruct (negb _); [by injection Heq as ->|].
      by destruct (sort_by_timestamp _ _). }
    destruct Hsame as (Hb' & Hn' & HR).
    split.
    { exists fs. rewrite Htr', Hb', Hn', Hobjs', Hth', Hoh', HR. done. }
    cbn [snd]. rewrite Hobjs', HR. unfold match_exit. intros Hrem a Ha.
    destruct (0 <? _) eqn:E; [|apply Z.ltb_ge in E; lia].
    cbn [negb] in Heq.
    destruct best as [p|].
    2:{ destruct Ha as (i & s & Hi & [p' Ha]).
        unfold level_orders in Ha. rewrite (Hbest s) in Ha.
        - rewrite lookup_empty in Ha. by apply elem_of_nil in Ha.
        - by eapply list_elem_of_lookup_2. }
    destruct (shards_best_price_head _ _ _ (wfse_asks _ Hwf) Hbest)
      as (a0 & l & Hsort & Hin).
    destruct (shards_best_price_key _ _ _ _ (wfse_asks _ Hwf) Hbest Hin)
      as [Hpa Hmin].
    rewrite (wfse_asks_side _ Hwf) in Hmin.
    destruct (bool_decide _ || _) eqn:Hcross; cbn [negb] in Heq.
    { by rewrite Hsort in Heq. }
    apply orb_false_iff in Hcross as [Hm%bool_decide_eq_false_1 Hlt%Z.leb_gt].
    split; [done|].
    specialize (Hmin a Ha). unfold price_key in *. simpl in *. lia.
  - exists []. split; [done|]. split; [done|]. split; [done|].
    split; [done|]. split; [done|]. split; [done|].
    split; [apply (match_account_refl SELL)|].
    split; [apply (match_account_refl SELL)|].
    by intros f a ?%elem_of_nil.
Qed.

Lemma sharded_match_sell_account fuel x e r :
  sharded_loop_inv x ([], e) → _match_sell_order fuel x e = Some r →
  sharded_sell_account x e r
  ∧ match_exit BUY x (objs r.2) (sharded_rests r.2 BUY).
Proof.
  intros Hinv0 Hrun. unfold _match_sell_order in Hrun.
  eapply (while_loop_invariant (_match_sell_order_pass x)
            (sharded_sell_account x e)
            (λ s, sharded_sell_account x e s
                  ∧ match_exit BUY x (objs s.2) (sharded_rests s.2 BUY)));
    [| | |exact Hrun].
  - intros [trades c] s'
           (fs & Hinv & Htr & Hb & Hn & Hth & Hoh & Hacc & Hwh & Htime) Hp.
    destruct (sharded_sell_pass_step _ _ _ Hinv Hp)
      as (Hinv' & _ & _ & Hth' & Hoh').
    cbn [fst snd] in Hth, Hoh, Hth', Hoh'.
    rewrite Hth in Hth'. rewrite Hoh in Hoh'.
    destruct Hinv as (Hwf & Hlen & Hnb & Hna). cbn [fst snd] in *.
    destruct (sharded_sell_pass_eq x trades c (wfse_bids _ Hwf))
      as (best & Hwf1 & Hbest & Heq).
    rewrite Hp in Heq. cbv zeta in Heq.
    destruct (0 <? _) eqn:Hrem; [|done]. apply Z.ltb_lt in Hrem.
    cbn [negb] in Heq.
    destruct best as [p|]; [|done].
    destruct (bool_decide _ || _) eqn:Hcross; cbn [negb] in Heq; [|done].
    destruct (shards_best_price_head _ _ _ (wfse_bids _ Hwf) Hbest)
      as (a & l & Hsort & Hin).
    rewrite Hsort in Heq. injection Heq as ->.
    assert (Ha : shard_rests (ShardedOrderBookSide.shards (bids c)) a).
    { apply shard_rests_orders. by exists p. }
    pose proof (shard_rests_live _ _ _ (wfse_bids _ Hwf) Ha) as Hra.
    destruct (shards_best_price_key _ _ _ _ (wfse_bids _ Hwf) Hbest Hin)
      as [Hpa Hmin].
    rewrite (wfse_bids_side _ Hwf) in Hmin.
    set (q := Z.min _ _) in *.
    assert (Hq : 0 < q ≤ Order.remaining_quantity (deref (objs c) a))
      by (subst q; lia).
    pose proof (shard_rests_fill_step _ (with_cache (Some p) (bids c)) x a q
                  Hwf1 Hlen Hnb Ha Hq) as HR'.
    cbv zeta in HR'.
    pose proof (ma_fills _ _ _ _ _ _ _ Hacc) as Hf.
    exists (fs ++ [(a, q)]). split; [done|]. split.
    { cbn [fst snd]. rewrite fmap_app, Htr. simpl.
      by rewrite (create_trade_fills _ _ _ _ _ Hf). }
    split; [done|]. split; [done|]. split; [done|]. split; [done|].
    cbn [fst snd objs asks bids].
    apply and_assoc. split.
    { apply (match_account_step BUY (objs e) (sharded_rests e BUY) x fs
               (objs c) (sharded_rests c BUY) a q); try done.
      - eapply shard_rests_lt; [apply (wfse_bids _ Hwf)|done].
      - by intros ->.
      - apply orb_true_iff in Hcross
          as [Hm%bool_decide_eq_true_1|Hle%Z.leb_le]; [by left|right].
        unfold price_key. simpl. rewrite Hpa. lia. }
    intros f a' [Hin'| ->%list_elem_of_singleton]%elem_of_app Ha' Hpp.
    + apply Htime; [done| |done]. by apply HR' in Ha' as [? _].
    + cbn [fst] in *. apply HR' in Ha' as [Ha' _].
        destruct (fills_only_fields _ _ a Hf) as (_ & Hp1 & _ & Ht1 & _).
        destruct (fills_only_fields _ _ a' Hf) as (_ & Hp2 & _ & Ht2 & _).
        rewrite <- Ht1, <- Ht2.
        assert (Hin2 : a' ∈ a :: l).
        { rewrite <- Hsort. apply elem_of_sort_by_timestamp.
          apply shard_rests_orders in Ha' as [p' Ha'].
          destruct (shards_best_price_key _ _ _ _ (wfse_bids _ Hwf)
                      Hbest Hin) as [_ _].
          apply elem_of_shard_orders in Ha' as Hs.
          destruct Hs as (s & [i Hi]%list_elem_of_lookup_1 & Hs).
          destruct (wf_level_orders _ _ (wfs_wf _ _ (wfse_bids _ Hwf) _ _ Hi)
                      _ _ Hs) as (_ & Hp' & _).
          replace p with p' by congruence. done. }
        pose proof (sort_by_timestamp_sorted (objs c)
                      (shard_orders (ShardedOrderBookSide.shards (bids c)) p))
          as Hsorted.
        rewrite Hsort in Hsorted.
        apply elem_of_cons in Hin2 as [->|Hin2]; [lia|].
        apply StronglySorted_inv in Hsorted as [_ Hall].
        rewrite Forall_forall in Hall. by apply Hall.
  - intros [trades c] s' Hs Hp.
    destruct (Hs) as (fs & Hinv & Htr & Hb & Hn & Hth & Hoh & Hacc & Hwh
                      & Htime).
    destruct (sharded_sell_pass_exit _ _ _ Hinv Hp)
      as (Hinv' & Htr' & Hobjs' & Hth' & Hoh').
    destruct Hinv as (Hwf & Hlen & Hnb & Hna). cbn [fst snd] in *.
    destruct (sharded_sell_pass_eq x trades c (wfse_bids _ Hwf))
      as (best & Hwf1 & Hbest & Heq).
    rewrite Hp in Heq. cbv zeta in Heq.
    assert (Hsame : asks s'.2 = asks c ∧ num_shards s'.2 = num_shards c
                    ∧ sharded_rests s'.2 BUY = sharded_rests c BUY).
    { destruct (negb (0 <? _)); [by injection Heq as ->|].
      destruct best as [p|]; [|by injection Heq as ->].
      destruct (negb _); [by injection Heq as ->|].
      by destruct (sort_by_timestamp _ _). }
    destruct Hsame as (Hb' & Hn' & HR).
    split.
    { exists fs. rewrite Htr', Hb', Hn', Hobjs', Hth', Hoh', HR. done. }
    cbn [snd]. rewrite Hobjs', HR. unfold match_exit. intros Hrem a Ha.
    destruct (0 <? _) eqn:E; [|apply Z.ltb_ge in E; lia].
    cbn [negb] in Heq.
    destruct best as [p|].
    2:{ destruct Ha as (i & s & Hi & [p' Ha]).
        unfold level_orders in Ha. rewrite (Hbest s) in Ha.
        - rewrite lookup_empty in Ha. by apply elem_of_nil in Ha.
        - by eapply list_elem_of_lookup_2. }
    destruct (shards_best_price_head _ _ _ (wfse_bids _ Hwf) Hbest)
      as (a0 & l & Hsort & Hin).
    destruct (shards_best_price_key _ _ _ _ (wfse_bids _ Hwf) Hbest Hin)
      as [Hpa Hmin].
    rewrite (wfse_bids_side _ Hwf) in Hmin.
    destruct (bool_decide _ || _) eqn:Hcross; cbn [negb] in Heq.
    { by rewrite Hsort in Heq. }
    apply orb_false_iff in Hcross as [Hm%bool_decide_eq_false_1 Hlt%Z.leb_gt].
    split; [done|].
    specialize (Hmin a Ha). unfold price_key in *. simpl in *. lia.
  - exists []. split; [done|]. split; [done|]. split; [done|].
    split; [done|]. split; [done|]. split; [done|].
    split; [apply (match_account_refl BUY)|].
    split; [apply (match_account_refl BUY)|].
    by intros f a ?%elem_of_nil.
Qed.


End sharded_accounts.

Section sharded_add_order.

Import ShardedMatchingEngine.

Lemma shard_rests_add_order h b a y :
  wf_sharded_side h b → NoDup (Order.order_id <$> h) →
  (a < length h)%nat → ¬ shard_rests (ShardedOrderBookSide.shards b) a →
  0 < Order.remaining_quantity (deref h a) →
  Order.side (deref h a) = ShardedOrderBookSide.side b →
  shard_rests
    (ShardedOrderBookSide.shards (ShardedOrderBookSide.add_order h a b).2) y
  ↔ shard_rests (ShardedOrderBookSide.shards b) y ∨ y = a.
Proof.
  intros Hwf Hnd Ha Hna Hrem Hside.
  destruct (sharded_add_order_spec h b a Hwf Hnd Ha Hna Hrem Hside)
    as (b' & -> & _ & _ & _ & Hperm). cbn [snd].
  rewrite !shard_rests_orders. split.
  - intros [p Hp]. rewrite Hperm in Hp.
    destruct (decide _); [|by left; exists p].
    apply elem_of_app in Hp as [Hp| ->%list_elem_of_singleton];
      [by left; exists p|by right].
  - intros [[p Hp]| ->].
    + exists p. rewrite Hperm. destruct (decide _); [|done].
      apply elem_of_app. by left.
    + exists (Order.price (deref h a)). rewrite Hperm, decide_True by done.
      apply elem_of_app. right. by left.
Qed.

(** The account of [add_order] of the sharded engine. *)
Lemma sharded_add_order_account fuel x e trades e' :
  wf_sharded e → (x < length (objs e))%nat →
  ¬ shard_rests (ShardedOrderBookSide.shards (bids e)) x →
  ¬ shard_rests (ShardedOrderBookSide.shards (asks e)) x →
  add_order fuel x e = Some (trades, e') →
  wf_sharded e'
  ∧ (∃ fs,
       order_account_of fs (objs e) (sharded_rests e) x trades (objs e')
         (sharded_rests e')
       ∧ time_first (objs e) fs
           (sharded_rests e' (other_side (Order.side (deref (objs e) x)))))
  ∧ num_shards e' = num_shards e
  ∧ trade_history e' = trade_history e ++ trades
  ∧ order_history e' = order_history e ++ [x].
Proof.
  intros Hwf Hlen Hnb Hna. unfold add_order, order_account_of.
  set (e0 := mk (objs e) (num_shards e) (bids e) (asks e) (trade_history e)
                (order_history e ++ [x])).
  assert (Hinv0 : sharded_loop_inv x ([], e0)).
  { split; [|done]. by destruct Hwf. }
  change (objs e0) with (objs e). unfold fill_trade.
  destruct (Order.side (deref (objs e) x)) eqn:Hside.
  - destruct (_match_buy_order fuel x e0) as [[tr e1]|] eqn:Hrun; [|done].
    destruct (sharded_match_buy_account _ _ _ _ Hinv0 Hrun)
      as ((fs & Hinv & Htr & Hb & Hn & Hth & Hoh & Hm & Hwh & Htime) & Hexit).
    destruct Hinv as (Hwf1 & Hlen1 & Hnb1 & Hna1).
    cbn [fst snd] in *. subst tr.
    pose proof (ma_fills _ _ _ _ _ _ _ Hm) as Hf.
    destruct (fills_only_fields _ _ x Hf) as (_ & _ & Hs1 & _).
    change (objs e0) with (objs e) in *. rewrite Hside in Hs1.
    destruct (_ && _) eqn:Hadd; intros [= <- <-].
    + apply andb_true_iff in Hadd as [Hrem%Z.ltb_lt Hlim%bool_decide_eq_true_1].
      pose proof (sharded_add_to_order_book_wf x e1 Hwf1 Hlen1 Hnb1 Hna1 Hrem)
        as Hwf2.
      unfold _add_to_order_book in *. rewrite Hs1 in *.
      cbn [objs bids asks num_shards trade_history order_history] in *.
      split; [by destruct Hwf2|]. split; [|by rewrite Hth, Hoh].
      exists fs. split; [|done]. split; [done|]. split; [done|].
      split; [done|]. split; [done|].
      intros y. unfold sharded_rests. cbn [bids asks].
      assert (Hsd : Order.side (deref (objs e1) x)
                    = ShardedOrderBookSide.side (bids e1))
        by (by rewrite (wfse_bids_side _ Hwf1)).
      rewrite (shard_rests_add_order (objs e1) (bids e1) x y
                 (wfse_bids _ Hwf1) (wfse_ids _ Hwf1) Hlen1 Hnb1 Hrem Hsd).
      rewrite Hb. naive_solver.
    + apply andb_false_iff in Hadd.
      cbn [objs bids asks num_shards trade_history order_history] in *.
      split; [by destruct Hwf1, e1|]. split; [|by rewrite Hth, Hoh].
      exists fs. split; [|done]. split; [done|]. split; [done|].
      split; [done|]. split; [done|].
      intros y. unfold sharded_rests. cbn [bids asks]. rewrite Hb.
      split; [by left|].
      intros [?|(-> & Hrem & Hlim)]; [done|].
      destruct Hadd as [Hadd%Z.ltb_ge|Hadd%bool_decide_eq_false_1]; [lia|done].
  - destruct (_match_sell_order fuel x e0) as [[tr e1]|] eqn:Hrun; [|done].
    destruct (sharded_match_sell_account _ _ _ _ Hinv0 Hrun)
      as ((fs & Hinv & Htr & Hb & Hn & Hth & Hoh & Hm & Hwh & Htime) & Hexit).
    destruct Hinv as (Hwf1 & Hlen1 & Hnb1 & Hna1).
    cbn [fst snd] in *. subst tr.
    pose proof (ma_fills _ _ _ _ _ _ _ Hm) as Hf.
    destruct (fills_only_fields _ _ x Hf) as (_ & _ & Hs1 & _).
    change (objs e0) with (objs e) in *. rewrite Hside in Hs1.
    destruct (_ && _) eqn:Hadd; intros [= <- <-].
    + apply andb_true_iff in Hadd as [Hrem%Z.ltb_lt Hlim%bool_decide_eq_true_1].
      pose proof (sharded_add_to_order_book_wf x e1 Hwf1 Hlen1 Hnb1 Hna1 Hrem)
        as Hwf2.
      unfold _add_to_order_book in *. rewrite Hs1 in *.
      cbn [objs bids asks num_shards trade_history order_history] in *.
      split; [by destruct Hwf2|]. split; [|by rewrite Hth, Hoh].
      exists fs. split; [|done]. split; [done|]. split; [done|].
      split; [done|]. split; [done|].
      intros y. unfold sharded_rests. cbn [bids asks].
      assert (Hsd : Order.side (deref (objs e1) x)
                    = ShardedOrderBookSide.side (asks e1))
        by (by rewrite (wfse_asks_side _ Hwf1)).
      rewrite (shard_rests_add_order (objs e1) (asks e1) x y
                 (wfse_asks _ Hwf1) (wfse_ids _ Hwf1) Hlen1 Hna1 Hrem Hsd).
      rewrite Hb. naive_solver.
    + apply andb_false_iff in Hadd.
      cbn [objs bids asks num_shards trade_history order_history] in *.
      split; [by destruct Hwf1, e1|]. split; [|by rewrite Hth, Hoh].
      exists fs. split; [|done]. split; [done|]. split; [done|].
      split; [done|]. split; [done|].
      intros y. unfold sharded_rests. cbn [bids asks]. rewrite Hb.
      split; [by left|].
      intros [?|(-> & Hrem & Hlim)]; [done|].
      destruct Hadd as [Hadd%Z.ltb_ge|Hadd%bool_decide_eq_false_1]; [lia|done].
Qed.

End sharded_add_order.

Section sharded_sound.

Import ShardedMatchingEngine.

Lemma sharded_rests_lt e sd a :
  wf_sharded e → sharded_rests e sd a → (a < length (objs e))%nat.
Proof.
  intros Hwf Ha. destruct sd; simpl in Ha.
  - by eapply shard_rests_lt; [apply (wfse_bids _ Hwf)|].
  - by eapply shard_rests_lt; [apply (wfse_asks _ Hwf)|].
Qed.

Lemma sharded_rests_live e sd a :
  wf_sharded e → sharded_rests e sd a →
  0 < Order.remaining_quantity (deref (objs e) a)
  ∧ Order.side (deref (objs e) a) = sd.
Proof.
  intros Hwf Ha. destruct sd; simpl in Ha.
  - destruct Ha as (i & s & Hi & Ha).
    destruct (wfs_live _ _ (wfse_bids _ Hwf) _ _ Hi _ Ha) as [? Hs].
    by rewrite (wfs_side _ _ (wfse_bids _ Hwf) _ _ Hi),
         (wfse_bids_side _ Hwf) in Hs.
  - destruct Ha as (i & s & Hi & Ha).
    destruct (wfs_live _ _ (wfse_asks _ Hwf) _ _ Hi _ Ha) as [? Hs].
    by rewrite (wfs_side _ _ (wfse_asks _ Hwf) _ _ Hi),
         (wfse_asks_side _ Hwf) in Hs.
Qed.

(** The account of [submit] of the sharded engine: the new order is the
    object [length (objs e)] of the store. *)
Lemma sharded_submit_account fuel o e trades e' :
  wf_sharded e → Order.order_id o ∉ Order.order_id <$> objs e →
  submit fuel o e = Some (trades, e') →
  wf_sharded e'
  ∧ (∃ fs,
       order_account_of fs (objs e ++ [o]) (sharded_rests e)
         (length (objs e)) trades (objs e') (sharded_rests e')
       ∧ time_first (objs e ++ [o]) fs
           (sharded_rests e' (other_side (Order.side o))))
  ∧ num_shards e' = num_shards e
  ∧ trade_history e' = trade_history e ++ trades
  ∧ order_history e' = order_history e ++ [length (objs e)].
Proof.
  intros Hwf Hfresh Hsub. unfold submit, process_order, alloc in Hsub.
  apply (sharded_add_order_account fuel (length (objs e))
           (mk (objs e ++ [o]) (num_shards e) (bids e) (asks e)
               (trade_history e) (order_history e))) in Hsub;
    cbn [objs bids asks] in *.
  - by rewrite deref_alloc_new in Hsub.
  - by apply wf_sharded_alloc.
  - rewrite length_app. simpl. lia.
  - intros Hr. apply (shard_rests_lt _ _ _ (wfse_bids _ Hwf)) in Hr. lia.
  - intros Hr. apply (shard_rests_lt _ _ _ (wfse_asks _ Hwf)) in Hr. lia.
Qed.

Lemma sharded_submit_sound fuel o e trades e' :
  sound_sharded e → Order.order_id o ∉ Order.order_id <$> objs e →
  submit fuel o e = Some (trades, e') → sound_sharded e'.
Proof.
  intros [Hwf Hun Hlb Hla] Hfresh Hsub.
  destruct (sharded_submit_account _ _ _ _ _ Hwf Hfresh Hsub)
    as (Hwf' & (fs & Hacc & _) & _).
  assert (Hacc' : order_account (objs e ++ [o]) (sharded_rests e)
                    (length (objs e)) trades (objs e') (sharded_rests e'))
    by (by exists fs).
  constructor; [done|..].
  - apply (order_account_uncrossed _ _ _ _ _ _ Hacc').
    intros b a Hb Ha.
    rewrite !deref_alloc_old; [by apply Hun|..].
    + by apply (sharded_rests_lt e SELL).
    + by apply (sharded_rests_lt e BUY).
  - apply (order_account_limit _ _ _ _ _ _ Hacc' BUY).
    intros a Ha. rewrite deref_alloc_old; [by apply Hlb|].
    by apply (sharded_rests_lt e BUY).
  - apply (order_account_limit _ _ _ _ _ _ Hacc' SELL).
    intros a Ha. rewrite deref_alloc_old; [by apply Hla|].
    by apply (sharded_rests_lt e SELL).
Qed.

(** A cancellation leaves on each side orders that rested there. *)
Lemma sharded_cancel_rests id e sd a :
  wf_sharded e → sharded_rests (cancel_order id e).2 sd a →
  sharded_rests e sd a.
Proof.
  intros Hwf Ha.
  destruct (sharded_cancel_spec id e Hwf) as (Hwf' & _ & Hheld & Hobjs).
  destruct (sharded_rests_live _ _ _ Hwf' Ha) as [_ Hs]. rewrite Hobjs in Hs.
  assert (Hh : held (Sharded (cancel_order id e).2) a).
  { destruct sd; [by left|by right]. }
  apply Hheld in Hh as [[Hb|Hb] _].
  - destruct (sharded_rests_live e BUY a Hwf Hb) as [_ Hs'].
    destruct sd; [done|congruence].
  - destruct (sharded_rests_live e SELL a Hwf Hb) as [_ Hs'].
    destruct sd; [congruence|done].
Qed.

Lemma sharded_cancel_sound id e :
  sound_sharded e → sound_sharded (cancel_order id e).2.
Proof.
  intros [Hwf Hun Hlb Hla].
  destruct (sharded_cancel_spec id e Hwf) as (Hwf' & _ & _ & Hobjs).
  constructor; [done|..]; rewrite Hobjs.
  - intros b a Hb Ha.
    apply Hun; [by apply (sharded_cancel_rests id e BUY)
               |by apply (sharded_cancel_rests id e SELL)].
  - intros a Ha. by apply Hlb, (sharded_cancel_rests id e BUY).
  - intros a Ha. by apply Hla, (sharded_cancel_rests id e SELL).
Qed.

Lemma sound_sharded_new n : sound_sharded (new n).
Proof.
  constructor; [apply wf_sharded_new|..]; simpl.
  - intros b a Hb. by destruct (shard_rests_new _ _ _ Hb).
  - intros a Ha. by destruct (shard_rests_new _ _ _ Ha).
  - intros a Ha. by destruct (shard_rests_new _ _ _ Ha).
Qed.

(** Every state that the sharded engine reaches is sound. *)
Lemma reachable_sharded_sound e :
  reachable e → ∀ es, e = Sharded es → sound_sharded es.
Proof.
  induction 1 as [| |n|fuel o e trades e' _ IH Hid Hsub
                  | | | | | | |id e _ IH]; intros es Heq; try done.
  - injection Heq as <-. apply sound_sharded_new.
  - injection Heq as <-. eapply sharded_submit_sound; [by apply IH|done..].
  - destruct e as [e0|e0|e0]; simpl in Heq; try done.
    injection Heq as <-. apply sharded_cancel_sound. by apply IH.
Qed.

End sharded_sound.

(** * The depth of a side *)

Section heaps.

Import OrderBookSide.

Lemma heappush_perm hp x : heappush hp x ≡ₚ x :: hp.
Proof.
  induction hp as [|y hp IH]; simpl; [done|].
  destruct (_ <=? _); [done|]. rewrite IH. apply Permutation_swap.
Qed.

Lemma rebuild_heap_fold_perm s (ps : list Z) hp :
  foldl (λ hp p, heappush hp (heap_key s p)) hp ps
  ≡ₚ (heap_key s <$> ps) ++ hp.
Proof.
  revert hp. induction ps as [|p ps IH]; intros hp; simpl; [done|].
  rewrite IH, heappush_perm. by rewrite Permutation_middle.
Qed.

Lemma rebuild_heap_perm s (pls : gmap Z PriceLevel.t) :
  rebuild_heap s pls ≡ₚ heap_key s <$> (map_to_list pls).*1.
Proof.
  unfold rebuild_heap. rewrite rebuild_heap_fold_perm. by rewrite app_nil_r.
Qed.

Lemma rebuild_heap_NoDup s (pls : gmap Z PriceLevel.t) :
  NoDup (rebuild_heap s pls).
Proof.
  rewrite rebuild_heap_perm. apply NoDup_fmap_2.
  - intros p q. apply heap_key_inj.
  - apply NoDup_fst_map_to_list.
Qed.

(** The heap of a well-formed side with no repetition lists the prices
    of the levels. *)
Lemma heap_perm_levels h b :
  wf_side h b → NoDup (heap b) →
  heap b ≡ₚ heap_key (side b) <$> (map_to_list (price_levels b)).*1.
Proof.
  intros Hwf Hnd. apply NoDup_Permutation; [done| |].
  - apply NoDup_fmap_2; [intros p q; apply heap_key_inj|].
    apply NoDup_fst_map_to_list.
  - intros k. rewrite (wf_heap_elem _ _ Hwf k), list_elem_of_fmap.
    split.
    + intros (p & [l Hl] & ->). exists p. split; [done|].
      apply list_elem_of_fmap. exists (p, l). split; [done|].
      by apply elem_of_map_to_list.
    + intros (p & -> & ([p' l] & -> & Hl%elem_of_map_to_list)%list_elem_of_fmap).
      exists p'. by split; [eexists|].
Qed.

Lemma heap_length_levels h b :
  wf_side h b → NoDup (heap b) → length (heap b) = size (price_levels b).
Proof.
  intros Hwf Hnd. rewrite (heap_perm_levels h b Hwf Hnd).
  rewrite !length_fmap. by rewrite length_map_to_list.
Qed.

Lemma add_order_heap_nodup h a b :
  wf_side h b → NoDup (heap b) → NoDup (heap (add_order h a b).2).
Proof.
  intros Hwf Hnd.
  destruct (add_order_fields h a b) as (_ & _ & -> & _).
  destruct (price_levels b !! _) eqn:E; [done|].
  rewrite heappush_perm. constructor; [|done].
  intros (p & [l Hl] & Hk%heap_key_inj)%(wf_heap_elem _ _ Hwf).
  subst p. by rewrite Hl in E.
Qed.

Lemma remove_order_heap_nodup h id b :
  wf_side h b → NoDup (heap b) → NoDup (heap (remove_order h id b).2).
Proof.
  intros Hwf Hnd.
  destruct (order_map b !! id) as [a|] eqn:E.
  - destruct (remove_order_fields h id a b Hwf E) as (l & tv & _ & ->).
    cbn [snd]. case_bool_decide; simpl; [apply rebuild_heap_NoDup|done].
  - by rewrite (remove_order_absent _ _ _ Hwf E).
Qed.

Lemma drop_if_filled_heap_nodup h a b :
  wf_side h b → NoDup (heap b) → NoDup (heap (drop_if_filled h a b)).
Proof.
  intros Hwf Hnd. unfold drop_if_filled.
  destruct (_ =? _); [by apply remove_order_heap_nodup|done].
Qed.

End heaps.

Section base_heaps.

Import BaseMatchingEngine.

Lemma base_match_buy_heaps fuel x e r :
  base_loop_inv x ([], e) → heaps_nodup e →
  _match_buy_order fuel x e = Some r → heaps_nodup r.2.
Proof.
  intros Hinv0 Hnd0 Hrun. unfold _match_buy_order in Hrun.
  eapply (while_loop_invariant (_match_buy_order_pass x)
            (λ s, base_loop_inv x s ∧ heaps_nodup s.2)
            (λ s, heaps_nodup s.2)); [| | |exact Hrun].
  - intros [trades c] s' [Hinv [Hnb Hna]] Hp.
    destruct (base_buy_pass_step _ _ _ Hinv Hp) as (Hinv' & _).
    split; [done|].
    destruct Hinv as (Hwf & _). cbn [fst snd] in *.
    pose proof (base_buy_pass_inv x trades c (wfb_asks _ _ _ Hwf)) as Hpi.
    rewrite Hp in Hpi.
    destruct Hpi as (p & a & _ & _ & _ & _ & ->).
    split; cbn [snd bids asks]; [done|].
    apply drop_if_filled_heap_nodup; [|done].
    eapply wf_side_fills; [apply (wfb_asks _ _ _ Hwf)|].
    apply fills_only_fill_pair.
  - intros s s' [Hinv Hnd] Hp. by rewrite (base_buy_pass_exit _ _ _ Hinv Hp).
  - done.
Qed.

Lemma base_match_sell_heaps fuel x e r :
  base_loop_inv x ([], e) → heaps_nodup e →
  _match_sell_order fuel x e = Some r → heaps_nodup r.2.
Proof.
  intros Hinv0 Hnd0 Hrun. unfold _match_sell_order in Hrun.
  eapply (while_loop_invariant (_match_sell_order_pass x)
            (λ s, base_loop_inv x s ∧ heaps_nodup s.2)
            (λ s, heaps_nodup s.2)); [| | |exact Hrun].
  - intros [trades c] s' [Hinv [Hnb Hna]] Hp.
    destruct (base_sell_pass_step _ _ _ Hinv Hp) as (Hinv' & _).
    split; [done|].
    destruct Hinv as (Hwf & _). cbn [fst snd] in *.
    pose proof (base_sell_pass_inv x trades c (wfb_bids _ _ _ Hwf)) as Hpi.
    rewrite Hp in Hpi.
    destruct Hpi as (p & a & _ & _ & _ & _ & ->).
    split; cbn [snd bids asks]; [|done].
    apply drop_if_filled_heap_nodup; [|done].
    eapply wf_side_fills; [apply (wfb_bids _ _ _ Hwf)|].
    apply fills_only_fill_pair.
  - intros s s' [Hinv Hnd] Hp. by rewrite (base_sell_pass_exit _ _ _ Hinv Hp).
  - done.
Qed.

Lemma base_submit_heaps fuel o e trades e' :
  wf_base e → heaps_nodup e →
  Order.order_id o ∉ Order.order_id <$> objs e →
  submit fuel o e = Some (trades, e') → heaps_nodup e'.
Proof.
  intros Hwf Hnd Hfresh. unfold submit, alloc, add_order.
  set (x := length (objs e)).
  set (e0 := mk (objs e ++ [o]) (bids e) (asks e) (trade_history e)
                (order_history e ++ [x])).
  cbn [objs bids asks trade_history order_history].
  assert (Hinv0 : base_loop_inv x ([], e0)).
  { split; [by apply wf_book_alloc|]. unfold e0. cbn [fst snd objs bids asks].
    split; [rewrite length_app; simpl; lia|].
    split; intros Hr.
    - apply (rests_lt _ _ _ (wfb_bids _ _ _ Hwf)) in Hr. lia.
    - apply (rests_lt _ _ _ (wfb_asks _ _ _ Hwf)) in Hr. lia. }
  assert (Hm : ∀ r,
    match Order.side (deref (objs e ++ [o]) x) with
    | BUY => _match_buy_order fuel x e0
    | SELL => _match_sell_order fuel x e0
    end = Some r → base_loop_inv x r ∧ heaps_nodup r.2).
  { intros r Hr. destruct (Order.side _).
    - split; [|by eapply base_match_buy_heaps].
      by destruct (base_match_buy_account _ _ _ _ Hinv0 Hr)
        as ((? & ? & _) & _).
    - split; [|by eapply base_match_sell_heaps].
      by destruct (base_match_sell_account _ _ _ _ Hinv0 Hr)
        as ((? & ? & _) & _). }
  destruct (match Order.side _ with BUY => _ | SELL => _ end)
    as [[tr e1]|]; [|done].
  destruct (Hm _ eq_refl) as [(Hwf1 & _) [Hnb Hna]]. cbn [fst snd] in *.
  intros [= <- <-]. destruct (_ && _); [|done].
  unfold _add_to_order_book. destruct (Order.side _); split;
    cbn [objs bids asks]; try done.
  - apply add_order_heap_nodup; [apply Hwf1|done].
  - apply add_order_heap_nodup; [apply Hwf1|done].
Qed.

Lemma base_cancel_heaps id e :
  wf_base e → heaps_nodup e → heaps_nodup (cancel_order id e).2.
Proof.
  intros Hwf [Hnb Hna]. unfold cancel_order.
  case_bool_decide.
  - pose proof (remove_order_heap_nodup (objs e) id (bids e)
                  (wfb_bids _ _ _ Hwf) Hnb).
    by destruct (OrderBookSide.remove_order (objs e) id (bids e)).
  - case_bool_decide; [|done].
    pose proof (remove_order_heap_nodup (objs e) id (asks e)
                  (wfb_asks _ _ _ Hwf) Hna).
    by destruct (OrderBookSide.remove_order (objs e) id (asks e)).
Qed.

(** In every state that the base engine reaches, the heaps of the two
    sides list each price once. *)
Lemma reachable_base_heaps e :
  reachable e → ∀ eb, e = Base eb → heaps_nodup eb.
Proof.
  induction 1 as [|fuel o e trades e' Hr IH Hid Hsub
                  | | | | | | | | |id e Hr IH]; intros eb Heq; try done.
  - injection Heq as <-. split; constructor.
  - injection Heq as <-.
    eapply base_submit_heaps; [|by apply IH|done..].
    apply (reachable_wf _ Hr).
  - destruct e as [e0|e0|e0]; simpl in Heq; try done.
    injection Heq as <-.
    apply base_cancel_heaps; [apply (reachable_wf _ Hr)|by apply IH].
Qed.

End base_heaps.

Section depth.

Import OrderBookSide.

Lemma sorted_le_nodup_lt (l : list Z) :
  StronglySorted Z.le l → NoDup l → StronglySorted Z.lt l.
Proof.
  induction 1 as [|x l Hl IH Hx]; intros Hnd; [constructor|].
  apply NoDup_cons in Hnd as [Hnx Hnd]. constructor; [by apply IH|].
  rewrite Forall_forall in Hx. apply Forall_forall. intros y Hy.
  specialize (Hx y Hy). assert (x ≠ y) by (by intros ->). lia.
Qed.

Lemma get_depth_loop_spec n b hp depth :
  get_depth_loop n b hp depth = depth ++ omap (depth_entry b) (take n hp).
Proof.
  revert hp depth. induction n as [|n IH]; intros hp depth; simpl.
  { by rewrite app_nil_r. }
  destruct hp as [|k hp]; simpl; [by rewrite app_nil_r|].
  rewrite IH. unfold depth_entry.
  destruct (price_levels b !! heap_key (side b) k) as [l|]; [|done].
  destruct (negb _); [|done]. by rewrite <- app_assoc.
Qed.

(** On a well-formed side every key of the heap has its entry. *)
Lemma depth_entry_wf h b k :
  wf_side h b → k ∈ heap b →
  ∃ l, price_levels b !! heap_key (side b) k = Some l
       ∧ depth_entry b k
         = Some (heap_key (side b) k, PriceLevel.total_volume l).
Proof.
  intros Hwf (p & [l Hl] & ->)%(wf_heap_elem _ _ Hwf).
  exists l. unfold depth_entry. rewrite heap_key_involutive, Hl.
  split; [done|].
  pose proof (wf_level_nonempty _ _ Hwf _ _ Hl) as Hne.
  unfold PriceLevel.is_empty. by rewrite bool_decide_eq_false_2.
Qed.

Lemma get_depth_wf h b levels :
  wf_side h b →
  Forall2 (λ k x, ∃ l, price_levels b !! x.1 = Some l
                       ∧ x = (heap_key (side b) k, PriceLevel.total_volume l))
    (take (Z.to_nat (Z.min levels (Z.of_nat (length (heap b))))) (heap b))
    (get_depth levels b).
Proof.
  intros Hwf. unfold get_depth. rewrite get_depth_loop_spec. simpl.
  set (n := Z.to_nat _).
  assert (Hin : ∀ k, k ∈ take n (heap b) → k ∈ heap b).
  { intros k Hk. rewrite <- (take_drop n (heap b)).
    apply elem_of_app. by left. }
  induction (take n (heap b)) as [|k l IH]; simpl; [constructor|].
  destruct (depth_entry_wf h b k Hwf) as (lv & Hl & ->); [apply Hin; left|].
  constructor; [by exists lv|]. apply IH. intros k' Hk'. apply Hin. by right.
Qed.

End depth.

Section depth_spec.

Import OrderBookSide.

Lemma Forall2_strongly_sorted {A B} (R : A → B → Prop) (P : relation A)
    (Q : relation B) ks d :
  Forall2 R ks d → StronglySorted P ks →
  (∀ k k' x x', R k x → R k' x' → P k k' → Q x x') →
  StronglySorted Q d.
Proof.
  intros HF HS HPQ. induction HF as [|k x ks d HR HF IH]; [constructor|].
  apply StronglySorted_inv in HS as [HS Hall].
  constructor; [by apply IH|].
  rewrite Forall_forall in Hall. apply Forall_forall. intros x' Hx'.
  destruct (proj1 (list_elem_of_lookup d x') Hx') as [i Hi].
  destruct (Forall2_lookup_r _ _ _ _ _ HF Hi) as (k' & Hk' & HR').
  eapply HPQ; [done..|]. apply Hall. by eapply list_elem_of_lookup_2.
Qed.

(** What [get_depth] lists on a well-formed side whose heap has no
    repetition. *)
Lemma depth_spec h b levels :
  wf_side h b → NoDup (heap b) →
  let d := get_depth levels b in
  length d = Z.to_nat (Z.min levels (Z.of_nat (size (price_levels b))))
  ∧ StronglySorted
      (λ x y, heap_key (side b) x.1 < heap_key (side b) y.1) d
  ∧ (∀ p v, (p, v) ∈ d →
            ∃ l, price_levels b !! p = Some l
                 ∧ v = PriceLevel.total_volume l
                 ∧ ∃ a, a ∈ level_orders b p)
  ∧ (∀ p v q, (p, v) ∈ d → is_Some (price_levels b !! q) → q ∉ d.*1 →
              heap_key (side b) p < heap_key (side b) q)
  ∧ (0 < levels → fst <$> head d = (get_best_price b).1).
Proof.
  intros Hwf Hnd d.
  pose proof (get_depth_wf h b levels Hwf) as HF. fold d in HF.
  set (n := Z.to_nat (Z.min levels (Z.of_nat (length (heap b))))) in *.
  pose proof (sorted_le_nodup_lt _ (wf_heap_sorted _ _ Hwf) Hnd) as Hlt.
  assert (Hmem : ∀ x, x ∈ d →
            ∃ k l, k ∈ take n (heap b) ∧ price_levels b !! x.1 = Some l
                   ∧ x = (heap_key (side b) k, PriceLevel.total_volume l)).
  { intros x [i Hi]%list_elem_of_lookup.
    destruct (Forall2_lookup_r _ _ _ _ _ HF Hi) as (k & Hk & l & Hl & ->).
    exists k, l. split; [by eapply list_elem_of_lookup_2|done]. }
  split; [|split; [|split; [|split]]].
  - rewrite <- (Forall2_length _ _ _ HF), length_take.
    rewrite <- (heap_length_levels h b Hwf Hnd). subst n. lia.
  - eapply (Forall2_strongly_sorted _ Z.lt); [exact HF| |].
    + rewrite <- (take_drop n (heap b)) in Hlt.
      by apply StronglySorted_app_1_l in Hlt.
    + intros k k' x x' (l & _ & ->) (l' & _ & ->) Hkk. simpl.
      by rewrite !heap_key_involutive.
  - intros p v Hin. destruct (Hmem _ Hin) as (k & l & _ & Hl & Heq).
    simpl in Hl. injection Heq as -> ->.
    exists l. split; [done|]. split; [done|].
    apply nonempty_elem, (wf_level_is_Some _ _ _ Hwf). by eexists.
  - intros p v q Hin Hq Hnin.
    destruct (Hmem _ Hin) as (k & l & Hk & _ & Heq). injection Heq as -> _.
    rewrite heap_key_involutive.
    assert (Hqh : heap_key (side b) q ∈ heap b).
    { apply (wf_heap_elem _ _ Hwf). by exists q. }
    rewrite <- (take_drop n (heap b)) in Hqh, Hlt.
    apply elem_of_app in Hqh as [Hqh|Hqh].
    + destruct Hnin. apply list_elem_of_fmap.
      destruct (proj1 (list_elem_of_lookup _ _) Hqh) as [i Hi].
      destruct (Forall2_lookup_l _ _ _ _ _ HF Hi) as (x & Hx & l' & _ & ->).
      exists (heap_key (side b) (heap_key (side b) q),
              PriceLevel.total_volume l').
      split; [by rewrite heap_key_involutive|].
      by eapply list_elem_of_lookup_2.
    + by apply (StronglySorted_app_1_elem_of Z.lt _ _ k _ Hlt).
  - intros Hpos. rewrite (get_best_price_wf _ _ Hwf). cbn [fst].
    unfold _heap_peek. subst n. destruct (heap b) as [|k hp] eqn:E.
    + rewrite take_nil in HF. apply Forall2_nil_inv_l in HF. by rewrite HF.
    + destruct (Z.to_nat (Z.min levels (Z.of_nat (length (k :: hp)))))
        as [|n'] eqn:En.
      { simpl length in En. lia. }
      simpl in HF.
      apply Forall2_cons_inv_l in HF as (x & d' & (l & _ & ->) & _ & ->).
      done.
Qed.

End depth_spec.

Section best_price.

Import OrderBookSide.

(** What [get_best_price] returns on a well-formed side. *)
Lemma best_price_spec h b :
  wf_side h b →
  (get_best_price b).2 = b
  ∧ match (get_best_price b).1 with
    | Some p =>
        (∃ a, rests b a ∧ Order.price (deref h a) = p)
        ∧ ∀ a, rests b a →
               heap_key (side b) p ≤ heap_key (side b) (Order.price (deref h a))
    | None => ∀ a, ¬ rests b a
    end.
Proof.
  intros Hwf. rewrite (get_best_price_wf _ _ Hwf). cbn [fst snd].
  split; [done|].
  destruct (_heap_peek b) as [p|] eqn:Hpeek.
  - pose proof (heap_peek_best _ _ _ Hwf Hpeek) as Hbest.
    destruct (head_level_orders _ _ p Hwf) as (l & a & _ & _ & Hhead);
      [apply Hbest|].
    destruct (best_head_price_key _ _ _ _ Hwf Hbest Hhead) as [Hpa Hmin].
    split; [exists a; split; [by eapply head_rests|done]|].
    intros a' Ha'. specialize (Hmin a' Ha'). unfold price_key in Hmin.
    by rewrite Hpa in Hmin.
  - intros a. by apply (heap_peek_None_rests _ _ a Hwf).
Qed.

(** The side [sd] of the book of a state that the base engine
    reaches. *)
Lemma reachable_base_side e sd :
  reachable (Base e) →
  wf_side (BaseMatchingEngine.objs e) (base_side e sd)
  ∧ NoDup (heap (base_side e sd))
  ∧ side (base_side e sd) = sd.
Proof.
  intros Hr. pose proof (reachable_wf _ Hr) as Hwf. simpl in Hwf.
  destruct (reachable_base_heaps _ Hr e eq_refl) as [Hnb Hna].
  destruct sd; simpl; (split; [apply Hwf|]); (split; [done|apply Hwf]).
Qed.

End best_price.

Section round_trip.

Import OrderBookSide.

(** [remove_order] of a resting order, with the volume that it leaves
    at the level. *)
Lemma remove_order_fields_volume h id a b :
  wf_side h b → order_map b !! id = Some a →
  let p := Order.price (deref h a) in
  let os := filter (λ x, x ≠ a) (level_orders b p) in
  ∃ l,
    price_levels b !! p = Some l
    ∧ remove_order h id b
      = (true,
         if bool_decide (os = []) then
           mk (side b) (rebuild_heap (side b) (delete p (price_levels b)))
              (delete p (price_levels b)) (delete id (order_map b))
              (delete id (order_to_price_level b))
         else
           mk (side b) (heap b)
              (<[p := PriceLevel.mk p os
                        (PriceLevel.total_volume l
                         - Order.remaining_quantity (deref h a))]>
                 (price_levels b))
              (delete id (order_map b))
              (delete id (order_to_price_level b))).
Proof.
  intros Hwf Hid p os.
  destruct (wf_order_map _ _ Hwf _ _ Hid) as [Hida Hin]. fold p in Hin.
  destruct (elem_of_level_orders _ _ _ Hin) as (l & Hl & Hal).
  exists l. split; [done|].
  unfold remove_order.
  rewrite (wf_order_to_price_level _ _ Hwf), Hid. simpl. fold p.
  rewrite Hl. unfold PriceLevel.remove_order.
  assert (Hos : level_orders b p = PriceLevel.orders l)
    by by apply level_orders_lookup.
  rewrite (remove_first_filter _ a).
  - unfold PriceLevel.is_empty. simpl.
    rewrite (wf_level_price _ _ Hwf _ _ Hl).
    subst os. rewrite Hos.
    destruct (bool_decide (filter _ _ = [])); [|done].
    by rewrite delete_insert_eq.
  - rewrite <- Hos. apply (wf_level_nodup _ _ Hwf).
  - done.
  - unfold PriceLevel.same_order. by rewrite bool_decide_eq_true_2.
  - intros x Hx. unfold PriceLevel.same_order.
    intros [Hx'|Hx']%orb_true_iff; apply bool_decide_eq_true_1 in Hx';
      [done|].
    rewrite <- Hos in Hx.
    destruct (wf_level_orders _ _ Hwf _ _ Hx) as (_ & _ & Hmx).
    destruct (wf_level_orders _ _ Hwf _ _ Hin) as (_ & _ & Hma).
    rewrite Hx' in Hmx. congruence.
Qed.

(** The heap of a well-formed side with no repetition is the heap
    rebuilt from its levels. *)
Lemma rebuild_heap_id h b :
  wf_side h b → NoDup (heap b) → rebuild_heap (side b) (price_levels b) = heap b.
Proof.
  intros Hwf Hnd.
  apply (StronglySorted_unique_strong Z.le).
  - intros; lia.
  - apply rebuild_heap_sorted.
  - apply (wf_heap_sorted _ _ Hwf).
  - by rewrite rebuild_heap_perm, (heap_perm_levels h b).
Qed.

(** An order that is added to a side and removed again leaves the side
    as it was. *)
Lemma add_remove_round_trip h a b :
  wf_side h b → NoDup (heap b) → NoDup (Order.order_id <$> h) →
  (a < length h)%nat → ¬ rests b a →
  remove_order h (Order.order_id (deref h a)) (add_order h a b).2 = (true, b).
Proof.
  intros Hwf Hnd Hids Ha Hna.
  pose proof (order_map_fresh _ _ _ Hwf Hids Ha Hna) as Hfresh.
  pose proof (add_order_wf h a b Hwf Ha Hfresh) as Hwf1.
  destruct (add_order_fields h a b) as (Hs1 & Hp1 & Hh1 & Ho1 & Hl1).
  cbv zeta in Hs1, Hp1, Hh1, Ho1, Hl1.
  set (b1 := (add_order h a b).2) in *.
  set (p := Order.price (deref h a)) in *.
  set (id := Order.order_id (deref h a)) in *.
  assert (Hid1 : order_map b1 !! id = Some a)
    by (by rewrite Ho1, lookup_insert_eq).
  destruct (remove_order_fields_volume h id a b1 Hwf1 Hid1) as (l1 & Hl & ->).
  fold p. rewrite Hp1, lookup_insert_eq in Hl. injection Hl as <-.
  assert (Hlo : level_orders b1 p = level_orders b p ++ [a]).
  { subst b1. rewrite add_order_level_orders. by rewrite decide_True. }
  assert (Hfil : filter (λ x, x ≠ a) (level_orders b1 p) = level_orders b p).
  { rewrite Hlo, filter_app, filter_ne_not_in.
    - rewrite filter_cons_False by (intros ?; done). by rewrite app_nil_r.
    - intros Hin. apply Hna. by exists p. }
  rewrite Hfil, Hs1, Ho1, Hl1, Hp1, Hh1.
  rewrite !delete_insert_eq.
  rewrite (delete_id (order_map b)) by done.
  rewrite (delete_id (order_to_price_level b))
    by (by rewrite (wf_order_to_price_level _ _ Hwf), Hfresh).
  f_equal. unfold level_orders.
  destruct (price_levels b !! p) as [l0|] eqn:E; simpl.
  - rewrite bool_decide_eq_false_2 by apply (wf_level_nonempty _ _ Hwf _ _ E).
    rewrite insert_insert_eq. unfold PriceLevel.add_order. simpl.
    replace (PriceLevel.total_volume l0
             + Order.remaining_quantity (deref h a)
             - Order.remaining_quantity (deref h a))
      with (PriceLevel.total_volume l0) by lia.
    rewrite insert_id; [by destruct b|].
    rewrite E. f_equal. destruct l0 as [p0 os0 v0]. simpl.
    by rewrite <- (wf_level_price _ _ Hwf _ _ E).
  - rewrite (delete_id _ _ E).
    rewrite (rebuild_heap_id h b Hwf Hnd). by destruct b.
Qed.

End round_trip.

(** * The sharded side of a book *)

Section sharded_sides.

Import ShardedOrderBookSide.

(** The lists of the elements of a list are free of repetitions when
    each of them is and no two of them share an element. *)
Lemma NoDup_flat_map {A B} (f : A → list B) (l : list A) :
  (∀ i x, l !! i = Some x → NoDup (f x)) →
  (∀ i j x y b, l !! i = Some x → l !! j = Some y →
                b ∈ f x → b ∈ f y → i = j) →
  NoDup (flat_map f l).
Proof.
  induction l as [|x l IH]; intros Hnd Hdis; simpl; [constructor|].
  apply NoDup_app. split; [by apply (Hnd 0%nat)|]. split.
  - intros b Hb (y & Hy & Hby)%list_elem_of_In%in_flat_map.
    apply list_elem_of_In, list_elem_of_lookup_1 in Hy as [j Hj].
    apply list_elem_of_In in Hby.
    by specialize (Hdis 0%nat (S j) x y b eq_refl Hj Hb Hby).
  - apply IH.
    + intros i y Hi. by apply (Hnd (S i)).
    + intros i j y z b Hi Hj Hy Hz.
      by specialize (Hdis (S i) (S j) y z b Hi Hj Hy Hz) as [= ->].
Qed.

(** In a sorted list an element stands before the ones that it is
    related to. *)
Lemma StronglySorted_lookup_lt {A} (R : A → A → Prop) (l : list A) i j x y :
  StronglySorted R l → (i < j)%nat → l !! i = Some x → l !! j = Some y →
  R x y.
Proof.
  intros Hs. revert i j.
  induction Hs as [|z l Hs IH Hz]; intros i j Hij Hx Hy; [done|].
  destruct j as [|j]; [lia|]. simpl in Hy.
  destruct i as [|i]; simpl in Hx.
  - injection Hx as ->. rewrite Forall_forall in Hz. apply Hz.
    by eapply list_elem_of_lookup_2.
  - apply (IH i j); [lia|done..].
Qed.

(** An order rests at one price of one shard. *)
Lemma shard_orders_NoDup h b p :
  wf_sharded_side h b → NoDup (shard_orders (shards b) p).
Proof.
  intros Hwf. apply NoDup_flat_map.
  - intros i s Hi. apply (wf_level_nodup _ _ (wfs_wf _ _ Hwf _ _ Hi)).
  - intros i j s t a Hi Hj Hs Ht.
    rewrite <- (wfs_index _ _ Hwf i s a Hi) by (by exists p).
    by rewrite <- (wfs_index _ _ Hwf j t a Hj) by (by exists p).
Qed.

(** [get_orders_at_best_price] on a well-formed sharded side: the
    orders that rest in the shards at the best price, each once, by
    their timestamps. *)
Lemma sharded_orders_at_best_spec h b :
  wf_sharded_side h b →
  let os := (get_orders_at_best_price h b).1 in
  shards (get_orders_at_best_price h b).2 = shards b
  ∧ (∀ a, a ∈ os
          ↔ shard_rests (shards b) a
            ∧ ∀ y, shard_rests (shards b) y →
                   price_key (side b) h a ≤ price_key (side b) h y)
  ∧ NoDup os
  ∧ StronglySorted
      (λ x y, Order.timestamp (deref h x) ≤ Order.timestamp (deref h y)) os.
Proof.
  intros Hwf os. subst os.
  destruct (sharded_get_best_price_spec h b Hwf) as (best & Hget & Hwf' & Hb).
  unfold get_orders_at_best_price. rewrite Hget.
  destruct best as [p|]; cbn [fst snd].
  - rewrite collect_orders_shard_orders. cbn [with_cache shards].
    split; [done|]. split; [|split].
    + intros a. rewrite sort_by_timestamp_perm. split.
      * intros Ha.
        destruct (shards_best_price_key h b p a Hwf Hb Ha) as [_ Hmin].
        split; [|done]. apply shard_rests_orders. by exists p.
      * intros [Ha Hmin].
        destruct (shards_best_price_head h b p Hwf Hb) as (y & l & _ & Hy).
        destruct (shards_best_price_key h b p y Hwf Hb Hy) as [Hpy Hymin].
        assert (Hry : shard_rests (shards b) y)
          by (apply shard_rests_orders; by exists p).
        specialize (Hmin y Hry). specialize (Hymin a Ha).
        assert (Hpa : Order.price (deref h a) = p).
        { rewrite <- Hpy. unfold price_key in *.
          apply (heap_key_inj (side b)). lia. }
        destruct Ha as (i & s & Hi & q & Hq).
        destruct (wf_level_orders _ _ (wfs_wf _ _ Hwf _ _ Hi) _ _ Hq)
          as (_ & Hpq & _).
        apply elem_of_shard_orders. exists s.
        split; [by eapply list_elem_of_lookup_2|]. congruence.
    + rewrite sort_by_timestamp_perm. by apply (shard_orders_NoDup h).
    + apply sort_by_timestamp_sorted.
  - split; [done|]. split; [|split; constructor].
    intros a. split; [by intros ?%elem_of_nil|].
    intros [(i & s & Hi & q & Hq) _].
    apply elem_of_level_orders in Hq as (l & Hl & _).
    rewrite (Hb s) in Hl by (by eapply list_elem_of_lookup_2). done.
Qed.

(** The sides of the book of a state that the sharded engine
    reaches. *)
Lemma reachable_sharded_side e sd :
  reachable (Sharded e) →
  wf_sharded_side (ShardedMatchingEngine.objs e) (sharded_side e sd)
  ∧ side (sharded_side e sd) = sd
  ∧ shard_rests (shards (sharded_side e sd)) = sharded_rests e sd.
Proof.
  intros Hr. pose proof (reachable_wf _ Hr) as Hwf. simpl in Hwf.
  destruct sd; simpl; (split; [apply Hwf|]); (split; [apply Hwf|done]).
Qed.

End sharded_sides.

(** * The statistics of the sharded sides *)

Section sharded_statistics.

Import ShardedMatchingEngine.

Lemma sum_list_with_insert {A} (f : A → nat) (l : list A) i x y :
  l !! i = Some x →
  (sum_list_with f (<[i:=y]> l) + f x = sum_list_with f l + f y)%nat.
Proof.
  revert i. induction l as [|z l IH]; intros [|i] Hi; simplify_eq/=; [lia|].
  specialize (IH i Hi). lia.
Qed.

(** [remove_order] of a side takes one id from [order_map] when it
    answers [True], and changes nothing when it answers [False]. *)
Lemma remove_order_size h id b :
  if (OrderBookSide.remove_order h id b).1
  then S (size (OrderBookSide.order_map (OrderBookSide.remove_order h id b).2))
       = size (OrderBookSide.order_map b)
  else (OrderBookSide.remove_order h id b).2 = b.
Proof.
  unfold OrderBookSide.remove_order.
  destruct (OrderBookSide.order_to_price_level b !! id) as [p|]; [|done].
  destruct (OrderBookSide.price_levels b !! p) as [l|]; [|done].
  destruct (OrderBookSide.order_map b !! id) as [a|] eqn:Ha; [|done].
  destruct (PriceLevel.remove_order h a l) as [[|] l']; [|done].
  assert (S (size (delete id (OrderBookSide.order_map b)))
          = size (OrderBookSide.order_map b)).
  { rewrite map_size_delete_Some by done.
    pose proof (map_size_ne_0_lookup_2 (OrderBookSide.order_map b) id
                  ltac:(done)).
    lia. }
  by destruct (PriceLevel.is_empty l').
Qed.

Lemma sharded_remove_counts h id b :
  side_counts b → side_counts (ShardedOrderBookSide.remove_order h id b).2.
Proof.
  unfold side_counts, shard_order_count, ShardedOrderBookSide.remove_order.
  intros Hc.
  destruct (ShardedOrderBookSide.shards b !! _) as [shard|] eqn:Hi; [|done].
  pose proof (remove_order_size h id shard) as Hsz.
  destruct (OrderBookSide.remove_order h id shard) as [[|] shard'];
    cbn [fst snd] in *.
  - cbn [ShardedOrderBookSide.total_orders
         ShardedOrderBookSide.total_cancellations
         ShardedOrderBookSide.shards].
    pose proof (sum_list_with_insert
                  (λ s, size (OrderBookSide.order_map s)) _ _ _ shard' Hi).
    lia.
  - subst shard'.
    cbn [ShardedOrderBookSide.total_orders
         ShardedOrderBookSide.total_cancellations
         ShardedOrderBookSide.shards].
    by rewrite list_insert_id.
Qed.

Lemma sharded_add_counts h a b :
  wf_sharded_side h b → NoDup (Order.order_id <$> h) →
  (a < length h)%nat → ¬ shard_rests (ShardedOrderBookSide.shards b) a →
  side_counts b → side_counts (ShardedOrderBookSide.add_order h a b).2.
Proof.
  intros Hwf Hnd Ha Hna.
  unfold side_counts, shard_order_count, ShardedOrderBookSide.add_order.
  intros Hc.
  destruct (ShardedOrderBookSide.shards b !! _) as [shard|] eqn:Hi; [|done].
  assert (Hfresh : OrderBookSide.order_map shard
                   !! Order.order_id (deref h a) = None).
  { apply order_map_fresh; [by apply (wfs_wf _ _ Hwf _ _ Hi)|done|done|].
    intros Hr. apply Hna. by eexists _, _. }
  destruct (add_order_fields h a shard) as (_ & _ & _ & Hom & _).
  cbv zeta in Hom.
  destruct (OrderBookSide.add_order h a shard) as [r shard'] eqn:E.
  assert (r = true) as ->.
  { unfold OrderBookSide.add_order in E. by injection E as <- _. }
  cbn [fst snd] in *.
  cbn [ShardedOrderBookSide.total_orders
       ShardedOrderBookSide.total_cancellations
       ShardedOrderBookSide.shards].
  pose proof (sum_list_with_insert
                (λ s, size (OrderBookSide.order_map s)) _ _ _ shard' Hi)
    as Hs.
  cbn beta in Hs. rewrite Hom, map_size_insert_None in Hs by done. lia.
Qed.

(** A pass of a matching loop keeps the counters. *)
Lemma sharded_buy_pass_counts x s s' :
  sharded_loop_inv x s → sharded_counts s.2 →
  _match_buy_order_pass x s = inl s' ∨ _match_buy_order_pass x s = inr s' →
  sharded_counts s'.2.
Proof.
  destruct s as [trades e]. intros (Hwf & _) [Hb Ha] Hp. cbn [fst snd] in *.
  destruct (sharded_buy_pass_eq x trades e (wfse_asks _ Hwf))
    as (best & _ & _ & Heq).
  rewrite Heq in Hp. cbv zeta in Hp. clear Heq.
  destruct (negb (0 <? _)).
  { by destruct Hp as [[= <-]|[=]]. }
  destruct best as [p|]; [|by destruct Hp as [[= <-]|[=]]].
  destruct (negb _).
  { by destruct Hp as [[= <-]|[=]]. }
  destruct (sort_by_timestamp _ _) as [|a l].
  { by destruct Hp as [[=]|[= <-]]. }
  destruct Hp as [[=]|[= <-]]. split; cbn [snd bids asks]; [done|].
  destruct (_ =? 0); [by apply sharded_remove_counts|done].
Qed.

Lemma sharded_sell_pass_counts x s s' :
  sharded_loop_inv x s → sharded_counts s.2 →
  _match_sell_order_pass x s = inl s' ∨ _match_sell_order_pass x s = inr s' →
  sharded_counts s'.2.
Proof.
  destruct s as [trades e]. intros (Hwf & _) [Hb Ha] Hp. cbn [fst snd] in *.
  destruct (sharded_sell_pass_eq x trades e (wfse_bids _ Hwf))
    as (best & _ & _ & Heq).
  rewrite Heq in Hp. cbv zeta in Hp. clear Heq.
  destruct (negb (0 <? _)).
  { by destruct Hp as [[= <-]|[=]]. }
  destruct best as [p|]; [|by destruct Hp as [[= <-]|[=]]].
  destruct (negb _).
  { by destruct Hp as [[= <-]|[=]]. }
  destruct (sort_by_timestamp _ _) as [|a l].
  { by destruct Hp as [[=]|[= <-]]. }
  destruct Hp as [[=]|[= <-]]. split; cbn [snd bids asks]; [|done].
  destruct (_ =? 0); [by apply sharded_remove_counts|done].
Qed.

Lemma sharded_match_buy_counts fuel x e r :
  sharded_loop_inv x ([], e) → sharded_counts e →
  _match_buy_order fuel x e = Some r → sharded_counts r.2.
Proof.
  intros Hinv0 Hc0 Hrun. unfold _match_buy_order in Hrun.
  eapply (while_loop_invariant (_match_buy_order_pass x)
            (λ s, sharded_loop_inv x s ∧ sharded_counts s.2)
            (λ s, sharded_counts s.2)); [| | |exact Hrun].
  - intros s s' [Hinv Hc] Hp.
    destruct (sharded_buy_pass_step _ _ _ Hinv Hp) as (Hinv' & _).
    split; [done|]. apply (sharded_buy_pass_counts x s s'); [done|done|].
    by right.
  - intros s s' [Hinv Hc] Hp.
    apply (sharded_buy_pass_counts x s s'); [done|done|by left].
  - done.
Qed.

Lemma sharded_match_sell_counts fuel x e r :
  sharded_loop_inv x ([], e) → sharded_counts e →
  _match_sell_order fuel x e = Some r → sharded_counts r.2.
Proof.
  intros Hinv0 Hc0 Hrun. unfold _match_sell_order in Hrun.
  eapply (while_loop_invariant (_match_sell_order_pass x)
            (λ s, sharded_loop_inv x s ∧ sharded_counts s.2)
            (λ s, sharded_counts s.2)); [| | |exact Hrun].
  - intros s s' [Hinv Hc] Hp.
    destruct (sharded_sell_pass_step _ _ _ Hinv Hp) as (Hinv' & _).
    split; [done|]. apply (sharded_sell_pass_counts x s s'); [done|done|].
    by right.
  - intros s s' [Hinv Hc] Hp.
    apply (sharded_sell_pass_counts x s s'); [done|done|by left].
  - done.
Qed.

Lemma sharded_submit_counts fuel o e trades e' :
  wf_sharded e → sharded_counts e →
  Order.order_id o ∉ Order.order_id <$> objs e →
  submit fuel o e = Some (trades, e') → sharded_counts e'.
Proof.
  intros Hwf Hc Hfresh. unfold submit, alloc, process_order, add_order.
  set (x := length (objs e)).
  set (e0 := mk (objs e ++ [o]) (num_shards e) (bids e) (asks e)
                (trade_history e) (order_history e ++ [x])).
  cbn [objs bids asks num_shards trade_history order_history].
  assert (Hinv0 : sharded_loop_inv x ([], e0)).
  { split; [by destruct (wf_sharded_alloc e o Hwf Hfresh)|].
    unfold e0. cbn [fst snd objs bids asks].
    split; [rewrite length_app; simpl; lia|].
    split; intros Hr.
    - apply (shard_rests_lt _ _ _ (wfse_bids _ Hwf)) in Hr. lia.
    - apply (shard_rests_lt _ _ _ (wfse_asks _ Hwf)) in Hr. lia. }
  assert (Hm : ∀ r,
    match Order.side (deref (objs e ++ [o]) x) with
    | BUY => _match_buy_order fuel x e0
    | SELL => _match_sell_order fuel x e0
    end = Some r → sharded_loop_inv x r ∧ sharded_counts r.2).
  { intros r Hr. destruct (Order.side _).
    - split; [|by eapply sharded_match_buy_counts].
      by destruct (sharded_match_buy_account _ _ _ _ Hinv0 Hr)
        as ((? & ? & _) & _).
    - split; [|by eapply sharded_match_sell_counts].
      by destruct (sharded_match_sell_account _ _ _ _ Hinv0 Hr)
        as ((? & ? & _) & _). }
  destruct (match Order.side _ with BUY => _ | SELL => _ end)
    as [[tr e1]|]; [|done].
  destruct (Hm _ eq_refl) as [(Hwf1 & Hx1 & Hnb1 & Hna1) [Hb Ha]].
  cbn [fst snd] in *.
  intros [= <- <-]. destruct (_ && _); [|done].
  unfold _add_to_order_book. destruct (Order.side _); split;
    cbn [objs bids asks]; try done.
  - apply sharded_add_counts;
      [apply Hwf1|apply (wfse_ids _ Hwf1)|done|done|done].
  - apply sharded_add_counts;
      [apply Hwf1|apply (wfse_ids _ Hwf1)|done|done|done].
Qed.

Lemma sharded_cancel_counts id e :
  sharded_counts e → sharded_counts (cancel_order id e).2.
Proof.
  intros [Hb Ha]. unfold cancel_order.
  pose proof (sharded_remove_counts (objs e) id (bids e) Hb) as Hb'.
  destruct (ShardedOrderBookSide.remove_order (objs e) id (bids e))
    as [[|] bids']; cbn [snd] in *; [done|].
  pose proof (sharded_remove_counts (objs e) id (asks e) Ha) as Ha'.
  by destruct (ShardedOrderBookSide.remove_order (objs e) id (asks e))
    as [r asks'].
Qed.

Lemma side_counts_new s n : side_counts (ShardedOrderBookSide.new s n).
Proof.
  unfold side_counts, shard_order_count, ShardedOrderBookSide.new.
  cbn [ShardedOrderBookSide.total_orders
       ShardedOrderBookSide.total_cancellations
       ShardedOrderBookSide.shards].
  assert (H : ∀ k, sum_list_with
                     (λ s0, size (OrderBookSide.order_map s0))
                     (replicate k (OrderBookSide.new s)) = 0%nat).
  { induction k as [|k IH]; [done|]. cbn [replicate sum_list_with].
    rewrite IH.
    change (OrderBookSide.order_map (OrderBookSide.new s))
      with (∅ : gmap string nat).
    by rewrite map_size_empty. }
  by rewrite H.
Qed.

(** In every state that the sharded engine reaches the counters of the
    two sides count the orders that came and went. *)
Lemma reachable_sharded_counts e :
  reachable e →
  match e with
  | Sharded es => sharded_counts es
  | _ => True
  end.
Proof.
  induction 1 as [| |n|fuel o e trades e' Hr IH Hid Hsub
                  | | | | | | |id e _ IH]; try done.
  - split; apply side_counts_new.
  - exact (sharded_submit_counts _ _ _ _ _ (reachable_wf _ Hr) IH Hid Hsub).
  - destruct e as [e0|e0|e0]; simpl; try done.
    by apply sharded_cancel_counts.
Qed.

(** The sum of [num_orders] over the shards in [get_statistics]. *)
Lemma shard_details_count b :
  sum_list_with (λ d, d.1.2)
    (ShardedOrderBookSide.shard_details
       (ShardedOrderBookSide.get_statistics b))
  = shard_order_count b.
Proof.
  unfold shard_order_count, ShardedOrderBookSide.get_statistics.
  cbn [ShardedOrderBookSide.shard_details].
  generalize (ShardedOrderBookSide.shards b). intros l.
  generalize 0%nat. induction l as [|s l IH]; intros k; [done|].
  cbn [imap sum_list_with fst snd]. f_equal.
  rewrite <- (IH (S k)). clear IH.
  assert (H : ∀ (f g : nat → OrderBookSide.t → nat * nat * nat) l',
            (∀ i y, (f i y).1.2 = (g i y).1.2) →
            sum_list_with (λ d, d.1.2) (imap f l')
            = sum_list_with (λ d, d.1.2) (imap g l')).
  { intros f g l'. revert f g.
    induction l' as [|y l' IH']; intros f g Hfg; [done|].
    cbn [imap sum_list_with]. rewrite (Hfg 0%nat y). f_equal.
    apply IH'. intros i z. apply Hfg. }
  apply H. done.
Qed.

End sharded_statistics.

(** * The exchange engine: ticks and counters *)

Section ticks.




End ticks.

(** ** The counters *)

Section counters.

Import NSEMatchingEngine.

Lemma nse_counts_same e e' :
  total_trades e' = total_trades e →
  trade_history e' = trade_history e →
  total_orders_processed e' = total_orders_processed e →
  order_history e' = order_history e →
  nse_counts e → nse_counts e'.
Proof. unfold nse_counts. by intros -> -> -> ->. Qed.

Lemma nse_frame_counts e e' : nse_frame e e' → nse_counts e → nse_counts e'.
Proof. intros H. apply nse_counts_same; apply H. Qed.

Lemma after_breaker_counts tr e :
  nse_counts e → nse_counts (after_breaker tr e).
Proof.
  unfold after_breaker, _check_circuit_breaker.
  destruct (negb _); [by apply nse_counts_same|].
  destruct (Qle_bool _ _); by apply nse_counts_same.
Qed.

Lemma process_triggered_counts
    (f : nat → t → option (list Trade.t * t)) l e e4 :
  (∀ o e1 ts e2, f o e1 = Some (ts, e2) → nse_counts e1 → nse_counts e2) →
  process_triggered f l e = Some e4 → nse_counts e → nse_counts e4.
Proof.
  intros Hf. revert e. induction l as [|o l IH]; intros e; simpl.
  - by intros [= <-].
  - destruct (f o _) as [[ts e2]|] eqn:E; [|done].
    intros Hrest Hc. apply (IH _ Hrest). apply (Hf _ _ _ _ E).
    revert Hc. by apply nse_counts_same.
Qed.

Lemma set_trades_counts e th :
  nse_counts e →
  nse_counts
    (set_trades (trade_history e ++ th) (total_trades e + length th)%nat e).
Proof. unfold nse_counts. simpl. intros [-> ->]. by rewrite length_app. Qed.

(** [_match_order] counts the trades that it adds to the history,
    those of the stop orders that it activates among them. *)
Lemma match_order_counts fuel order e trades e' :
  _match_order fuel order e = Some (trades, e') →
  nse_counts e → nse_counts e'.
Proof.
  revert order e trades e'.
  induction fuel as [|fuel IH]; intros order e trades e' H Hc; [done|].
  apply match_order_unfold in H as (e1 & Hd & H).
  apply direct_match_frame in Hd. simpl in Hd.
  pose proof (nse_frame_counts _ _ Hd Hc) as Hc1.
  destruct (last trades) as [tr|].
  - destruct H as (e4 & Hck & ->). apply set_trades_counts.
    unfold _check_pending_stop_orders, _check_pending_stop_orders_with in Hck.
    destruct (split_triggered _) as [triggered pending].
    eapply process_triggered_counts; [exact IH|exact Hck|].
    apply (nse_counts_same (after_breaker tr e1)); try done.
    by apply after_breaker_counts.
  - subst e'. by apply set_trades_counts.
Qed.

Lemma process_order_counts fuel now order e trades e' :
  nse_counts e →
  process_order fuel now order e = Some (trades, e') →
  nse_counts e'.
Proof.
  intros Hc. unfold process_order.
  set (e0 := set_orders _ _ e).
  assert (H0 : nse_counts e0).
  { unfold nse_counts, e0. simpl. destruct Hc as [-> ->].
    rewrite length_app. simpl. split; [done|lia]. }
  clearbody e0.
  destruct (is_halted e0); [by intros [= <- <-]|].
  destruct (Order.is_expired _ _); [by intros [= <- <-]|].
  set (e1 := if bool_decide _ then _ else e0).
  assert (H1 : nse_counts e1).
  { subst e1. destruct (bool_decide _); [|done].
    revert H0. by apply nse_counts_same. }
  clearbody e1.
  destruct (_ && _); [by intros [= <- <-]|].
  destruct (bool_decide (trading_phase e1 ∈ _)).
  { intros [= <- <-]. revert H1. by apply nse_counts_same. }
  unfold _handle_continuous_order, _handle_stop_loss_order,
    _handle_fok_order.
  destruct (bool_decide (_ ∈ _)).
  { destruct (_is_stop_triggered _ _).
    - intros Hm. apply (match_order_counts _ _ _ _ _ Hm).
      revert H1. by apply nse_counts_same.
    - intros [= <- <-]. revert H1. by apply nse_counts_same. }
  destruct (bool_decide (_ = FOK)).
  { destruct (_ <=? _).
    - intros Hm. by apply (match_order_counts _ _ _ _ _ Hm).
    - by intros [= <- <-]. }
  destruct (_match_order fuel order e1) as [[ts e2]|] eqn:E; [|done].
  intros [= <- <-].
  apply match_order_counts in E; [|done].
  repeat (case_match; try done); unfold _add_iceberg_to_book;
    (eapply nse_frame_counts; [apply add_to_order_book_frame|done]).
Qed.

Lemma nse_submit_counts fuel now o e trades e' :
  nse_counts e →
  submit fuel now o e = Some (trades, e') →
  nse_counts e'.
Proof.
  intros Hc. unfold submit. simpl.
  apply process_order_counts. revert Hc. by apply nse_counts_same.
Qed.

Lemma auction_pass_counts p s s' :
  auction_pass p s = inl s' ∨ auction_pass p s = inr s' →
  nse_counts s.2 → nse_counts s'.2.
Proof.
  destruct s as [[[buyers sellers] trades] e]. unfold auction_pass.
  destruct buyers as [|b buyers]; [by intros [[= <-]|[=]]|].
  destruct sellers as [|sl sellers]; [by intros [[= <-]|[=]]|].
  destruct (_ =? 0); [by intros [[=]|[= <-]]|].
  destruct (_ =? 0); [by intros [[=]|[= <-]]|].
  intros [[=]|[= <-]]. cbn [snd]. unfold nse_counts. simpl.
  intros [-> ->]. rewrite length_app. simpl. split; [lia|done].
Qed.

Lemma execute_auction_at_price_counts p bs ss e trades e' :
  nse_counts e →
  _execute_auction_at_price p bs ss e = Some (trades, e') →
  nse_counts e'.
Proof.
  intros Hc. unfold _execute_auction_at_price.
  destruct (while_loop _ _ _) as [[[[bl sl] tr] e1]|] eqn:E; [|done].
  intros [= <- <-].
  eapply (while_loop_invariant _ (λ s, nse_counts s.2)
            (λ s, nse_counts s.2)) in E; [exact E| | |done].
  - intros s s' Hs Hp. apply (auction_pass_counts p s s'); [by right|done].
  - intros s s' Hs Hp. apply (auction_pass_counts p s s'); [by left|done].
Qed.

Lemma add_auction_orders_counts u e :
  nse_counts e → nse_counts (add_auction_orders u e).
Proof.
  unfold add_auction_orders. generalize (auction_orders e). intros l.
  revert e. induction l as [|x l IH]; intros e Hc; simpl; [done|].
  apply IH. case_match; [|done].
  eapply nse_frame_counts; [apply add_to_order_book_frame|done].
Qed.

Lemma update_price_bands_counts e :
  nse_counts e → nse_counts (_update_price_bands e).
Proof.
  unfold _update_price_bands. destruct (reference_price e); [|done].
  destruct (negb _); [|done]. by apply nse_counts_same.
Qed.

Lemma execute_call_auction_counts e trades e' :
  nse_counts e →
  execute_call_auction e = Some (trades, e') →
  nse_counts e'.
Proof.
  intros Hc. unfold execute_call_auction.
  destruct (auction_orders e) as [|x l] eqn:El; [by intros [= <- <-]|].
  rewrite <- El. clear El.
  destruct (_find_equilibrium_price _ _ _).1 as [p|].
  - destruct (_execute_auction_at_price _ _ _ _) as [[ts e1]|] eqn:E; [|done].
    intros [= <- <-].
    apply (execute_auction_at_price_counts _ _ _ _ _ _ Hc) in E.
    apply (nse_counts_same (add_auction_orders true
             (if bool_decide (trading_phase e1 = PRE_OPEN)
              then
                match
                  reference_price
                    (set_last_traded_price (Some p)
                       (set_opening_price (Some p) e1))
                with
                | None =>
                    _update_price_bands
                      (set_reference (Some p)
                         (upper_band
                            (set_last_traded_price (Some p)
                               (set_opening_price (Some p) e1)))
                         (lower_band
                            (set_last_traded_price (Some p)
                               (set_opening_price (Some p) e1)))
                         (set_last_traded_price (Some p)
                            (set_opening_price (Some p) e1)))
                | Some _ =>
                    set_last_traded_price (Some p)
                      (set_opening_price (Some p) e1)
                end
              else e1))); try done.
    apply add_auction_orders_counts.
    destruct (bool_decide _); [|done].
    destruct (reference_price _).
    + revert E. by apply nse_counts_same.
    + apply update_price_bands_counts. revert E. by apply nse_counts_same.
  - intros [= <- <-].
    apply (nse_counts_same (add_auction_orders false e)); try done.
    by apply add_auction_orders_counts.
Qed.

Lemma nse_cancel_counts id e :
  nse_counts e → nse_counts (cancel_order id e).2.
Proof.
  intros Hc. unfold cancel_order, cancel_sync.
  destruct (async_cancel e), (_cancel_queue e);
    try (revert Hc; by apply nse_counts_same);
    repeat (case_match; simplify_eq; cbn [snd];
            try (revert Hc; by apply nse_counts_same)).
Qed.

Lemma set_trading_phase_counts ph e :
  nse_counts e → nse_counts (set_trading_phase ph e).
Proof.
  unfold set_trading_phase. destruct (bool_decide _);
    by apply nse_counts_same.
Qed.

(** In every state that the exchange engine reaches the counters count
    the entries of the histories. *)
Lemma reachable_nse_counts e :
  reachable e →
  match e with
  | NSE en => nse_counts en
  | _ => True
  end.
Proof.
  induction 1 as [| | | |sym tick cb band
                  |fuel now o e trades e' _ IH Ho Hid Hsub
                  |p e _ IH|ph e _ IH|e _ IH|e trades e' _ IH Hrun
                  |id e _ IH]; try done.
  - exact (nse_submit_counts _ _ _ _ _ _ IH Hsub).
  - unfold set_reference_price. apply update_price_bands_counts.
    revert IH. by apply nse_counts_same.
  - by apply set_trading_phase_counts.
  - exact (execute_call_auction_counts _ _ _ IH Hrun).
  - destruct e as [e0|e0|e0]; simpl; try done. by apply nse_cancel_counts.
Qed.

End counters.

(** * The adaptive price level *)

Section adaptive_levels.

Import AdaptivePriceLevel.

(** A level that does not maintain the ordering by size answers a call
    as a plain level does, and goes on not maintaining it. *)
Lemma adaptive_call_fifo lv c :
  _maintain_sorted lv.2 = false →
  _maintain_sorted (adaptive_call lv c).2 = false
  ∧ (adaptive_call lv c).1 = plain_call lv.1 c.
Proof.
  destruct lv as [l f]. cbn [fst snd]. intros Hm.
  destruct c as [r|h a|h a|h]; cbn [adaptive_call plain_call].
  - unfold set_level_regime, set_regime. cbn [fst snd].
    by case_bool_decide.
  - unfold add_order. by rewrite Hm.
  - unfold remove_order. cbn [fst snd].
    by destruct (PriceLevel.remove_order h a l).
  - unfold get_top_order. cbn [fst snd]. by rewrite Hm, andb_false_r.
Qed.

Lemma adaptive_calls_fifo calls lv :
  _maintain_sorted lv.2 = false →
  _maintain_sorted (foldl adaptive_call lv calls).2 = false
  ∧ (foldl adaptive_call lv calls).1 = foldl plain_call lv.1 calls.
Proof.
  revert lv. induction calls as [|c calls IH]; intros lv Hm; [done|].
  cbn [foldl]. destruct (adaptive_call_fifo lv c Hm) as [Hm' Heq].
  destruct (IH _ Hm') as [? ?]. split; [done|]. congruence.
Qed.

End adaptive_levels.

(** * Conservation of quantity in the exchange engine *)

Section conservation.

Import NSEMatchingEngine.

Lemma foldr_add_acc (z : Z) (l : list Z) :
  foldr Z.add z l = foldr Z.add 0 l + z.
Proof. induction l as [|x l IH]; simpl; lia. Qed.

Lemma traded_quantity_app id l1 l2 :
  traded_quantity id (l1 ++ l2)
  = traded_quantity id l1 + traded_quantity id l2.
Proof.
  unfold traded_quantity. rewrite filter_app, fmap_app, foldr_app.
  apply foldr_add_acc.
Qed.

Lemma traded_quantity_singleton id t :
  traded_quantity id [t]
  = if decide (Trade.buy_order_id t = id ∨ Trade.sell_order_id t = id)
    then Trade.quantity t else 0.
Proof.
  unfold traded_quantity. rewrite filter_cons, filter_nil.
  case_decide; simpl; lia.
Qed.

Lemma traded_quantity_absent id ts :
  (∀ t, t ∈ ts → Trade.buy_order_id t ≠ id ∧ Trade.sell_order_id t ≠ id) →
  traded_quantity id ts = 0.
Proof.
  induction ts as [|t ts IH]; intros H; [done|].
  change (t :: ts) with ([t] ++ ts).
  rewrite traded_quantity_app, traded_quantity_singleton.
  rewrite decide_False by (destruct (H t); [by left|tauto]).
  rewrite IH; [done|]. intros t' Ht'. apply H. by right.
Qed.

Lemma deref_id_elem h x :
  (x < length h)%nat → Order.order_id (deref h x) ∈ Order.order_id <$> h.
Proof.
  intros Hx. unfold deref.
  destruct (lookup_lt_is_Some_2 h x Hx) as [o Ho]. rewrite Ho. simpl.
  apply list_elem_of_fmap. exists o. split; [done|].
  by eapply list_elem_of_lookup_2.
Qed.

(** The trades in another order. *)
Lemma conserved_swap h a b c :
  conserved h (a ++ b ++ c) → conserved h ((a ++ c) ++ b).
Proof.
  intros [Hc Hin]. split.
  - intros y Hy. destruct (Hc y Hy) as [Hf Hb]. split; [|done].
    rewrite Hf, !traded_quantity_app. lia.
  - intros t Ht. apply Hin. set_solver.
Qed.

(** A fill of [q] between the orders [x] and [a], and its trade. *)
Lemma conserved_fill h ts x a q t :
  NoDup (Order.order_id <$> h) → x ≠ a →
  (x < length h)%nat → (a < length h)%nat →
  0 ≤ q →
  q ≤ Order.remaining_quantity (deref h x) →
  q ≤ Order.remaining_quantity (deref h a) →
  Trade.quantity t = q →
  (Trade.buy_order_id t = Order.order_id (deref h x)
   ∧ Trade.sell_order_id t = Order.order_id (deref h a))
  ∨ (Trade.buy_order_id t = Order.order_id (deref h a)
     ∧ Trade.sell_order_id t = Order.order_id (deref h x)) →
  conserved h ts → conserved (fill_pair q x a h) (ts ++ [t]).
Proof.
  intros Hnd Hxa Hx Ha Hq0 Hqx Hqa Hqt Hids [Hc Hin].
  pose proof (fills_only_fill_pair q x a h) as Hf.
  unfold Order.remaining_quantity in *.
  split.
  - intros y Hy. rewrite (proj1 Hf) in Hy.
    destruct (Hc y Hy) as [Hfy Hby].
    rewrite traded_quantity_app, traded_quantity_singleton.
    rewrite (deref_fill_pair q x a h y Hxa Hx Ha).
    destruct (decide (y = x ∨ y = a)) as [Hy'|Hy'].
    + cbn [Order.add_filled Order.set_filled_quantity Order.order_id
           Order.filled_quantity Order.quantity].
      rewrite decide_True by (destruct Hy' as [->| ->]; tauto).
      split; [lia|]. destruct Hy' as [->| ->]; lia.
    + rewrite decide_False; [split; [lia|done]|].
      intros [He|He]; destruct Hids as [[H1 H2]|[H1 H2]];
        rewrite ?H1, ?H2 in He;
        apply (ids_inj _ _ _ Hnd) in He; try done; subst; tauto.
  - rewrite (fills_only_ids _ _ Hf).
    intros t' [Ht'| ->%list_elem_of_singleton]%elem_of_app; [by apply Hin|].
    destruct Hids as [[-> ->]|[-> ->]]; split; by apply deref_id_elem.
Qed.

(** An update that keeps the id and the quantities of the object. *)
Lemma conserved_update h ts f x :
  (∀ o, Order.order_id (f o) = Order.order_id o) →
  (∀ o, Order.filled_quantity (f o) = Order.filled_quantity o) →
  (∀ o, Order.quantity (f o) = Order.quantity o) →
  conserved h ts → conserved (update f x h) ts.
Proof.
  intros Hid Hfl Hqt [Hc Hin]. split.
  - intros y Hy. rewrite length_update in Hy. rewrite deref_update.
    case_bool_decide as Hxy; [|by apply Hc].
    destruct Hxy as [-> _]. rewrite Hid, Hfl, Hqt. by apply Hc.
  - by rewrite ids_update.
Qed.

(** A new object with a new id. *)
Lemma conserved_alloc h ts o :
  Order.order_id o ∉ Order.order_id <$> h →
  Order.filled_quantity o = 0 → 0 ≤ Order.quantity o →
  conserved h ts → conserved (h ++ [o]) ts.
Proof.
  intros Hfresh Hf Hq [Hc Hin]. split.
  - intros y Hy. rewrite length_app in Hy. simpl in Hy.
    destruct (decide (y < length h)%nat) as [Hlt|Hge].
    + rewrite deref_alloc_old by done. by apply Hc.
    + assert (y = length h) as -> by lia. rewrite deref_alloc_new.
      rewrite traded_quantity_absent; [lia|].
      intros t Ht. destruct (Hin t Ht) as [H1 H2].
      split; intros He; rewrite He in *; done.
  - intros t Ht. destruct (Hin t Ht) as [H1 H2].
    rewrite fmap_app. set_solver.
Qed.

Lemma nse_conserved_same pend e e' :
  objs e' = objs e → trade_history e' = trade_history e →
  nse_conserved pend e → nse_conserved pend e'.
Proof. unfold nse_conserved. by intros -> ->. Qed.

Lemma nse_conserved_update pend e f x :
  (∀ o, Order.order_id (f o) = Order.order_id o) →
  (∀ o, Order.filled_quantity (f o) = Order.filled_quantity o) →
  (∀ o, Order.quantity (f o) = Order.quantity o) →
  nse_conserved pend e →
  nse_conserved pend (set_objs (update f x (objs e)) e).
Proof. intros ? ? ?. by apply conserved_update. Qed.

Lemma add_to_order_book_conserved pend x e :
  nse_conserved pend e → nse_conserved pend (_add_to_order_book x e).
Proof.
  unfold _add_to_order_book.
  destruct (Order.side _); by apply nse_conserved_same.
Qed.

Lemma after_breaker_conserved pend tr e :
  nse_conserved pend e → nse_conserved pend (after_breaker tr e).
Proof.
  unfold after_breaker, _check_circuit_breaker.
  destruct (negb _); [by apply nse_conserved_same|].
  destruct (Qle_bool _ _); by apply nse_conserved_same.
Qed.

(** A pass of a matching loop: the trade that it adds records the fill
    that it makes. *)
Lemma nse_buy_pass_conserved pend x s s' :
  wf_nse s.2 → nse_free s.2 x → nse_conserved (pend ++ s.1) s.2 →
  _match_buy_order_pass x s = inl s' ∨ _match_buy_order_pass x s = inr s' →
  nse_conserved (pend ++ s'.1) s'.2.
Proof.
  destruct s as [trades e]. cbn [fst snd]. intros Hwfn Hfree Hc Hpass.
  pose proof (nse_buy_pass_inv x trades e
                (wfb_asks _ _ _ (wfn_book _ Hwfn))) as Hinv.
  destruct Hpass as [Hpass|Hpass]; rewrite Hpass in Hinv.
  { by subst s'. }
  destruct Hinv as (p & a & Hhead & Hrem & ->). cbn [fst snd].
  pose proof (head_rests _ _ _ Hhead) as Ha.
  destruct (wfb_asks_live _ _ _ (wfn_book _ Hwfn) _ Ha) as [Hra _].
  pose proof (visible_quantity_pos _ (wfn_disclosed _ Hwfn a) Hra) as Hv.
  pose proof (rests_lt _ _ _ (wfb_asks _ _ _ (wfn_book _ Hwfn)) Ha) as Hla.
  destruct Hfree as (Hx & Hnh & _). simpl in Hnh.
  assert (Hxa : x ≠ a) by (intros ->; tauto).
  unfold nse_conserved in *. rewrite !app_assoc.
  apply conserved_fill; try done; try lia.
  - apply (wfb_ids _ _ _ (wfn_book _ Hwfn)).
  - by left.
  - by rewrite <- !app_assoc.
Qed.

Lemma nse_sell_pass_conserved pend x s s' :
  wf_nse s.2 → nse_free s.2 x → nse_conserved (pend ++ s.1) s.2 →
  _match_sell_order_pass x s = inl s' ∨ _match_sell_order_pass x s = inr s' →
  nse_conserved (pend ++ s'.1) s'.2.
Proof.
  destruct s as [trades e]. cbn [fst snd]. intros Hwfn Hfree Hc Hpass.
  pose proof (nse_sell_pass_inv x trades e
                (wfb_bids _ _ _ (wfn_book _ Hwfn))) as Hinv.
  destruct Hpass as [Hpass|Hpass]; rewrite Hpass in Hinv.
  { by subst s'. }
  destruct Hinv as (p & a & Hhead & Hrem & ->). cbn [fst snd].
  pose proof (head_rests _ _ _ Hhead) as Ha.
  destruct (wfb_bids_live _ _ _ (wfn_book _ Hwfn) _ Ha) as [Hra _].
  pose proof (visible_quantity_pos _ (wfn_disclosed _ Hwfn a) Hra) as Hv.
  pose proof (rests_lt _ _ _ (wfb_bids _ _ _ (wfn_book _ Hwfn)) Ha) as Hla.
  destruct Hfree as (Hx & Hnh & _). simpl in Hnh.
  assert (Hxa : x ≠ a) by (intros ->; tauto).
  unfold nse_conserved in *. rewrite !app_assoc.
  apply conserved_fill; try done; try lia.
  - apply (wfb_ids _ _ _ (wfn_book _ Hwfn)).
  - by right.
  - by rewrite <- !app_assoc.
Qed.

(** The matching loops, with any fuel. *)
Lemma nse_direct_match_conserved pend fuel x e trades e1 :
  wf_nse e → nse_free e x → nse_conserved pend e →
  direct_match fuel x e = Some (trades, e1) →
  nse_conserved (pend ++ trades) e1.
Proof.
  intros Hwfn Hfree Hc.
  unfold direct_match, _match_buy_order, _match_sell_order.
  destruct (Order.side _); intros H.
  - eapply (while_loop_invariant (_match_buy_order_pass x)
              (λ s, (wf_nse s.2 ∧ nse_step e s.2)
                    ∧ nse_conserved (pend ++ s.1) s.2)
              (λ s, (wf_nse s.2 ∧ nse_step e s.2)
                    ∧ nse_conserved (pend ++ s.1) s.2)) in H;
      [exact (proj2 H)| | |].
    + intros s s' [[Hs1 Hs2] Hs3] Hp.
      pose proof (nse_free_step _ _ _ Hs2 Hfree) as Hfree'.
      destruct (nse_buy_pass_wf x s s' Hs1 Hfree') as [? ?]; [by right|].
      split; [split; [done|by eapply nse_step_trans]|].
      eapply nse_buy_pass_conserved; [exact Hs1|exact Hfree'|exact Hs3|].
      by right.
    + intros s s' [[Hs1 Hs2] Hs3] Hp.
      pose proof (nse_free_step _ _ _ Hs2 Hfree) as Hfree'.
      destruct (nse_buy_pass_wf x s s' Hs1 Hfree') as [? ?]; [by left|].
      split; [split; [done|by eapply nse_step_trans]|].
      eapply nse_buy_pass_conserved; [exact Hs1|exact Hfree'|exact Hs3|].
      by left.
    + split; [split; [done|apply nse_step_refl]|].
      cbn [fst snd]. by rewrite app_nil_r.
  - eapply (while_loop_invariant (_match_sell_order_pass x)
              (λ s, (wf_nse s.2 ∧ nse_step e s.2)
                    ∧ nse_conserved (pend ++ s.1) s.2)
              (λ s, (wf_nse s.2 ∧ nse_step e s.2)
                    ∧ nse_conserved (pend ++ s.1) s.2)) in H;
      [exact (proj2 H)| | |].
    + intros s s' [[Hs1 Hs2] Hs3] Hp.
      pose proof (nse_free_step _ _ _ Hs2 Hfree) as Hfree'.
      destruct (nse_sell_pass_wf x s s' Hs1 Hfree') as [? ?]; [by right|].
      split; [split; [done|by eapply nse_step_trans]|].
      eapply nse_sell_pass_conserved; [exact Hs1|exact Hfree'|exact Hs3|].
      by right.
    + intros s s' [[Hs1 Hs2] Hs3] Hp.
      pose proof (nse_free_step _ _ _ Hs2 Hfree) as Hfree'.
      destruct (nse_sell_pass_wf x s s' Hs1 Hfree') as [? ?]; [by left|].
      split; [split; [done|by eapply nse_step_trans]|].
      eapply nse_sell_pass_conserved; [exact Hs1|exact Hfree'|exact Hs3|].
      by left.
    + split; [split; [done|apply nse_step_refl]|].
      cbn [fst snd]. by rewrite app_nil_r.
Qed.

(** The second loop of [_check_pending_stop_orders], for a function
    that keeps the state well formed and the quantities conserved. *)
Lemma process_triggered_conserved pend
    (f : nat → t → option (list Trade.t * t)) triggered e e4 :
  (∀ o e1 r, wf_nse e1 → nse_free e1 o → f o e1 = Some r →
             wf_nse r.2 ∧ nse_step e1 r.2) →
  (∀ o e1 r, wf_nse e1 → nse_free e1 o → nse_conserved pend e1 →
             f o e1 = Some r → nse_conserved pend r.2) →
  wf_nse e → (∀ y, y ∈ triggered → nse_free e y) →
  nse_conserved pend e →
  process_triggered f triggered e = Some e4 →
  nse_conserved pend e4.
Proof.
  intros Hf Hfc. revert e.
  induction triggered as [|o l IH]; intros e Hwf Hfree Hc Hp; simpl in Hp.
  { by injection Hp as <-. }
  destruct (wf_nse_update_free e o activate_stop Hwf) as [Hwf1 Hs1];
    [apply Hfree; by left|apply activate_stop_id
    |intros; apply activate_stop_disclosed|].
  assert (Hc1 : nse_conserved pend
                  (set_objs (update activate_stop o (objs e)) e)).
  { apply nse_conserved_update; [apply activate_stop_id| | |done];
      intros o'; unfold activate_stop; by case_bool_decide. }
  destruct (f o _) as [[tr e2]|] eqn:E; [|done].
  pose proof (nse_free_step _ _ _ Hs1 (Hfree o ltac:(by left))) as Hfree1.
  destruct (Hf _ _ _ Hwf1 Hfree1 E) as [Hwf2 Hs2].
  pose proof (Hfc _ _ _ Hwf1 Hfree1 Hc1 E) as Hc2.
  cbn [snd] in Hwf2, Hs2, Hc2.
  apply (IH e2 Hwf2); [|done|done].
  intros y Hy. eapply nse_free_step; [exact Hs2|].
  eapply nse_free_step; [exact Hs1|]. apply Hfree. by right.
Qed.

(** The state in which the second loop of [_check_pending_stop_orders]
    starts. *)
Lemma split_triggered_ready e :
  wf_nse e →
  wf_nse (set_pending_stop_orders (split_triggered e).2 e)
  ∧ ∀ y, y ∈ (split_triggered e).1 →
         nse_free (set_pending_stop_orders (split_triggered e).2 e) y.
Proof.
  intros Hwfn.
  destruct (split_triggered_spec e) as [Hsub Htrig].
  destruct (split_triggered e) as [triggered pending]. simpl in *.
  destruct (Hwfn) as [Hwf Hpend Hauc Hnd Hdisc].
  destruct (wf_nse_store e (set_pending_stop_orders pending e)) as [Hwf1 Hs1];
    simpl; try done.
  { intros y [[k Hk]%elem_of_pending_values|Hy].
    - by destruct (Hpend _ _ (Hsub _ Hk)) as (_ & _ & _ & _ & ?).
    - by destruct (Hauc _ Hy) as (_ & _ & _ & _ & ?). }
  split; [done|].
  intros y Hy. destruct (Htrig y Hy) as (k & Hk & Hnk).
  destruct (Hpend _ _ Hk) as (Hlt & -> & Hnb & Hna & _).
  split; [done|]. split; simpl.
  - intros [?|[?|[k' Hk']%elem_of_pending_values]]; [done|done|].
    destruct (Hpend _ _ (Hsub _ Hk')) as (_ & -> & _).
    apply Hnk, elem_of_pending_keys. by exists y.
  - intros Hy'. destruct (Hauc _ Hy') as (_ & _ & _ & Hnp & _).
    apply Hnp, elem_of_pending_values. by eexists.
Qed.

(** [_match_order] for an order that the engine does not hold, with
    any fuel. *)
Lemma nse_match_order_conserved fuel pend order e trades e' :
  wf_nse e → nse_free e order → nse_conserved pend e →
  _match_order fuel order e = Some (trades, e') →
  nse_conserved pend e'.
Proof.
  revert pend order e trades e'.
  induction fuel as [|fuel IH]; intros pend order e trades e' Hwfn Hfree Hc Hm;
    [done|].
  destruct (match_order_unfold _ _ _ _ _ Hm) as (e1 & Hd & Hlast).
  destruct (nse_direct_match_wf _ _ _ _ Hwfn Hfree Hd) as [Hwf1 Hs1].
  cbn [snd] in Hwf1, Hs1.
  pose proof (nse_direct_match_conserved pend _ _ _ _ _ Hwfn Hfree Hc Hd)
    as Hc1.
  destruct (last trades) as [tr|].
  - destruct Hlast as (e4 & Hck & ->).
    destruct (after_breaker_wf tr e1 Hwf1) as [Hwf3 Hs3].
    pose proof (after_breaker_conserved _ tr _ Hc1) as Hc3.
    unfold _check_pending_stop_orders, _check_pending_stop_orders_with in Hck.
    destruct (split_triggered_ready _ Hwf3) as [Hwf4 Hfree4].
    destruct (split_triggered (after_breaker tr e1)) as [triggered pending].
    cbn [fst snd] in *.
    assert (Hc4 : nse_conserved (pend ++ trades) e4).
    { eapply (process_triggered_conserved _ (_match_order fuel));
        [| |exact Hwf4|exact Hfree4| |exact Hck].
      - intros o e0 r. apply nse_match_order_wf.
      - intros o e0 [ts e5] ? ? ? Hm5. cbn [snd]. by eapply IH.
      - revert Hc3. by apply nse_conserved_same. }
    unfold nse_conserved in *. cbn [objs trade_history set_trades].
    by apply conserved_swap.
  - subst e'. unfold nse_conserved in *. cbn [objs trade_history set_trades].
    by apply conserved_swap.
Qed.

Lemma nse_handle_continuous_order_conserved fuel x e trades e' :
  wf_nse e → nse_free e x → nse_conserved [] e →
  _handle_continuous_order fuel x e = Some (trades, e') →
  nse_conserved [] e'.
Proof.
  intros Hwfn Hfree Hc.
  unfold _handle_continuous_order, _handle_stop_loss_order,
    _handle_fok_order.
  case_bool_decide.
  { destruct (_is_stop_triggered x e).
    - destruct (wf_nse_update_free e x activate_stop Hwfn Hfree)
        as [Hwf1 Hs1];
        [apply activate_stop_id|intros; apply activate_stop_disclosed|].
      intros Hm.
      apply (nse_match_order_conserved _ [] _ _ _ _ Hwf1
               (nse_free_step _ _ _ Hs1 Hfree)) in Hm; [done|].
      apply nse_conserved_update; [apply activate_stop_id| | |done];
        intros o'; unfold activate_stop; by case_bool_decide.
    - intros [= <- <-]. revert Hc. by apply nse_conserved_same. }
  case_bool_decide.
  { destruct (_ <=? _).
    - intros Hm.
      by apply (nse_match_order_conserved _ _ _ _ _ _ Hwfn Hfree Hc Hm).
    - by intros [= <- <-]. }
  destruct (_match_order fuel x e) as [[ts e1]|] eqn:Hm; [|done].
  intros [= <- <-].
  pose proof (nse_match_order_conserved _ _ _ _ _ _ Hwfn Hfree Hc Hm) as Hc1.
  unfold _add_iceberg_to_book.
  repeat case_match; try done; by apply add_to_order_book_conserved.
Qed.

Lemma nse_process_order_conserved fuel now x e trades e' :
  wf_nse e → nse_free e x → nse_conserved [] e →
  process_order fuel now x e = Some (trades, e') →
  nse_conserved [] e'.
Proof.
  intros Hwfn Hfree Hc. unfold process_order.
  set (e0 := set_orders _ _ e).
  destruct (wf_nse_same e e0 Hwfn) as [Hwf0 Hs0]; [done..|].
  pose proof (nse_free_step _ _ _ Hs0 Hfree) as Hfree0.
  assert (Hc0 : nse_conserved [] e0) by done.
  destruct (is_halted e0); [by intros [= <- <-]|].
  destruct (Order.is_expired _ _); [by intros [= <- <-]|].
  set (limit_kind := bool_decide _).
  set (e1 := if limit_kind then _ else e0).
  assert (H1 : wf_nse e1 ∧ nse_step e0 e1 ∧ nse_conserved [] e1).
  { subst e1. destruct limit_kind.
    - destruct (wf_nse_update_free e0 x
                  (λ o, Order.set_price
                          (_validate_tick_size (Order.price o) e0) o)
                  Hwf0 Hfree0) as [? ?]; [done|done|].
      split; [done|]. split; [done|]. by apply nse_conserved_update.
    - split; [done|]. split; [apply nse_step_refl|done]. }
  destruct H1 as (Hwf1 & Hs1 & Hc1).
  pose proof (nse_free_step _ _ _ Hs1 Hfree0) as Hfree1.
  destruct (limit_kind && _); [by intros [= <- <-]|].
  case_bool_decide.
  - intros [= <- <-]. revert Hc1. by apply nse_conserved_same.
  - by apply nse_handle_continuous_order_conserved.
Qed.

(** The state in which [submit] starts [process_order]. *)
Lemma nse_alloc_ready o e :
  wf_nse e → new_order o →
  Order.order_id o ∉ Order.order_id <$> objs e →
  wf_nse (set_objs (objs e ++ [o]) e)
  ∧ nse_free (set_objs (objs e ++ [o]) e) (length (objs e)).
Proof.
  intros Hwfn Hnew Hfresh.
  destruct (Hwfn) as [Hwf Hpend Hauc Hnd Hdisc].
  split.
  - constructor; simpl; try done.
    + by apply wf_book_alloc.
    + intros k a Hk. destruct (Hpend _ _ Hk) as (? & ? & ? & ? & ?).
      rewrite length_app, deref_alloc_old by done. simpl.
      split; [lia|done].
    + intros a Ha. destruct (Hauc _ Ha) as (? & ? & ? & ? & ?).
      rewrite length_app, deref_alloc_old by done. simpl.
      split; [lia|done].
    + intros a. destruct (decide (a < length (objs e))%nat).
      * by rewrite deref_alloc_old.
      * destruct (decide (a = length (objs e))) as [->|].
        -- rewrite deref_alloc_new. by apply new_order_disclosed.
        -- rewrite deref_ge; [done|]. rewrite length_app. simpl. lia.
  - split; [simpl; rewrite length_app; simpl; lia|]. split; simpl.
    + intros [Hr|[Hr|[k Hk]%elem_of_pending_values]].
      * apply (rests_lt _ _ _ (wfb_bids _ _ _ Hwf)) in Hr. lia.
      * apply (rests_lt _ _ _ (wfb_asks _ _ _ Hwf)) in Hr. lia.
      * destruct (Hpend _ _ Hk) as (? & _). lia.
    + intros Ha. destruct (Hauc _ Ha) as (? & _). lia.
Qed.

Lemma nse_submit_conserved fuel now o e trades e' :
  wf_nse e → new_order o →
  Order.order_id o ∉ Order.order_id <$> objs e →
  nse_conserved [] e →
  submit fuel now o e = Some (trades, e') →
  nse_conserved [] e'.
Proof.
  intros Hwfn Hnew Hfresh Hc. unfold submit, alloc.
  destruct (nse_alloc_ready o e Hwfn Hnew Hfresh) as [Hwf1 Hfree1].
  apply (nse_process_order_conserved _ _ _ _ _ _ Hwf1 Hfree1).
  unfold nse_conserved. simpl.
  apply conserved_alloc; [done|apply Hnew| |done].
  pose proof (new_order_remaining o Hnew) as Hr.
  destruct Hnew as [_ Hf]. unfold Order.remaining_quantity in Hr. lia.
Qed.

(** A pass of the loop of the auction: the buyer and the seller are
    two orders, and the trade is added to the history with the fill. *)
Lemma auction_pass_conserved p l async s s' :
  auction_inv l async s →
  nse_conserved [] s.2 →
  (∀ a, a ∈ s.1.1.1 → Order.side (deref (objs s.2) a) = BUY) →
  (∀ a, a ∈ s.1.1.2 → Order.side (deref (objs s.2) a) = SELL) →
  auction_pass p s = inl s' ∨ auction_pass p s = inr s' →
  nse_conserved [] s'.2
  ∧ (∀ a, a ∈ s'.1.1.1 → Order.side (deref (objs s'.2) a) = BUY)
  ∧ (∀ a, a ∈ s'.1.1.2 → Order.side (deref (objs s'.2) a) = SELL).
Proof.
  destruct s as [[[buyers sellers] trades] e].
  intros (Hwf & Hready & Hsub & Hau & Has) Hc Hbs Hss Hpass.
  cbn [fst snd] in *. unfold auction_pass in Hpass.
  destruct buyers as [|b buyers'], sellers as [|s0 sellers'];
    try (destruct Hpass as [Hpass|Hpass]; simplify_eq; done).
  destruct (Order.remaining_quantity (deref (objs e) b) =? 0) eqn:Hb0.
  { destruct Hpass as [Hpass|Hpass]; simplify_eq. cbn [fst snd].
    split; [done|]. split; [|done]. intros a Ha. apply Hbs. by right. }
  destruct (Order.remaining_quantity (deref (objs e) s0) =? 0) eqn:Hs0.
  { destruct Hpass as [Hpass|Hpass]; simplify_eq. cbn [fst snd].
    split; [done|]. split; [done|]. intros a Ha. apply Hss. by right. }
  destruct Hpass as [Hpass|Hpass]; [done|]. injection Hpass as <-.
  apply Z.eqb_neq in Hb0, Hs0.
  set (q := Z.min _ _).
  change (update (Order.add_filled q) s0
            (update (Order.add_filled q) b (objs e)))
    with (fill_pair q b s0 (objs e)).
  pose proof (fills_only_fill_pair q b s0 (objs e)) as Hf.
  destruct Hready as [Hnd Hl].
  destruct (Hl b) as (Hbl & _); [apply Hsub; left; by left|].
  destruct (Hl s0) as (Hsl & _); [apply Hsub; right; by left|].
  assert (Hne : b ≠ s0).
  { intros ->. specialize (Hbs s0 ltac:(by left)).
    specialize (Hss s0 ltac:(by left)). congruence. }
  cbn [fst snd]. split; [|split].
  - unfold nse_conserved in *.
    cbn [objs trade_history set_objs set_trades].
    rewrite app_nil_r in *.
    destruct (proj1 Hc b Hbl) as [_ Hbb].
    destruct (proj1 Hc s0 Hsl) as [_ Hsb].
    unfold Order.remaining_quantity in *.
    apply conserved_fill; try done;
      try (unfold Order.remaining_quantity, q; lia).
    + apply (wfb_ids _ _ _ (wfn_book _ Hwf)).
    + by left.
  - intros a Ha. cbn [objs set_objs].
    destruct (fills_only_fields _ _ a Hf) as (_ & _ & -> & _).
    apply Hbs. repeat case_match; set_solver.
  - intros a Ha. cbn [objs set_objs].
    destruct (fills_only_fields _ _ a Hf) as (_ & _ & -> & _).
    apply Hss. repeat case_match; set_solver.
Qed.

Lemma execute_auction_at_price_conserved p e trades e' :
  wf_nse e → nse_conserved [] e →
  _execute_auction_at_price p
    (orders_by_price (objs e) BUY (auction_orders e))
    (orders_by_price (objs e) SELL (auction_orders e)) e
  = Some (trades, e') →
  nse_conserved [] e'.
Proof.
  intros Hwf Hc. unfold _execute_auction_at_price.
  set (buyers := sort_by_timestamp _ _). set (sellers := sort_by_timestamp _ _).
  destruct (while_loop _ _ _) as [[[[bs ss] ts] e1]|] eqn:E; [|done].
  intros [= <- <-].
  set (K := λ s : list nat * list nat * list Trade.t * t,
              auction_inv (auction_orders e) (async_cancel e) s
              ∧ nse_conserved [] s.2
              ∧ (∀ a, a ∈ s.1.1.1 → Order.side (deref (objs s.2) a) = BUY)
              ∧ (∀ a, a ∈ s.1.1.2 → Order.side (deref (objs s.2) a) = SELL)).
  eapply (while_loop_invariant (auction_pass p) K K) in E;
    [exact (proj1 (proj2 E))| | |].
  - intros s s' (Hi & Hc' & Hb & Hs) Hp.
    split; [eapply auction_pass_inv; [done|by right]|].
    eapply auction_pass_conserved; [exact Hi|done|done|done|by right].
  - intros s s' (Hi & Hc' & Hb & Hs) Hp.
    split; [eapply auction_pass_inv; [done|by left]|].
    eapply auction_pass_conserved; [exact Hi|done|done|done|by left].
  - split; [|split; [done|]].
    + split; [by apply wf_nse_no_auction|].
      split; [by apply wf_nse_auction_ready|]. split; [|done].
      cbn [fst snd]. subst buyers sellers.
      intros a [Ha|Ha]; apply elem_of_sort_by_timestamp in Ha;
        apply elem_of_eligible in Ha as (q & os & Hq & Ha);
        by destruct (orders_by_price_spec _ _ _ _ _ _ Hq Ha).
    + cbn [fst snd]. subst buyers sellers.
      split; intros a Ha; apply elem_of_sort_by_timestamp in Ha;
        apply elem_of_eligible in Ha as (q & os & Hq & Ha);
        by destruct (orders_by_price_spec _ _ _ _ _ _ Hq Ha) as (_ & ? & _).
Qed.

Lemma add_auction_orders_conserved u e :
  nse_conserved [] e → nse_conserved [] (add_auction_orders u e).
Proof.
  unfold add_auction_orders. generalize (auction_orders e). intros l.
  revert e. induction l as [|x l IH]; intros e Hc; simpl; [done|].
  apply IH. case_match; [|done]. by apply add_to_order_book_conserved.
Qed.

Lemma update_price_bands_conserved e :
  nse_conserved [] e → nse_conserved [] (_update_price_bands e).
Proof.
  unfold _update_price_bands. destruct (reference_price e); [|done].
  destruct (negb _); [|done]. by apply nse_conserved_same.
Qed.

Lemma execute_call_auction_conserved e trades e' :
  wf_nse e → nse_conserved [] e →
  execute_call_auction e = Some (trades, e') →
  nse_conserved [] e'.
Proof.
  intros Hwf Hc. unfold execute_call_auction.
  destruct (auction_orders e) as [|x l] eqn:El; [by intros [= <- <-]|].
  rewrite <- El. clear El.
  destruct (_find_equilibrium_price _ _ _).1 as [p|].
  - destruct (_execute_auction_at_price _ _ _ _) as [[ts e1]|] eqn:E; [|done].
    apply (execute_auction_at_price_conserved _ _ _ _ Hwf Hc) in E.
    set (e2 := if bool_decide (trading_phase e1 = PRE_OPEN) then _ else e1).
    assert (H2 : nse_conserved [] e2).
    { subst e2. case_bool_decide; [|done].
      destruct (reference_price _).
      - revert E. by apply nse_conserved_same.
      - apply update_price_bands_conserved.
        revert E. by apply nse_conserved_same. }
    intros [= <- <-].
    apply (nse_conserved_same [] (add_auction_orders true e2)); [done..|].
    by apply add_auction_orders_conserved.
  - intros [= <- <-].
    apply (nse_conserved_same [] (add_auction_orders false e)); [done..|].
    by apply add_auction_orders_conserved.
Qed.

Lemma nse_cancel_conserved id e :
  nse_conserved [] e → nse_conserved [] (cancel_order id e).2.
Proof.
  intros Hc. unfold cancel_order, cancel_sync.
  destruct (async_cancel e), (_cancel_queue e);
    try (revert Hc; by apply nse_conserved_same);
    repeat (case_match; simplify_eq; cbn [snd];
            try (revert Hc; by apply nse_conserved_same)).
Qed.

Lemma set_trading_phase_conserved ph e :
  nse_conserved [] e → nse_conserved [] (set_trading_phase ph e).
Proof.
  unfold set_trading_phase. destruct (bool_decide _);
    by apply nse_conserved_same.
Qed.

(** In every state that the exchange engine reaches the quantities are
    conserved. *)
Lemma reachable_nse_conserved e :
  reachable e →
  match e with
  | NSE en => nse_conserved [] en
  | _ => True
  end.
Proof.
  induction 1 as [| | | |sym tick cb band
                  |fuel now o e trades e' Hr IH Ho Hid Hsub
                  |p e _ IH|ph e _ IH|e _ IH|e trades e' Hr IH Hrun
                  |id e _ IH]; try done.
  - split; [intros y Hy; simpl in Hy; lia|by intros t ?%elem_of_nil].
  - destruct (reachable_wf _ Hr) as [Hwf _].
    exact (nse_submit_conserved _ _ _ _ _ _ Hwf Ho Hid IH Hsub).
  - unfold set_reference_price. apply update_price_bands_conserved.
    revert IH. by apply nse_conserved_same.
  - by apply set_trading_phase_conserved.
  - destruct (reachable_wf _ Hr) as [Hwf _].
    exact (execute_call_auction_conserved _ _ _ Hwf IH Hrun).
  - destruct e as [e0|e0|e0]; simpl; try done.
    by apply nse_cancel_conserved.
Qed.

End conservation.

(** * The orders of the auction *)

Section auction_orders.

Import NSEMatchingEngine.

Lemma add_to_order_book_rests x e :
  objs (_add_to_order_book x e) = objs e
  ∧ (∀ sd y, rests (nse_side e sd) y →
             rests (nse_side (_add_to_order_book x e) sd) y)
  ∧ rests (nse_side (_add_to_order_book x e)
             (Order.side (deref (objs e) x))) x.
Proof.
  unfold _add_to_order_book.
  destruct (Order.side (deref (objs e) x)); (split; [done|]); split.
  - intros [|] y Hy; cbn [nse_side bids asks set_bids]; [|done].
    apply rests_add_order. by left.
  - cbn [nse_side bids set_bids]. apply rests_add_order. by right.
  - intros [|] y Hy; cbn [nse_side bids asks set_asks]; [done|].
    apply rests_add_order. by left.
  - cbn [nse_side asks set_asks]. apply rests_add_order. by right.
Qed.

(** The loop that moves the orders of the auction to the book adds
    every order that passes its test, and takes none out. *)
Lemma add_auction_orders_fold_rests (u : bool) l e :
  let e' :=
    foldl
      (λ e' order,
         let o := deref (objs e') order in
         if (negb u || (0 <? Order.remaining_quantity o))
            && bool_decide (Order.order_type o = LIMIT)
         then _add_to_order_book order e' else e')
      e l in
  objs e' = objs e
  ∧ (∀ sd y, rests (nse_side e sd) y → rests (nse_side e' sd) y)
  ∧ ∀ a, a ∈ l →
         (negb u || (0 <? Order.remaining_quantity (deref (objs e) a)))
         && bool_decide (Order.order_type (deref (objs e) a) = LIMIT) = true →
         rests (nse_side e' (Order.side (deref (objs e) a))) a.
Proof.
  revert e. induction l as [|x l IH]; intros e; cbn [foldl].
  { split; [done|]. split; [done|]. by intros a ?%elem_of_nil. }
  cbv zeta.
  set (e1 := if (negb u || (0 <? Order.remaining_quantity (deref (objs e) x)))
                && bool_decide (Order.order_type (deref (objs e) x) = LIMIT)
             then _add_to_order_book x e else e).
  assert (H1 : objs e1 = objs e
               ∧ (∀ sd y, rests (nse_side e sd) y → rests (nse_side e1 sd) y)
               ∧ ((negb u
                   || (0 <? Order.remaining_quantity (deref (objs e) x)))
                  && bool_decide (Order.order_type (deref (objs e) x) = LIMIT)
                  = true →
                  rests (nse_side e1 (Order.side (deref (objs e) x))) x)).
  { subst e1. destruct (_ && _).
    - destruct (add_to_order_book_rests x e) as (? & ? & ?). done.
    - done. }
  destruct H1 as (Ho1 & Hm1 & Hx1).
  destruct (IH e1) as (Ho & Hm & Hl). cbv zeta in Ho, Hm, Hl.
  split; [congruence|]. split; [by intros sd y Hy; apply Hm, Hm1|].
  intros a [->|Ha]%elem_of_cons Hc.
  - by apply Hm, Hx1.
  - rewrite <- Ho1. apply Hl; [done|]. by rewrite Ho1.
Qed.

Lemma add_auction_orders_rests u e :
  objs (add_auction_orders u e) = objs e
  ∧ (∀ sd y, rests (nse_side e sd) y →
             rests (nse_side (add_auction_orders u e) sd) y)
  ∧ ∀ a, a ∈ auction_orders e →
         (negb u || (0 <? Order.remaining_quantity (deref (objs e) a)))
         && bool_decide (Order.order_type (deref (objs e) a) = LIMIT) = true →
         rests (nse_side (add_auction_orders u e)
                  (Order.side (deref (objs e) a))) a.
Proof. apply add_auction_orders_fold_rests. Qed.

(** The loop of the auction leaves the book and the list of the
    auction as they are. *)
Lemma auction_pass_book p s s' :
  auction_pass p s = inl s' ∨ auction_pass p s = inr s' →
  bids s'.2 = bids s.2 ∧ asks s'.2 = asks s.2
  ∧ auction_orders s'.2 = auction_orders s.2.
Proof.
  destruct s as [[[buyers sellers] trades] e]. unfold auction_pass.
  destruct buyers as [|b buyers]; [by intros [[= <-]|[=]]|].
  destruct sellers as [|sl sellers]; [by intros [[= <-]|[=]]|].
  destruct (_ =? 0); [by intros [[=]|[= <-]]|].
  destruct (_ =? 0); [by intros [[=]|[= <-]]|].
  by intros [[=]|[= <-]].
Qed.

Lemma execute_auction_at_price_book p bs ss e trades e' :
  _execute_auction_at_price p bs ss e = Some (trades, e') →
  bids e' = bids e ∧ asks e' = asks e
  ∧ auction_orders e' = auction_orders e.
Proof.
  unfold _execute_auction_at_price.
  destruct (while_loop _ _ _) as [[[[bl sl] tr] e1]|] eqn:E; [|done].
  intros [= <- <-].
  eapply (while_loop_invariant _
            (λ s, bids s.2 = bids e ∧ asks s.2 = asks e
                  ∧ auction_orders s.2 = auction_orders e)
            (λ s, bids s.2 = bids e ∧ asks s.2 = asks e
                  ∧ auction_orders s.2 = auction_orders e)) in E;
    [exact E| | |done].
  - intros s s' (H1 & H2 & H3) Hp.
    destruct (auction_pass_book p s s') as (? & ? & ?); [by right|].
    split; [congruence|]. split; congruence.
  - intros s s' (H1 & H2 & H3) Hp.
    destruct (auction_pass_book p s s') as (? & ? & ?); [by left|].
    split; [congruence|]. split; congruence.
Qed.

(** [execute_call_auction] empties the list of the auction, takes no
    order out of the book, and puts into the book every limit order of
    the list of which something is left. *)
Lemma execute_call_auction_rests e trades e' :
  execute_call_auction e = Some (trades, e') →
  auction_orders e' = []
  ∧ (∀ sd y, rests (nse_side e sd) y → rests (nse_side e' sd) y)
  ∧ ∀ a, a ∈ auction_orders e →
         Order.order_type (deref (objs e') a) = LIMIT →
         0 < Order.remaining_quantity (deref (objs e') a) →
         rests (nse_side e' (Order.side (deref (objs e') a))) a.
Proof.
  unfold execute_call_auction.
  destruct (auction_orders e) as [|x l] eqn:El.
  { intros [= <- <-]. split; [done|]. split; [done|].
    by intros a ?%elem_of_nil. }
  rewrite <- El. clear El.
  destruct (_find_equilibrium_price _ _ _).1 as [p|].
  - destruct (_execute_auction_at_price _ _ _ _) as [[ts e1]|] eqn:E; [|done].
    apply execute_auction_at_price_book in E as (Hb1 & Ha1 & Hau1).
    set (e2 := if bool_decide (trading_phase e1 = PRE_OPEN) then _ else e1).
    assert (H2 : bids e2 = bids e1 ∧ asks e2 = asks e1
                 ∧ auction_orders e2 = auction_orders e1).
    { subst e2. case_bool_decide; [|done].
      destruct (reference_price _); [done|].
      destruct (update_price_bands_fields
                  (set_reference (Some p)
                     (upper_band (set_last_traded_price (Some p)
                        (set_opening_price (Some p) e1)))
                     (lower_band (set_last_traded_price (Some p)
                        (set_opening_price (Some p) e1)))
                     (set_last_traded_price (Some p)
                        (set_opening_price (Some p) e1))))
        as (_ & -> & -> & _ & -> & _).
      done. }
    destruct H2 as (Hb2 & Ha2 & Hau2).
    destruct (add_auction_orders_rests true e2) as (Ho & Hm & Hl).
    intros [= <- <-]. cbn [auction_orders objs set_halt set_auction_orders].
    split; [done|]. split.
    + intros sd y Hy.
      change (rests (nse_side (add_auction_orders true e2) sd) y).
      apply Hm. destruct sd; cbn [nse_side] in *; congruence.
    + intros a Ha Hty Hrem.
      change (rests (nse_side (add_auction_orders true e2)
                       (Order.side (deref (objs (add_auction_orders true e2))
                                      a))) a).
      change (Order.order_type (deref (objs (add_auction_orders true e2)) a)
              = LIMIT) in Hty.
      change (0 < Order.remaining_quantity
                    (deref (objs (add_auction_orders true e2)) a)) in Hrem.
      rewrite Ho in *. apply Hl; [congruence|].
      apply andb_true_iff. split; [|by apply bool_decide_eq_true_2].
      apply orb_true_iff. right. by apply Z.ltb_lt.
  - destruct (add_auction_orders_rests false e) as (Ho & Hm & Hl).
    intros [= <- <-]. cbn [auction_orders objs set_auction_orders].
    split; [done|]. split.
    + intros sd y Hy.
      change (rests (nse_side (add_auction_orders false e) sd) y).
      by apply Hm.
    + intros a Ha Hty Hrem.
      change (rests (nse_side (add_auction_orders false e)
                       (Order.side (deref (objs (add_auction_orders false e))
                                      a))) a).
      change (Order.order_type (deref (objs (add_auction_orders false e)) a)
              = LIMIT) in Hty.
      rewrite Ho in *. apply Hl; [done|].
      apply andb_true_iff. split; [done|by apply bool_decide_eq_true_2].
Qed.

End auction_orders.

(** * Further properties of the engines *)

(** ** The examples *)

Lemma example_book_reachable : reachable (Base Example.book).
Proof.
  apply (reach_base_submit 20 Example.bid1 Example.book2
           (Example.trades_of Example.bid1 Example.book2)).
  - apply (reach_base_submit 20 Example.ask2 Example.book1
             (Example.trades_of Example.ask2 Example.book1)).
    + apply (reach_base_submit 20 Example.ask1 BaseMatchingEngine.new
               (Example.trades_of Example.ask1 BaseMatchingEngine.new)).
      * apply reach_base_new.
      * apply (bool_decide_unpack _). vm_compute. exact I.
      * vm_compute. reflexivity.
    + apply (bool_decide_unpack _). vm_compute. exact I.
    + vm_compute. reflexivity.
  - apply (bool_decide_unpack _). vm_compute. exact I.
  - vm_compute. reflexivity.
Defined.

Lemma example_sharded_book_reachable : reachable (Sharded Example.sharded_book).
Proof.
  apply (reach_sharded_submit 20 Example.bid1 Example.sharded_book2
           (Example.sharded_trades_of Example.bid1 Example.sharded_book2)).
  - apply (reach_sharded_submit 20 Example.ask2 Example.sharded_book1
             (Example.sharded_trades_of Example.ask2 Example.sharded_book1)).
    + apply (reach_sharded_submit 20 Example.ask1 (ShardedMatchingEngine.new 4)
               (Example.sharded_trades_of Example.ask1
                  (ShardedMatchingEngine.new 4))).
      * apply reach_sharded_new.
      * apply (bool_decide_unpack _). vm_compute. exact I.
      * vm_compute. reflexivity.
    + apply (bool_decide_unpack _). vm_compute. exact I.
    + vm_compute. reflexivity.
  - apply (bool_decide_unpack _). vm_compute. exact I.
  - vm_compute. reflexivity.
Defined.

(** ** The base engine *)

Section base_engine_properties.

Import BaseMatchingEngine.

(** X1: in every state that the base engine reaches, the book is not
    crossed: every resting bid is priced below every resting ask. *)
Theorem base_book_never_crossed (e : BaseMatchingEngine.t) (b a : nat) :
  reachable (Base e) → rests (bids e) b → rests (asks e) a →
  Order.price (deref (objs e) b) < Order.price (deref (objs e) a).
Proof.
  intros Hr Hb Ha.
  by apply (sb_uncrossed _ (reachable_base_sound _ Hr e eq_refl)).
Qed.

Lemma base_book_never_crossed_witness :
  Order.price (deref (objs Example.book) 2)
  < Order.price (deref (objs Example.book) 0).
Proof.
  apply (base_book_never_crossed Example.book 2 0).
  - exact example_book_reachable.
  - exists 100. vm_compute. left.
  - exists 105. vm_compute. left.
Defined.

(** X2: every trade that the base engine makes for a new order is
    between that order and an order that rested on the other side of
    the book, a buy order and a sell order; its quantity is positive;
    and its price is not above the limit of the buy order, if that is a
    limit order, and not below the limit of the sell order, if that is
    a limit order. *)
Theorem base_trade_within_limits (fuel : nat) (o : Order.t)
    (e e' : BaseMatchingEngine.t) (trades : list Trade.t) (t : Trade.t) :
  reachable (Base e) →
  Order.order_id o ∉ Order.order_id <$> objs e →
  submit fuel o e = Some (trades, e') →
  t ∈ trades →
  ∃ b s : nat,
    (b = length (objs e) ∧ rests (asks e) s
     ∨ s = length (objs e) ∧ rests (bids e) b)
    ∧ Trade.buy_order_id t = Order.order_id (deref (objs e') b)
    ∧ Trade.sell_order_id t = Order.order_id (deref (objs e') s)
    ∧ Order.side (deref (objs e') b) = BUY
    ∧ Order.side (deref (objs e') s) = SELL
    ∧ 0 < Trade.quantity t
    ∧ (Order.order_type (deref (objs e') b) = LIMIT →
       Trade.price t ≤ Order.price (deref (objs e') b))
    ∧ (Order.order_type (deref (objs e') s) = LIMIT →
       Order.price (deref (objs e') s) ≤ Trade.price t).
Proof.
  intros Hr Hfresh Hsub Ht.
  pose proof (reachable_base_sound _ Hr e eq_refl) as Hs.
  destruct (base_submit_account _ _ _ _ _ (sb_wf _ Hs) Hfresh Hsub)
    as (_ & (fs & Hacc) & _).
  apply (order_account_limits _ _ _ _ _ _ _ Hacc); [|done].
  intros sd a Ha. by apply sound_base_resting.
Qed.

Lemma base_trade_within_limits_witness :
  let e' := Example.after Example.buy Example.book in
  let t := Trade.mk "b2" "a1" 105 10 in
  ∃ b s : nat,
    (b = length (objs Example.book) ∧ rests (asks Example.book) s
     ∨ s = length (objs Example.book) ∧ rests (bids Example.book) b)
    ∧ Trade.buy_order_id t = Order.order_id (deref (objs e') b)
    ∧ Trade.sell_order_id t = Order.order_id (deref (objs e') s)
    ∧ Order.side (deref (objs e') b) = BUY
    ∧ Order.side (deref (objs e') s) = SELL
    ∧ 0 < Trade.quantity t
    ∧ (Order.order_type (deref (objs e') b) = LIMIT →
       Trade.price t ≤ Order.price (deref (objs e') b))
    ∧ (Order.order_type (deref (objs e') s) = LIMIT →
       Order.price (deref (objs e') s) ≤ Trade.price t).
Proof.
  intros e' t.
  apply (base_trade_within_limits 20 Example.buy Example.book e' [t] t).
  - exact example_book_reachable.
  - apply (bool_decide_unpack _). vm_compute. exact I.
  - vm_compute. reflexivity.
  - left.
Defined.

(** X3: after the base engine took a new order, every order of the
    store has filled, beyond what it had filled before, the quantity
    that the returned trades record for its id; and an order that was
    not filled beyond its quantity still is not. *)
Theorem base_fills_equal_trades (fuel : nat) (o : Order.t)
    (e e' : BaseMatchingEngine.t) (trades : list Trade.t) (y : nat) :
  reachable (Base e) →
  Order.order_id o ∉ Order.order_id <$> objs e →
  submit fuel o e = Some (trades, e') →
  (y < length (objs e ++ [o]))%nat →
  length (objs e') = length (objs e ++ [o])
  ∧ Order.order_id (deref (objs e') y) = Order.order_id (deref (objs e ++ [o]) y)
  ∧ Order.filled_quantity (deref (objs e') y)
    = Order.filled_quantity (deref (objs e ++ [o]) y)
      + traded_quantity (Order.order_id (deref (objs e') y)) trades
  ∧ (0 ≤ Order.remaining_quantity (deref (objs e ++ [o]) y) →
     0 ≤ Order.remaining_quantity (deref (objs e') y)).
Proof.
  intros Hr Hfresh Hsub Hy.
  pose proof (reachable_base_sound _ Hr e eq_refl) as Hs.
  pose proof (sb_wf _ Hs) as Hwf.
  destruct (base_submit_account _ _ _ _ _ Hwf Hfresh Hsub)
    as (_ & (fs & Hacc) & _).
  pose proof Hacc as (_ & Hm & _).
  pose proof (ma_fills _ _ _ _ _ _ _ Hm) as Hfill.
  destruct (fills_only_fields _ _ y Hfill) as (Hid & _).
  split; [by destruct Hfill|]. split; [done|]. split.
  - rewrite Hid.
    apply (order_account_filled _ _ _ _ _ _ _ Hacc); [| | |done].
    + apply (wfb_ids _ _ _ (wf_book_alloc _ o _ _ Hwf Hfresh)).
    + rewrite length_app. simpl. lia.
    + intros sd a Ha. apply (base_rests_lt e sd a Hwf) in Ha.
      rewrite length_app. lia.
  - apply (ma_nonneg _ _ _ _ _ _ _ Hm).
Qed.

Lemma base_fills_equal_trades_witness :
  let e' := Example.after Example.buy Example.book in
  length (objs e') = length (objs Example.book ++ [Example.buy])
  ∧ Order.order_id (deref (objs e') 0)
    = Order.order_id (deref (objs Example.book ++ [Example.buy]) 0)
  ∧ Order.filled_quantity (deref (objs e') 0)
    = Order.filled_quantity (deref (objs Example.book ++ [Example.buy]) 0)
      + traded_quantity (Order.order_id (deref (objs e') 0))
          [Trade.mk "b2" "a1" 105 10]
  ∧ (0 ≤ Order.remaining_quantity
           (deref (objs Example.book ++ [Example.buy]) 0) →
     0 ≤ Order.remaining_quantity (deref (objs e') 0)).
Proof.
  intros e'.
  apply (base_fills_equal_trades 20 Example.buy Example.book e'
           [Trade.mk "b2" "a1" 105 10] 0).
  - exact example_book_reachable.
  - apply (bool_decide_unpack _). vm_compute. exact I.
  - vm_compute. reflexivity.
  - vm_compute. lia.
Defined.

(** X4: after the base engine took a new order, the order rests in the
    book exactly if it is a limit order of which something is left to
    fill, and then on its own side; and no other order has entered the
    book. *)
Theorem base_order_rests_iff (fuel : nat) (o : Order.t)
    (e e' : BaseMatchingEngine.t) (trades : list Trade.t) :
  reachable (Base e) →
  Order.order_id o ∉ Order.order_id <$> objs e →
  submit fuel o e = Some (trades, e') →
  let n := length (objs e) in
  (rests (bids e') n ∨ rests (asks e') n
   ↔ 0 < Order.remaining_quantity (deref (objs e') n)
     ∧ Order.order_type o = LIMIT)
  ∧ (rests (bids e') n → Order.side o = BUY)
  ∧ (rests (asks e') n → Order.side o = SELL)
  ∧ (∀ y, y ≠ n → rests (bids e') y → rests (bids e) y)
  ∧ (∀ y, y ≠ n → rests (asks e') y → rests (asks e) y).
Proof.
  intros Hr Hfresh Hsub n.
  pose proof (reachable_base_sound _ Hr e eq_refl) as Hs.
  pose proof (sb_wf _ Hs) as Hwf.
  destruct (base_submit_account _ _ _ _ _ Hwf Hfresh Hsub)
    as (_ & (fs & Hacc) & _).
  pose proof Hacc as (_ & Hm & _ & _ & Hown).
  pose proof (ma_fills _ _ _ _ _ _ _ Hm) as Hfill.
  destruct (fills_only_fields _ _ n Hfill) as (_ & _ & _ & _ & Hty & _).
  assert (Hnew : ∀ sd, ¬ base_rests e sd n).
  { intros sd Hn. apply (base_rests_lt e sd n Hwf) in Hn. lia. }
  pose proof (order_account_other_side _ _ _ _ _ _ _ Hacc (Hnew _)) as Hno.
  pose proof (ma_shrink _ _ _ _ _ _ _ Hm) as Hshr.
  fold n in Hown, Hno, Hty, Hshr.
  rewrite deref_alloc_new in Hown, Hno, Hty, Hshr.
  rewrite Hty in Hown.
  destruct (Order.side o); simpl in Hown, Hno, Hshr.
  - split; [|split; [done|]]; [|split; [done|]].
    + rewrite (Hown n). specialize (Hnew BUY). simpl in Hnew. tauto.
    + split; [|by auto].
      intros y Hy Hb. apply Hown in Hb. tauto.
  - split; [|split; [done|]]; [|split; [done|]].
    + rewrite (Hown n). specialize (Hnew SELL). simpl in Hnew. tauto.
    + split; [by auto|].
      intros y Hy Hb. apply Hown in Hb. tauto.
Qed.

Lemma base_order_rests_iff_witness :
  let e' := Example.after Example.buy Example.book in
  let n := length (objs Example.book) in
  (rests (bids e') n ∨ rests (asks e') n
   ↔ 0 < Order.remaining_quantity (deref (objs e') n)
     ∧ Order.order_type Example.buy = LIMIT)
  ∧ (rests (bids e') n → Order.side Example.buy = BUY)
  ∧ (rests (asks e') n → Order.side Example.buy = SELL)
  ∧ (∀ y, y ≠ n → rests (bids e') y → rests (bids Example.book) y)
  ∧ (∀ y, y ≠ n → rests (asks e') y → rests (asks Example.book) y).
Proof.
  intros e'.
  apply (base_order_rests_iff 20 Example.buy Example.book e'
           [Trade.mk "b2" "a1" 105 10]).
  - exact example_book_reachable.
  - apply (bool_decide_unpack _). vm_compute. exact I.
  - vm_compute. reflexivity.
Defined.

(** X5: the trades that the base engine makes for a new order are the
    trades of a list of fills, each an order that rested on the other
    side and a quantity, that follows the prices of the book: a fill is
    never at a better price than an earlier one, and no order left on
    that side is better priced than a filled one.  An order is filled
    once; and a filled order is left in the book only if nothing is
    left of the new order. *)
Theorem base_best_price_first (fuel : nat) (o : Order.t)
    (e e' : BaseMatchingEngine.t) (trades : list Trade.t) :
  reachable (Base e) →
  Order.order_id o ∉ Order.order_id <$> objs e →
  submit fuel o e = Some (trades, e') →
  let h0 := objs e ++ [o] in
  let n := length (objs e) in
  let opp := other_side (Order.side o) in
  ∃ fs : list (nat * Z),
    trades = fill_trade h0 n <$> fs
    ∧ (∀ f, f ∈ fs → base_rests e opp f.1)
    ∧ StronglySorted
        (λ f f', price_key opp h0 f.1 ≤ price_key opp h0 f'.1) fs
    ∧ (∀ f a, f ∈ fs → base_rests e' opp a →
              price_key opp h0 f.1 ≤ price_key opp h0 a)
    ∧ NoDup fs.*1
    ∧ (∀ f, f ∈ fs → base_rests e' opp f.1 →
            Order.remaining_quantity (deref (objs e') n) = 0)
    ∧ (∀ a, base_rests e opp a → a ∉ fs.*1 → base_rests e' opp a).
Proof.
  intros Hr Hfresh Hsub h0 n opp.
  pose proof (reachable_base_sound _ Hr e eq_refl) as Hs.
  destruct (base_submit_account _ _ _ _ _ (sb_wf _ Hs) Hfresh Hsub)
    as (_ & (fs & Hacc) & _).
  destruct Hacc as (Htr & Hm & Hwh & _).
  fold n in Htr, Hm, Hwh. fold h0 in Htr, Hm, Hwh.
  replace (Order.side (deref h0 n)) with (Order.side o) in Hm, Hwh
    by (subst h0 n; by rewrite deref_alloc_new).
  fold opp in Hm, Hwh.
  exists fs. split; [done|]. split.
  { intros f Hf. by destruct (ma_resting _ _ _ _ _ _ _ Hm f Hf). }
  split; [apply (ma_sorted _ _ _ _ _ _ _ Hm)|].
  split; [apply (ma_best_first _ _ _ _ _ _ _ Hm)|].
  split; [apply (wh_nodup _ _ _ _ Hwh)|].
  split; [apply (wh_partial _ _ _ _ Hwh)|].
  apply (ma_kept _ _ _ _ _ _ _ Hm).
Qed.

Lemma base_best_price_first_witness :
  let e' := Example.after Example.buy Example.book in
  let h0 := objs Example.book ++ [Example.buy] in
  let n := length (objs Example.book) in
  let opp := other_side (Order.side Example.buy) in
  ∃ fs : list (nat * Z),
    [Trade.mk "b2" "a1" 105 10] = fill_trade h0 n <$> fs
    ∧ (∀ f, f ∈ fs → base_rests Example.book opp f.1)
    ∧ StronglySorted
        (λ f f', price_key opp h0 f.1 ≤ price_key opp h0 f'.1) fs
    ∧ (∀ f a, f ∈ fs → base_rests e' opp a →
              price_key opp h0 f.1 ≤ price_key opp h0 a)
    ∧ NoDup fs.*1
    ∧ (∀ f, f ∈ fs → base_rests e' opp f.1 →
            Order.remaining_quantity (deref (objs e') n) = 0)
    ∧ (∀ a, base_rests Example.book opp a → a ∉ fs.*1 →
            base_rests e' opp a).
Proof.
  intros e'.
  apply (base_best_price_first 20 Example.buy Example.book e'
           [Trade.mk "b2" "a1" 105 10]).
  - exact example_book_reachable.
  - apply (bool_decide_unpack _). vm_compute. exact I.
  - vm_compute. reflexivity.
Defined.

(** X9: in every state that the base engine reaches, [get_best_price]
    of a side returns the price of a resting order that no resting
    order of the side betters, the highest bid or the lowest ask, and
    [None] exactly when nothing rests on the side; and it leaves the
    side as it is. *)
Theorem base_best_price_is_best (e : BaseMatchingEngine.t) (sd : OrderSide) :
  reachable (Base e) →
  let b := base_side e sd in
  (OrderBookSide.get_best_price b).2 = b
  ∧ match (OrderBookSide.get_best_price b).1 with
    | Some p =>
        (∃ a, rests b a ∧ Order.price (deref (objs e) a) = p)
        ∧ ∀ a, rests b a →
               match sd with
               | BUY => Order.price (deref (objs e) a) ≤ p
               | SELL => p ≤ Order.price (deref (objs e) a)
               end
    | None => ∀ a, ¬ rests b a
    end.
Proof.
  intros Hr b. destruct (reachable_base_side e sd Hr) as (Hwf & _ & Hsd).
  fold b in Hwf, Hsd.
  destruct (best_price_spec _ _ Hwf) as [Hsame Hbest]. split; [done|].
  destruct (OrderBookSide.get_best_price b).1 as [p|]; [|done].
  destruct Hbest as [Hex Hmin]. split; [done|].
  intros a Ha. specialize (Hmin a Ha). rewrite Hsd in Hmin.
  destruct sd; simpl in Hmin; lia.
Qed.

Lemma base_best_price_is_best_witness :
  let b := base_side Example.book SELL in
  (OrderBookSide.get_best_price b).2 = b
  ∧ match (OrderBookSide.get_best_price b).1 with
    | Some p =>
        (∃ a, rests b a ∧ Order.price (deref (objs Example.book) a) = p)
        ∧ ∀ a, rests b a → p ≤ Order.price (deref (objs Example.book) a)
    | None => ∀ a, ¬ rests b a
    end.
Proof.
  apply (base_best_price_is_best Example.book SELL).
  exact example_book_reachable.
Defined.

(** X10: in every state that the base engine reaches, [get_depth] of a
    side lists the best price levels, as many as asked for or all of
    them, best price first and each price once, every one with the
    [total_volume] of its level; the first price, if levels were
    asked for, is the one that [get_best_price] returns. *)
Theorem base_depth_best_levels (e : BaseMatchingEngine.t) (sd : OrderSide)
    (levels : Z) :
  reachable (Base e) →
  let b := base_side e sd in
  let d := OrderBookSide.get_depth levels b in
  length d
  = Z.to_nat (Z.min levels (Z.of_nat (size (OrderBookSide.price_levels b))))
  ∧ StronglySorted
      (λ x y, OrderBookSide.heap_key sd x.1 < OrderBookSide.heap_key sd y.1) d
  ∧ (∀ p v, (p, v) ∈ d →
            ∃ l, OrderBookSide.price_levels b !! p = Some l
                 ∧ v = PriceLevel.total_volume l
                 ∧ ∃ a, a ∈ level_orders b p)
  ∧ (∀ p v q, (p, v) ∈ d →
              is_Some (OrderBookSide.price_levels b !! q) → q ∉ d.*1 →
              OrderBookSide.heap_key sd p < OrderBookSide.heap_key sd q)
  ∧ (0 < levels → fst <$> head d = (OrderBookSide.get_best_price b).1).
Proof.
  intros Hr b d. destruct (reachable_base_side e sd Hr) as (Hwf & Hnd & Hsd).
  pose proof (depth_spec (objs e) (base_side e sd) levels Hwf Hnd) as H.
  rewrite Hsd in H. exact H.
Qed.

Lemma base_depth_best_levels_witness :
  let b := base_side Example.book SELL in
  let d := OrderBookSide.get_depth 1 b in
  length d
  = Z.to_nat (Z.min 1 (Z.of_nat (size (OrderBookSide.price_levels b))))
  ∧ StronglySorted
      (λ x y, OrderBookSide.heap_key SELL x.1
              < OrderBookSide.heap_key SELL y.1) d
  ∧ (∀ p v, (p, v) ∈ d →
            ∃ l, OrderBookSide.price_levels b !! p = Some l
                 ∧ v = PriceLevel.total_volume l
                 ∧ ∃ a, a ∈ level_orders b p)
  ∧ (∀ p v q, (p, v) ∈ d →
              is_Some (OrderBookSide.price_levels b !! q) → q ∉ d.*1 →
              OrderBookSide.heap_key SELL p < OrderBookSide.heap_key SELL q)
  ∧ (0 < 1 → fst <$> head d = (OrderBookSide.get_best_price b).1).
Proof.
  apply (base_depth_best_levels Example.book SELL 1).
  exact example_book_reachable.
Defined.



(** X12: in every state that the base engine reaches, an order of the
    store whose id a side does not hold can be added to the side and
    removed again: [remove_order] answers [True] and the side is as it
    was before [add_order], heap, price levels and both id maps. *)
Theorem base_add_remove_round_trip (e : BaseMatchingEngine.t)
    (sd : OrderSide) (a : nat) :
  reachable (Base e) →
  (a < length (objs e))%nat →
  OrderBookSide.order_map (base_side e sd)
    !! Order.order_id (deref (objs e) a) = None →
  OrderBookSide.remove_order (objs e) (Order.order_id (deref (objs e) a))
    (OrderBookSide.add_order (objs e) a (base_side e sd)).2
  = (true, base_side e sd).
Proof.
  intros Hr Ha Hfresh.
  destruct (reachable_base_side e sd Hr) as (Hwf & Hnd & _).
  pose proof (reachable_wf _ Hr) as Hwfb. simpl in Hwfb.
  apply (add_remove_round_trip _ _ _ Hwf Hnd (wfb_ids _ _ _ Hwfb) Ha).
  intros [p Hp].
  destruct (wf_level_orders _ _ Hwf _ _ Hp) as (_ & _ & Hm). congruence.
Qed.

Lemma base_add_remove_round_trip_witness :
  let e := Example.after Example.buy Example.book in
  OrderBookSide.remove_order (objs e) (Order.order_id (deref (objs e) 0%nat))
    (OrderBookSide.add_order (objs e) 0%nat (base_side e SELL)).2
  = (true, base_side e SELL).
Proof.
  apply (base_add_remove_round_trip
           (Example.after Example.buy Example.book) SELL 0%nat).
  - apply (reach_base_submit 20 Example.buy Example.book
             (Example.trades_of Example.buy Example.book)).
    + exact example_book_reachable.
    + apply (bool_decide_unpack _). vm_compute. exact I.
    + vm_compute. reflexivity.
  - vm_compute. lia.
  - vm_compute. reflexivity.
Defined.

(** X13: [add_order] of the base engine returns: in a state that the
    engine reaches, for a new order with a new id, the matching loop
    ends within one pass more than the units that the order has to
    fill; no pass finds an empty level and goes round without a
    trade. *)
Theorem base_submit_terminates (fuel : nat) (o : Order.t)
    (e : BaseMatchingEngine.t) :
  reachable (Base e) →
  Order.order_id o ∉ Order.order_id <$> objs e →
  (Z.to_nat (Order.remaining_quantity o) < fuel)%nat →
  is_Some (submit fuel o e).
Proof.
  intros Hr Hfresh Hfuel.
  pose proof (reachable_base_sound _ Hr e eq_refl) as Hs.
  destruct (base_submit_wf fuel o e (sb_wf _ Hs) Hfresh Hfuel)
    as (trades & e' & -> & _).
  done.
Qed.

Lemma base_submit_terminates_witness :
  is_Some (submit 20 Example.buy Example.book).
Proof.
  apply (base_submit_terminates 20 Example.buy Example.book).
  - exact example_book_reachable.
  - apply (bool_decide_unpack _). vm_compute. exact I.
  - vm_compute. lia.
Defined.

End base_engine_properties.

(** ** The sharded engine *)

Section sharded_engine_properties.

Import ShardedMatchingEngine.

(** X6: in every state that the sharded engine reaches, the book is
    not crossed: every bid that rests in a shard is priced below every
    ask that rests in a shard. *)
Theorem sharded_book_never_crossed (e : ShardedMatchingEngine.t) (b a : nat) :
  reachable (Sharded e) →
  shard_rests (ShardedOrderBookSide.shards (bids e)) b →
  shard_rests (ShardedOrderBookSide.shards (asks e)) a →
  Order.price (deref (objs e) b) < Order.price (deref (objs e) a).
Proof.
  intros Hr Hb Ha.
  by apply (ss_uncrossed _ (reachable_sharded_sound _ Hr e eq_refl)).
Qed.

Lemma sharded_book_never_crossed_witness :
  Order.price (deref (objs Example.sharded_book) 2)
  < Order.price (deref (objs Example.sharded_book) 0).
Proof.
  apply (sharded_book_never_crossed Example.sharded_book 2 0).
  - exact example_sharded_book_reachable.
  - apply shard_rests_orders. exists 100. vm_compute. left.
  - apply shard_rests_orders. exists 105. vm_compute. left.
Defined.

(** X7: the trades that the sharded engine makes for a new order are
    the trades of a list of fills, each an order that rested in a shard
    of the other side and a quantity, in price and time priority over
    all the shards: a fill is never at a better price than an earlier
    one, no order left on that side is better priced than a filled
    one, and none at the price of a filled one has a smaller
    timestamp.  An order is filled once; and a filled order is left in
    the book only if nothing is left of the new order. *)
Theorem sharded_price_time_priority (fuel : nat) (o : Order.t)
    (e e' : ShardedMatchingEngine.t) (trades : list Trade.t) :
  reachable (Sharded e) →
  Order.order_id o ∉ Order.order_id <$> objs e →
  submit fuel o e = Some (trades, e') →
  let h0 := objs e ++ [o] in
  let n := length (objs e) in
  let opp := other_side (Order.side o) in
  ∃ fs : list (nat * Z),
    trades = fill_trade h0 n <$> fs
    ∧ (∀ f, f ∈ fs → sharded_rests e opp f.1)
    ∧ StronglySorted
        (λ f f', price_key opp h0 f.1 ≤ price_key opp h0 f'.1) fs
    ∧ (∀ f a, f ∈ fs → sharded_rests e' opp a →
              price_key opp h0 f.1 ≤ price_key opp h0 a)
    ∧ (∀ f a, f ∈ fs → sharded_rests e' opp a →
              Order.price (deref h0 a) = Order.price (deref h0 f.1) →
              Order.timestamp (deref h0 f.1) ≤ Order.timestamp (deref h0 a))
    ∧ NoDup fs.*1
    ∧ (∀ f, f ∈ fs → sharded_rests e' opp f.1 →
            Order.remaining_quantity (deref (objs e') n) = 0)
    ∧ (∀ a, sharded_rests e opp a → a ∉ fs.*1 → sharded_rests e' opp a).
Proof.
  intros Hr Hfresh Hsub h0 n opp.
  pose proof (reachable_sharded_sound _ Hr e eq_refl) as Hs.
  destruct (sharded_submit_account _ _ _ _ _ (ss_wf _ Hs) Hfresh Hsub)
    as (_ & (fs & Hacc & Htime) & _).
  destruct Hacc as (Htr & Hm & Hwh & _).
  fold n in Htr, Hm, Hwh. fold h0 in Htr, Hm, Hwh, Htime.
  replace (Order.side (deref h0 n)) with (Order.side o) in Hm, Hwh
    by (subst h0 n; by rewrite deref_alloc_new).
  fold opp in Hm, Hwh, Htime.
  exists fs. split; [done|]. split.
  { intros f Hf. by destruct (ma_resting _ _ _ _ _ _ _ Hm f Hf). }
  split; [apply (ma_sorted _ _ _ _ _ _ _ Hm)|].
  split; [apply (ma_best_first _ _ _ _ _ _ _ Hm)|].
  split; [exact Htime|].
  split; [apply (wh_nodup _ _ _ _ Hwh)|].
  split; [apply (wh_partial _ _ _ _ Hwh)|].
  apply (ma_kept _ _ _ _ _ _ _ Hm).
Qed.

Lemma sharded_price_time_priority_witness :
  let e := Example.sharded_book in
  let e' := Example.sharded_after Example.buy e in
  let h0 := objs e ++ [Example.buy] in
  let n := length (objs e) in
  let opp := other_side (Order.side Example.buy) in
  ∃ fs : list (nat * Z),
    [Trade.mk "b2" "a1" 105 10] = fill_trade h0 n <$> fs
    ∧ (∀ f, f ∈ fs → sharded_rests e opp f.1)
    ∧ StronglySorted
        (λ f f', price_key opp h0 f.1 ≤ price_key opp h0 f'.1) fs
    ∧ (∀ f a, f ∈ fs → sharded_rests e' opp a →
              price_key opp h0 f.1 ≤ price_key opp h0 a)
    ∧ (∀ f a, f ∈ fs → sharded_rests e' opp a →
              Order.price (deref h0 a) = Order.price (deref h0 f.1) →
              Order.timestamp (deref h0 f.1) ≤ Order.timestamp (deref h0 a))
    ∧ NoDup fs.*1
    ∧ (∀ f, f ∈ fs → sharded_rests e' opp f.1 →
            Order.remaining_quantity (deref (objs e') n) = 0)
    ∧ (∀ a, sharded_rests e opp a → a ∉ fs.*1 → sharded_rests e' opp a).
Proof.
  intros e e'.
  apply (sharded_price_time_priority 20 Example.buy e e'
           [Trade.mk "b2" "a1" 105 10]).
  - exact example_sharded_book_reachable.
  - apply (bool_decide_unpack _). vm_compute. exact I.
  - vm_compute. reflexivity.
Defined.

(** X8: [process_order] of the sharded engine returns: in a state that
    the engine reaches, for a new order with a new id, the matching
    loop ends within one pass more than the units that the order has
    to fill, whatever the best-price cache holds. *)
Theorem sharded_submit_terminates (fuel : nat) (o : Order.t)
    (e : ShardedMatchingEngine.t) :
  reachable (Sharded e) →
  Order.order_id o ∉ Order.order_id <$> objs e →
  (Z.to_nat (Order.remaining_quantity o) < fuel)%nat →
  is_Some (submit fuel o e).
Proof.
  intros Hr Hfresh Hfuel.
  pose proof (reachable_sharded_sound _ Hr e eq_refl) as Hs.
  destruct (sharded_submit_wf fuel o e (ss_wf _ Hs) Hfresh Hfuel)
    as (trades & e' & -> & _).
  done.
Qed.

Lemma sharded_submit_terminates_witness :
  is_Some (submit 20 Example.buy Example.sharded_book).
Proof.
  apply (sharded_submit_terminates 20 Example.buy Example.sharded_book).
  - exact example_sharded_book_reachable.
  - apply (bool_decide_unpack _). vm_compute. exact I.
  - vm_compute. lia.
Defined.

(** X14: in every state that the sharded engine reaches, an order that
    rests in a shard rests in the shard that [_get_shard_index] gives
    for its id, which is one of the [num_shards] shards of the side,
    and the shard has the order under its id. *)
Theorem sharded_order_in_its_shard (e : ShardedMatchingEngine.t)
    (sd : OrderSide) (i : nat) (s : OrderBookSide.t) (a : nat) :
  reachable (Sharded e) →
  ShardedOrderBookSide.shards (sharded_side e sd) !! i = Some s →
  rests s a →
  let id := Order.order_id (deref (objs e) a) in
  ShardedOrderBookSide._get_shard_index id (sharded_side e sd) = i
  ∧ (i < ShardedOrderBookSide.num_shards (sharded_side e sd))%nat
  ∧ OrderBookSide.order_map s !! id = Some a.
Proof.
  intros Hr Hi Ha id.
  destruct (reachable_sharded_side e sd Hr) as (Hwf & _ & _).
  split; [by apply (wfs_index _ _ Hwf i s a)|]. split.
  - rewrite <- (wfs_length _ _ Hwf). by eapply lookup_lt_Some.
  - destruct Ha as [p Hp].
    by destruct (wf_level_orders _ _ (wfs_wf _ _ Hwf _ _ Hi) _ _ Hp)
      as (_ & _ & ?).
Qed.

Lemma sharded_order_in_its_shard_witness :
  let e := Example.sharded_book in
  let id := Order.order_id (deref (objs e) 1%nat) in
  ShardedOrderBookSide._get_shard_index id (sharded_side e SELL) = 3%nat
  ∧ (3 < ShardedOrderBookSide.num_shards (sharded_side e SELL))%nat
  ∧ OrderBookSide.order_map
      (default (OrderBookSide.new SELL)
         (ShardedOrderBookSide.shards (sharded_side e SELL) !! 3%nat))
      !! id = Some 1%nat.
Proof.
  apply (sharded_order_in_its_shard Example.sharded_book SELL 3
           (default (OrderBookSide.new SELL)
              (ShardedOrderBookSide.shards
                 (sharded_side Example.sharded_book SELL) !! 3%nat)) 1).
  - exact example_sharded_book_reachable.
  - vm_compute. reflexivity.
  - exists 107. vm_compute. left.
Defined.

(** X15: in every state that the sharded engine reaches,
    [get_orders_at_best_price] of a side returns the orders that rest
    in the shards of the side at its best price, the highest bid or the
    lowest ask, and no others; it returns each of them once and in the
    order of their timestamps, and leaves the shards as they are. *)
Theorem sharded_orders_at_best_price (e : ShardedMatchingEngine.t)
    (sd : OrderSide) :
  reachable (Sharded e) →
  let b := sharded_side e sd in
  let os := (ShardedOrderBookSide.get_orders_at_best_price (objs e) b).1 in
  ShardedOrderBookSide.shards
    (ShardedOrderBookSide.get_orders_at_best_price (objs e) b).2
  = ShardedOrderBookSide.shards b
  ∧ (∀ a, a ∈ os
          ↔ sharded_rests e sd a
            ∧ ∀ y, sharded_rests e sd y →
                   match sd with
                   | BUY => Order.price (deref (objs e) y)
                            ≤ Order.price (deref (objs e) a)
                   | SELL => Order.price (deref (objs e) a)
                             ≤ Order.price (deref (objs e) y)
                   end)
  ∧ NoDup os
  ∧ ∀ i j x y, (i ≤ j)%nat → os !! i = Some x → os !! j = Some y →
               Order.timestamp (deref (objs e) x)
               ≤ Order.timestamp (deref (objs e) y).
Proof.
  intros Hr b os.
  destruct (reachable_sharded_side e sd Hr) as (Hwf & Hsd & Hrests).
  fold b in Hwf, Hsd, Hrests.
  destruct (sharded_orders_at_best_spec _ _ Hwf) as (Hsh & Hel & Hnd & Hst).
  fold os in Hel, Hnd, Hst.
  split; [done|]. split; [|split; [done|]].
  - intros a. rewrite (Hel a), Hrests, Hsd. unfold price_key.
    split; intros [Ha Hmin]; (split; [done|]); intros y Hy;
      specialize (Hmin y Hy); destruct sd; simpl in *; lia.
  - intros i j x y Hij Hx Hy.
    destruct (decide (i = j)) as [->|Hne].
    { assert (x = y) by congruence. subst y. lia. }
    assert (Hlt : (i < j)%nat) by lia.
    apply (StronglySorted_lookup_lt _ os i j x y Hst Hlt Hx Hy).
Qed.

Lemma sharded_orders_at_best_price_witness :
  let e := Example.sharded_book in
  let b := sharded_side e SELL in
  let os := (ShardedOrderBookSide.get_orders_at_best_price (objs e) b).1 in
  ShardedOrderBookSide.shards
    (ShardedOrderBookSide.get_orders_at_best_price (objs e) b).2
  = ShardedOrderBookSide.shards b
  ∧ (∀ a, a ∈ os
          ↔ sharded_rests e SELL a
            ∧ ∀ y, sharded_rests e SELL y →
                   Order.price (deref (objs e) a)
                   ≤ Order.price (deref (objs e) y))
  ∧ NoDup os
  ∧ ∀ i j x y, (i ≤ j)%nat → os !! i = Some x → os !! j = Some y →
               Order.timestamp (deref (objs e) x)
               ≤ Order.timestamp (deref (objs e) y).
Proof.
  apply (sharded_orders_at_best_price Example.sharded_book SELL).
  exact example_sharded_book_reachable.
Defined.

(** X22: after the sharded engine took a new order, every order of the
    store has filled, beyond what it had filled before, the quantity
    that the returned trades record for its id; the store keeps its
    orders and their ids; and an order that was not filled beyond its
    quantity still is not. *)
Theorem sharded_fills_equal_trades (fuel : nat) (o : Order.t)
    (e e' : ShardedMatchingEngine.t) (trades : list Trade.t) (y : nat) :
  reachable (Sharded e) →
  Order.order_id o ∉ Order.order_id <$> objs e →
  submit fuel o e = Some (trades, e') →
  (y < length (objs e ++ [o]))%nat →
  length (objs e') = length (objs e ++ [o])
  ∧ Order.order_id (deref (objs e') y) = Order.order_id (deref (objs e ++ [o]) y)
  ∧ Order.filled_quantity (deref (objs e') y)
    = Order.filled_quantity (deref (objs e ++ [o]) y)
      + traded_quantity (Order.order_id (deref (objs e') y)) trades
  ∧ (0 ≤ Order.remaining_quantity (deref (objs e ++ [o]) y) →
     0 ≤ Order.remaining_quantity (deref (objs e') y)).
Proof.
  intros Hr Hfresh Hsub Hy.
  pose proof (reachable_sharded_sound _ Hr e eq_refl) as Hs.
  pose proof (ss_wf _ Hs) as Hwf.
  destruct (sharded_submit_account _ _ _ _ _ Hwf Hfresh Hsub)
    as (_ & (fs & Hacc & _) & _).
  pose proof Hacc as (_ & Hm & _).
  pose proof (ma_fills _ _ _ _ _ _ _ Hm) as Hfill.
  destruct (fills_only_fields _ _ y Hfill) as (Hid & _).
  split; [by destruct Hfill|]. split; [done|]. split.
  - rewrite Hid.
    apply (order_account_filled _ _ _ _ _ _ _ Hacc); [| | |done].
    + apply (wfse_ids _ (wf_sharded_alloc _ o Hwf Hfresh)).
    + rewrite length_app. simpl. lia.
    + intros sd a Ha. apply (sharded_rests_lt e sd a Hwf) in Ha.
      rewrite length_app. lia.
  - apply (ma_nonneg _ _ _ _ _ _ _ Hm).
Qed.

Lemma sharded_fills_equal_trades_witness :
  let e := Example.sharded_book in
  let e' := Example.sharded_after Example.buy e in
  let trades := Example.sharded_trades_of Example.buy e in
  length (objs e') = length (objs e ++ [Example.buy])
  ∧ Order.order_id (deref (objs e') 0)
    = Order.order_id (deref (objs e ++ [Example.buy]) 0)
  ∧ Order.filled_quantity (deref (objs e') 0)
    = Order.filled_quantity (deref (objs e ++ [Example.buy]) 0)
      + traded_quantity (Order.order_id (deref (objs e') 0)) trades
  ∧ (0 ≤ Order.remaining_quantity (deref (objs e ++ [Example.buy]) 0) →
     0 ≤ Order.remaining_quantity (deref (objs e') 0)).
Proof.
  apply (sharded_fills_equal_trades 20 Example.buy Example.sharded_book
           (Example.sharded_after Example.buy Example.sharded_book)
           (Example.sharded_trades_of Example.buy Example.sharded_book) 0).
  - exact example_sharded_book_reachable.
  - apply (bool_decide_unpack _). vm_compute. exact I.
  - vm_compute. reflexivity.
  - vm_compute. lia.
Defined.

(** X23: in every state that the sharded engine reaches, the
    statistics of a side add up: [total_orders] is
    [total_cancellations], which counts the orders taken out of the
    shards, filled or cancelled, plus the sum of [num_orders] over the
    shards; and there is an entry for each of the [num_shards]
    shards. *)
Theorem sharded_statistics_add_up (e : ShardedMatchingEngine.t)
    (sd : OrderSide) :
  reachable (Sharded e) →
  let st := ShardedOrderBookSide.get_statistics (sharded_side e sd) in
  ShardedOrderBookSide.stat_total_orders st
  = (ShardedOrderBookSide.stat_total_cancellations st
     + sum_list_with (λ d, d.1.2) (ShardedOrderBookSide.shard_details st))%nat
  ∧ length (ShardedOrderBookSide.shard_details st)
    = ShardedOrderBookSide.stat_num_shards st.
Proof.
  intros Hr st. subst st. rewrite shard_details_count.
  pose proof (reachable_sharded_counts _ Hr) as [Hb Ha].
  destruct (reachable_sharded_side e sd Hr) as (Hwf & _ & _).
  split.
  - by destruct sd.
  - unfold ShardedOrderBookSide.get_statistics.
    cbn [ShardedOrderBookSide.shard_details
         ShardedOrderBookSide.stat_num_shards].
    rewrite length_imap. apply (wfs_length _ _ Hwf).
Qed.

Lemma sharded_statistics_add_up_witness :
  let st :=
    ShardedOrderBookSide.get_statistics
      (sharded_side Example.sharded_book SELL) in
  ShardedOrderBookSide.stat_total_orders st
  = (ShardedOrderBookSide.stat_total_cancellations st
     + sum_list_with (λ d, d.1.2) (ShardedOrderBookSide.shard_details st))%nat
  ∧ length (ShardedOrderBookSide.shard_details st)
    = ShardedOrderBookSide.stat_num_shards st.
Proof.
  apply (sharded_statistics_add_up Example.sharded_book SELL).
  exact example_sharded_book_reachable.
Defined.

End sharded_engine_properties.

(** ** The adaptive price level *)

Section level_properties.

(** X16: an [AdaptivePriceLevel] serves its orders first in, first out
    in every regime: after any calls of [set_regime], [add_order],
    [remove_order] and [get_top_order] on a new level, its orders and
    its volume are those of a plain [PriceLevel] after the same calls,
    the flag [_maintain_sorted] is unset, and [get_top_order] returns
    the first order of the queue without sorting it. *)
Theorem adaptive_level_is_fifo (p : Z) (r : MarketRegime)
    (calls : list level_call) (h : list Order.t) :
  let lv := foldl adaptive_call (AdaptivePriceLevel.new_level p r) calls in
  lv.1 = foldl plain_call (PriceLevel.new p) calls
  ∧ AdaptivePriceLevel._maintain_sorted lv.2 = false
  ∧ AdaptivePriceLevel.get_top_order h lv
    = (PriceLevel.get_top_order lv.1, lv).
Proof.
  intros lv.
  destruct (adaptive_calls_fifo calls (AdaptivePriceLevel.new_level p r)
              eq_refl) as [Hm Heq].
  fold lv in Hm, Heq. split; [done|]. split; [done|].
  unfold AdaptivePriceLevel.get_top_order. by rewrite Hm, andb_false_r.
Qed.

End level_properties.

(** ** The exchange engine *)

Lemma example_nse_book_reachable : reachable (NSE Example.nse_book).
Proof.
  apply (reach_nse_submit 20 0 Example.buy Example.nse_book3
           (Example.nse_trades_of Example.buy Example.nse_book3)).
  - apply (reach_nse_submit 20 0 Example.bid1 Example.nse_book2
             (Example.nse_trades_of Example.bid1 Example.nse_book2)).
    + apply (reach_nse_submit 20 0 Example.ask2 Example.nse_book1
               (Example.nse_trades_of Example.ask2 Example.nse_book1)).
      * apply (reach_nse_submit 20 0 Example.ask1
                 (NSEMatchingEngine.new "EX" 5 10 20 false)
                 (Example.nse_trades_of Example.ask1
                    (NSEMatchingEngine.new "EX" 5 10 20 false))).
        -- apply reach_nse_new.
        -- split; vm_compute; reflexivity.
        -- apply (bool_decide_unpack _). vm_compute. exact I.
        -- vm_compute. reflexivity.
      * split; vm_compute; reflexivity.
      * apply (bool_decide_unpack _). vm_compute. exact I.
      * vm_compute. reflexivity.
    + split; vm_compute; reflexivity.
    + apply (bool_decide_unpack _). vm_compute. exact I.
    + vm_compute. reflexivity.
  - split; vm_compute; reflexivity.
  - apply (bool_decide_unpack _). vm_compute. exact I.
  - vm_compute. reflexivity.
Defined.

Section exchange_engine_properties.

Import NSEMatchingEngine.



(** X18: in every state that the exchange engine reaches, the counters
    of its statistics count its histories: [total_trades] is the number
    of the trades in [trade_history], those of the auctions and of the
    activated stop orders among them, and [total_orders_processed] the
    number of the orders in [order_history]. *)
Theorem nse_counters_count_histories (e : NSEMatchingEngine.t) :
  reachable (NSE e) →
  total_trades e = length (trade_history e)
  ∧ total_orders_processed e = length (order_history e).
Proof. intros Hr. apply (reachable_nse_counts _ Hr). Qed.

Lemma nse_counters_count_histories_witness :
  total_trades Example.nse_book = length (trade_history Example.nse_book)
  ∧ total_orders_processed Example.nse_book
    = length (order_history Example.nse_book).
Proof.
  apply (nse_counters_count_histories Example.nse_book).
  exact example_nse_book_reachable.
Defined.

(** X19: in every state that the exchange engine reaches, an order is
    in one place at most: it rests among the bids, or among the asks,
    or is a pending stop order, or waits for the auction; a resting
    order is on its own side, a pending stop order is filed under its
    own id, and each of them has something left to fill. *)
Theorem nse_order_in_one_place (e : NSEMatchingEngine.t) (a : nat) :
  reachable (NSE e) →
  let o := deref (objs e) a in
  (rests (bids e) a →
   Order.side o = BUY ∧ 0 < Order.remaining_quantity o
   ∧ ¬ rests (asks e) a ∧ (a ∉ (pending_stop_orders e).*2)
   ∧ a ∉ auction_orders e)
  ∧ (rests (asks e) a →
     Order.side o = SELL ∧ 0 < Order.remaining_quantity o
     ∧ (a ∉ (pending_stop_orders e).*2) ∧ a ∉ auction_orders e)
  ∧ (a ∈ (pending_stop_orders e).*2 →
     (Order.order_id o, a) ∈ pending_stop_orders e
     ∧ 0 < Order.remaining_quantity o ∧ a ∉ auction_orders e)
  ∧ (a ∈ auction_orders e → 0 < Order.remaining_quantity o).
Proof.
  intros Hr o. subst o. destruct (reachable_wf _ Hr) as [Hwf _].
  pose proof (wfn_book _ Hwf) as Hb.
  assert (Hp : ∀ x, x ∈ (pending_stop_orders e).*2 →
                    (Order.order_id (deref (objs e) x), x)
                    ∈ pending_stop_orders e
                    ∧ ¬ rests (bids e) x ∧ ¬ rests (asks e) x
                    ∧ 0 < Order.remaining_quantity (deref (objs e) x)).
  { intros x ([k x'] & -> & Hk)%list_elem_of_fmap. simpl.
    destruct (wfn_pending _ Hwf _ _ Hk) as (_ & -> & ? & ? & ?). done. }
  assert (Hbl : ∀ x, rests (bids e) x →
                     Order.side (deref (objs e) x) = BUY
                     ∧ 0 < Order.remaining_quantity (deref (objs e) x)).
  { intros x Hx. destruct (wfb_bids_live _ _ _ Hb _ Hx) as [? Hs].
    by rewrite (wfb_bids_side _ _ _ Hb) in Hs. }
  assert (Hal : ∀ x, rests (asks e) x →
                     Order.side (deref (objs e) x) = SELL
                     ∧ 0 < Order.remaining_quantity (deref (objs e) x)).
  { intros x Hx. destruct (wfb_asks_live _ _ _ Hb _ Hx) as [? Hs].
    by rewrite (wfb_asks_side _ _ _ Hb) in Hs. }
  split; [|split; [|split]].
  - intros Hx. destruct (Hbl _ Hx) as [Hs Hq].
    split; [done|]. split; [done|]. split; [|split].
    + intros Hy. destruct (Hal _ Hy) as [Hs' _]. congruence.
    + intros Hy. by destruct (Hp _ Hy) as (_ & ? & _).
    + intros Hy. by destruct (wfn_auction _ Hwf _ Hy) as (_ & ? & _).
  - intros Hx. destruct (Hal _ Hx) as [Hs Hq].
    split; [done|]. split; [done|]. split.
    + intros Hy. by destruct (Hp _ Hy) as (_ & _ & ? & _).
    + intros Hy. by destruct (wfn_auction _ Hwf _ Hy) as (_ & _ & ? & _).
  - intros Hx. destruct (Hp _ Hx) as (Hk & _ & _ & Hq).
    split; [done|]. split; [done|].
    intros Hy. by destruct (wfn_auction _ Hwf _ Hy) as (_ & _ & _ & ? & _).
  - intros Hx. by destruct (wfn_auction _ Hwf _ Hx) as (_ & _ & _ & _ & ?).
Qed.

Lemma nse_order_in_one_place_witness :
  let e := Example.nse_book in
  let o := deref (objs e) 2%nat in
  (rests (bids e) 2%nat →
   Order.side o = BUY ∧ 0 < Order.remaining_quantity o
   ∧ ¬ rests (asks e) 2%nat ∧ (2%nat ∉ (pending_stop_orders e).*2)
   ∧ 2%nat ∉ auction_orders e)
  ∧ (rests (asks e) 2%nat →
     Order.side o = SELL ∧ 0 < Order.remaining_quantity o
     ∧ (2%nat ∉ (pending_stop_orders e).*2) ∧ 2%nat ∉ auction_orders e)
  ∧ (2%nat ∈ (pending_stop_orders e).*2 →
     (Order.order_id o, 2%nat) ∈ pending_stop_orders e
     ∧ 0 < Order.remaining_quantity o ∧ 2%nat ∉ auction_orders e)
  ∧ (2%nat ∈ auction_orders e → 0 < Order.remaining_quantity o).
Proof.
  apply (nse_order_in_one_place Example.nse_book 2).
  exact example_nse_book_reachable.
Defined.

(** X21: the exchange engine conserves quantity: in every state that
    it reaches, every order of the store has filled the total quantity
    of the trades that the history records for its id, as the buyer or
    as the seller, whether it was matched on arrival, in an auction or
    as an activated stop order; it is not filled beyond its quantity;
    and every trade of the history is between two orders of the
    store. *)
Theorem nse_fills_equal_trades (e : NSEMatchingEngine.t) (y : nat) :
  reachable (NSE e) →
  (y < length (objs e))%nat →
  let o := deref (objs e) y in
  Order.filled_quantity o
  = traded_quantity (Order.order_id o) (trade_history e)
  ∧ 0 ≤ Order.filled_quantity o ≤ Order.quantity o
  ∧ ∀ t, t ∈ trade_history e →
         Trade.buy_order_id t ∈ Order.order_id <$> objs e
         ∧ Trade.sell_order_id t ∈ Order.order_id <$> objs e.
Proof.
  intros Hr Hy o.
  pose proof (reachable_nse_conserved _ Hr) as [Hc Hin].
  cbn beta iota in Hc, Hin. rewrite app_nil_r in Hc, Hin.
  destruct (Hc y Hy) as [Hf Hb]. done.
Qed.

Lemma nse_fills_equal_trades_witness :
  let e := Example.nse_book in
  let o := deref (objs e) 3%nat in
  Order.filled_quantity o
  = traded_quantity (Order.order_id o) (trade_history e)
  ∧ 0 ≤ Order.filled_quantity o ≤ Order.quantity o
  ∧ ∀ t, t ∈ trade_history e →
         Trade.buy_order_id t ∈ Order.order_id <$> objs e
         ∧ Trade.sell_order_id t ∈ Order.order_id <$> objs e.
Proof.
  apply (nse_fills_equal_trades Example.nse_book 3).
  - exact example_nse_book_reachable.
  - vm_compute. lia.
Defined.

(** X24: [execute_call_auction] loses no limit order: when it returns,
    the list of the auction is empty, every order that rested in the
    book still rests there, and every limit order of the list of which
    something is left to fill rests on its side of the book. *)
Theorem nse_auction_orders_enter_book (e e' : NSEMatchingEngine.t)
    (trades : list Trade.t) (a : nat) :
  execute_call_auction e = Some (trades, e') →
  a ∈ auction_orders e →
  auction_orders e' = []
  ∧ (∀ sd y, rests (nse_side e sd) y → rests (nse_side e' sd) y)
  ∧ (Order.order_type (deref (objs e') a) = LIMIT →
     0 < Order.remaining_quantity (deref (objs e') a) →
     rests (nse_side e' (Order.side (deref (objs e') a))) a).
Proof.
  intros Hrun Ha.
  destruct (execute_call_auction_rests e trades e' Hrun) as (H1 & H2 & H3).
  split; [done|]. split; [done|]. by apply H3.
Qed.

Lemma nse_auction_orders_enter_book_witness :
  let e := Example.nse_auction in
  let e' := Example.nse_auction_result.2 in
  auction_orders e' = []
  ∧ (∀ sd y, rests (nse_side e sd) y → rests (nse_side e' sd) y)
  ∧ (Order.order_type (deref (objs e') 0%nat) = LIMIT →
     0 < Order.remaining_quantity (deref (objs e') 0%nat) →
     rests (nse_side e' (Order.side (deref (objs e') 0%nat))) 0%nat).
Proof.
  apply (nse_auction_orders_enter_book Example.nse_auction
           Example.nse_auction_result.2 Example.nse_auction_result.1 0).
  - vm_compute. reflexivity.
  - vm_compute. left.
Defined.

End exchange_engine_properties.

(** ** All engines *)

Section engine_properties.

(** X20: no engine keeps an order that is filled: in every state that
    an engine reaches, base, sharded or exchange, an order that rests
    in the book or is a pending stop order is an object of the store
    and has something left to fill. *)
Theorem held_orders_are_unfilled (e : engine) (a : nat) :
  reachable e → held e a →
  (a < length (store e))%nat
  ∧ 0 < Order.remaining_quantity (deref (store e) a).
Proof.
  intros Hr Ha. by apply wf_engine_held; [apply reachable_wf|].
Qed.

Lemma held_orders_are_unfilled_witness :
  (2 < length (store (NSE Example.nse_book)))%nat
  ∧ 0 < Order.remaining_quantity (deref (store (NSE Example.nse_book)) 2).
Proof.
  apply (held_orders_are_unfilled (NSE Example.nse_book) 2).
  - exact example_nse_book_reachable.
  - left. exists 100. vm_compute. left.
Defined.

End engine_properties.
